(** * Pseudo-Boolean theory plugin ([src/smt/theory_pb.cpp])

    A shallow embedding of the z3 pseudo-Boolean theory plugin: the
    parametric sorting network [psort_nw], the inequality value [ineq]
    with its watch metadata, internalisation, the watch propagator, the
    cutting-planes conflict analyser and the model-value procedure.

    Conventions.
    - [numeral] (z3's [rational]) is [Z]: the plugin works on integer
      coefficients.
    - [unsigned] sizes and indices of vectors are [nat]; [unsigned]
      counters and costs are [Z] reduced modulo [2^32] by [u32] where the
      source can wrap.
    - Reading a vector out of range, or a failing [VERIFY], is [None].
    - The host ([smt::context]) is a record of finite maps, a trail and a
      log of the calls the plugin makes on it. *)

From Stdlib Require Import ZArith List Bool Lia.
From stdpp Require Import base option list gmap.

Set Default Proof Using "Type".
Local Open Scope Z_scope.

(** ** Literals and truth values *)

(** [bool_var] is an [int]. *)
Abbreviation bool_var := Z (only parsing).

Record literal := mk_literal { var : bool_var; sign : bool }.

Inductive lbool := l_false | l_undef | l_true.

Definition literal_of (v : bool_var) : literal := mk_literal v false.
Definition lit_neg (l : literal) : literal := mk_literal (var l) (negb (sign l)).
Definition index (l : literal) : Z := 2 * var l + (if sign l then 1 else 0).

Definition true_bool_var : bool_var := 0.
Definition null_bool_var : bool_var := -1.
Definition true_literal : literal := mk_literal true_bool_var false.
Definition false_literal : literal := mk_literal true_bool_var true.
Definition null_literal : literal := mk_literal null_bool_var false.

#[global] Instance literal_eq_dec : EqDecision literal.
Proof. solve_decision. Defined.
#[global] Instance lbool_eq_dec : EqDecision lbool.
Proof. solve_decision. Defined.

Definition lbool_neg (b : lbool) : lbool :=
  match b with l_false => l_true | l_undef => l_undef | l_true => l_false end.

Definition UINT_MAX : Z := 2 ^ 32 - 1.
Definition u32 (x : Z) : Z := x mod 2 ^ 32.

(** ** The host context

    Modelled from the spec: [smt::context] is not in src.  Section 6 of the
    spec lists what the plugin consumes: an assignment oracle, assignment
    levels, the trail of assigned literals, the justification of a variable,
    fresh Boolean variables, a clause sink and [assign].  The record keeps
    these as finite maps and logs every clause, axiom and assignment the
    plugin hands over, in the order of the calls. *)

Inductive clause_kind := CLS_AUX | CLS_AUX_LEMMA.

Inductive event :=
| ev_mk_clause (lits : list literal) (k : clause_kind)
| ev_mk_th_axiom (lits : list literal)
| ev_assign (l : literal) (c : bool_var) (lits : list literal).

(** [b_justification] of the host, as [resolve_conflict] inspects it.  A
    clause carries its literals and whether it has a justification that is not
    a proof wrapper; a justification of this theory carries the variable of
    the inequality it came from ([pb_justification::get_ineq]). *)
Inductive b_justification :=
| CLAUSE (lits : list literal) (foreign : bool)
| BIN_CLAUSE (l : literal)
| AXIOM
| JUSTIFICATION (from_pb : bool) (c : bool_var).

Inductive pb_op_kind := OP_AT_MOST_K | OP_AT_LEAST_K | OP_PB_LE | OP_PB_GE | OP_OTHER.

(** Host terms are hash-consed: an [expr] is the identifier of its node. *)
Abbreviation expr := Z (only parsing).

(** A pseudo-Boolean application [(kind coeffs k) args]. *)
Record app := mk_app {
  get_decl_kind : pb_op_kind;
  get_args : list expr;
  get_coeffs : list Z;
  app_k : Z }.

#[global] Instance pb_op_kind_eq_dec : EqDecision pb_op_kind.
Proof. solve_decision. Defined.
#[global] Instance app_eq_dec : EqDecision app.
Proof. solve_decision. Defined.

Record context := mk_context {
  m_assignment : gmap bool_var bool;
  m_assign_lvl : gmap bool_var nat;
  m_base_lvl : nat;
  m_scope_lvl : nat;
  m_assigned_literals : list literal;
  m_bdata : gmap bool_var b_justification;
  m_num_bool_vars : bool_var;
  m_or_vars : gmap (Z * Z) bool_var;
  m_and_vars : gmap (Z * Z) bool_var;
  m_atom_vars : list (app * bool_var);
  m_log : list event }.

Definition get_assignment (ctx : context) (l : literal) : lbool :=
  match m_assignment ctx !! var l with
  | None => l_undef
  | Some b => if xorb b (sign l) then l_true else l_false
  end.

Definition get_assign_level (ctx : context) (v : bool_var) : nat :=
  default 0%nat (m_assign_lvl ctx !! v).

Definition get_base_level (ctx : context) : nat := m_base_lvl ctx.

Definition get_justification (ctx : context) (v : bool_var) : b_justification :=
  default AXIOM (m_bdata ctx !! v).

Definition log_event (e : event) (ctx : context) : context :=
  mk_context (m_assignment ctx) (m_assign_lvl ctx) (m_base_lvl ctx) (m_scope_lvl ctx)
    (m_assigned_literals ctx) (m_bdata ctx) (m_num_bool_vars ctx)
    (m_or_vars ctx) (m_and_vars ctx) (m_atom_vars ctx) (m_log ctx ++ [e]).

Definition mk_clause (lits : list literal) (k : clause_kind) : context → context :=
  log_event (ev_mk_clause lits k).

Definition mk_th_axiom (lits : list literal) : context → context :=
  log_event (ev_mk_th_axiom lits).

(** [ctx.mk_bool_var]: the next unused variable. *)
Definition mk_bool_var (ctx : context) : bool_var * context :=
  (m_num_bool_vars ctx,
   mk_context (m_assignment ctx) (m_assign_lvl ctx) (m_base_lvl ctx) (m_scope_lvl ctx)
     (m_assigned_literals ctx) (m_bdata ctx) (m_num_bool_vars ctx + 1)
     (m_or_vars ctx) (m_and_vars ctx) (m_atom_vars ctx) (m_log ctx)).

Definition set_or_var (a b : literal) (v : bool_var) (ctx : context) : context :=
  mk_context (m_assignment ctx) (m_assign_lvl ctx) (m_base_lvl ctx) (m_scope_lvl ctx)
    (m_assigned_literals ctx) (m_bdata ctx) (m_num_bool_vars ctx)
    (<[(index a, index b) := v]> (m_or_vars ctx)) (m_and_vars ctx) (m_atom_vars ctx)
    (m_log ctx).

Definition set_and_var (a b : literal) (v : bool_var) (ctx : context) : context :=
  mk_context (m_assignment ctx) (m_assign_lvl ctx) (m_base_lvl ctx) (m_scope_lvl ctx)
    (m_assigned_literals ctx) (m_bdata ctx) (m_num_bool_vars ctx)
    (m_or_vars ctx) (<[(index a, index b) := v]> (m_and_vars ctx)) (m_atom_vars ctx)
    (m_log ctx).

Definition set_atom_var (a : app) (v : bool_var) (ctx : context) : context :=
  mk_context (m_assignment ctx) (m_assign_lvl ctx) (m_base_lvl ctx) (m_scope_lvl ctx)
    (m_assigned_literals ctx) (m_bdata ctx) (m_num_bool_vars ctx)
    (m_or_vars ctx) (m_and_vars ctx) ((a, v) :: m_atom_vars ctx) (m_log ctx).

Fixpoint get_bool_var (tbl : list (app * bool_var)) (a : app) : option bool_var :=
  match tbl with
  | [] => None
  | (a', v) :: tbl' => if decide (a' = a) then Some v else get_bool_var tbl' a
  end.

Definition b_internalized (ctx : context) (a : app) : bool :=
  bool_decide (is_Some (get_bool_var (m_atom_vars ctx) a)).

(** [ctx.assign(l, js)]: the call is logged; an undefined literal becomes
    true at the current scope level and is pushed on the trail. *)
Definition assign (l : literal) (c : bool_var) (lits : list literal) (ctx : context)
  : context :=
  let ctx := log_event (ev_assign l c lits) ctx in
  match get_assignment ctx l with
  | l_undef =>
      mk_context (<[var l := negb (sign l)]> (m_assignment ctx))
        (<[var l := m_scope_lvl ctx]> (m_assign_lvl ctx)) (m_base_lvl ctx) (m_scope_lvl ctx)
        (m_assigned_literals ctx ++ [l]) (<[var l := JUSTIFICATION true c]> (m_bdata ctx))
        (m_num_bool_vars ctx) (m_or_vars ctx) (m_and_vars ctx) (m_atom_vars ctx) (m_log ctx)
  | _ => ctx
  end.

(** ** A state and failure monad for the stateful code *)

Definition M (St A : Type) : Type := St → option (A * St).

Definition ret {St A} (a : A) : M St A := fun s => Some (a, s).
Definition bind {St A B} (m : M St A) (f : A → M St B) : M St B :=
  fun s => match m s with Some (a, s') => f a s' | None => None end.
Definition fail {St A} : M St A := fun _ => None.
Definition get_state {St} : M St St := fun s => Some (s, s).
Definition modify {St} (f : St → St) : M St unit := fun s => Some (tt, f s).
Definition lift_opt {St A} (o : option A) : M St A :=
  fun s => match o with Some a => Some (a, s) | None => None end.

Notation "'let*' x := c1 'in' c2" := (bind c1 (fun x => c2))
  (at level 10, x pattern, c1 at level 100, c2 at level 200).
Notation "c1 ;;; c2" := (bind c1 (fun _ => c2))
  (at level 100, right associativity).

(** [for (i = lo; i < lo + n; ++i) body(i)] *)
Fixpoint for_range {St} (lo n : nat) (body : nat → M St unit) : M St unit :=
  match n with
  | O => ret tt
  | S n' => body lo ;;; for_range (S lo) n' body
  end.

(** The first [n] cells of the array at [xs]. *)
Definition array {A} (n : nat) (xs : list A) : option (list A) :=
  if (n <=? length xs)%nat then Some (take n xs) else None.


(** ** The parametric sorting network [psort_nw] *)

Module psort_nw.

(** Cost of a construction: vertices and clauses. *)
Record vc := mk_vc { vc_v : Z; vc_c : Z }.

Definition lambda : Z := 5.
Definition to_int (x : vc) : Z := u32 (lambda * vc_v x + vc_c x).
Definition vc_lt (x y : vc) : bool := to_int x <? to_int y.
Definition vc_add (x y : vc) : vc :=
  mk_vc (u32 (vc_v x + vc_v y)) (u32 (vc_c x + vc_c y)).
Definition vc_mul (x : vc) (n : nat) : vc :=
  mk_vc (u32 (Z.of_nat n * vc_v x)) (u32 (Z.of_nat n * vc_c x)).
Definition vc_add_opt (x y : option vc) : option vc :=
  match x, y with Some x, Some y => Some (vc_add x y) | _, _ => None end.

Inductive cmp_t := LE | GE | EQ | GE_FULL | LE_FULL.

#[global] Instance cmp_t_eq_dec : EqDecision cmp_t.
Proof. solve_decision. Defined.

Definition m_disable_dcard : bool := false.
Definition m_disable_dsorting : bool := false.
Definition m_disable_dsmerge : bool := false.
Definition m_force_dcard : bool := false.
Definition m_force_dsorting : bool := false.
Definition m_force_dsmerge : bool := false.

Record stats := mk_stats {
  m_num_compiled_vars : Z;
  m_num_compiled_clauses : Z }.

Record t := mk {
  ctx : context;
  m_t : cmp_t;
  m_stats : stats }.

Definition set_ctx (c : context) (s : t) : t := mk c (m_t s) (m_stats s).
Definition set_m_t (m : cmp_t) (s : t) : t := mk (ctx s) m (m_stats s).
Definition inc_compiled_vars (s : t) : t :=
  mk (ctx s) (m_t s)
    (mk_stats (u32 (m_num_compiled_vars (m_stats s) + 1))
       (m_num_compiled_clauses (m_stats s))).
Definition inc_compiled_clauses (s : t) : t :=
  mk (ctx s) (m_t s)
    (mk_stats (m_num_compiled_vars (m_stats s))
       (u32 (m_num_compiled_clauses (m_stats s) + 1))).

Definition even (n : nat) : bool := Nat.even n.
Definition odd (n : nat) : bool := negb (even n).
Definition ceil2 (n : nat) : nat := (n / 2 + (if odd n then 1 else 0))%nat.
Definition floor2 (n : nat) : nat := (n / 2)%nat.
(** [power2] is only called below 10 ([SASSERT(n < 10)]). *)
Definition power2 (n : nat) : Z := Z.shiftl 1 (Z.of_nat n).

(** [max(a, b)]: the variable of the host term [a or b], created on demand. *)
Definition max (a b : literal) : M t literal :=
  if decide (a = b) then ret a
  else
    modify inc_compiled_vars ;;;
    let* s := get_state in
    match m_or_vars (ctx s) !! (index a, index b) with
    | Some v => ret (literal_of v)
    | None =>
        let (v, c) := mk_bool_var (ctx s) in
        modify (set_ctx (set_or_var a b v c)) ;;; ret (literal_of v)
    end.

Definition min (a b : literal) : M t literal :=
  if decide (a = b) then ret a
  else
    modify inc_compiled_vars ;;;
    let* s := get_state in
    match m_and_vars (ctx s) !! (index a, index b) with
    | Some v => ret (literal_of v)
    | None =>
        let (v, c) := mk_bool_var (ctx s) in
        modify (set_ctx (set_and_var a b v c)) ;;; ret (literal_of v)
    end.

Definition fresh : M t literal :=
  modify inc_compiled_vars ;;;
  let* s := get_state in
  let (v, c) := mk_bool_var (ctx s) in
  modify (set_ctx c) ;;; ret (literal_of v).

Definition add_clause (ls : list literal) : M t unit :=
  modify inc_compiled_clauses ;;;
  modify (fun s => set_ctx (mk_clause ls CLS_AUX (ctx s)) s).

Definition add_clause2 (l1 l2 : literal) : M t unit := add_clause [l1; l2].
Definition add_clause3 (l1 l2 l3 : literal) : M t unit := add_clause [l1; l2; l3].

(** y1 <= max(x1,x2), y2 <= min(x1,x2) *)
Definition cmp_ge (x1 x2 y1 y2 : literal) : M t unit :=
  add_clause2 (lit_neg y2) x1 ;;;
  add_clause2 (lit_neg y2) x2 ;;;
  add_clause3 (lit_neg y1) x1 x2.

(** max(x1,x2) <= y1, min(x1,x2) <= y2 *)
Definition cmp_le (x1 x2 y1 y2 : literal) : M t unit :=
  add_clause2 (lit_neg x1) y1 ;;;
  add_clause2 (lit_neg x2) y1 ;;;
  add_clause3 (lit_neg x1) (lit_neg x2) y2.

Definition cmp_eq (x1 x2 y1 y2 : literal) : M t unit :=
  cmp_ge x1 x2 y1 y2 ;;; cmp_le x1 x2 y1 y2.

(** The [switch] has no case for [GE_FULL] and [LE_FULL]. *)
Definition cmp (x1 x2 y1 y2 : literal) : M t unit :=
  let* s := get_state in
  match m_t s with
  | LE => cmp_le x1 x2 y1 y2
  | GE => cmp_ge x1 x2 y1 y2
  | EQ => cmp_eq x1 x2 y1 y2
  | _ => ret tt
  end.

(** *** The cost model *)

Section costs.
Variable mt : cmp_t.

Definition vc_cmp : vc := mk_vc 2 (if decide (mt = EQ) then 6 else 3).

(** [std::min(a-1, b)] on [unsigned]: [a - 1] wraps at [a = 0]. *)
Definition vc_interleave (a b : nat) : vc :=
  vc_mul vc_cmp (if (a =? 0)%nat then b else Nat.min (a - 1) b).

Definition vc_dsmerge (a b c : nat) : vc :=
  let half := u32 (Z.of_nat (Nat.min a c) * Z.of_nat (Nat.min b c)) / 2 in
  let v := mk_vc (Z.of_nat c) 0 in
  let v :=
    if decide (mt ≠ GE)
    then vc_add v (mk_vc 0 (u32 (u32 (Z.of_nat a + Z.of_nat b) + half))) else v in
  if decide (mt ≠ LE) then vc_add v (mk_vc 0 half) else v.

(** [SASSERT(m <= n && n < 10)]; [power2(n-1)] needs [0 < n]. *)
Definition vc_dsorting (m n : nat) : option vc :=
  if (0 <? n)%nat && (n <? 10)%nat then
    let v := mk_vc (Z.of_nat m) 0 in
    let v := if decide (mt ≠ GE) then vc_add v (mk_vc 0 (power2 (n - 1))) else v in
    Some (if decide (mt ≠ LE) then vc_add v (mk_vc 0 (power2 (n - 1))) else v)
  else None.

Definition smerge_c1 (c : nat) : nat := if even c then (1 + c / 2)%nat else ((c + 1) / 2)%nat.
Definition smerge_c2 (c : nat) : nat := if even c then (c / 2)%nat else ((c - 1) / 2)%nat.

Fixpoint vc_merge (fuel : nat) (a b : nat) : option vc :=
  match fuel with
  | O => None
  | S fuel =>
      if (a =? 1)%nat && (b =? 1)%nat then Some vc_cmp
      else if (a =? 0)%nat || (b =? 0)%nat then Some (mk_vc 0 0)
      else
        match use_dsmerge fuel a b (a + b) with
        | None => None
        | Some true => Some (vc_dsmerge a b (a + b))
        | Some false => vc_merge_rec fuel a b
        end
  end
with vc_merge_rec (fuel : nat) (a b : nat) : option vc :=
  match fuel with
  | O => None
  | S fuel =>
      vc_add_opt
        (vc_add_opt (vc_merge fuel (ceil2 a) (ceil2 b))
           (vc_merge fuel (floor2 a) (floor2 b)))
        (Some (vc_interleave (ceil2 a + ceil2 b) (floor2 a + floor2 b)))
  end
with vc_smerge (fuel : nat) (a b c : nat) : option vc :=
  match fuel with
  | O => None
  | S fuel =>
      if (a =? 1)%nat && (b =? 1)%nat && (c =? 1)%nat then
        let v := mk_vc 1 0 in
        let v := if decide (mt ≠ GE) then vc_add v (mk_vc 0 2) else v in
        Some (if decide (mt ≠ LE) then vc_add v (mk_vc 0 1) else v)
      else if (a =? 0)%nat || (b =? 0)%nat then Some (mk_vc 0 0)
      else if (c <? a)%nat then vc_smerge fuel c b c
      else if (c <? b)%nat then vc_smerge fuel a c c
      else if (a + b <=? c)%nat then vc_merge fuel a b
      else
        match use_dsmerge fuel a b c with
        | None => None
        | Some true => Some (vc_dsmerge a b c)
        | Some false => vc_smerge_rec fuel a b c
        end
  end
with vc_smerge_rec (fuel : nat) (a b c : nat) : option vc :=
  match fuel with
  | O => None
  | S fuel =>
      vc_add_opt
        (vc_add_opt
           (vc_add_opt (vc_smerge fuel (ceil2 a) (ceil2 b) (smerge_c1 c))
              (vc_smerge fuel (floor2 a) (floor2 b) (smerge_c2 c)))
           (Some (vc_interleave (ceil2 a + ceil2 b) (floor2 a + floor2 b))))
        (Some (vc_add (vc_add (mk_vc 1 0)
                         (if decide (mt ≠ GE) then mk_vc 0 2 else mk_vc 0 0))
                 (if decide (mt ≠ LE) then mk_vc 0 1 else mk_vc 0 0)))
  end
with use_dsmerge (fuel : nat) (a b c : nat) : option bool :=
  match fuel with
  | O => None
  | S fuel =>
      if m_force_dsmerge then Some true
      else if negb m_disable_dsmerge && (a <? 2 ^ 15)%nat && (b <? 2 ^ 15)%nat then
        match vc_smerge_rec fuel a b c with
        | None => None
        | Some r => Some (vc_lt (vc_dsmerge a b (a + b)) r)
        end
      else Some false
  end.

Fixpoint vc_sorting (fuel : nat) (n : nat) : option vc :=
  match fuel with
  | O => None
  | S fuel =>
      match n with
      | 0%nat => Some (mk_vc 0 0)
      | 1%nat => Some (mk_vc 0 0)
      | 2%nat => vc_merge fuel 1 1
      | _ =>
          match use_dsorting fuel n with
          | None => None
          | Some true => vc_dsorting n n
          | Some false => vc_sorting_rec fuel n
          end
      end
  end
with vc_sorting_rec (fuel : nat) (n : nat) : option vc :=
  match fuel with
  | O => None
  | S fuel =>
      let l := (n / 2)%nat in
      vc_add_opt (vc_add_opt (vc_sorting fuel l) (vc_sorting fuel (n - l)))
        (vc_merge fuel l (n - l))
  end
with use_dsorting (fuel : nat) (n : nat) : option bool :=
  match fuel with
  | O => None
  | S fuel =>
      if m_force_dsorting then Some true
      else if negb m_disable_dsorting && (n <? 10)%nat then
        match vc_dsorting n n, vc_sorting_rec fuel n with
        | Some d, Some r => Some (vc_lt d r)
        | _, _ => None
        end
      else Some false
  end.

Fixpoint vc_card (fuel : nat) (k n : nat) : option vc :=
  match fuel with
  | O => None
  | S fuel =>
      if (n <=? k)%nat then vc_sorting fuel n
      else
        match use_dcard fuel k n with
        | None => None
        | Some true => vc_dsorting k n
        | Some false => vc_card_rec fuel k n
        end
  end
with vc_card_rec (fuel : nat) (k n : nat) : option vc :=
  match fuel with
  | O => None
  | S fuel =>
      let l := (n / 2)%nat in
      vc_add_opt (vc_add_opt (vc_card fuel k l) (vc_card fuel k (n - l)))
        (vc_smerge fuel k l (n - l))
  end
with use_dcard (fuel : nat) (k n : nat) : option bool :=
  match fuel with
  | O => None
  | S fuel =>
      if m_force_dcard then Some true
      else if negb m_disable_dcard && (n <? 10)%nat then
        match vc_dsorting k n, vc_card_rec fuel k n with
        | Some d, Some r => Some (vc_lt d r)
        | _, _ => None
        end
      else Some false
  end.

End costs.

(** *** The constructions

    Every construction receives an empty output vector at all its call sites
    and fills it; the model returns the vector. *)

Definition mt_is_not (m : cmp_t) : M t bool :=
  let* s := get_state in ret (bool_decide (m_t s ≠ m)).

(** [split]: the cells at even and at odd positions of [ls[0..n)]. *)
Fixpoint split_list (ls : list literal) : list literal * list literal :=
  match ls with
  | [] => ([], [])
  | x :: ls' => let (e, o) := split_list ls' in (x :: o, e)
  end.

Definition split (n : nat) (ls : list literal) : option (list literal * list literal) :=
  match array n ls with
  | Some ls' => Some (split_list ls')
  | None => None
  end.

Fixpoint interleave_loop (n i : nat) (as_ bs out : list literal) : M t (list literal) :=
  match n with
  | O => ret out
  | S n' =>
      let* a := lift_opt (as_ !! (i + 1)%nat) in
      let* b := lift_opt (bs !! i) in
      let* y1 := max a b in
      let* y2 := min a b in
      cmp a b y1 y2 ;;;
      interleave_loop n' (S i) as_ bs (out ++ [y1; y2])
  end.

Definition interleave (as_ bs : list literal) : M t (list literal) :=
  let* a0 := lift_opt (as_ !! 0%nat) in
  let sz := Nat.min (length as_ - 1) (length bs) in
  let* out := interleave_loop sz 0 as_ bs [a0] in
  if (length as_ =? length bs)%nat then
    let* x := lift_opt (bs !! sz) in ret (out ++ [x])
  else if (length as_ =? length bs + 2)%nat then
    let* x := lift_opt (as_ !! (sz + 1)%nat) in ret (out ++ [x])
  else ret out.

Fixpoint fresh_n (m : nat) : M t (list literal) :=
  match m with
  | O => ret []
  | S m' => let* y := fresh in let* ys := fresh_n m' in ret (y :: ys)
  end.

Definition dsmerge (c a : nat) (as_ : list literal) (b : nat) (bs : list literal)
  : M t (list literal) :=
  let* out := fresh_n c in
  let* not_ge := mt_is_not GE in
  (if not_ge then
     for_range 0 a (fun i =>
       let* x := lift_opt (as_ !! i) in
       let* y := lift_opt (out !! i) in
       add_clause2 (lit_neg x) y) ;;;
     for_range 0 b (fun i =>
       let* x := lift_opt (bs !! i) in
       let* y := lift_opt (out !! i) in
       add_clause2 (lit_neg x) y) ;;;
     for_range 1 a (fun i =>
       for_range 1 (Nat.min b (c - i)) (fun j =>
         let* x := lift_opt (as_ !! (i - 1)%nat) in
         let* y := lift_opt (bs !! (j - 1)%nat) in
         let* z := lift_opt (out !! (i + j - 1)%nat) in
         add_clause3 (lit_neg x) (lit_neg y) z))
   else ret tt) ;;;
  let* not_le := mt_is_not LE in
  (if not_le then
     for_range 1 c (fun k =>
       let* y := lift_opt (out !! (k - 1)%nat) in
       let ls := [lit_neg y] in
       let* ls :=
         (if (k <=? a)%nat
          then let* x := lift_opt (as_ !! (k - 1)%nat) in ret (ls ++ [x])
          else ret ls) in
       let* ls :=
         (if (k <=? b)%nat
          then let* x := lift_opt (bs !! (k - 1)%nat) in ret (ls ++ [x])
          else ret ls) in
       for_range 1 (Nat.min a (k - 1)) (fun i =>
         if (k + 1 - i <=? b)%nat then
           let* x := lift_opt (as_ !! (i - 1)%nat) in
           let* y := lift_opt (bs !! (k - i)%nat) in
           add_clause (ls ++ [x; y])
         else ret tt))
   else ret tt) ;;;
  ret out.

(** [add_subset]: one clause per choice of [k] inputs among [xs[offset..n)].
    The loop bound [n - k + 1] is [unsigned]: it is [n + 1 - k] up to
    [k = n + 1], where it is 0; it wraps when [n + 1 < k], and the loop then
    runs off the array. *)
Fixpoint add_subset (polarity : bool) (k offset : nat) (lits : list literal)
    (n : nat) (xs : list literal) : M t unit :=
  match k with
  | O => add_clause lits
  | S k' =>
      if (n + 1 <? k)%nat then fail
      else
        for_range offset (n + 1 - k - offset) (fun i =>
          let* x := lift_opt (xs !! i) in
          add_subset polarity k' (i + 1)
            (lits ++ [if polarity then lit_neg x else x]) n xs)
  end.

(** [dsorting]; the size [n - k + 1] of the subsets of the second side is
    [unsigned] as well. *)
Definition dsorting (m n : nat) (xs : list literal) : M t (list literal) :=
  let* out := fresh_n m in
  let* not_ge := mt_is_not GE in
  (if not_ge then
     for_range 1 m (fun k =>
       let* y := lift_opt (out !! (k - 1)%nat) in
       add_subset true k 0 [y] n xs)
   else ret tt) ;;;
  let* not_le := mt_is_not LE in
  (if not_le then
     for_range 1 m (fun k =>
       let* y := lift_opt (out !! (k - 1)%nat) in
       if (n + 1 <? k)%nat then fail
       else add_subset false (n + 1 - k) 0 [lit_neg y] n xs)
   else ret tt) ;;;
  ret out.

Definition use_dsmerge_now (fuel a b c : nat) : M t bool :=
  let* s := get_state in lift_opt (use_dsmerge (m_t s) fuel a b c).

Fixpoint merge (fuel : nat) (a : nat) (as_ : list literal) (b : nat) (bs : list literal)
  : M t (list literal) :=
  match fuel with
  | O => fail
  | S fuel =>
      if (a =? 1)%nat && (b =? 1)%nat then
        let* a0 := lift_opt (as_ !! 0%nat) in
        let* b0 := lift_opt (bs !! 0%nat) in
        let* y1 := max a0 b0 in
        let* y2 := min a0 b0 in
        cmp a0 b0 y1 y2 ;;;
        ret [y1; y2]
      else if (a =? 0)%nat then lift_opt (array b bs)
      else if (b =? 0)%nat then lift_opt (array a as_)
      else
        let* d := use_dsmerge_now fuel a b (a + b) in
        if d then dsmerge (a + b) a as_ b bs
        else if even a && odd b then merge fuel b bs a as_
        else
          let* (even_a, odd_a) := lift_opt (split a as_) in
          let* (even_b, odd_b) := lift_opt (split b bs) in
          let* out1 := merge fuel (length even_a) even_a (length even_b) even_b in
          let* out2 := merge fuel (length odd_a) odd_a (length odd_b) odd_b in
          interleave out1 out2
  end.

(** [v.back()] followed by [v.pop_back()]. *)
Definition back_pop (v : list literal) : option (literal * list literal) :=
  match last v with
  | Some z => Some (z, removelast v)
  | None => None
  end.

Fixpoint smerge (fuel : nat) (c a : nat) (as_ : list literal) (b : nat)
    (bs : list literal) : M t (list literal) :=
  match fuel with
  | O => fail
  | S fuel =>
      if (a =? 1)%nat && (b =? 1)%nat && (c =? 1)%nat then
        let* a0 := lift_opt (as_ !! 0%nat) in
        let* b0 := lift_opt (bs !! 0%nat) in
        let* y := max a0 b0 in
        let* not_ge := mt_is_not GE in
        (if not_ge
         then add_clause2 (lit_neg a0) y ;;; add_clause2 (lit_neg b0) y
         else ret tt) ;;;
        let* not_le := mt_is_not LE in
        (if not_le then add_clause3 (lit_neg y) a0 b0 else ret tt) ;;;
        ret [y]
      else if (a =? 0)%nat then lift_opt (array (Nat.min c b) bs)
      else if (b =? 0)%nat then lift_opt (array (Nat.min c a) as_)
      else if (c <? a)%nat then smerge fuel c c as_ b bs
      else if (c <? b)%nat then smerge fuel c a as_ c bs
      else if (a + b <=? c)%nat then merge fuel a as_ b bs
      else
        let* d := use_dsmerge_now fuel a b c in
        if d then dsmerge c a as_ b bs
        else
          let* (even_a, odd_a) := lift_opt (split a as_) in
          let* (even_b, odd_b) := lift_opt (split b bs) in
          let c1 := smerge_c1 c in
          let c2 := smerge_c2 c in
          let* out1 := smerge fuel c1 (length even_a) even_a (length even_b) even_b in
          let* out2 := smerge fuel c2 (length odd_a) odd_a (length odd_b) odd_b in
          if even c then
            let* (z1, out1) := lift_opt (back_pop out1) in
            let* (z2, out2) := lift_opt (back_pop out2) in
            let* y := max z1 z2 in
            let* not_ge := mt_is_not GE in
            (if not_ge
             then add_clause2 (lit_neg z1) y ;;; add_clause2 (lit_neg z2) y
             else ret tt) ;;;
            let* not_le := mt_is_not LE in
            (if not_le then add_clause3 (lit_neg y) z1 z2 else ret tt) ;;;
            let* out := interleave out1 out2 in
            ret (out ++ [y])
          else interleave out1 out2
  end.

Fixpoint sorting (fuel : nat) (n : nat) (xs : list literal) : M t (list literal) :=
  match fuel with
  | O => fail
  | S fuel =>
      match n with
      | 0%nat => ret []
      | 1%nat => let* x := lift_opt (xs !! 0%nat) in ret [x]
      | 2%nat => merge fuel 1 xs 1 (drop 1 xs)
      | _ =>
          let* s := get_state in
          let* d := lift_opt (use_dsorting (m_t s) fuel n) in
          if d then dsorting n n xs
          else
            let l := (n / 2)%nat in
            let* out1 := sorting fuel l xs in
            let* out2 := sorting fuel (n - l) (drop l xs) in
            merge fuel (length out1) out1 (length out2) out2
      end
  end.

Fixpoint card (fuel : nat) (k n : nat) (xs : list literal) : M t (list literal) :=
  match fuel with
  | O => fail
  | S fuel =>
      if (n <=? k)%nat then sorting fuel n xs
      else
        let* s := get_state in
        let* d := lift_opt (use_dcard (m_t s) fuel k n) in
        if d then dsorting k n xs
        else
          let l := (n / 2)%nat in
          let* out1 := card fuel k l xs in
          let* out2 := card fuel k (n - l) (drop l xs) in
          smerge fuel k (length out1) out1 (length out2) out2
  end.

(** *** The entry points *)

(** [dualize]: [Some None] is [false]; [Some (Some (k', in))] is [true] with
    the updated [k] and the complemented inputs; [2*k] is an [unsigned]
    product. *)
Definition dualize (k N : nat) (xs : list literal)
  : option (option (nat * list literal)) :=
  if u32 (2 * Z.of_nat k) <=? Z.of_nat N then Some None
  else
    match array N xs with
    | Some xs' => Some (Some ((N - k)%nat, map lit_neg xs'))
    | None => None
    end.

(** [ge] and [le] call each other after dualising; [d] bounds the depth of
    these calls. *)
Fixpoint ge_rec (d fuel : nat) (full : bool) (k n : nat) (xs : list literal)
  : M t literal :=
  match d with
  | O => fail
  | S d =>
      if (n <? k)%nat then ret false_literal
      else if (k =? 0)%nat then ret true_literal
      else
        match dualize k n xs with
        | None => fail
        | Some (Some (k', in_)) => le_rec d fuel full k' (length in_) in_
        | Some None =>
            modify (set_m_t (if full then GE_FULL else GE)) ;;;
            let* out := card fuel k n xs in
            lift_opt (out !! (k - 1)%nat)
        end
  end
with le_rec (d fuel : nat) (full : bool) (k n : nat) (xs : list literal)
  : M t literal :=
  match d with
  | O => fail
  | S d =>
      if (n <=? k)%nat then ret true_literal
      else
        match dualize k n xs with
        | None => fail
        | Some (Some (k', in_)) => ge_rec d fuel full k' n in_
        | Some None =>
            modify (set_m_t (if full then LE_FULL else LE)) ;;;
            let* out := card fuel (k + 1) n xs in
            let* y := lift_opt (out !! k) in
            ret (lit_neg y)
        end
  end.

(** One dualisation is never followed by a second one (see
    [ge_rec_depth] and [le_rec_depth]), so depth 2 is the whole function. *)
Definition ge (fuel : nat) (full : bool) (k n : nat) (xs : list literal) : M t literal :=
  ge_rec 2 fuel full k n xs.

Definition le (fuel : nat) (full : bool) (k n : nat) (xs : list literal) : M t literal :=
  le_rec 2 fuel full k n xs.

(** [eq] calls itself after dualising; [d] bounds the depth of these calls
    (see [eq_rec_depth]).  The index [k-1] of [out[k-1]] is [unsigned]: it
    wraps at [k = 0]. *)
Fixpoint eq_rec (d fuel : nat) (k n : nat) (xs : list literal) : M t literal :=
  match d with
  | O => fail
  | S d =>
      if (n <? k)%nat then ret false_literal
      else
        match dualize k n xs with
        | None => fail
        | Some (Some (k', in_)) => eq_rec d fuel k' n in_
        | Some None =>
            modify (set_m_t EQ) ;;;
            let* out := card fuel (k + 1) n xs in
            lift_opt (out !! Z.to_nat (u32 (Z.of_nat k - 1)))
        end
  end.

Definition eq (fuel : nat) (k n : nat) (xs : list literal) : M t literal :=
  eq_rec 2 fuel k n xs.

End psort_nw.

(** ** Inequalities [theory_pb::ineq] *)

Abbreviation numeral := Z (only parsing).
Abbreviation arg_t := (list (literal * Z)) (only parsing).

Record ineq := mk_ineq {
  m_lit : literal;
  m_args : arg_t;
  m_k : numeral;
  m_max_watch : numeral;
  m_watch_sz : nat;
  m_watch_sum : numeral;
  m_num_propagations : Z;
  m_compilation_threshold : Z;
  m_compiled : lbool }.

Definition ineq_set_lit (x : literal) (c : ineq) : ineq :=
  mk_ineq x (m_args c) (m_k c) (m_max_watch c) (m_watch_sz c) (m_watch_sum c) (m_num_propagations c) (m_compilation_threshold c) (m_compiled c).
Definition ineq_set_args (x : arg_t) (c : ineq) : ineq :=
  mk_ineq (m_lit c) x (m_k c) (m_max_watch c) (m_watch_sz c) (m_watch_sum c) (m_num_propagations c) (m_compilation_threshold c) (m_compiled c).
Definition ineq_set_k (x : numeral) (c : ineq) : ineq :=
  mk_ineq (m_lit c) (m_args c) x (m_max_watch c) (m_watch_sz c) (m_watch_sum c) (m_num_propagations c) (m_compilation_threshold c) (m_compiled c).
Definition ineq_set_max_watch (x : numeral) (c : ineq) : ineq :=
  mk_ineq (m_lit c) (m_args c) (m_k c) x (m_watch_sz c) (m_watch_sum c) (m_num_propagations c) (m_compilation_threshold c) (m_compiled c).
Definition ineq_set_watch_sz (x : nat) (c : ineq) : ineq :=
  mk_ineq (m_lit c) (m_args c) (m_k c) (m_max_watch c) x (m_watch_sum c) (m_num_propagations c) (m_compilation_threshold c) (m_compiled c).
Definition ineq_set_watch_sum (x : numeral) (c : ineq) : ineq :=
  mk_ineq (m_lit c) (m_args c) (m_k c) (m_max_watch c) (m_watch_sz c) x (m_num_propagations c) (m_compilation_threshold c) (m_compiled c).
Definition ineq_set_num_propagations (x : Z) (c : ineq) : ineq :=
  mk_ineq (m_lit c) (m_args c) (m_k c) (m_max_watch c) (m_watch_sz c) (m_watch_sum c) x (m_compilation_threshold c) (m_compiled c).
Definition ineq_set_compilation_threshold (x : Z) (c : ineq) : ineq :=
  mk_ineq (m_lit c) (m_args c) (m_k c) (m_max_watch c) (m_watch_sz c) (m_watch_sum c) (m_num_propagations c) x (m_compiled c).
Definition ineq_set_compiled (x : lbool) (c : ineq) : ineq :=
  mk_ineq (m_lit c) (m_args c) (m_k c) (m_max_watch c) (m_watch_sz c) (m_watch_sum c) (m_num_propagations c) (m_compilation_threshold c) x.

(** The indexed accessors [c.lit(i)] and [c.coeff(i)] of [ineq] (declared in
    [theory_pb.h]); [c.lit()], [c.k()], [c.size()], [c.watch_size()],
    [c.watch_sum()] and [c.max_watch()] are the fields [m_lit], [m_k],
    [length (m_args c)], [m_watch_sz], [m_watch_sum] and [m_max_watch]. *)
Definition lit_at (c : ineq) (i : nat) : literal := fst (nth i (m_args c) (null_literal, 0)).
Definition coeff (c : ineq) (i : nat) : numeral := snd (nth i (m_args c) (null_literal, 0)).

(** Modelled from the spec: [ineq::find_lit] is declared in [theory_pb.h],
    which is not in src.  "Let [w] be the index of the falsified literal inside
    the watched prefix": the first index in [begin, end) whose literal has
    variable [v]. *)
Fixpoint find_lit_from (v : bool_var) (args : arg_t) (i n : nat) : option nat :=
  match n with
  | O => None
  | S n' =>
      match args !! i with
      | Some (l, _) =>
          if decide (var l = v) then Some i else find_lit_from v args (S i) n'
      | None => None
      end
  end.

Definition find_lit (c : ineq) (v : bool_var) (begin_ end_ : nat) : option nat :=
  find_lit_from v (m_args c) begin_ (end_ - begin_).

(** [ineq::reset] *)
Definition ineq_reset (c : ineq) : ineq :=
  mk_ineq (m_lit c) [] 0 0 0 0 0 UINT_MAX l_false.

(** [ineq(literal l)] *)
Definition new_ineq (l : literal) : ineq :=
  ineq_reset (mk_ineq l [] 0 0 0 0 0 UINT_MAX l_false).

(** [std::swap(v[i], v[j])] *)
Definition swap {A} (l : list A) (i j : nat) : list A :=
  match l !! i, l !! j with
  | Some a, Some b => <[i := b]> (<[j := a]> l)
  | _, _ => l
  end.

Definition sum_coeffs (args : arg_t) : numeral :=
  foldr (fun a acc => snd a + acc) 0 args.

Definition max_coeffs (args : arg_t) : numeral :=
  foldr (fun a acc => Z.max (snd a) acc) 0 args.

(** ** Rewriting of inequalities

    Modelled from the spec: [pb_rewriter_def.h] is not in src.  The three
    functions follow section 4.1 of the spec; the plugin itself is
    parametric in them (see the section below). *)

Definition merge_arg (a b : literal * numeral) (k : numeral)
  : list (literal * numeral) * numeral :=
  if decide (sign (fst a) = sign (fst b)) then ([(fst a, snd a + snd b)], k)
  else if snd a <? snd b then ([(fst b, snd b - snd a)], k - snd a)
  else ([(fst a, snd a - snd b)], k - snd b).

(** Insertion into a list sorted by variable, merging equal variables. *)
Fixpoint insert_arg (a : literal * numeral) (args : arg_t) (k : numeral)
  : arg_t * numeral :=
  match args with
  | [] => ([a], k)
  | b :: rest =>
      if var (fst a) <? var (fst b) then (a :: args, k)
      else if var (fst a) =? var (fst b) then
        let (m, k') := merge_arg b a k in (m ++ rest, k')
      else let (rest', k') := insert_arg a rest k in (b :: rest', k')
  end.

(** "[unique(C)]: sorts args by variable, merges entries with the same
    variable (opposite-sign entries contribute min(c1,c2) to false and
    |c1-c2| to the remaining literal, while shifting k by -min(c1,c2))". *)
Definition spec_unique (args : arg_t) (k : numeral) : arg_t * numeral :=
  foldl (fun acc a => insert_arg a (fst acc) (snd acc)) ([], k) args.

(** "[prune(C)]: drops any literal whose coefficient is 0; saturates any
    c_i > k to k". *)
Definition spec_prune (args : arg_t) (k : numeral) : arg_t * numeral :=
  (map (fun a => (fst a, Z.min (snd a) k))
     (filter (fun a => snd a ≠ 0) args), k).

(** "[normalise(C)]: simplifies using ground literals (true increases the
    running sum and is removed; false is dropped), subtracts them from k,
    divides all coefficients and k by their gcd, and returns sat if k <= 0,
    unsat if the sum of the coefficients is below k, undecided otherwise". *)
Definition spec_normalize (args : arg_t) (k : numeral) : lbool * (arg_t * numeral) :=
  let trues := filter (fun a => fst a = true_literal) args in
  let rest :=
    filter (fun a => fst a ≠ true_literal ∧ fst a ≠ false_literal) args in
  let k := k - sum_coeffs trues in
  if k <=? 0 then (l_true, (rest, k))
  else if sum_coeffs rest <? k then (l_false, (rest, k))
  else
    let g := foldr (fun a acc => Z.gcd (snd a) acc) k rest in
    (l_undef, (map (fun a => (fst a, snd a / g)) rest, k / g)).

(** ** The plugin state [theory_pb] *)

Module th_stats.
Record t := mk {
  m_num_conflicts : Z;
  m_num_propagations : Z;
  m_num_predicates : Z;
  m_num_compiles : Z;
  m_num_compiled_vars : Z;
  m_num_compiled_clauses : Z }.
Definition inc_conflicts (s : t) : t :=
  mk (u32 (m_num_conflicts s + 1)) (m_num_propagations s) (m_num_predicates s)
    (m_num_compiles s) (m_num_compiled_vars s) (m_num_compiled_clauses s).
Definition inc_propagations (s : t) : t :=
  mk (m_num_conflicts s) (u32 (m_num_propagations s + 1)) (m_num_predicates s)
    (m_num_compiles s) (m_num_compiled_vars s) (m_num_compiled_clauses s).
Definition inc_predicates (s : t) : t :=
  mk (m_num_conflicts s) (m_num_propagations s) (u32 (m_num_predicates s + 1))
    (m_num_compiles s) (m_num_compiled_vars s) (m_num_compiled_clauses s).
Definition inc_compiles (s : t) : t :=
  mk (m_num_conflicts s) (m_num_propagations s) (m_num_predicates s)
    (u32 (m_num_compiles s + 1)) (m_num_compiled_vars s) (m_num_compiled_clauses s).
Definition add_compiled (vars clauses : Z) (s : t) : t :=
  mk (m_num_conflicts s) (m_num_propagations s) (m_num_predicates s)
    (m_num_compiles s) (u32 (m_num_compiled_vars s + vars))
    (u32 (m_num_compiled_clauses s + clauses)).
End th_stats.

(** Inequalities live in the table [m_ineqs], keyed by the variable of their
    reifying literal; watch lists, trails and justifications refer to an
    inequality by that key.  [m_conseq_index] maps a marked variable to its
    position in the lemma ([null_index] is the absence of an entry). *)
Record theory_pb := mk_theory_pb {
  th_ctx : context;
  m_ineqs : gmap bool_var ineq;
  m_ineqs_trail : list bool_var;
  m_watch : gmap Z (list bool_var);
  m_assign_ineqs_trail : list bool_var;
  m_to_compile : list bool_var;
  m_literals : list literal;
  m_lemma : ineq;
  m_conseq_index : gmap bool_var nat;
  m_marked : list bool_var;
  m_num_marks : Z;
  m_conflict_lvl : nat;
  m_ineq_literals : list literal;
  m_stats : th_stats.t;
  m_learn_complements : bool;
  m_conflict_frequency : Z;
  m_enable_compilation : bool }.

Definition set_ctx (x : context) (t : theory_pb) : theory_pb :=
  mk_theory_pb x (m_ineqs t) (m_ineqs_trail t) (m_watch t) (m_assign_ineqs_trail t) (m_to_compile t) (m_literals t) (m_lemma t) (m_conseq_index t) (m_marked t) (m_num_marks t) (m_conflict_lvl t) (m_ineq_literals t) (m_stats t) (m_learn_complements t) (m_conflict_frequency t) (m_enable_compilation t).
Definition set_ineqs (x : gmap bool_var ineq) (t : theory_pb) : theory_pb :=
  mk_theory_pb (th_ctx t) x (m_ineqs_trail t) (m_watch t) (m_assign_ineqs_trail t) (m_to_compile t) (m_literals t) (m_lemma t) (m_conseq_index t) (m_marked t) (m_num_marks t) (m_conflict_lvl t) (m_ineq_literals t) (m_stats t) (m_learn_complements t) (m_conflict_frequency t) (m_enable_compilation t).
Definition set_ineqs_trail (x : list bool_var) (t : theory_pb) : theory_pb :=
  mk_theory_pb (th_ctx t) (m_ineqs t) x (m_watch t) (m_assign_ineqs_trail t) (m_to_compile t) (m_literals t) (m_lemma t) (m_conseq_index t) (m_marked t) (m_num_marks t) (m_conflict_lvl t) (m_ineq_literals t) (m_stats t) (m_learn_complements t) (m_conflict_frequency t) (m_enable_compilation t).
Definition set_watch (x : gmap Z (list bool_var)) (t : theory_pb) : theory_pb :=
  mk_theory_pb (th_ctx t) (m_ineqs t) (m_ineqs_trail t) x (m_assign_ineqs_trail t) (m_to_compile t) (m_literals t) (m_lemma t) (m_conseq_index t) (m_marked t) (m_num_marks t) (m_conflict_lvl t) (m_ineq_literals t) (m_stats t) (m_learn_complements t) (m_conflict_frequency t) (m_enable_compilation t).
Definition set_assign_ineqs_trail (x : list bool_var) (t : theory_pb) : theory_pb :=
  mk_theory_pb (th_ctx t) (m_ineqs t) (m_ineqs_trail t) (m_watch t) x (m_to_compile t) (m_literals t) (m_lemma t) (m_conseq_index t) (m_marked t) (m_num_marks t) (m_conflict_lvl t) (m_ineq_literals t) (m_stats t) (m_learn_complements t) (m_conflict_frequency t) (m_enable_compilation t).
Definition set_to_compile (x : list bool_var) (t : theory_pb) : theory_pb :=
  mk_theory_pb (th_ctx t) (m_ineqs t) (m_ineqs_trail t) (m_watch t) (m_assign_ineqs_trail t) x (m_literals t) (m_lemma t) (m_conseq_index t) (m_marked t) (m_num_marks t) (m_conflict_lvl t) (m_ineq_literals t) (m_stats t) (m_learn_complements t) (m_conflict_frequency t) (m_enable_compilation t).
Definition set_literals (x : list literal) (t : theory_pb) : theory_pb :=
  mk_theory_pb (th_ctx t) (m_ineqs t) (m_ineqs_trail t) (m_watch t) (m_assign_ineqs_trail t) (m_to_compile t) x (m_lemma t) (m_conseq_index t) (m_marked t) (m_num_marks t) (m_conflict_lvl t) (m_ineq_literals t) (m_stats t) (m_learn_complements t) (m_conflict_frequency t) (m_enable_compilation t).
Definition set_lemma (x : ineq) (t : theory_pb) : theory_pb :=
  mk_theory_pb (th_ctx t) (m_ineqs t) (m_ineqs_trail t) (m_watch t) (m_assign_ineqs_trail t) (m_to_compile t) (m_literals t) x (m_conseq_index t) (m_marked t) (m_num_marks t) (m_conflict_lvl t) (m_ineq_literals t) (m_stats t) (m_learn_complements t) (m_conflict_frequency t) (m_enable_compilation t).
Definition set_conseq_index (x : gmap bool_var nat) (t : theory_pb) : theory_pb :=
  mk_theory_pb (th_ctx t) (m_ineqs t) (m_ineqs_trail t) (m_watch t) (m_assign_ineqs_trail t) (m_to_compile t) (m_literals t) (m_lemma t) x (m_marked t) (m_num_marks t) (m_conflict_lvl t) (m_ineq_literals t) (m_stats t) (m_learn_complements t) (m_conflict_frequency t) (m_enable_compilation t).
Definition set_marked (x : list bool_var) (t : theory_pb) : theory_pb :=
  mk_theory_pb (th_ctx t) (m_ineqs t) (m_ineqs_trail t) (m_watch t) (m_assign_ineqs_trail t) (m_to_compile t) (m_literals t) (m_lemma t) (m_conseq_index t) x (m_num_marks t) (m_conflict_lvl t) (m_ineq_literals t) (m_stats t) (m_learn_complements t) (m_conflict_frequency t) (m_enable_compilation t).
Definition set_num_marks (x : Z) (t : theory_pb) : theory_pb :=
  mk_theory_pb (th_ctx t) (m_ineqs t) (m_ineqs_trail t) (m_watch t) (m_assign_ineqs_trail t) (m_to_compile t) (m_literals t) (m_lemma t) (m_conseq_index t) (m_marked t) x (m_conflict_lvl t) (m_ineq_literals t) (m_stats t) (m_learn_complements t) (m_conflict_frequency t) (m_enable_compilation t).
Definition set_conflict_lvl (x : nat) (t : theory_pb) : theory_pb :=
  mk_theory_pb (th_ctx t) (m_ineqs t) (m_ineqs_trail t) (m_watch t) (m_assign_ineqs_trail t) (m_to_compile t) (m_literals t) (m_lemma t) (m_conseq_index t) (m_marked t) (m_num_marks t) x (m_ineq_literals t) (m_stats t) (m_learn_complements t) (m_conflict_frequency t) (m_enable_compilation t).
Definition set_ineq_literals (x : list literal) (t : theory_pb) : theory_pb :=
  mk_theory_pb (th_ctx t) (m_ineqs t) (m_ineqs_trail t) (m_watch t) (m_assign_ineqs_trail t) (m_to_compile t) (m_literals t) (m_lemma t) (m_conseq_index t) (m_marked t) (m_num_marks t) (m_conflict_lvl t) x (m_stats t) (m_learn_complements t) (m_conflict_frequency t) (m_enable_compilation t).
Definition set_stats (x : th_stats.t) (t : theory_pb) : theory_pb :=
  mk_theory_pb (th_ctx t) (m_ineqs t) (m_ineqs_trail t) (m_watch t) (m_assign_ineqs_trail t) (m_to_compile t) (m_literals t) (m_lemma t) (m_conseq_index t) (m_marked t) (m_num_marks t) (m_conflict_lvl t) (m_ineq_literals t) x (m_learn_complements t) (m_conflict_frequency t) (m_enable_compilation t).

(** Modelled from the spec: [pb_util] ([pb_decl_plugin.h]) is not in src.
    A cardinality atom ("the common cardinality specialisation c_i = 1") has
    all coefficients 1; a weighted atom carries them. *)
Definition get_k (a : app) : numeral := app_k a.
Definition get_coeff (a : app) (i : nat) : numeral :=
  match get_decl_kind a with
  | OP_AT_MOST_K | OP_AT_LEAST_K => 1
  | _ => nth i (get_coeffs a) 0
  end.
Definition get_num_args (a : app) : nat := length (get_args a).
Definition is_at_most_k (a : app) : bool := bool_decide (get_decl_kind a = OP_AT_MOST_K).
Definition is_le (a : app) : bool := bool_decide (get_decl_kind a = OP_PB_LE).
Definition mk_ge (coeffs : list numeral) (args : list expr) (k : numeral) : app :=
  mk_app OP_PB_GE args coeffs k.

(** [for (x : l) body(x)] *)
Fixpoint for_each {St A} (l : list A) (body : A → M St unit) : M St unit :=
  match l with
  | [] => ret tt
  | x :: l' => body x ;;; for_each l' body
  end.

(** *** Watch metadata of one inequality *)

(** The part of [add_watch] that acts on [c]. *)
Definition add_watch_ineq (c : ineq) (i : nat) : ineq :=
  let coeff := coeff c i in
  let args :=
    if (m_watch_sz c <? i)%nat then swap (m_args c) i (m_watch_sz c) else m_args c in
  mk_ineq (m_lit c) args (m_k c)
    (if m_max_watch c <? coeff then coeff else m_max_watch c)
    (S (m_watch_sz c)) (m_watch_sum c + coeff)
    (m_num_propagations c) (m_compilation_threshold c) (m_compiled c).

(** [add_watch(c, i)] on [c] and the watch table [m_watch]. *)
Definition add_watch (cv : bool_var) (i : nat) (cw : ineq * gmap Z (list bool_var))
  : ineq * gmap Z (list bool_var) :=
  let l := lit_at cw.1 i in
  (add_watch_ineq cw.1 i, <[index l := default [] (cw.2 !! index l) ++ [cv]]> cw.2).

(** The loop of [del_watch] that recomputes the maximal watched coefficient:
    [for (i = 1; coeff != c.max_watch() && i < c.watch_size(); ++i)]. *)
Fixpoint del_watch_max (n i : nat) (c : ineq) (coeff0 : numeral) : numeral :=
  match n with
  | O => coeff0
  | S n' =>
      if negb (coeff0 =? m_max_watch c) && (i <? m_watch_sz c)%nat then
        del_watch_max n' (S i) c (if coeff0 <? coeff c i then coeff c i else coeff0)
      else coeff0
  end.

(** The part of [del_watch] that acts on [c]; [SASSERT(ineq_index <
    c.watch_size())] guards the decrement of the [unsigned] watch size. *)
Definition del_watch_ineq (c : ineq) (ineq_index : nat) : option ineq :=
  if (ineq_index <? m_watch_sz c)%nat then
    let coeff0 := coeff c ineq_index in
    let args :=
      if (ineq_index + 1 <? m_watch_sz c)%nat
      then swap (m_args c) ineq_index (m_watch_sz c - 1) else m_args c in
    let c1 :=
      mk_ineq (m_lit c) args (m_k c) (m_max_watch c) (m_watch_sz c - 1)
        (m_watch_sum c - coeff0)
        (m_num_propagations c) (m_compilation_threshold c) (m_compiled c) in
    if m_max_watch c1 =? coeff0 then
      Some (ineq_set_max_watch (del_watch_max (m_watch_sz c1) 1 c1 (coeff c1 0)) c1)
    else Some c1
  else None.

(** [del_watch(watch, index, c, ineq_index)]; [watch] is the list of
    [m_watch] at [key]. *)
Definition del_watch (key : Z) (index_ : nat) (ineq_index : nat)
    (cw : ineq * gmap Z (list bool_var)) : option (ineq * gmap Z (list bool_var)) :=
  let watch := default [] (cw.2 !! key) in
  let watch :=
    if (index_ <? length watch)%nat then swap watch index_ (length watch - 1) else watch in
  match del_watch_ineq cw.1 ineq_index with
  | Some c' => Some (c', <[key := removelast watch]> cw.2)
  | None => None
  end.

(** The two loops that extend the watched prefix: from position [i], while
    [more c] holds and [i < c.size()], a literal that is not false is added to
    the watches. *)
Fixpoint add_watches (ctx : context) (cv : bool_var) (more : ineq → bool) (n i : nat)
    (cw : ineq * gmap Z (list bool_var)) : ineq * gmap Z (list bool_var) :=
  match n with
  | O => cw
  | S n' =>
      if more cw.1 && (i <? length (m_args cw.1))%nat
      then
        add_watches ctx cv more n' (S i)
          (if bool_decide (get_assignment ctx (lit_at cw.1 i) ≠ l_false)
           then add_watch cv i cw else cw)
      else cw
  end.

(** The watch initialisation of [assign_ineq]:
    [for (i = 0; c.watch_sum() < c.k() + c.max_watch() && i < c.size(); ++i)]. *)
Definition init_watch (ctx : context) (cv : bool_var) (n i : nat)
    (cw : ineq * gmap Z (list bool_var)) : ineq * gmap Z (list bool_var) :=
  add_watches ctx cv (fun c => m_watch_sum c <? m_k c + m_max_watch c) n i cw.

(** The promotion loop of [assign_watch]:
    [for (i = c.watch_size(); add_more && i < c.size(); ++i)], where
    [add_more] is [c.watch_sum() - coeff < k + c.max_watch()]. *)
Definition promote (ctx : context) (cv : bool_var) (coeff0 k0 : numeral) (n i : nat)
    (cw : ineq * gmap Z (list bool_var)) : ineq * gmap Z (list bool_var) :=
  add_watches ctx cv (fun c => m_watch_sum c - coeff0 <? k0 + m_max_watch c) n i cw.

(** [maxsum] and [mininc] of [assign_ineq]. *)
Definition maxsum (ctx : context) (args : arg_t) : numeral :=
  foldl (fun acc a =>
           if bool_decide (get_assignment ctx a.1 ≠ l_false) then acc + a.2 else acc)
    0 args.

Definition mininc (ctx : context) (args : arg_t) : numeral :=
  foldl (fun acc a =>
           if bool_decide (get_assignment ctx a.1 = l_undef)
              && ((acc =? 0) || (a.2 <? acc))
           then a.2 else acc)
    0 args.

(** The literals collected by [get_unhelpful_literals]. *)
Definition unhelpful_literals (ctx : context) (args : arg_t) (negate : bool)
  : list literal :=
  map (fun a => if negate then lit_neg a.1 else a.1)
    (filter (fun a => get_assignment ctx a.1 = l_false) args).

(** The level computed at the start of [resolve_conflict]. *)
Definition conflict_level (ctx : context) (args : arg_t) : nat :=
  foldl (fun lvl a =>
           if bool_decide (get_assignment ctx a.1 = l_false)
           then Nat.max lvl (get_assign_level ctx (var a.1)) else lvl)
    0%nat args.

(** [hoist_maximal_values] on the arguments and threshold of the lemma; the
    second component collects what is pushed on [m_ineq_literals]. *)
Fixpoint hoist (n i : nat) (args : arg_t) (k0 : numeral) (out : list literal)
  : arg_t * list literal :=
  match n with
  | O => (args, out)
  | S n' =>
      match args !! i with
      | Some (l, a) =>
          if k0 <=? a
          then hoist n' i (removelast (swap args i (length args - 1))) k0
                 (out ++ [lit_neg l])
          else hoist n' (S i) args k0 out
      | None => (args, out)
      end
  end.

(** The threshold loop of [internalize_atom] on [unsigned]:
    [while (n <= args.size()) { ++log; n *= 2; }]. *)
Fixpoint threshold_loop (fuel : nat) (log n sz : Z) : option Z :=
  match fuel with
  | O => None
  | S fuel => if n <=? sz then threshold_loop fuel (u32 (log + 1)) (u32 (n * 2)) sz
              else Some log
  end.

Definition compilation_threshold (sz : nat) : option Z :=
  match threshold_loop 34 1 1 (Z.of_nat sz) with
  | Some log => Some (u32 (Z.of_nat sz * log))
  | None => None
  end.

(** *** The model-value procedure *)

Inductive model_value := mv_true | mv_false | mv_other (e : expr).
Inductive pb_value := val_app (a : app) | val_true | val_false | val_null.

(** The loop of [mk_value]: [Some None] is the early [return m_app]. *)
Fixpoint mk_value_sum (a : app) (n i : nat) (values : list model_value) (sum : numeral)
  : option (option numeral) :=
  match n with
  | O => Some (Some sum)
  | S n' =>
      match values !! i with
      | None => None
      | Some (mv_other _) => Some None
      | Some mv_true => mk_value_sum a n' (S i) values (sum + get_coeff a i)
      | Some mv_false => mk_value_sum a n' (S i) values sum
      end
  end.

Definition of_bool (b : bool) : pb_value := if b then val_true else val_false.

Definition mk_value (a : app) (values : list model_value) : option pb_value :=
  match mk_value_sum a (get_num_args a) 0 values 0 with
  | None => None
  | Some None => Some (val_app a)
  | Some (Some sum) =>
      let k0 := get_k a in
      Some (match get_decl_kind a with
            | OP_AT_MOST_K => of_bool (sum <=? k0)
            | OP_AT_LEAST_K => of_bool (k0 <=? sum)
            | OP_PB_LE => of_bool (sum <=? k0)
            | OP_PB_GE => of_bool (k0 <=? sum)
            | OP_OTHER => val_null
            end)
  end.

(** ** The plugin [theory_pb] *)

Section theory_pb.

(** [pb_rewriter_util] ([pb_rewriter_def.h]) and the host's term handling
    are not in src: the plugin is parametric in them. *)
Variable pb_unique : arg_t → numeral → arg_t * numeral.
Variable pb_normalize : arg_t → numeral → lbool * (arg_t * numeral).
Variable pb_prune : arg_t → numeral → arg_t * numeral.
(** [compile_arg] is made of calls into the host (internalisation of the
    argument, proxies): it maps an argument to its literal. *)
Variable compile_arg : expr → context → literal * context.
Variable literal2expr : context → literal → expr.

Definition ineq_unique (c : ineq) : ineq :=
  let r := pb_unique (m_args c) (m_k c) in ineq_set_k r.2 (ineq_set_args r.1 c).

Definition ineq_normalize (c : ineq) : lbool * ineq :=
  let r := pb_normalize (m_args c) (m_k c) in
  (r.1, ineq_set_k r.2.2 (ineq_set_args r.2.1 c)).

Definition ineq_prune (c : ineq) : ineq :=
  let r := pb_prune (m_args c) (m_k c) in ineq_set_k r.2 (ineq_set_args r.1 c).

(** [ineq::negate]; a failing [VERIFY] is [None]. *)
Definition ineq_negate (c : ineq) : option ineq :=
  let args := map (fun a => (lit_neg a.1, a.2)) (m_args c) in
  let sum := sum_coeffs (m_args c) in
  let c' :=
    ineq_set_k (sum - m_k c + 1) (ineq_set_args args (ineq_set_lit (lit_neg (m_lit c)) c)) in
  match ineq_normalize c' with
  | (l_undef, c'') => Some c''
  | _ => None
  end.

Definition to_expr (ctx : context) (c : ineq) : app :=
  mk_ge (map snd (m_args c)) (map (fun a => literal2expr ctx a.1) (m_args c)) (m_k c).

Definition get_ineq (cv : bool_var) : M theory_pb ineq :=
  let* t := get_state in lift_opt (m_ineqs t !! cv).

Definition put_ineq (cv : bool_var) (c : ineq) : M theory_pb unit :=
  modify (fun t => set_ineqs (<[cv := c]> (m_ineqs t)) t).

Definition with_ctx (f : context → context) : M theory_pb unit :=
  modify (fun t => set_ctx (f (th_ctx t)) t).

Definition with_lemma (f : ineq → ineq) : M theory_pb unit :=
  modify (fun t => set_lemma (f (m_lemma t)) t).

Definition with_stats (f : th_stats.t → th_stats.t) : M theory_pb unit :=
  modify (fun t => set_stats (f (m_stats t)) t).

Definition push_ineq_literal (l : literal) : M theory_pb unit :=
  modify (fun t => set_ineq_literals (m_ineq_literals t ++ [l]) t).

Definition push_literal (l : literal) : M theory_pb unit :=
  modify (fun t => set_literals (m_literals t ++ [l]) t).

(** [get_lits] *)
Definition get_lits : M theory_pb unit := modify (set_literals []).

(** [get_unhelpful_literals(c, negate)] fills the buffer [m_literals]. *)
Definition get_unhelpful_literals (cv : bool_var) (negate : bool) : M theory_pb unit :=
  let* c := get_ineq cv in
  get_lits ;;;
  modify (fun t => set_literals (unhelpful_literals (th_ctx t) (m_args c) negate) t).

(** *** Internalisation *)

Fixpoint compile_args (args : list expr) (ctx : context) : list literal * context :=
  match args with
  | [] => ([], ctx)
  | a :: rest =>
      let r := compile_arg a ctx in
      let r' := compile_args rest r.2 in
      (r.1 :: r'.1, r'.2)
  end.

(** The inequality [internalize_atom] builds for [atom] from the literals
    [lits] of its arguments, after [unique], [normalize] and [prune], with
    the verdict of [normalize]. *)
Definition atom_ineq (atom : app) (abv : bool_var) (lits : list literal) : lbool * ineq :=
  let args := zip lits (map (get_coeff atom) (seq 0 (get_num_args atom))) in
  let c := ineq_set_k (get_k atom) (ineq_set_args args (new_ineq (literal_of abv))) in
  let c :=
    if is_at_most_k atom || is_le atom
    then ineq_set_k (- m_k c) (ineq_set_args (map (fun a => (a.1, - a.2)) (m_args c)) c)
    else c in
  let c := ineq_unique c in
  let n := ineq_normalize c in
  (n.1, ineq_prune n.2).

Definition internalize_atom (atom : app) : M theory_pb bool :=
  let* t := get_state in
  if b_internalized (th_ctx t) atom then ret false
  else
    with_stats th_stats.inc_predicates ;;;
    let bv := mk_bool_var (th_ctx t) in
    let abv := bv.1 in
    let r := compile_args (get_args atom) (set_atom_var atom abv bv.2) in
    with_ctx (fun _ => r.2) ;;;
    let ac := atom_ineq atom abv r.1 in
    let is_true := ac.1 in
    let c := ac.2 in
    let lit := literal_of abv in
    match is_true with
    | l_false => with_ctx (mk_th_axiom [lit_neg lit]) ;;; ret true
    | l_true => with_ctx (mk_th_axiom [lit]) ;;; ret true
    | l_undef =>
        if m_k c =? 1 then
          get_lits ;;;
          push_literal (lit_neg lit) ;;;
          for_each (m_args c) (fun a =>
            push_literal a.1 ;;;
            with_ctx (mk_th_axiom [lit; lit_neg a.1])) ;;;
          let* t := get_state in
          with_ctx (mk_th_axiom (m_literals t)) ;;;
          ret true
        else
          let c := ineq_set_max_watch (max_coeffs (m_args c)) c in
          let enable_compile :=
            m_enable_compilation t && forallb (fun a => a.2 <? 8) (m_args c) in
          let* th :=
            (if enable_compile
             then lift_opt (compilation_threshold (length (m_args c)))
             else ret UINT_MAX) in
          let c := ineq_set_compilation_threshold th c in
          put_ineq abv c ;;;
          modify (fun t => set_ineqs_trail (m_ineqs_trail t ++ [abv]) t) ;;;
          ret true
    end.

(** *** Propagation counters *)

Definition inc_propagations (cv : bool_var) : M theory_pb unit :=
  let* c := get_ineq cv in
  let c := ineq_set_num_propagations (u32 (m_num_propagations c + 1)) c in
  if bool_decide (m_compiled c = l_false)
     && (m_compilation_threshold c <? m_num_propagations c)
  then
    put_ineq cv (ineq_set_compiled l_undef c) ;;;
    modify (fun t => set_to_compile (m_to_compile t ++ [cv]) t)
  else put_ineq cv c.

Definition add_assign (cv : bool_var) (lits : list literal) (l : literal)
  : M theory_pb unit :=
  inc_propagations cv ;;;
  with_stats th_stats.inc_propagations ;;;
  with_ctx (assign l cv lits).

(** *** Conflict analysis *)

(** The marks.  [m_conseq_index] is a vector indexed by the variable, with
    the sentinel [null_index] in the cell of an unmarked one; the map holds
    the cells other than the sentinel.  The two agree for variables
    [v >= 0] and indices other than [null_index]: this is what
    [process_antecedent], the one caller of [set_mark], passes as long as
    the lemma is shorter than [null_index]. *)
Definition is_marked (t : theory_pb) (v : bool_var) : bool :=
  bool_decide (is_Some (m_conseq_index t !! v)).

Definition set_mark (v : bool_var) (idx : nat) : M theory_pb unit :=
  modify (fun t =>
    set_conseq_index (<[v := idx]> (m_conseq_index t)) (set_marked (m_marked t ++ [v]) t)).

Definition unset_mark (v : bool_var) : M theory_pb unit :=
  modify (fun t => set_conseq_index (delete v (m_conseq_index t)) t).

Definition unset_marks : M theory_pb unit :=
  let* t := get_state in
  for_each (m_marked t) unset_mark ;;;
  modify (set_marked []).

Definition remove_from_lemma (idx : nat) : M theory_pb unit :=
  let* t := get_state in
  let args := m_args (m_lemma t) in
  let* a := lift_opt (args !! idx) in
  let last_ := (length args - 1)%nat in
  (if bool_decide (idx ≠ last_) then
     let* b := lift_opt (args !! last_) in
     with_lemma (ineq_set_args (<[idx := b]> args)) ;;;
     modify (fun t => set_conseq_index (<[var b.1 := idx]> (m_conseq_index t)) t)
   else ret tt) ;;;
  with_lemma (fun c => ineq_set_args (removelast (m_args c)) c) ;;;
  unset_mark (var a.1) ;;;
  modify (fun t => set_num_marks (u32 (m_num_marks t - 1)) t).

(** [m_lemma.m_args[idx].second += d] *)
Definition add_to_lemma_coeff (idx : nat) (d : numeral) : M theory_pb numeral :=
  let* t := get_state in
  let* a := lift_opt (m_args (m_lemma t) !! idx) in
  with_lemma (ineq_set_args (<[idx := (a.1, a.2 + d)]> (m_args (m_lemma t)))) ;;;
  ret (a.2 + d).

Definition process_antecedent (l : literal) (coeff0 : numeral) : M theory_pb unit :=
  let* t := get_state in
  let v := var l in
  let lvl := get_assign_level (th_ctx t) v in
  if bool_decide (get_assignment (th_ctx t) l ≠ l_false) then
    with_lemma (fun c => ineq_set_k (m_k c - coeff0) c) ;;;
    if m_learn_complements t && is_marked t v then
      let* idx := lift_opt (m_conseq_index t !! v) in
      let* lcoeff := add_to_lemma_coeff idx (- coeff0) in
      if negb (0 <? lcoeff) then remove_from_lemma idx else ret tt
    else ret tt
  else if (get_base_level (th_ctx t) <? lvl)%nat then
    if is_marked t v then
      let* idx := lift_opt (m_conseq_index t !! v) in
      add_to_lemma_coeff idx coeff0 ;;; ret tt
    else
      (if (lvl =? m_conflict_lvl t)%nat
       then modify (fun t => set_num_marks (u32 (m_num_marks t + 1)) t)
       else ret tt) ;;;
      set_mark v (length (m_args (m_lemma t))) ;;;
      with_lemma (fun c => ineq_set_args (m_args c ++ [(l, coeff0)]) c)
  else ret tt.

(** [process_ineq]; dividing by a zero coefficient is [None]. *)
Definition process_ineq (cv : bool_var) (conseq : literal) (coeff1 : numeral)
  : M theory_pb unit :=
  let* c := get_ineq cv in
  let coeff2 :=
    match List.find (fun a => bool_decide (a.1 = conseq)) (m_args c) with
    | Some a => a.2
    | None => if decide (conseq = null_literal) then 1 else 0
    end in
  if (coeff1 =? 0) || (coeff2 =? 0) then fail
  else
    let lc := Z.lcm coeff1 coeff2 in
    let g := lc / coeff1 in
    (if 1 <? g then
       with_lemma (fun c =>
         ineq_set_k (m_k c * g) (ineq_set_args (map (fun a => (a.1, a.2 * g)) (m_args c)) c))
     else ret tt) ;;;
    let g := lc / coeff2 in
    with_lemma (fun l => ineq_set_k (m_k l + g * m_k c) l) ;;;
    for_each (m_args c) (fun a => process_antecedent a.1 (g * a.2)) ;;;
    let* t := get_state in
    if (get_base_level (th_ctx t) <? get_assign_level (th_ctx t) (var (m_lit c)))%nat
    then push_ineq_literal (m_lit c)
    else ret tt.

(** One resolution step of [resolve_conflict] on the marked literal
    [conseq]. *)
Definition resolve_step (conseq : literal) : M theory_pb unit :=
  let v := var conseq in
  let* t := get_state in
  let* conseq_index := lift_opt (m_conseq_index t !! v) in
  let* a := lift_opt (m_args (m_lemma t) !! conseq_index) in
  let conseq_coeff := a.2 in
  remove_from_lemma conseq_index ;;;
  let* t := get_state in
  match get_justification (th_ctx t) v with
  | CLAUSE cls foreign =>
      if foreign then push_ineq_literal conseq
      else
        let* l0 := lift_opt (cls !! 0%nat) in
        (if decide (l0 = conseq)
         then let* l1 := lift_opt (cls !! 1%nat) in process_antecedent l1 conseq_coeff
         else process_antecedent l0 conseq_coeff) ;;;
        for_each (drop 2 cls) (fun l => process_antecedent l conseq_coeff)
  | BIN_CLAUSE l => process_antecedent (lit_neg l) conseq_coeff
  | AXIOM =>
      if (get_base_level (th_ctx t) <? get_assign_level (th_ctx t) v)%nat
      then push_ineq_literal conseq else ret tt
  | JUSTIFICATION from_pb c =>
      if from_pb then process_ineq c conseq conseq_coeff
      else push_ineq_literal conseq
  end.

(** The head of [while (m_num_marks > 0)]: the result [true] leaves the loop
    for the code after it, [false] is [return false]. *)
Definition loop_head (body : M theory_pb bool) : M theory_pb bool :=
  let* t := get_state in
  if 0 <? m_num_marks t then
    let n := ineq_normalize (m_lemma t) in
    modify (set_lemma n.2) ;;;
    match n.1 with
    | l_false => ret true
    | l_true => ret false
    | l_undef => body
    end
  else ret true.

(** The rest of the loop, from the [do ... while] that looks for the next
    marked variable.  [R] is the trail from [lits[idx]] down to [lits[0]];
    after [--idx], [idx == 0] is [length R' = 1], and an empty [R'] is the
    wrapped index. *)
Fixpoint walk_trail (R : list literal) : M theory_pb bool :=
  match R with
  | [] => fail
  | conseq :: R' =>
      let* t := get_state in
      if is_marked t (var conseq) then
        resolve_step conseq ;;; loop_head (walk_trail R')
      else if (length R' =? 1)%nat then ret false
      else walk_trail R'
  end.

Definition resolve_conflict (cv : bool_var) : M theory_pb bool :=
  let* c := get_ineq cv in
  let* t := get_state in
  let lvl := conflict_level (th_ctx t) (m_args c) in
  modify (set_conflict_lvl lvl) ;;;
  if (lvl <? get_assign_level (th_ctx t) (var (m_lit c)))%nat
     || (lvl =? get_base_level (th_ctx t))%nat
  then ret false
  else
    unset_marks ;;;
    modify (set_num_marks 0) ;;;
    with_lemma ineq_reset ;;;
    modify (set_ineq_literals []) ;;;
    process_ineq cv null_literal 1 ;;;
    let* t := get_state in
    let* continue := loop_head (walk_trail (rev (m_assigned_literals (th_ctx t)))) in
    if negb continue then ret false
    else
      let* t := get_state in
      let h := hoist (length (m_args (m_lemma t))) 0 (m_args (m_lemma t))
                 (m_k (m_lemma t)) (m_ineq_literals t) in
      with_lemma (ineq_set_args h.1) ;;;
      modify (set_ineq_literals h.2) ;;;
      let* t := get_state in
      let n := ineq_normalize (m_lemma t) in
      modify (set_lemma (ineq_prune n.2)) ;;;
      match n.1 with
      | l_true => ret false
      | l_false =>
          inc_propagations cv ;;;
          with_stats th_stats.inc_conflicts ;;;
          modify (fun t => set_ineq_literals (map lit_neg (m_ineq_literals t)) t) ;;;
          let* t := get_state in
          with_ctx (mk_clause (m_ineq_literals t) CLS_AUX_LEMMA) ;;;
          ret true
      | l_undef =>
          let* t := get_state in
          let tmp := to_expr (th_ctx t) (m_lemma t) in
          internalize_atom tmp ;;;
          let* t := get_state in
          let* v := lift_opt (get_bool_var (m_atom_vars (th_ctx t)) tmp) in
          add_assign cv (m_ineq_literals t) (literal_of v) ;;;
          ret true
      end.

(** Whether [add_clause] runs the conflict analysis, after the increment of
    the propagation counter of [c]. *)
Definition runs_conflict_analysis (t : theory_pb) (c : ineq) : bool :=
  (m_conflict_frequency t =? 0)
  || (m_num_propagations c mod m_conflict_frequency t =? 0).

(** [add_clause(c, lits)]: at both call sites [lits] is the buffer
    [m_literals], passed by reference. *)
Definition add_clause (cv : bool_var) : M theory_pb unit :=
  inc_propagations cv ;;;
  with_stats th_stats.inc_conflicts ;;;
  let* t := get_state in
  let* c := get_ineq cv in
  (if runs_conflict_analysis t c then resolve_conflict cv ;;; ret tt else ret tt) ;;;
  let* t := get_state in
  with_ctx (mk_clause (m_literals t) CLS_AUX_LEMMA).

(** *** The watch propagator *)

(** The unit propagation of [assign_ineq]. *)
Definition propagate_all (cv : bool_var) (n : nat) : M theory_pb unit :=
  for_range 0 n (fun i =>
    let* c := get_ineq cv in
    let* t := get_state in
    if bool_decide (get_assignment (th_ctx t) (lit_at c i) = l_undef)
    then add_assign cv (m_literals t) (lit_at c i)
    else ret tt).

(** [assign_ineq] after the inequality has been oriented. *)
Definition assign_ineq_core (cv : bool_var) : M theory_pb unit :=
  let* c := get_ineq cv in
  let* t := get_state in
  let maxsum := maxsum (th_ctx t) (m_args c) in
  let mininc := mininc (th_ctx t) (m_args c) in
  (if maxsum <? m_k c then
     get_unhelpful_literals cv false ;;;
     push_literal (lit_neg (m_lit c)) ;;;
     add_clause cv
   else
     let c0 := ineq_set_max_watch 0 (ineq_set_watch_sz 0%nat (ineq_set_watch_sum 0 c)) in
     let cw := init_watch (th_ctx t) cv (length (m_args c)) 0 (c0, m_watch t) in
     put_ineq cv cw.1 ;;;
     modify (set_watch cw.2) ;;;
     modify (fun t => set_assign_ineqs_trail (m_assign_ineqs_trail t ++ [cv]) t)) ;;;
  let* c := get_ineq cv in
  if (m_k c <=? maxsum) && (maxsum - mininc <? m_k c) then
    get_unhelpful_literals cv true ;;;
    push_literal (m_lit c) ;;;
    propagate_all cv (length (m_args c))
  else ret tt.

Definition assign_ineq (cv : bool_var) (is_true : bool) : M theory_pb unit :=
  let* c := get_ineq cv in
  (if bool_decide (sign (m_lit c) = is_true)
   then let* c' := lift_opt (ineq_negate c) in put_ineq cv c'
   else ret tt) ;;;
  assign_ineq_core cv.

(** The unit propagation of [assign_watch]. *)
Definition propagate_deficit (cv : bool_var) (deficit : numeral) (n : nat)
  : M theory_pb unit :=
  for_range 0 n (fun i =>
    let* c := get_ineq cv in
    let* t := get_state in
    if bool_decide (get_assignment (th_ctx t) (lit_at c i) = l_undef)
       && (deficit <? coeff c i)
    then add_assign cv (m_literals t) (lit_at c i)
    else ret tt).

(** [assign_watch(v, is_true, watch, watch_index)]; [watch] is the list of
    [m_watch] at [key]. *)
Definition assign_watch (v : bool_var) (is_true : bool) (key : Z) (watch_index : nat)
  : M theory_pb bool :=
  let* t := get_state in
  let* cv := lift_opt (default [] (m_watch t !! key) !! watch_index) in
  let* c := get_ineq cv in
  let* w := lift_opt (find_lit c v 0 (m_watch_sz c)) in
  let k0 := m_k c in
  let coeff0 := coeff c w in
  let cw := promote (th_ctx t) cv coeff0 k0 (length (m_args c) - m_watch_sz c)
              (m_watch_sz c) (c, m_watch t) in
  put_ineq cv cw.1 ;;;
  modify (set_watch cw.2) ;;;
  if m_watch_sum cw.1 - coeff0 <? k0 then
    get_unhelpful_literals cv false ;;;
    push_literal (lit_neg (m_lit cw.1)) ;;;
    add_clause cv ;;;
    ret false
  else
    let* cw' := lift_opt (del_watch key watch_index w cw) in
    put_ineq cv cw'.1 ;;;
    modify (set_watch cw'.2) ;;;
    (if m_watch_sum cw'.1 <? k0 + m_max_watch cw'.1 then
       get_unhelpful_literals cv true ;;;
       push_literal (m_lit cw'.1) ;;;
       propagate_deficit cv (m_watch_sum cw'.1 - k0) (length (m_args cw'.1))
     else ret tt) ;;;
    ret true.

(** *** Compilation into a sorting network *)

(** The loop of [compile_ineq] that collects the inputs of the network, each
    literal as often as its coefficient says.  At every argument the test
    reads the assignment and the level of [c.lit()], the literal of the
    inequality.  [get_unsigned] of a coefficient is [Z.to_nat]; [None] is the
    early [return]. *)
Fixpoint compile_inputs (ctx : context) (thl : literal) (args : arg_t) (k : nat)
    (in_ : list literal) : option (nat * list literal) :=
  match args with
  | [] => Some (k, in_)
  | a :: args' =>
      let val := get_assignment ctx thl in
      if bool_decide (val ≠ l_undef)
         && (get_assign_level ctx (var thl) =? get_base_level ctx)%nat
      then
        if bool_decide (val = l_true) then
          let m := Z.to_nat a.2 in
          if (k <? m)%nat then None else compile_inputs ctx thl args' (k - m) in_
        else compile_inputs ctx thl args' k in_
      else compile_inputs ctx thl args' k (in_ ++ replicate (Z.to_nat a.2) a.1)
  end.

(** [compile_ineq(c)].  [fuel] bounds the recursion of the network; [mt0] is
    the mode of the new [psort_nw], which its constructor leaves
    uninitialised.  The two-literal [mk_clause] of the host makes an
    auxiliary clause.  The registration of [m_compiled] on the trail of the
    host ([push_trail]) has no effect before the host backtracks. *)
Definition compile_ineq (fuel : nat) (mt0 : psort_nw.cmp_t) (cv : bool_var)
  : M theory_pb unit :=
  with_stats th_stats.inc_compiles ;;;
  let* c := get_ineq cv in
  let* t := get_state in
  let ctx := th_ctx t in
  let thl := m_lit c in
  match compile_inputs ctx thl (m_args c) (Z.to_nat (m_k c)) [] with
  | None => ret tt
  | Some (k, in_) =>
      let at_base :=
        bool_decide (get_assignment ctx thl = l_true)
        && (get_assign_level ctx (var thl) =? get_base_level ctx)%nat in
      let sortnw := psort_nw.mk ctx mt0 (psort_nw.mk_stats 0 0) in
      let* r := lift_opt (psort_nw.ge fuel (negb at_base) k (length in_) in_ sortnw) in
      let at_least_k := r.1 in
      with_ctx (fun _ => mk_clause [lit_neg thl; at_least_k] CLS_AUX (psort_nw.ctx r.2)) ;;;
      (if at_base then ret tt
       else with_ctx (mk_clause [lit_neg at_least_k; thl] CLS_AUX)) ;;;
      with_stats (th_stats.add_compiled
                    (psort_nw.m_num_compiled_vars (psort_nw.m_stats r.2))
                    (psort_nw.m_num_compiled_clauses (psort_nw.m_stats r.2))) ;;;
      put_ineq cv (ineq_set_compiled l_true c)
  end.

(** [restart_eh]: the queue is compiled in order and emptied. *)
Definition restart_eh (fuel : nat) (mt0 : psort_nw.cmp_t) : M theory_pb unit :=
  let* t := get_state in
  for_each (m_to_compile t) (compile_ineq fuel mt0) ;;;
  modify (set_to_compile []).

(** *** Scopes *)

(** The scope limits [m_ineqs_lim] and [m_assign_ineqs_lim] of the plugin:
    the sizes of the two trails at each [push_scope_eh]. *)
Record scopes := mk_scopes {
  m_ineqs_lim : list nat;
  m_assign_ineqs_lim : list nat }.

Definition push_scope_eh : M (theory_pb * scopes) unit :=
  modify (fun ts =>
    (ts.1,
     mk_scopes (m_ineqs_lim ts.2 ++ [length (m_ineqs_trail ts.1)])
       (m_assign_ineqs_lim ts.2 ++ [length (m_assign_ineqs_trail ts.1)]))).

(** The inner loop of [pop_scope_eh]: the first cell of the watch list that
    holds [cv] is swapped with the last one, which is popped. *)
Definition remove_watch (cv : bool_var) (l : list bool_var) : list bool_var :=
  match list_find (fun x => x = cv) l with
  | Some (j, _) => removelast (swap l j (length l - 1))
  | None => l
  end.

(** The inequality leaves the watch lists of its watched literals [lit(i)],
    [i] below [watch_size]; a missing list is a failing [VERIFY]. *)
Fixpoint unwatch (cv : bool_var) (c : ineq) (n i : nat) (w : gmap Z (list bool_var))
  : option (gmap Z (list bool_var)) :=
  match n with
  | O => Some w
  | S n' =>
      let key := index (lit_at c i) in
      match w !! key with
      | None => None
      | Some l => unwatch cv c n' (S i) (<[key := remove_watch cv l]> w)
      end
  end.

(** [while (m_assign_ineqs_trail.size() > sz)], with [n] the number of
    rounds.  The trail holds an inequality by its key: [get_ineq] is the
    dereference of the pointer. *)
Fixpoint pop_assign_ineqs (n : nat) : M theory_pb unit :=
  match n with
  | O => ret tt
  | S n' =>
      let* t := get_state in
      let* cv := lift_opt (last (m_assign_ineqs_trail t)) in
      let* c := get_ineq cv in
      let* w := lift_opt (unwatch cv c (m_watch_sz c) 0 (m_watch t)) in
      modify (set_watch w) ;;;
      modify (fun t => set_assign_ineqs_trail (removelast (m_assign_ineqs_trail t)) t) ;;;
      pop_assign_ineqs n'
  end.

(** [while (m_ineqs_trail.size() > sz)], with [n] the number of rounds;
    [get_ineq] is the [VERIFY] that the inequality is in the table. *)
Fixpoint pop_ineqs (n : nat) : M theory_pb unit :=
  match n with
  | O => ret tt
  | S n' =>
      let* t := get_state in
      let* v := lift_opt (last (m_ineqs_trail t)) in
      get_ineq v ;;;
      modify (fun t => set_ineqs (delete v (m_ineqs t)) t) ;;;
      modify (fun t => set_ineqs_trail (removelast (m_ineqs_trail t)) t) ;;;
      pop_ineqs n'
  end.

(** [lim.size() - num_scopes] is an [unsigned] difference. *)
Definition new_lim (lim : list nat) (num_scopes : nat) : nat :=
  Z.to_nat (u32 (Z.of_nat (length lim) - Z.of_nat num_scopes)).

Definition pop_scope_eh (num_scopes : nat) : M (theory_pb * scopes) unit :=
  fun ts =>
    let t := ts.1 in
    let sc := ts.2 in
    let n1 := new_lim (m_assign_ineqs_lim sc) num_scopes in
    match m_assign_ineqs_lim sc !! n1 with
    | None => None
    | Some sz1 =>
        match pop_assign_ineqs (length (m_assign_ineqs_trail t) - sz1) t with
        | None => None
        | Some (_, t1) =>
            let n2 := new_lim (m_ineqs_lim sc) num_scopes in
            match m_ineqs_lim sc !! n2 with
            | None => None
            | Some sz2 =>
                match pop_ineqs (length (m_ineqs_trail t1) - sz2) t1 with
                | None => None
                | Some (_, t2) =>
                    Some (tt, (t2, mk_scopes (take n2 (m_ineqs_lim sc))
                                     (take n1 (m_assign_ineqs_lim sc))))
                end
            end
        end
    end.

(** ** Vocabulary of the specification *)

(** The sum of the coefficients of the arguments whose value is true,
    counting positions from [i]. *)
Fixpoint true_sum (a : app) (i : nat) (values : list model_value) : numeral :=
  match values with
  | [] => 0
  | v :: vs =>
      (match v with mv_true => get_coeff a i | _ => 0 end) + true_sum a (S i) vs
  end.

Definition is_bool_value (v : model_value) : Prop := v = mv_true ∨ v = mv_false.

(** The comparison an atom makes between the sum of its true arguments and
    its [k]. *)
Definition satisfies (a : app) (sum : numeral) : Prop :=
  match get_decl_kind a with
  | OP_AT_MOST_K | OP_PB_LE => sum <= get_k a
  | OP_AT_LEAST_K | OP_PB_GE => get_k a <= sum
  | OP_OTHER => False
  end.

(** Binomial coefficients, by Pascal's rule. *)
Fixpoint binom (n k : nat) {struct n} : nat :=
  match n, k with
  | _, O => 1
  | O, S _ => 0
  | S n', S k' => binom n' k' + binom n' k
  end.

(** [f lo + f (lo+1) + ... + f (lo+n-1)] *)
Fixpoint sum_from (f : nat → nat) (lo n : nat) : nat :=
  match n with
  | O => 0
  | S n' => f lo + sum_from f (S lo) n'
  end.

(** The number of clauses [dsorting(m, n, xs)] emits in mode [mt]. *)
Definition dsorting_clauses (mt : psort_nw.cmp_t) (m n : nat) : nat :=
  ((if decide (mt ≠ psort_nw.GE) then sum_from (binom n) 1 m else 0)
   + (if decide (mt ≠ psort_nw.LE) then sum_from (fun k => binom n (n - k + 1)) 1 m else 0))%nat.

Definition is_aux_clause (e : event) : Prop :=
  ∃ lits, e = ev_mk_clause lits CLS_AUX.

(** From [s] to [s'] the network emitted [n] clauses and nothing else, and
    kept its mode. *)
Definition emits (s s' : psort_nw.t) (n : nat) : Prop :=
  psort_nw.m_t s' = psort_nw.m_t s
  ∧ ∃ new, m_log (psort_nw.ctx s') = m_log (psort_nw.ctx s) ++ new
           ∧ length new = n ∧ Forall is_aux_clause new.

(** No inequality, watch or compilation state is created between [t] and
    [t']. *)
Definition same_store (t t' : theory_pb) : Prop :=
  m_ineqs t' = m_ineqs t ∧ m_ineqs_trail t' = m_ineqs_trail t
  ∧ m_watch t' = m_watch t ∧ m_assign_ineqs_trail t' = m_assign_ineqs_trail t
  ∧ m_to_compile t' = m_to_compile t.

(** The watch invariant checked by [validate_watch]: the sum and the maximum
    (from 0) of the coefficients of the watched prefix. *)
Definition watch_inv (c : ineq) : Prop :=
  (m_watch_sz c <= length (m_args c))%nat
  ∧ m_watch_sum c = sum_coeffs (take (m_watch_sz c) (m_args c))
  ∧ m_max_watch c = max_coeffs (take (m_watch_sz c) (m_args c)).

Definition nonneg_coeffs (args : arg_t) : Prop := Forall (fun a => 0 <= a.2) args.

(** [c'] is [c] up to the propagation counter and the compilation state. *)
Definition same_watch (c c' : ineq) : Prop :=
  m_lit c' = m_lit c ∧ m_args c' = m_args c ∧ m_k c' = m_k c
  ∧ m_max_watch c' = m_max_watch c ∧ m_watch_sz c' = m_watch_sz c
  ∧ m_watch_sum c' = m_watch_sum c.

(** [c] with its watch metadata cleared, as [assign_ineq] does before it
    initialises the watches. *)
Definition clear_watch (c : ineq) : ineq :=
  ineq_set_max_watch 0 (ineq_set_watch_sz 0%nat (ineq_set_watch_sum 0 c)).

(** The literals of [c] at positions [lo <= j < hi] are false. *)
Definition false_between (ctx : context) (c : ineq) (lo hi : nat) : Prop :=
  ∀ j a, (lo <= j < hi)%nat → m_args c !! j = Some a →
         get_assignment ctx a.1 = l_false.

(** No watched literal of [c] is false. *)
Definition watched_not_false (ctx : context) (c : ineq) : Prop :=
  ∀ j a, (j < m_watch_sz c)%nat → m_args c !! j = Some a →
         get_assignment ctx a.1 ≠ l_false.

(** [c] after [inc_propagations], and whether it is queued for compilation. *)
Definition queued (c : ineq) : bool :=
  bool_decide (m_compiled c = l_false)
  && (m_compilation_threshold c <? u32 (m_num_propagations c + 1)).

Definition counted (c : ineq) : ineq :=
  let c1 := ineq_set_num_propagations (u32 (m_num_propagations c + 1)) c in
  if queued c then ineq_set_compiled l_undef c1 else c1.

(** The state after [inc_propagations(c)], for [c] stored at [cv]. *)
Definition after_inc_propagations (cv : bool_var) (c : ineq) (t : theory_pb)
  : theory_pb :=
  let t1 := set_ineqs (<[cv := counted c]> (m_ineqs t)) t in
  if queued c then set_to_compile (m_to_compile t ++ [cv]) t1 else t1.

(** The state after [add_assign(c, lits, l)]. *)
Definition after_add_assign (cv : bool_var) (c : ineq) (lits : list literal)
    (l : literal) (t : theory_pb) : theory_pb :=
  let t1 := after_inc_propagations cv c t in
  set_ctx (assign l cv lits (th_ctx t1))
    (set_stats (th_stats.inc_propagations (m_stats t1)) t1).


(** The propagations [ctx.assign(l, js)] of the literals of [args] that are
    undefined in [ctx] and selected by [sel], with the explanation [lits]. *)
Definition propagations (ctx : context) (cv : bool_var) (lits : list literal)
    (sel : Z → bool) (args : list (literal * Z)) : list event :=
  map (fun a => ev_assign a.1 cv lits)
    (filter (fun a => get_assignment ctx a.1 = l_undef ∧ sel a.2 = true) args).

(** The variables of the literals of an inequality are pairwise distinct
    and its coefficients are positive, as in a normalised inequality. *)
Definition distinct_vars (args : list (literal * Z)) : Prop :=
  NoDup (map (fun a => var a.1) args).

Definition pos_coeffs (args : list (literal * Z)) : Prop :=
  Forall (fun a => 0 < a.2) args.



(** The inequality [assign_ineq] works on: negated when the polarity of the
    assignment disagrees with its literal. *)
Definition oriented (c : ineq) (is_true : bool) : option ineq :=
  if bool_decide (sign (m_lit c) = is_true) then ineq_negate c else Some c.

(** The plugin state once [assign_ineq] has oriented [c0] into [c]: the
    negated inequality replaces [c0] in the store. *)
Definition oriented_state (cv : bool_var) (c0 c : ineq) (is_true : bool)
    (t0 : theory_pb) : theory_pb :=
  if bool_decide (sign (m_lit c0) = is_true)
  then set_ineqs (<[cv := c]> (m_ineqs t0)) t0 else t0.

(** The inequality and the watch lists after the promotion loop of
    [assign_watch], for the falsified literal at index [w] of [c]. *)
Definition promoted (ctx : context) (cv : bool_var) (c : ineq) (w : nat)
    (wm : gmap Z (list bool_var)) : ineq * gmap Z (list bool_var) :=
  promote ctx cv (coeff c w) (m_k c) (length (m_args c) - m_watch_sz c)
    (m_watch_sz c) (c, wm).

(** The plugin state with the inequality at [cv] and the watch lists
    replaced. *)
Definition store_watch (cv : bool_var) (cw : ineq * gmap Z (list bool_var))
    (t : theory_pb) : theory_pb :=
  set_watch cw.2 (set_ineqs (<[cv := cw.1]> (m_ineqs t)) t).

(** ** Example data

    A small host, in which the expression of a literal is its index, and the
    inequalities and states on which the theorems below are exercised. *)

Definition ex_compile_arg (e : expr) (ctx : context) : literal * context :=
  (mk_literal (e / 2) (Z.odd e), ctx).

Definition ex_literal2expr (ctx : context) (l : literal) : expr := index l.

Definition ex_x : literal := literal_of 1.
Definition ex_y : literal := literal_of 2.
Definition ex_z : literal := literal_of 3.
Definition ex_d : literal := literal_of 4.
Definition ex_p : literal := literal_of 10.

(** A plugin state with the host [ctx], the inequalities [ineqs], the
    conflict frequency [freq] and compilation enabled. *)
Definition ex_th (ctx : context) (ineqs : gmap bool_var ineq) (freq : Z) : theory_pb :=
  mk_theory_pb ctx ineqs [] ∅ [] [] [] (new_ineq null_literal) ∅ [] 0 0 []
    (th_stats.mk 0 0 0 0 0 0) true freq true.

(** A host with nothing assigned; the next fresh variable is 100. *)
Definition ex_ctx0 : context := mk_context ∅ ∅ 0 0 [] ∅ 100 ∅ ∅ [] [].

(** The atom [x + y + z >= k]. *)
Definition ex_atom (k : numeral) : app :=
  mk_app OP_PB_GE [index ex_x; index ex_y; index ex_z] [1; 1; 1] k.

(** [p => x + y >= 2], not watched yet; [x] is false at level 1 and then [p]
    is true at level 1, over the base level [base]. *)
Definition ex_c5 : ineq := mk_ineq ex_p [(ex_x, 1); (ex_y, 1)] 2 0 0 0 0 9 l_false.

Definition ex_ctx5 (base : nat) : context :=
  mk_context {[1 := false; 10 := true]} {[1 := 1%nat; 10 := 1%nat]} base 1
    [lit_neg ex_x; ex_p] {[10 := CLAUSE [ex_p; ex_x] false]} 100 ∅ ∅ [] [].

Definition ex_t5 (base : nat) : theory_pb := ex_th (ex_ctx5 base) {[10 := ex_c5]} 0.


Definition ex_ctx6 : context :=
  mk_context {[1 := false; 2 := false; 4 := true; 10 := true]}
    {[1 := 1%nat; 2 := 1%nat; 4 := 1%nat; 10 := 0%nat]} 0 1
    [ex_p; ex_d; lit_neg ex_x; lit_neg ex_y]
    {[1 := BIN_CLAUSE ex_d; 2 := CLAUSE [lit_neg ex_y; lit_neg ex_d] false]}
    100 ∅ ∅ [] [].


(** The same inequality before its activation, in the same host. *)
Definition ex_t6' (freq : Z) : theory_pb := ex_th ex_ctx6 {[10 := ex_c5]} freq.

(** [p => x + y + z >= 2] with the three literals watched; [p] is true at
    level 0 and [x] false at level 1. *)
Definition ex_c7 : ineq :=
  mk_ineq ex_p [(ex_x, 1); (ex_y, 1); (ex_z, 1)] 2 1 3 3 0 9 l_false.

Definition ex_ctx7 : context :=
  mk_context {[1 := false; 10 := true]} {[1 := 1%nat; 10 := 0%nat]} 0 1
    [ex_p; lit_neg ex_x] ∅ 100 ∅ ∅ [] [].

Definition ex_t7 : theory_pb :=
  set_watch {[index ex_x := [10]; index ex_y := [10]; index ex_z := [10]]}
    (ex_th ex_ctx7 {[10 := ex_c7]} 0).

(** The same inequality before its activation. *)
Definition ex_c7' : ineq :=
  mk_ineq ex_p [(ex_x, 1); (ex_y, 1); (ex_z, 1)] 2 0 0 0 0 9 l_false.

Definition ex_t7' : theory_pb := ex_th ex_ctx7 {[10 := ex_c7']} 0.

(** A sorting network in mode [mt] over the empty host, and [n] inputs. *)
Definition ex_nw (mt : psort_nw.cmp_t) : psort_nw.t :=
  psort_nw.mk ex_ctx0 mt (psort_nw.mk_stats 0 0).

Definition ex_xs (n : nat) : list literal :=
  map (fun i => literal_of (Z.of_nat i + 1)) (seq 0 n).


(** ** Vocabulary of the further properties *)

(** Every marked variable is recorded in [m_marked], the list [unset_marks]
    goes through. *)
Definition marked_inv (t : theory_pb) : Prop :=
  ∀ v, is_Some (m_conseq_index t !! v) → v ∈ m_marked t.

(** [n] calls of [inc_propagations(c)]. *)
Definition inc_propagations_n (cv : bool_var) (n : nat) : M theory_pb unit :=
  for_range 0 n (fun _ => inc_propagations cv).

(** *** Valuations

    A valuation gives every Boolean variable a value; an inequality holds in
    it when the coefficients of its true literals sum to at least [k]. *)

Definition lit_true (σ : bool_var → bool) (l : literal) : bool :=
  xorb (σ (var l)) (sign l).

Definition pb_sum (σ : bool_var → bool) (args : arg_t) : numeral :=
  sum_coeffs (filter (fun a => lit_true σ a.1 = true) args).

Definition pb_holds (σ : bool_var → bool) (args : arg_t) (k : numeral) : Prop :=
  k <= pb_sum σ args.

(** [lit(C)] implies [C]. *)
Definition reified (σ : bool_var → bool) (c : ineq) : Prop :=
  lit_true σ (m_lit c) = true → pb_holds σ (m_args c) (m_k c).

Definition clause_holds (σ : bool_var → bool) (lits : list literal) : Prop :=
  Exists (fun l => lit_true σ l = true) lits.

(** What an event of the log says: a clause holds, a propagated literal is
    true when its explanation is. *)
Definition event_holds (σ : bool_var → bool) (e : event) : Prop :=
  match e with
  | ev_mk_clause lits _ => clause_holds σ lits
  | ev_mk_th_axiom lits => clause_holds σ lits
  | ev_assign l _ lits => Forall (fun x => lit_true σ x = true) lits → lit_true σ l = true
  end.

(** The arguments of [c] with every literal complemented, as [negate]
    writes them. *)
Definition complemented (args : arg_t) : arg_t :=
  map (fun a => (lit_neg a.1, a.2)) args.

(** *** Runs of the sorting network

    From [s] to [s'] the network kept its mode and handed the host
    auxiliary clauses only. *)
Definition aux_only (s s' : psort_nw.t) : Prop := ∃ n, emits s s' n.

(** The host received auxiliary clauses only, whatever the mode became. *)
Definition aux_clauses_only (c c' : context) : Prop :=
  ∃ new, m_log c' = m_log c ++ new ∧ Forall is_aux_clause new.

(** In mode [mt], the construction [m] returns, with a result that satisfies
    [P]; it leaves the mode as it is and emits auxiliary clauses only. *)
Definition nw_ok {A} (mt : psort_nw.cmp_t) (m : M psort_nw.t A) (P : A → Prop) : Prop :=
  ∀ s, psort_nw.m_t s = mt →
       ∃ a s', m s = Some (a, s') ∧ P a ∧ aux_only s s'.

(** The number of clauses of one comparator. *)
Definition cmp_clauses (mt : psort_nw.cmp_t) : nat :=
  match mt with
  | psort_nw.LE | psort_nw.GE => 3
  | psort_nw.EQ => 6
  | psort_nw.GE_FULL | psort_nw.LE_FULL => 0
  end.

(** *** The index of the lemma

    [m_conseq_index] maps exactly the variables of the arguments of the
    lemma to their positions. *)
Definition indexed (index_ : gmap bool_var nat) (args : arg_t) : Prop :=
  ∀ v i, index_ !! v = Some i ↔ ∃ a, args !! i = Some a ∧ var a.1 = v.

Definition lemma_inv (t : theory_pb) : Prop :=
  indexed (m_conseq_index t) (m_args (m_lemma t)).

(** What a step of the conflict analysis on the lemma leaves alone. *)
Definition same_frame (t t' : theory_pb) : Prop :=
  th_ctx t' = th_ctx t ∧ m_ineqs t' = m_ineqs t
  ∧ m_learn_complements t' = m_learn_complements t
  ∧ m_conflict_lvl t' = m_conflict_lvl t
  ∧ m_ineq_literals t' = m_ineq_literals t.

(** *** Compilation *)

(** The number of inputs of the network of an inequality: every literal as
    often as its coefficient says. *)
Definition unrolled_size (args : arg_t) : nat :=
  foldr (fun a n => (Z.to_nat a.2 + n)%nat) 0%nat args.

(** [lit(C)] is assigned at the base level. *)
Definition assigned_at_base (ctx : context) (thl : literal) : Prop :=
  get_assignment ctx thl ≠ l_undef
  ∧ get_assign_level ctx (var thl) = get_base_level ctx.

(** The constant literal for a truth value. *)
Definition const_literal (b : bool) : literal :=
  if b then true_literal else false_literal.

(** Between [t] and [t'] an inequality of the table can only have become
    compiled. *)
Definition only_compiled (t t' : theory_pb) : Prop :=
  ∀ v, match m_ineqs t !! v with
       | Some c => m_ineqs t' !! v = Some c
                   ∨ m_ineqs t' !! v = Some (ineq_set_compiled l_true c)
       | None => m_ineqs t' !! v = None
       end.

(** Every queued inequality is in the table, and [fuel] is enough for the
    network of each. *)
Definition compilable (fuel : nat) (queue : list bool_var) (t : theory_pb) : Prop :=
  ∀ cv, cv ∈ queue →
    ∃ c, m_ineqs t !! cv = Some c ∧ (6 * unrolled_size (m_args c) + 8 <= fuel)%nat.

(** *** Scopes *)

(** The state after [vs] became the keys of the inequalities [cs], in this
    order, as [internalize_atom] stores them: each in the table and on the
    trail [m_ineqs_trail]. *)
Definition stored (vs : list bool_var) (cs : list ineq) (t : theory_pb) : theory_pb :=
  set_ineqs_trail (m_ineqs_trail t ++ vs)
    (set_ineqs (foldl (fun m vc => <[vc.1 := vc.2]> m) (m_ineqs t) (zip vs cs)) t).

(** The keys of the watch lists of the literals at the positions [i..i+n)
    of [c], and of its watched literals. *)
Definition watch_keys (c : ineq) (i n : nat) : list Z :=
  map (fun a => index a.1) (take n (drop i (m_args c))).

Definition watched_keys (c : ineq) : list Z := watch_keys c 0 (m_watch_sz c).

(** *** Further example data *)

(** The negation of [ex_c5]: [~p => ~x + ~y >= 1]. *)
Definition ex_c5_neg : ineq :=
  mk_ineq (lit_neg ex_p) [(lit_neg ex_x, 1); (lit_neg ex_y, 1)] 1 0 0 0 0 9 l_false.

(** A valuation in which [y], [z] and [p] are true and [x] is false. *)
Definition ex_sigma (v : bool_var) : bool := (v =? 2) || (v =? 3) || (v =? 10).

(** [ex_t5 0] with its inequality queued for compilation. *)
Definition ex_queue : theory_pb := set_to_compile [10] (ex_t5 0).

(** No scope is open. *)
Definition ex_sc : scopes := mk_scopes [] [].

(** A plugin state with the variables 1 and 2 marked, at the indices 0
    and 1. *)
Definition ex_marks : theory_pb :=
  set_marked [1; 2]
    (set_conseq_index (<[2 := 1%nat]> (<[1 := 0%nat]> ∅)) (ex_th ex_ctx0 ∅ 0)).

(** A plugin state in the middle of a conflict analysis: the lemma
    [x + y + 2z >= 2] with its three variables marked and indexed. *)
Definition ex_lemma3 : theory_pb :=
  set_num_marks 3
    (set_marked [1; 2; 3]
       (set_conseq_index (<[3 := 2%nat]> (<[2 := 1%nat]> (<[1 := 0%nat]> ∅)))
          (set_lemma (mk_ineq null_literal [(ex_x, 1); (ex_y, 1); (ex_z, 2)] 2
                        0 0 0 0 0 l_false)
             (ex_th ex_ctx6 ∅ 0)))).

(** *** The conflict analysis on a well-formed trail *)






















(** ** The model-value procedure *)

Lemma mk_value_sum_bool (a : app) (values : list model_value) :
  ∀ n i sum,
    (i + n = length values)%nat →
    Forall is_bool_value (drop i values) →
    mk_value_sum a n i values sum = Some (Some (sum + true_sum a i (drop i values))).
Proof.
  induction n as [|n IH]; intros i sum Hlen Hall.
  - rewrite drop_ge by lia. simpl. f_equal. f_equal. lia.
  - destruct (values !! i) as [v|] eqn:Hv.
    2:{ apply lookup_ge_None in Hv. lia. }
    rewrite (drop_S _ _ _ Hv) in Hall |- *.
    inversion Hall as [|? ? Hb Hrest]; subst.
    simpl. rewrite Hv.
    destruct Hb as [-> | ->].
    + rewrite IH by (done || lia). f_equal. f_equal. lia.
    + rewrite IH by (done || lia). f_equal.
Qed.

Lemma mk_value_sum_other (a : app) (values : list model_value) :
  ∀ n i sum j e,
    (i + n = length values)%nat →
    (i <= j)%nat →
    values !! j = Some (mv_other e) →
    mk_value_sum a n i values sum = Some None.
Proof.
  induction n as [|n IH]; intros i sum j e Hlen Hij Hj.
  - apply lookup_lt_Some in Hj. lia.
  - simpl. destruct (values !! i) as [v|] eqn:Hv.
    2:{ apply lookup_ge_None in Hv. lia. }
    destruct v as [| |e']; [| |done].
    + destruct (decide (i = j)) as [->|Hne]; [congruence|].
      apply (IH _ _ j e); [lia|lia|done].
    + destruct (decide (i = j)) as [->|Hne]; [congruence|].
      apply (IH _ _ j e); [lia|lia|done].
Qed.

(** C10. The model-value procedure returns the atom itself when the value of
    some argument is neither true nor false; when all values are Boolean it
    returns true exactly when the sum of the coefficients of the true
    arguments satisfies the comparison of the atom ([<= k] for at-most-k and
    pb-le, [>= k] for at-least-k and pb-ge), and false otherwise. *)
Theorem mk_value_spec (a : app) (values : list model_value) :
  length values = get_num_args a →
  ((∃ j e, values !! j = Some (mv_other e)) → mk_value a values = Some (val_app a))
  ∧ (Forall is_bool_value values →
     get_decl_kind a ≠ OP_OTHER →
     (mk_value a values = Some val_true ∧ satisfies a (true_sum a 0 values))
     ∨ (mk_value a values = Some val_false ∧ ¬ satisfies a (true_sum a 0 values))).
Proof.
  intros Hlen. split.
  - intros (j & e & Hj). unfold mk_value.
    rewrite (mk_value_sum_other a values _ 0%nat 0 j e); [done|lia|lia|done].
  - intros Hall Hkind. unfold mk_value.
    rewrite (mk_value_sum_bool a values _ 0%nat 0); [|lia|done].
    rewrite drop_0, Z.add_0_l. unfold satisfies.
    destruct (get_decl_kind a); try done; unfold of_bool;
      match goal with |- context [?x <=? ?y] => destruct (Z.leb_spec x y) end;
      (left; split; [done|lia]) || (right; split; [done|lia]).
Qed.

(** ** The direct sorting encoding *)

Lemma binom_lt n : ∀ k, (n < k)%nat → binom n k = 0%nat.
Proof.
  induction n as [|n IH]; intros [|k] H; simpl; try lia.
  rewrite !IH by lia. done.
Qed.

Lemma binom_diag n : binom n n = 1%nat.
Proof.
  induction n as [|n IH]; simpl; [done|]. rewrite IH, binom_lt by lia. done.
Qed.

Lemma binom_sym n : ∀ k, (k <= n)%nat → binom n k = binom n (n - k).
Proof.
  induction n as [|n IH]; intros k Hk.
  - by replace k with 0%nat by lia.
  - destruct k as [|k].
    + rewrite Nat.sub_0_r, binom_diag. done.
    + destruct (decide (k = n)) as [->|Hne].
      * rewrite Nat.sub_diag, binom_diag. done.
      * replace (S n - S k)%nat with (S (n - S k)) by lia.
        simpl. rewrite (IH k) by lia. rewrite (IH (S k)) by lia.
        replace (n - k)%nat with (S (n - S k)) by lia. lia.
Qed.

Lemma sum_from_ext f g lo n :
  (∀ i, (lo <= i < lo + n)%nat → f i = g i) → sum_from f lo n = sum_from g lo n.
Proof.
  revert lo. induction n as [|n IH]; intros lo H; simpl; [done|].
  rewrite H by lia. rewrite (IH (S lo)); [done|]. intros i Hi. apply H. lia.
Qed.

Lemma sum_from_shift f lo n :
  sum_from (fun i => f (S i)) lo n = sum_from f (S lo) n.
Proof. revert lo. induction n as [|n IH]; intros lo; simpl; [done|]. by rewrite IH. Qed.

Lemma sum_from_add f g lo n :
  sum_from (fun i => f i + g i)%nat lo n = (sum_from f lo n + sum_from g lo n)%nat.
Proof. revert lo. induction n as [|n IH]; intros lo; simpl; [done|]. rewrite IH. lia. Qed.

Lemma sum_from_snoc f lo n :
  sum_from f lo (S n) = (sum_from f lo n + f (lo + n)%nat)%nat.
Proof.
  revert lo. induction n as [|n IH]; intros lo.
  - simpl. replace (lo + 0)%nat with lo by lia. lia.
  - change (sum_from f lo (S (S n))) with (f lo + sum_from f (S lo) (S n))%nat.
    rewrite IH. replace (S lo + n)%nat with (lo + S n)%nat by lia. simpl. lia.
Qed.

Lemma sum_from_le f lo m n : (m <= n)%nat → (sum_from f lo m <= sum_from f lo n)%nat.
Proof.
  revert lo n. induction m as [|m IH]; intros lo n H; simpl; [lia|].
  destruct n as [|n]; [lia|]. simpl. specialize (IH (S lo) n). lia.
Qed.

Lemma sum_from_S f lo n : sum_from f lo (S n) = (f lo + sum_from f (S lo) n)%nat.
Proof. reflexivity. Qed.

Lemma binom_0 n : binom n 0 = 1%nat.
Proof. by destruct n. Qed.

Lemma sum_binom_row n : sum_from (binom n) 0 (S n) = (2 ^ n)%nat.
Proof.
  induction n as [|n IH]; [done|].
  rewrite sum_from_S, binom_0, <- sum_from_shift.
  rewrite (sum_from_ext _ (fun i => binom n i + binom n (S i))%nat) by done.
  rewrite sum_from_add, IH, sum_from_shift, sum_from_snoc.
  rewrite (binom_lt n (1 + n)) by lia.
  rewrite sum_from_S, binom_0 in IH.
  rewrite Nat.pow_succ_r'. lia.
Qed.

Lemma dsorting_clauses_bound mt m n :
  (m <= n)%nat → (dsorting_clauses mt m n <= 2 * (2 ^ n - 1))%nat.
Proof.
  intros Hmn. unfold dsorting_clauses.
  pose proof (sum_binom_row n) as Hrow.
  assert (sum_from (binom n) 1 m <= 2 ^ n - 1)%nat as H1.
  { pose proof (sum_from_le (binom n) 1 m n Hmn).
    rewrite sum_from_S, binom_0 in Hrow. lia. }
  assert (sum_from (fun k => binom n (n - k + 1)) 1 m <= 2 ^ n - 1)%nat as H2.
  { rewrite (sum_from_ext _ (fun k => binom n (Nat.pred k))).
    2:{ intros i Hi. rewrite (binom_sym n (n - i + 1)) by lia. f_equal. lia. }
    rewrite <- (sum_from_shift (fun k => binom n (Nat.pred k)) 0 m).
    rewrite (sum_from_ext _ (binom n)) by done.
    pose proof (sum_from_le (binom n) 0 m n Hmn).
    rewrite sum_from_snoc, binom_diag in Hrow. lia. }
  repeat case_decide; lia.
Qed.

Lemma emits_refl s : emits s s 0.
Proof. split; [done|]. exists []. by rewrite app_nil_r. Qed.

Lemma emits_trans s1 s2 s3 n m :
  emits s1 s2 n → emits s2 s3 m → emits s1 s3 (n + m).
Proof.
  intros [Ht1 (new1 & Hl1 & Hn1 & Hf1)] [Ht2 (new2 & Hl2 & Hn2 & Hf2)].
  split; [congruence|]. exists (new1 ++ new2). split; [|split].
  - rewrite Hl2, Hl1, app_assoc. done.
  - rewrite length_app. lia.
  - by apply Forall_app.
Qed.

Lemma add_clause_emits ls s :
  ∃ s', psort_nw.add_clause ls s = Some (tt, s') ∧ emits s s' 1.
Proof.
  eexists. split; [reflexivity|]. split; [done|].
  exists [ev_mk_clause ls CLS_AUX]. split; [done|]. split; [done|].
  repeat constructor. by exists ls.
Qed.

Lemma fresh_emits s :
  ∃ y s', psort_nw.fresh s = Some (y, s') ∧ emits s s' 0.
Proof.
  do 2 eexists. split; [reflexivity|]. split; [done|].
  exists []. simpl. by rewrite app_nil_r.
Qed.

Lemma fresh_n_emits m :
  ∀ s, ∃ out s', psort_nw.fresh_n m s = Some (out, s') ∧ length out = m ∧ emits s s' 0.
Proof.
  induction m as [|m IH]; intros s.
  - exists [], s. split; [done|]. split; [done|apply emits_refl].
  - destruct (fresh_emits s) as (y & s1 & Hy & He1).
    destruct (IH s1) as (ys & s2 & Hys & Hlen & He2).
    exists (y :: ys), s2. split; [|split].
    + simpl. unfold bind at 1. rewrite Hy. unfold bind at 1. rewrite Hys. done.
    + simpl. lia.
    + apply (emits_trans _ _ _ 0 0 He1 He2).
Qed.

Lemma for_range_emits (body : nat → M psort_nw.t unit) (f : nat → nat) :
  ∀ n lo s,
    (∀ i s, (lo <= i < lo + n)%nat → ∃ s', body i s = Some (tt, s') ∧ emits s s' (f i)) →
    ∃ s', for_range lo n body s = Some (tt, s') ∧ emits s s' (sum_from f lo n).
Proof.
  induction n as [|n IH]; intros lo s H.
  - exists s. split; [done|apply emits_refl].
  - destruct (H lo s) as (s1 & Hb & He1); [lia|].
    destruct (IH (S lo) s1) as (s2 & Hr & He2).
    { intros i s' Hi. apply H. lia. }
    exists s2. split.
    + simpl. unfold bind. rewrite Hb. done.
    + apply (emits_trans _ _ _ _ _ He1 He2).
Qed.

Lemma hockey_stick n k :
  ∀ c offset, (offset + c + k = n)%nat →
    sum_from (fun i => binom (n - (i + 1)) k) offset c = binom (n - offset) (S k).
Proof.
  induction c as [|c IH]; intros offset H.
  - simpl. rewrite binom_lt by lia. done.
  - simpl. rewrite IH by lia.
    replace (n - offset)%nat with (S (n - (offset + 1))) by lia.
    simpl. replace (n - S offset)%nat with (n - (offset + 1))%nat by lia. done.
Qed.

Lemma add_subset_emits polarity n xs :
  (n <= length xs)%nat →
  ∀ k offset lits s, (k + offset <= n)%nat →
    ∃ s', psort_nw.add_subset polarity k offset lits n xs s = Some (tt, s')
          ∧ emits s s' (binom (n - offset) k).
Proof.
  intros Hn. induction k as [|k IH]; intros offset lits s Hk.
  - simpl. destruct (n - offset)%nat; apply add_clause_emits.
  - simpl. destruct (Nat.ltb_spec (n + 1) (S k)) as [?|_]; [lia|].
    rewrite <- (hockey_stick n k (n + 1 - S k - offset) offset) by lia.
    apply for_range_emits. intros i s0 Hi.
    destruct (xs !! i) as [x|] eqn:Hx.
    2:{ apply lookup_ge_None in Hx. lia. }
    destruct (IH (i + 1)%nat
                (lits ++ [if polarity then lit_neg x else x]) s0) as (s' & Hs & He); [lia|].
    exists s'. split; [|done].
    unfold bind, lift_opt. done.
Qed.

Lemma dsorting_emits m n xs s :
  (m <= n)%nat → (n <= length xs)%nat →
  ∃ out s', psort_nw.dsorting m n xs s = Some (out, s')
            ∧ length out = m
            ∧ emits s s' (dsorting_clauses (psort_nw.m_t s) m n).
Proof.
  intros Hmn Hn.
  destruct (fresh_n_emits m s) as (out & s1 & Hout & Hlen & He1).
  assert (∃ s2, (if bool_decide (psort_nw.m_t s1 ≠ psort_nw.GE) then
                   for_range 1 m (fun k =>
                     let* y := lift_opt (out !! (k - 1)%nat) in
                     psort_nw.add_subset true k 0 [y] n xs)
                 else ret tt) s1 = Some (tt, s2)
               ∧ emits s1 s2 (if decide (psort_nw.m_t s ≠ psort_nw.GE)
                              then sum_from (binom n) 1 m else 0)) as (s2 & H2 & He2).
  { rewrite (proj1 He1).
    destruct (decide (psort_nw.m_t s ≠ psort_nw.GE)) as [Hd|Hd];
      [rewrite bool_decide_eq_true_2 by done|rewrite bool_decide_eq_false_2 by done].
    - apply for_range_emits. intros i s0 Hi.
      destruct (out !! (i - 1)%nat) as [y|] eqn:Hy.
      2:{ apply lookup_ge_None in Hy. lia. }
      destruct (add_subset_emits true n xs Hn i 0%nat [y] s0) as (s' & Hs & He); [lia|].
      rewrite Nat.sub_0_r in He.
      exists s'. split; [|done]. unfold bind, lift_opt. done.
    - exists s1. split; [done|apply emits_refl]. }
  assert (∃ s3, (if bool_decide (psort_nw.m_t s2 ≠ psort_nw.LE) then
                   for_range 1 m (fun k =>
                     let* y := lift_opt (out !! (k - 1)%nat) in
                     if (n + 1 <? k)%nat then fail
                     else psort_nw.add_subset false (n + 1 - k) 0 [lit_neg y] n xs)
                 else ret tt) s2 = Some (tt, s3)
               ∧ emits s2 s3 (if decide (psort_nw.m_t s ≠ psort_nw.LE)
                              then sum_from (fun k => binom n (n - k + 1)) 1 m else 0))
    as (s3 & H3 & He3).
  { rewrite (proj1 He2), (proj1 He1).
    destruct (decide (psort_nw.m_t s ≠ psort_nw.LE)) as [Hd|Hd];
      [rewrite bool_decide_eq_true_2 by done|rewrite bool_decide_eq_false_2 by done].
    - apply for_range_emits. intros i s0 Hi.
      destruct (out !! (i - 1)%nat) as [y|] eqn:Hy.
      2:{ apply lookup_ge_None in Hy. lia. }
      destruct (Nat.ltb_spec (n + 1) i) as [?|_]; [lia|].
      destruct (add_subset_emits false n xs Hn (n + 1 - i)%nat 0%nat [lit_neg y] s0)
        as (s' & Hs & He); [lia|].
      rewrite Nat.sub_0_r in He.
      replace (n + 1 - i)%nat with (n - i + 1)%nat in He by lia.
      exists s'. split; [|done]. unfold bind, lift_opt. done.
    - exists s2. split; [done|apply emits_refl]. }
  exists out, s3. split; [|split; [done|]].
  - unfold psort_nw.dsorting, psort_nw.mt_is_not.
    unfold bind at 1. rewrite Hout.
    unfold bind at 1. unfold bind at 1. unfold get_state, ret at 1.
    unfold bind at 1. rewrite H2.
    unfold bind at 1. unfold bind at 1. unfold get_state, ret at 1.
    unfold bind at 1. rewrite H3. done.
  - pose proof (emits_trans _ _ _ _ _ (emits_trans _ _ _ _ _ He1 He2) He3) as He.
    exact He.
Qed.

(** C8. For [m <= n], [dsorting(m, n, xs)] returns [m] fresh
    outputs and emits one clause per subset of size [k] of the inputs for
    each [k] in [1..m] when the mode is not GE, and one per subset of size
    [n-k+1] when the mode is not LE, and nothing else: at most [2^n - 1]
    clauses on each side, [2 * (2^n - 1)] in total. *)
Theorem dsorting_clause_count (m n : nat) (xs : list literal) (s : psort_nw.t) :
  (m <= n)%nat → (n <= length xs)%nat →
  ∃ out s',
    psort_nw.dsorting m n xs s = Some (out, s')
    ∧ length out = m
    ∧ emits s s' (dsorting_clauses (psort_nw.m_t s) m n)
    ∧ (dsorting_clauses (psort_nw.m_t s) m n <= 2 * (2 ^ n - 1))%nat.
Proof.
  intros Hmn Hn.
  destruct (dsorting_emits m n xs s Hmn Hn) as (out & s' & H & Hlen & He).
  exists out, s'. repeat split; try done.
  - apply He.
  - apply He.
  - by apply dsorting_clauses_bound.
Qed.

(** ** Dualisation in the entry points of the network *)

Lemma u32_small x : 0 <= x < 2 ^ 32 → u32 x = x.
Proof. intros H. unfold u32. by apply Z.mod_small. Qed.

Lemma array_length {A} (xs : list A) : array (length xs) xs = Some xs.
Proof. unfold array. rewrite Nat.leb_refl, firstn_all. done. Qed.

(** After a dualisation the dual instance is solved directly. *)
Lemma dualize_once (k n : nat) (xs : list literal) k' in_ :
  (k <= n)%nat → Z.of_nat n < 2 ^ 32 →
  psort_nw.dualize k n xs = Some (Some (k', in_)) →
  k' = (n - k)%nat ∧ psort_nw.dualize k' n in_ = Some None.
Proof.
  intros Hk Hn. unfold psort_nw.dualize.
  destruct (Z.leb_spec (u32 (2 * Z.of_nat k)) (Z.of_nat n)) as [|Hlt]; [done|].
  destruct (array n xs); [|done]. intros [= <- <-]. split; [done|].
  assert (2 * Z.of_nat k < 2 ^ 32 → False ∨ Z.of_nat n < 2 * Z.of_nat k) as Hcase.
  { intros Hs. right. rewrite u32_small in Hlt by lia. done. }
  destruct (Z.lt_ge_cases (2 * Z.of_nat k) (2 ^ 32)) as [Hs|Hs].
  - destruct (Hcase Hs) as [[]|Hlt'].
    rewrite u32_small by lia.
    destruct (Z.leb_spec (2 * Z.of_nat (n - k)) (Z.of_nat n)); [done|lia].
  - exfalso. unfold u32 in Hlt.
    assert ((2 * Z.of_nat k) mod 2 ^ 32 = 2 * Z.of_nat k - 2 ^ 32) as Hm.
    { symmetry. apply (Z.mod_unique_pos _ _ 1); lia. }
    lia.
Qed.

Lemma ge_rec_depth d fuel full k n xs s :
  Z.of_nat n < 2 ^ 32 →
  psort_nw.ge_rec (S (S d)) fuel full k n xs s = psort_nw.ge fuel full k n xs s.
Proof.
  intros Hn. unfold psort_nw.ge. simpl.
  destruct (Nat.ltb_spec n k) as [|Hk]; [done|].
  destruct (k =? 0)%nat; [done|].
  destruct (psort_nw.dualize k n xs) as [[[k' in_]|]|] eqn:Hd; [|done|done].
  destruct (dualize_once k n xs k' in_ Hk Hn Hd) as [-> Hd'].
  assert (length in_ = n) as Hlen.
  { unfold psort_nw.dualize in Hd. destruct (_ <=? _); [done|].
    unfold array in Hd. destruct (Nat.leb_spec n (length xs)); [|done].
    injection Hd as <-. rewrite length_map, length_take. lia. }
  rewrite Hlen. destruct d; simpl; rewrite Hd'; done.
Qed.

Lemma le_rec_depth d fuel full k n xs s :
  Z.of_nat n < 2 ^ 32 →
  psort_nw.le_rec (S (S d)) fuel full k n xs s = psort_nw.le fuel full k n xs s.
Proof.
  intros Hn. unfold psort_nw.le. simpl.
  destruct (Nat.leb_spec n k) as [|Hk]; [done|].
  destruct (psort_nw.dualize k n xs) as [[[k' in_]|]|] eqn:Hd; [|done|done].
  destruct (dualize_once k n xs k' in_ ltac:(lia) Hn Hd) as [-> Hd'].
  destruct (Nat.ltb_spec n (n - k)) as [|_]; [lia|].
  destruct (n - k =? 0)%nat; [by destruct d|].
  destruct d; simpl; rewrite Hd'; done.
Qed.

(** C4. For [0 < k <= n] and [2k > n] (a product that fits [unsigned]),
    [ge(full, k, n, xs)] is [le(full, n-k, n, xs')] with [xs'] the
    complemented inputs: same literal, same clauses, same final state.  The
    dual instance satisfies [2(n-k) <= n], so [le] solves it without a second
    dualisation, by [card(n-k+1, n, xs')]. *)
Theorem ge_dualize (fuel : nat) (full : bool) (k n : nat) (xs : list literal)
    (s : psort_nw.t) :
  (0 < k <= n)%nat → (n < 2 * k)%nat → 2 * Z.of_nat k < 2 ^ 32 → n = length xs →
  psort_nw.ge fuel full k n xs s
  = psort_nw.le fuel full (n - k) n (map lit_neg xs) s
  ∧ (2 * (n - k) <= n)%nat
  ∧ psort_nw.le fuel full (n - k) n (map lit_neg xs) s
    = (modify (psort_nw.set_m_t (if full then psort_nw.LE_FULL else psort_nw.LE)) ;;;
       let* out := psort_nw.card fuel (n - k + 1) n (map lit_neg xs) in
       let* y := lift_opt (out !! (n - k)%nat) in
       ret (lit_neg y)) s.
Proof.
  intros Hk H2k Hfit ->.
  assert (psort_nw.dualize k (length xs) xs
          = Some (Some ((length xs - k)%nat, map lit_neg xs))) as Hd.
  { unfold psort_nw.dualize. rewrite u32_small by lia.
    destruct (Z.leb_spec (2 * Z.of_nat k) (Z.of_nat (length xs))); [lia|].
    by rewrite array_length. }
  assert (psort_nw.dualize (length xs - k) (length xs) (map lit_neg xs) = Some None)
    as Hd'.
  { unfold psort_nw.dualize. rewrite u32_small by lia.
    destruct (Z.leb_spec (2 * Z.of_nat (length xs - k)) (Z.of_nat (length xs)));
      [done|lia]. }
  assert (∀ d, psort_nw.le_rec (S d) fuel full (length xs - k) (length xs)
                 (map lit_neg xs) s
               = (modify (psort_nw.set_m_t
                            (if full then psort_nw.LE_FULL else psort_nw.LE)) ;;;
                  let* out := psort_nw.card fuel (length xs - k + 1) (length xs)
                                (map lit_neg xs) in
                  let* y := lift_opt (out !! (length xs - k)%nat) in
                  ret (lit_neg y)) s) as Hle.
  { intros d. simpl.
    destruct (Nat.leb_spec (length xs) (length xs - k)); [lia|].
    rewrite Hd'. done. }
  split; [|split; [lia|apply Hle]].
  unfold psort_nw.ge, psort_nw.le. rewrite (Hle 1%nat).
  simpl psort_nw.ge_rec.
  destruct (Nat.ltb_spec (length xs) k); [lia|].
  destruct (Nat.eqb_spec k 0); [lia|].
  rewrite Hd, length_map. destruct (Nat.leb_spec (length xs) (length xs - k)); [lia|].
  rewrite Hd'. done.
Qed.

(** ** Internalisation *)

Lemma threshold_loop_spec (sz : Z) :
  0 <= sz < 2 ^ 31 →
  ∀ fuel j,
    0 <= j <= 31 → (j = 0 ∨ 2 ^ (j - 1) <= sz) → 33 <= Z.of_nat fuel + j →
    threshold_loop fuel (j + 1) (2 ^ j) sz = Some (Z.log2_up (sz + 1) + 1).
Proof.
  intros Hsz. induction fuel as [|fuel IH]; intros j Hj Hprev Hfuel; [lia|].
  simpl. destruct (Z.leb_spec (2 ^ j) sz) as [Hle|Hgt].
  - assert (j <= 30) as Hj30.
    { destruct (Z.le_gt_cases j 30) as [|Hbig]; [done|].
      assert (2 ^ 31 <= 2 ^ j) by (apply Z.pow_le_mono_r; lia). lia. }
    assert (2 ^ (j + 1) < 2 ^ 32) as Hp by (apply Z.pow_lt_mono_r; lia).
    assert (0 < 2 ^ j) as Hpos by (apply Z.pow_pos_nonneg; lia).
    rewrite (u32_small (j + 1 + 1)) by lia.
    replace (2 ^ j * 2) with (2 ^ (j + 1))
      by (rewrite Z.pow_add_r by lia; change (2 ^ 1) with 2; lia).
    rewrite (u32_small (2 ^ (j + 1))) by (split; [apply Z.pow_nonneg|]; lia).
    apply IH; [lia| |lia].
    right. by replace (j + 1 - 1) with j by lia.
  - f_equal. f_equal. symmetry.
    destruct (Z.eq_dec j 0) as [->|Hj0].
    + simpl in Hgt. replace sz with 0 by lia. done.
    + destruct Hprev as [?|Hprev]; [done|].
      apply Z.log2_up_unique; [lia|].
      split; [|lia]. replace (Z.pred j) with (j - 1) by lia. lia.
Qed.

Lemma compilation_threshold_spec (n : nat) :
  Z.of_nat n < 2 ^ 31 →
  compilation_threshold n
  = Some (u32 (Z.of_nat n * (Z.log2_up (Z.of_nat n + 1) + 1))).
Proof.
  intros Hn. unfold compilation_threshold.
  change (threshold_loop 34 1 1 (Z.of_nat n))
    with (threshold_loop 34 (0 + 1) (2 ^ 0) (Z.of_nat n)).
  rewrite (threshold_loop_spec (Z.of_nat n) ltac:(lia) 34 0); [done|lia|by left|lia].
Qed.

Lemma forallb_max_coeffs (args : arg_t) :
  forallb (fun a => a.2 <? 8) args = (max_coeffs args <? 8).
Proof.
  induction args as [|a args IH]; [done|].
  simpl. rewrite IH.
  destruct (Z.ltb_spec (a.2) 8), (Z.ltb_spec (max_coeffs args) 8),
    (Z.ltb_spec (Z.max a.2 (max_coeffs args)) 8); try done; lia.
Qed.

(** What [internalize_atom] does up to the verdict of [normalize], for an
    atom that is not internalised yet. *)
Lemma internalize_atom_unfold (atom : app) (t : theory_pb) :
  b_internalized (th_ctx t) atom = false →
  internalize_atom atom t
  = (let abv := m_num_bool_vars (th_ctx t) in
     let r := compile_args (get_args atom)
                (set_atom_var atom abv (mk_bool_var (th_ctx t)).2) in
     let ac := atom_ineq atom abv r.1 in
     let c := ac.2 in
     let lit := literal_of abv in
     match ac.1 with
     | l_false => with_ctx (mk_th_axiom [lit_neg lit]) ;;; ret true
     | l_true => with_ctx (mk_th_axiom [lit]) ;;; ret true
     | l_undef =>
         if m_k c =? 1 then
           get_lits ;;;
           push_literal (lit_neg lit) ;;;
           for_each (m_args c) (fun a =>
             push_literal a.1 ;;;
             with_ctx (mk_th_axiom [lit; lit_neg a.1])) ;;;
           let* t := get_state in
           with_ctx (mk_th_axiom (m_literals t)) ;;;
           ret true
         else
           let c := ineq_set_max_watch (max_coeffs (m_args c)) c in
           let enable_compile :=
             m_enable_compilation t && forallb (fun a => a.2 <? 8) (m_args c) in
           let* th :=
             (if enable_compile
              then lift_opt (compilation_threshold (length (m_args c)))
              else ret UINT_MAX) in
           let c := ineq_set_compilation_threshold th c in
           put_ineq abv c ;;;
           modify (fun t => set_ineqs_trail (m_ineqs_trail t ++ [abv]) t) ;;;
           ret true
     end)
      (set_ctx (compile_args (get_args atom)
                  (set_atom_var atom (m_num_bool_vars (th_ctx t))
                     (mk_bool_var (th_ctx t)).2)).2
         (set_stats (th_stats.inc_predicates (m_stats t)) t)).
Proof.
  intros Hb. unfold internalize_atom.
  unfold bind at 1. unfold get_state at 1. rewrite Hb.
  unfold bind at 1. unfold with_stats at 1, modify at 1.
  unfold bind at 1. unfold with_ctx at 1, modify at 1.
  reflexivity.
Qed.

(** C6. When [normalize] returns unsat, internalisation emits the unit axiom
    [~lit(C)]; when it returns sat, the unit axiom [lit(C)]; in both cases
    nothing else is emitted after the arguments are compiled and the
    inequality is dropped: the table of inequalities, the watch lists, the
    trails and the compile queue are as before. *)
Theorem internalize_atom_trivial (atom : app) (t : theory_pb) :
  let abv := m_num_bool_vars (th_ctx t) in
  let r := compile_args (get_args atom)
             (set_atom_var atom abv (mk_bool_var (th_ctx t)).2) in
  let is_true := (atom_ineq atom abv r.1).1 in
  b_internalized (th_ctx t) atom = false →
  is_true ≠ l_undef →
  ∃ t', internalize_atom atom t = Some (true, t')
        ∧ m_log (th_ctx t')
          = m_log r.2
            ++ [ev_mk_th_axiom
                  [if decide (is_true = l_false)
                   then lit_neg (literal_of abv) else literal_of abv]]
        ∧ same_store t t'.
Proof.
  intros abv r is_true Hb Hne.
  rewrite (internalize_atom_unfold atom t Hb).
  cbv zeta. fold abv. fold r. fold is_true.
  destruct is_true; [|done|]; eexists; (split; [reflexivity|]); split; done.
Qed.

Lemma clause_loop (lit : literal) (args : arg_t) :
  ∀ t, ∃ t',
    for_each args (fun a =>
      push_literal a.1 ;;; with_ctx (mk_th_axiom [lit; lit_neg a.1])) t
    = Some (tt, t')
    ∧ m_literals t' = m_literals t ++ map fst args
    ∧ m_log (th_ctx t')
      = m_log (th_ctx t) ++ map (fun a => ev_mk_th_axiom [lit; lit_neg a.1]) args
    ∧ same_store t t'.
Proof.
  induction args as [|a args IH]; intros t.
  - exists t. simpl. rewrite !app_nil_r. done.
  - destruct (IH (set_ctx (mk_th_axiom [lit; lit_neg a.1] (th_ctx t))
                    (set_literals (m_literals t ++ [a.1]) t)))
      as (t' & Hrun & Hlits & Hlog & Hst).
    exists t'. split; [|split; [|split]].
    + simpl. unfold bind at 1. exact Hrun.
    + rewrite Hlits. simpl. by rewrite <- app_assoc.
    + rewrite Hlog. simpl. by rewrite <- app_assoc.
    + exact Hst.
Qed.

(** C7. When the normalised inequality has threshold 1, internalisation
    emits, after the arguments are compiled, exactly one axiom
    [(lit(C) or ~l_i)] for each literal and the axiom
    [(~lit(C) or l_1 or ... or l_n)], and stores nothing. *)
Theorem internalize_atom_clause (atom : app) (t : theory_pb) :
  let abv := m_num_bool_vars (th_ctx t) in
  let r := compile_args (get_args atom)
             (set_atom_var atom abv (mk_bool_var (th_ctx t)).2) in
  let ac := atom_ineq atom abv r.1 in
  let lit := literal_of abv in
  b_internalized (th_ctx t) atom = false →
  ac.1 = l_undef →
  m_k ac.2 = 1 →
  ∃ t', internalize_atom atom t = Some (true, t')
        ∧ m_log (th_ctx t')
          = m_log r.2
            ++ map (fun a => ev_mk_th_axiom [lit; lit_neg a.1]) (m_args ac.2)
            ++ [ev_mk_th_axiom (lit_neg lit :: map fst (m_args ac.2))]
        ∧ same_store t t'.
Proof.
  intros abv r ac lit Hb Hundef Hk.
  rewrite (internalize_atom_unfold atom t Hb).
  cbv zeta. fold abv. fold r. fold ac. fold lit. rewrite Hundef, Hk. simpl (1 =? 1).
  cbv iota.
  set (t0 := set_ctx r.2 (set_stats (th_stats.inc_predicates (m_stats t)) t)).
  destruct (clause_loop lit (m_args ac.2)
              (set_literals ([] ++ [lit_neg lit]) (set_literals [] t0)))
    as (t1 & Hrun & Hlits & Hlog & Hst).
  eexists. split; [|split].
  - unfold bind at 1. unfold get_lits at 1, modify at 1.
    unfold bind at 1. unfold push_literal at 1, modify at 1.
    unfold bind at 1. simpl m_literals at 1. rewrite Hrun.
    reflexivity.
  - simpl. rewrite Hlog, Hlits. simpl. by rewrite <- app_assoc.
  - simpl. exact Hst.
Qed.

(** C3. An inequality that is stored at internalisation with [n]
    arguments ([n < 2^31]) gets the compilation threshold
    [n * (ceil(log2(n+1)) + 1)] (as an [unsigned] product) when compilation is
    enabled and the maximal coefficient is below 8, and [UINT_MAX] when
    compilation is disabled or some coefficient is 8 or larger. *)
Theorem internalize_atom_threshold (atom : app) (t : theory_pb) :
  let abv := m_num_bool_vars (th_ctx t) in
  let r := compile_args (get_args atom)
             (set_atom_var atom abv (mk_bool_var (th_ctx t)).2) in
  let ac := atom_ineq atom abv r.1 in
  let n := Z.of_nat (length (m_args ac.2)) in
  b_internalized (th_ctx t) atom = false →
  ac.1 = l_undef →
  m_k ac.2 ≠ 1 →
  n < 2 ^ 31 →
  ∃ t' c,
    internalize_atom atom t = Some (true, t')
    ∧ m_ineqs t' !! abv = Some c
    ∧ m_args c = m_args ac.2
    ∧ (m_enable_compilation t = true → max_coeffs (m_args c) < 8 →
       m_compilation_threshold c = u32 (n * (Z.log2_up (n + 1) + 1)))
    ∧ (m_enable_compilation t = false ∨ 8 <= max_coeffs (m_args c) →
       m_compilation_threshold c = UINT_MAX).
Proof.
  intros abv r ac n Hb Hundef Hk Hn.
  rewrite (internalize_atom_unfold atom t Hb).
  cbv zeta. fold abv. fold r. fold ac. rewrite Hundef.
  destruct (Z.eqb_spec (m_k ac.2) 1) as [|_]; [done|].
  cbv iota. clearbody ac. clearbody r. clearbody abv.
  simpl m_args. rewrite forallb_max_coeffs.
  destruct (m_enable_compilation t) eqn:Hen;
    destruct (Z.ltb_spec (max_coeffs (m_args ac.2)) 8) as [Hlt|Hge]; simpl andb; cbv iota.
  - unfold bind at 1, lift_opt at 1.
    rewrite (compilation_threshold_spec _ Hn). fold n.
    eexists _, _. split; [reflexivity|]. simpl.
    rewrite lookup_insert_eq. split; [reflexivity|]. simpl.
    split; [done|]. split; [done|]. intros [?|?]; [done|lia].
  - eexists _, _. split; [reflexivity|]. simpl.
    rewrite lookup_insert_eq. split; [reflexivity|]. simpl.
    split; [done|]. split; [lia|done].
  - eexists _, _. split; [reflexivity|]. simpl.
    rewrite lookup_insert_eq. split; [reflexivity|]. simpl.
    split; [done|]. split; [done|done].
  - eexists _, _. split; [reflexivity|]. simpl.
    rewrite lookup_insert_eq. split; [reflexivity|]. simpl.
    split; [done|]. split; [done|done].
Qed.

(** ** The watch metadata *)

Lemma insert_cons_Permutation {A} (l : list A) :
  ∀ j b x, l !! j = Some b → b :: <[j := x]> l ≡ₚ x :: l.
Proof.
  induction l as [|y l IH]; intros [|j] b x H; simplify_eq/=.
  - apply perm_swap.
  - rewrite perm_swap, (IH j b x H). apply perm_swap.
Qed.

Lemma swap_Permutation {A} (l : list A) : ∀ i j, swap l i j ≡ₚ l.
Proof.
  intros i j. unfold swap.
  destruct (l !! i) as [a|] eqn:Hi; [|done].
  destruct (l !! j) as [b|] eqn:Hj; [|done].
  revert i j a b Hi Hj. induction l as [|x l IH]; intros [|i] [|j] a b Hi Hj;
    simplify_eq/=; try done.
  - by apply insert_cons_Permutation.
  - by apply insert_cons_Permutation.
  - by rewrite (IH i j a b).
Qed.

Lemma swap_length {A} (l : list A) i j : length (swap l i j) = length l.
Proof. unfold swap. repeat case_match; by rewrite ?length_insert. Qed.

Lemma sum_coeffs_app (l1 l2 : arg_t) :
  sum_coeffs (l1 ++ l2) = sum_coeffs l1 + sum_coeffs l2.
Proof. induction l1 as [|a l1 IH]; simpl; [done|]. rewrite IH. lia. Qed.

Lemma max_coeffs_app (l1 l2 : arg_t) :
  max_coeffs (l1 ++ l2) = Z.max (max_coeffs l1) (max_coeffs l2).
Proof.
  induction l1 as [|a l1 IH]; simpl.
  - assert (0 <= max_coeffs l2) by (induction l2; simpl; lia). lia.
  - rewrite IH. lia.
Qed.

Lemma max_coeffs_nonneg (l : arg_t) : 0 <= max_coeffs l.
Proof. induction l; simpl; lia. Qed.

Lemma sum_coeffs_Permutation (l1 l2 : arg_t) :
  l1 ≡ₚ l2 → sum_coeffs l1 = sum_coeffs l2.
Proof. induction 1; simpl; lia. Qed.

Lemma max_coeffs_Permutation (l1 l2 : arg_t) :
  l1 ≡ₚ l2 → max_coeffs l1 = max_coeffs l2.
Proof. induction 1; simpl; lia. Qed.

Lemma coeff_lookup (c : ineq) i a : m_args c !! i = Some a → coeff c i = a.2.
Proof. intros H. unfold coeff. by rewrite (nth_lookup_Some _ _ _ _ H). Qed.

Lemma lit_at_lookup (c : ineq) i a : m_args c !! i = Some a → lit_at c i = a.1.
Proof. intros H. unfold lit_at. by rewrite (nth_lookup_Some _ _ _ _ H). Qed.

(** The watched prefix after [add_watch(c, i)]. *)
Lemma add_watch_prefix (c : ineq) (i : nat) a :
  (m_watch_sz c <= i)%nat → m_args c !! i = Some a →
  take (S (m_watch_sz c)) (m_args (add_watch_ineq c i))
  = take (m_watch_sz c) (m_args c) ++ [a].
Proof.
  intros Hsz Hi. unfold add_watch_ineq. simpl.
  destruct (Nat.ltb_spec (m_watch_sz c) i) as [Hlt|Hge].
  - unfold swap. rewrite Hi.
    destruct (m_args c !! m_watch_sz c) as [b|] eqn:Hb.
    2:{ apply lookup_ge_None in Hb. apply lookup_lt_Some in Hi. lia. }
    rewrite take_insert_ge by lia.
    rewrite (take_S_r _ _ a).
    2:{ apply list_lookup_insert_eq. by eapply lookup_lt_Some. }
    by rewrite take_insert_ge.
  - replace i with (m_watch_sz c) in Hi by lia. by apply take_S_r.
Qed.

Lemma add_watch_ineq_inv (c : ineq) (i : nat) :
  watch_inv c → (m_watch_sz c <= i < length (m_args c))%nat →
  watch_inv (add_watch_ineq c i).
Proof.
  intros (Hsz & Hsum & Hmax) Hi.
  destruct (m_args c !! i) as [a|] eqn:Ha.
  2:{ apply lookup_ge_None in Ha. lia. }
  pose proof (add_watch_prefix c i a ltac:(lia) Ha) as Hp.
  assert (length (m_args (add_watch_ineq c i)) = length (m_args c)) as Hlen.
  { unfold add_watch_ineq. simpl. case_match; by rewrite ?swap_length. }
  split; [|split].
  - rewrite Hlen. simpl. lia.
  - change (m_watch_sz (add_watch_ineq c i)) with (S (m_watch_sz c)).
    rewrite Hp, sum_coeffs_app. simpl. rewrite (coeff_lookup c i a Ha), Hsum. lia.
  - change (m_watch_sz (add_watch_ineq c i)) with (S (m_watch_sz c)).
    pose proof (max_coeffs_nonneg (take (m_watch_sz c) (m_args c))) as Hnn.
    rewrite Hp, max_coeffs_app. simpl. rewrite (coeff_lookup c i a Ha).
    rewrite <- Hmax in Hnn |- *.
    destruct (Z.ltb_spec (m_max_watch c) a.2); lia.
Qed.

Lemma add_watch_ineq_Permutation (c : ineq) i :
  m_args (add_watch_ineq c i) ≡ₚ m_args c.
Proof. unfold add_watch_ineq. simpl. case_match; [apply swap_Permutation|done]. Qed.

Lemma add_watch_ineq_frame (c : ineq) i :
  m_lit (add_watch_ineq c i) = m_lit c ∧ m_k (add_watch_ineq c i) = m_k c
  ∧ length (m_args (add_watch_ineq c i)) = length (m_args c).
Proof.
  split; [done|]. split; [done|].
  by rewrite (Permutation_length (add_watch_ineq_Permutation c i)).
Qed.

(** Positions below the watched prefix are not moved by [add_watch]. *)
Lemma add_watch_ineq_lookup_lt (c : ineq) i j :
  (m_watch_sz c <= i)%nat → (j < m_watch_sz c)%nat →
  m_args (add_watch_ineq c i) !! j = m_args c !! j.
Proof.
  intros Hi Hj. unfold add_watch_ineq. simpl. case_match; [|done].
  unfold swap. repeat case_match; try done.
  rewrite !list_lookup_insert_ne by lia. done.
Qed.

(** The loop that recomputes the maximum: over a non-empty prefix of
    non-negative coefficients bounded by the former maximum. *)
Lemma del_watch_max_spec (c : ineq) :
  let q := take (m_watch_sz c) (m_args c) in
  (m_watch_sz c <= length (m_args c))%nat →
  nonneg_coeffs q →
  max_coeffs q <= m_max_watch c →
  ∀ n i coeff0,
    (1 <= i <= m_watch_sz c)%nat → (m_watch_sz c <= i + n)%nat →
    coeff0 = max_coeffs (take i q) →
    del_watch_max n i c coeff0 = max_coeffs q.
Proof.
  intros q Hlen Hnn Hbound. induction n as [|n IH]; intros i coeff0 Hi Hn Hc.
  - simpl. subst coeff0. replace i with (m_watch_sz c) by lia.
    rewrite take_ge; [done|]. unfold q. rewrite length_take. lia.
  - simpl. destruct (Z.eqb_spec coeff0 (m_max_watch c)) as [Heq|Hne]; simpl.
    + assert (max_coeffs (take i q) <= max_coeffs q) as Hle.
      { rewrite <- (take_drop i q) at 2. rewrite max_coeffs_app. lia. }
      lia.
    + destruct (Nat.ltb_spec i (m_watch_sz c)) as [Hlt|Hge].
      * apply IH; [lia|lia|].
        destruct (q !! i) as [a|] eqn:Ha.
        2:{ apply lookup_ge_None in Ha. unfold q in Ha. rewrite length_take in Ha. lia. }
        rewrite (take_S_r _ _ a Ha), max_coeffs_app. simpl.
        assert (m_args c !! i = Some a) as Ha'.
        { unfold q in Ha. by rewrite lookup_take_lt in Ha. }
        rewrite (coeff_lookup c i a Ha'). subst coeff0.
        assert (0 <= a.2).
        { unfold nonneg_coeffs in Hnn. rewrite Forall_lookup in Hnn. by apply (Hnn i). }
        destruct (Z.ltb_spec (max_coeffs (take i q)) a.2); lia.
      * subst coeff0. replace i with (m_watch_sz c) by lia.
        rewrite take_ge; [done|]. unfold q. rewrite length_take. lia.
Qed.

(** The watched prefix after [del_watch] is the former one without the
    coefficient at [i], as a multiset. *)
Lemma del_watch_prefix (args : arg_t) (sz i : nat) a :
  (i < sz)%nat → (sz <= length args)%nat → args !! i = Some a →
  a :: take (sz - 1) (if (i + 1 <? sz)%nat then swap args i (sz - 1) else args)
  ≡ₚ take sz args.
Proof.
  intros Hi Hsz Ha.
  destruct (args !! (sz - 1)%nat) as [b|] eqn:Hb.
  2:{ apply lookup_ge_None in Hb. lia. }
  assert (take sz args = take (sz - 1) args ++ [b]) as ->.
  { replace sz with (S (sz - 1)) at 1 by lia. by apply take_S_r. }
  destruct (Nat.ltb_spec (i + 1) sz) as [Hlt|Hge].
  - unfold swap. rewrite Ha, Hb.
    rewrite take_insert_lt by lia. rewrite take_insert_ge by lia.
    rewrite (insert_cons_Permutation (take (sz - 1) args) i a b).
    2:{ by rewrite lookup_take_lt by lia. }
    by rewrite Permutation_cons_append.
  - replace (sz - 1)%nat with i in Hb |- * by lia.
    simplify_eq. apply Permutation_cons_append.
Qed.

Lemma del_watch_ineq_inv (c : ineq) (i : nat) :
  watch_inv c → nonneg_coeffs (m_args c) → (i < m_watch_sz c)%nat →
  0 < m_k c → m_k c <= m_watch_sum c - coeff c i →
  ∃ c', del_watch_ineq c i = Some c'
        ∧ watch_inv c' ∧ m_k c' = m_k c ∧ m_lit c' = m_lit c
        ∧ m_args c' ≡ₚ m_args c
        ∧ m_watch_sz c' = (m_watch_sz c - 1)%nat
        ∧ m_watch_sum c' = m_watch_sum c - coeff c i
        ∧ m_k c' <= m_watch_sum c'.
Proof.
  intros (Hsz & Hsum & Hmax) Hnn Hi Hk Hguard.
  destruct (m_args c !! i) as [a|] eqn:Ha.
  2:{ apply lookup_ge_None in Ha. lia. }
  rewrite (coeff_lookup c i a Ha) in Hguard |- *.
  set (args' := if (i + 1 <? m_watch_sz c)%nat
                then swap (m_args c) i (m_watch_sz c - 1) else m_args c).
  pose proof (del_watch_prefix (m_args c) (m_watch_sz c) i a Hi Hsz Ha) as Hp.
  fold args' in Hp. set (q := take (m_watch_sz c - 1) args') in *.
  assert (args' ≡ₚ m_args c) as Hperm.
  { unfold args'. case_match; [apply swap_Permutation|done]. }
  assert (sum_coeffs q = m_watch_sum c - a.2) as Hsumq.
  { rewrite Hsum, <- (sum_coeffs_Permutation _ _ Hp). simpl. lia. }
  assert (Z.max a.2 (max_coeffs q) = m_max_watch c) as Hmaxq.
  { rewrite Hmax, <- (max_coeffs_Permutation _ _ Hp). done. }
  assert (nonneg_coeffs q) as Hnnq.
  { unfold q, nonneg_coeffs. apply Forall_take. unfold nonneg_coeffs in Hnn.
    by rewrite Hperm. }
  assert (q ≠ []) as Hq.
  { intros Hq. rewrite Hq in Hsumq. simpl in Hsumq. lia. }
  set (c1 := mk_ineq (m_lit c) args' (m_k c) (m_max_watch c) (m_watch_sz c - 1)
               (m_watch_sum c - a.2) (m_num_propagations c)
               (m_compilation_threshold c) (m_compiled c)).
  assert (length args' = length (m_args c)) as Hlen by by rewrite Hperm.
  assert (max_coeffs q <= m_max_watch c) as Hb by lia.
  assert (m_max_watch c = a.2 →
          del_watch_max (m_watch_sz c - 1) 1 c1 (coeff c1 0) = max_coeffs q) as Hloop.
  { intros _. apply (del_watch_max_spec c1); simpl; try done; try lia.
    - assert (0 < length q)%nat by (destruct q; simpl; [done|lia]).
      unfold q in H. rewrite length_take in H. lia.
    - destruct q as [|b q'] eqn:Eq; [done|].
      assert (args' !! 0%nat = Some b) as H0.
      { assert (q !! 0%nat = Some b) as Hq0 by by rewrite Eq.
        unfold q in Hq0. rewrite lookup_take_lt in Hq0; [done|].
        assert (0 < length q)%nat by (rewrite Eq; simpl; lia).
        unfold q in H. rewrite length_take in H. lia. }
      rewrite (coeff_lookup c1 0 b H0).
      fold q. rewrite Eq. simpl.
      assert (0 <= b.2) by (by inversion Hnnq).
      lia. }
  unfold del_watch_ineq.
  destruct (Nat.ltb_spec i (m_watch_sz c)) as [_|?]; [|lia].
  rewrite (coeff_lookup c i a Ha). fold args'. fold c1.
  change (m_max_watch c1) with (m_max_watch c).
  change (m_watch_sz c1) with (m_watch_sz c - 1)%nat.
  destruct (Z.eqb_spec (m_max_watch c) a.2) as [Heq|Hne].
  - eexists. split; [reflexivity|].
    rewrite (Hloop Heq). simpl.
    split; [|repeat split; try done; lia].
    split; [simpl; lia|]. split; simpl; fold q; [by rewrite Hsumq|done].
  - eexists. split; [reflexivity|]. simpl.
    split; [|repeat split; try done; lia].
    split; [simpl; lia|]. split; simpl; fold q; [by rewrite Hsumq|].
    pose proof (max_coeffs_nonneg q). lia.
Qed.

Lemma swap_lookup_l {A} (l : list A) i j a b :
  l !! i = Some a → l !! j = Some b → swap l i j !! i = Some b.
Proof.
  intros Hi Hj. unfold swap. rewrite Hi, Hj.
  apply list_lookup_insert_eq. rewrite length_insert. by eapply lookup_lt_Some.
Qed.

Lemma swap_lookup_r {A} (l : list A) i j a b :
  l !! i = Some a → l !! j = Some b → swap l i j !! j = Some a.
Proof.
  intros Hi Hj. unfold swap. rewrite Hi, Hj.
  destruct (decide (i = j)) as [->|Hne].
  - simplify_eq. apply list_lookup_insert_eq. rewrite length_insert.
    by eapply lookup_lt_Some.
  - rewrite list_lookup_insert_ne by done.
    apply list_lookup_insert_eq. by eapply lookup_lt_Some.
Qed.

Lemma swap_lookup_ne {A} (l : list A) i j n :
  n ≠ i → n ≠ j → swap l i j !! n = l !! n.
Proof.
  intros Hi Hj. unfold swap. repeat case_match; try done.
  by rewrite !list_lookup_insert_ne by done.
Qed.

(** [add_watch(c, i)] on a literal that is not false, when the positions
    between the watched prefix and [i] hold false literals. *)
Lemma add_watch_ineq_false_between ctx (c : ineq) (i : nat) a :
  (m_watch_sz c <= i)%nat → m_args c !! i = Some a →
  false_between ctx c (m_watch_sz c) i →
  false_between ctx (add_watch_ineq c i) (S (m_watch_sz c)) (S i).
Proof.
  intros Hsz Ha Hf j b Hj Hb. unfold add_watch_ineq in Hb. simpl in Hb.
  destruct (Nat.ltb_spec (m_watch_sz c) i) as [Hlt|Hge]; [|lia].
  destruct (m_args c !! m_watch_sz c) as [x|] eqn:Hx.
  2:{ apply lookup_ge_None in Hx. apply lookup_lt_Some in Ha. lia. }
  destruct (decide (j = i)) as [->|Hne].
  - rewrite (swap_lookup_l _ _ _ a x Ha Hx) in Hb. simplify_eq.
    apply (Hf (m_watch_sz c) b); [lia|done].
  - rewrite swap_lookup_ne in Hb by lia. apply (Hf j b); [lia|done].
Qed.

Lemma add_watch_ineq_not_false ctx (c : ineq) (i : nat) a :
  (m_watch_sz c <= i)%nat → m_args c !! i = Some a →
  get_assignment ctx a.1 ≠ l_false →
  watched_not_false ctx c → watched_not_false ctx (add_watch_ineq c i).
Proof.
  intros Hsz Ha Hnf Hw j b Hj Hb.
  change (m_watch_sz (add_watch_ineq c i)) with (S (m_watch_sz c)) in Hj.
  destruct (decide (j = m_watch_sz c)) as [->|Hne].
  - assert (take (S (m_watch_sz c)) (m_args (add_watch_ineq c i)) !! m_watch_sz c
            = Some b) as Hb' by (by rewrite lookup_take_lt by lia).
    rewrite (add_watch_prefix c i a Hsz Ha) in Hb'.
    rewrite lookup_app_r in Hb' by (rewrite length_take; lia).
    rewrite length_take in Hb'.
    replace (m_watch_sz c - m_watch_sz c `min` length (m_args c))%nat with 0%nat in Hb'.
    2:{ apply lookup_lt_Some in Ha. lia. }
    by simplify_eq/=.
  - rewrite add_watch_ineq_lookup_lt in Hb by lia. apply (Hw j b); [lia|done].
Qed.

(** What the loops that extend the watched prefix guarantee. *)
Lemma add_watches_spec ctx cv (more : ineq → bool) :
  ∀ n i cw,
    watch_inv cw.1 → (m_watch_sz cw.1 <= i)%nat →
    (length (m_args cw.1) <= i + n)%nat →
    false_between ctx cw.1 (m_watch_sz cw.1) i →
    let cw' := add_watches ctx cv more n i cw in
    watch_inv cw'.1
    ∧ m_args cw'.1 ≡ₚ m_args cw.1
    ∧ m_lit cw'.1 = m_lit cw.1 ∧ m_k cw'.1 = m_k cw.1
    ∧ m_num_propagations cw'.1 = m_num_propagations cw.1
    ∧ m_compilation_threshold cw'.1 = m_compilation_threshold cw.1
    ∧ m_compiled cw'.1 = m_compiled cw.1
    ∧ (m_watch_sz cw.1 <= m_watch_sz cw'.1)%nat
    ∧ (∀ j, (j < m_watch_sz cw.1)%nat → m_args cw'.1 !! j = m_args cw.1 !! j)
    ∧ (watched_not_false ctx cw.1 → watched_not_false ctx cw'.1)
    ∧ (more cw'.1 = false
       ∨ false_between ctx cw'.1 (m_watch_sz cw'.1) (length (m_args cw'.1))).
Proof.
  induction n as [|n IH]; intros i cw Hinv Hsz Hn Hf.
  - simpl. split_and!; try done.
    right. intros j a Hj Ha. apply (Hf j a); [|done]. lia.
  - simpl. destruct (more cw.1) eqn:Hmore; simpl.
    2:{ split_and!; try done. by left. }
    destruct (Nat.ltb_spec i (length (m_args cw.1))) as [Hlt|Hge].
    2:{ split_and!; try done. right. intros j a Hj Ha. apply (Hf j a); [|done]. lia. }
    destruct (m_args cw.1 !! i) as [a|] eqn:Ha.
    2:{ apply lookup_ge_None in Ha. lia. }
    rewrite (lit_at_lookup _ _ _ Ha).
    case_bool_decide as Hnf.
    + destruct (add_watch_ineq_frame cw.1 i) as (Hl & Hk & Hlen).
      assert ((add_watch cv i cw).1 = add_watch_ineq cw.1 i) as Hfst by done.
      destruct (IH (S i) (add_watch cv i cw)) as
        (H1 & H2 & H3 & H4 & H5 & H6 & H7 & H8 & H9 & H10 & H11).
      * rewrite Hfst. apply add_watch_ineq_inv; [done|lia].
      * rewrite Hfst. simpl. lia.
      * rewrite Hfst, Hlen. lia.
      * rewrite Hfst. by apply (add_watch_ineq_false_between ctx cw.1 i a).
      * rewrite Hfst in *.
        change (m_watch_sz (add_watch_ineq cw.1 i)) with (S (m_watch_sz cw.1)) in *.
        split; [done|]. split.
        { by rewrite H2, add_watch_ineq_Permutation. }
        split; [congruence|]. split; [congruence|].
        split; [done|]. split; [done|]. split; [done|].
        split; [lia|]. split.
        { intros j Hj. rewrite H9 by lia. by apply add_watch_ineq_lookup_lt. }
        split; [|done].
        intros Hw. apply H10. by apply (add_watch_ineq_not_false ctx cw.1 i a).
    + apply IH; [done|lia|lia|].
      intros j b Hj Hb. destruct (decide (j = i)) as [->|Hne].
      * by simplify_eq.
      * apply (Hf j b); [lia|done].
Qed.

Lemma maxsum_filter ctx (args : list (literal * Z)) :
  maxsum ctx args
  = sum_coeffs (filter (fun a => get_assignment ctx a.1 ≠ l_false) args).
Proof.
  unfold maxsum.
  assert (∀ acc, foldl (fun acc a =>
                   if bool_decide (get_assignment ctx a.1 ≠ l_false)
                   then acc + a.2 else acc) acc args
                 = acc + sum_coeffs
                           (filter (fun a => get_assignment ctx a.1 ≠ l_false) args))
    as H.
  { induction args as [|a args IH]; intros acc; simpl; [lia|].
    rewrite IH, filter_cons. case_bool_decide; case_decide; try done; simpl; lia. }
  by rewrite H.
Qed.

Lemma maxsum_Permutation ctx (l1 l2 : list (literal * Z)) :
  l1 ≡ₚ l2 → maxsum ctx l1 = maxsum ctx l2.
Proof.
  intros H. rewrite !maxsum_filter. apply sum_coeffs_Permutation. by rewrite H.
Qed.

Lemma filter_all {A} (P : A → Prop) `{∀ x, Decision (P x)} (l : list A) :
  Forall P l → filter P l = l.
Proof.
  induction 1 as [|x l Hx Hl IH]; [done|]. by rewrite filter_cons_True, IH.
Qed.

Lemma filter_none {A} (P : A → Prop) `{∀ x, Decision (P x)} (l : list A) :
  Forall (fun x => ¬ P x) l → filter P l = [].
Proof.
  induction 1 as [|x l Hx Hl IH]; [done|]. by rewrite filter_cons_False.
Qed.

(** When every literal outside the watched prefix is false and none inside
    is, the watched sum is [maxsum]. *)
Lemma watch_sum_maxsum ctx (c : ineq) :
  watch_inv c → watched_not_false ctx c →
  false_between ctx c (m_watch_sz c) (length (m_args c)) →
  m_watch_sum c = maxsum ctx (m_args c).
Proof.
  intros (Hsz & Hsum & _) Hw Hf.
  rewrite Hsum, maxsum_filter.
  rewrite <- (take_drop (m_watch_sz c) (m_args c)) at 2.
  rewrite filter_app, sum_coeffs_app.
  assert (filter (fun a => get_assignment ctx a.1 ≠ l_false)
            (take (m_watch_sz c) (m_args c)) = take (m_watch_sz c) (m_args c)) as ->.
  { apply filter_all. rewrite Forall_lookup. intros j a Ha.
    assert (j < m_watch_sz c)%nat.
    { apply lookup_lt_Some in Ha. rewrite length_take in Ha. lia. }
    rewrite lookup_take_lt in Ha by done. by apply (Hw j a). }
  assert (filter (fun a => get_assignment ctx a.1 ≠ l_false)
            (drop (m_watch_sz c) (m_args c)) = []) as ->.
  { apply filter_none. rewrite Forall_lookup. intros j a Ha.
    rewrite lookup_drop in Ha. intros Hnf. apply Hnf.
    apply (Hf (m_watch_sz c + j)%nat a); [|done].
    apply lookup_lt_Some in Ha. lia. }
  simpl. lia.
Qed.

(** The watch initialisation of [assign_ineq] establishes the invariant,
    and [watch_sum >= k] when [maxsum >= k]. *)
Lemma init_watch_spec ctx cv (c : ineq) w :
  m_k c <= maxsum ctx (m_args c) →
  let c' := (init_watch ctx cv (length (m_args c)) 0 (clear_watch c, w)).1 in
  watch_inv c' ∧ m_k c' <= m_watch_sum c' ∧ m_args c' ≡ₚ m_args c
  ∧ m_lit c' = m_lit c ∧ m_k c' = m_k c.
Proof.
  intros Hk c'.
  destruct (add_watches_spec ctx cv
              (fun c => m_watch_sum c <? m_k c + m_max_watch c)
              (length (m_args c)) 0 (clear_watch c, w))
    as (H1 & H2 & H3 & H4 & _ & _ & _ & _ & _ & H10 & H11).
  - unfold watch_inv. simpl. split; [lia|]. done.
  - simpl. lia.
  - simpl. lia.
  - intros j a Hj. simpl in Hj. lia.
  - fold (init_watch ctx cv (length (m_args c)) 0 (clear_watch c, w)) in *.
    fold c' in H1, H2, H3, H4, H10, H11. simpl in H2, H3, H4.
    split; [done|]. split; [|done].
    destruct H11 as [Hmore|Hall].
    + apply Z.ltb_ge in Hmore. destruct H1 as (_ & _ & Hmax).
      pose proof (max_coeffs_nonneg (take (m_watch_sz c') (m_args c'))). lia.
    + rewrite (watch_sum_maxsum ctx c' H1); [|apply H10; intros j a Hj; simpl in Hj; lia|done].
      rewrite (maxsum_Permutation ctx _ _ H2), H4. done.
Qed.

(** ** Propagation counters and assignments *)

Lemma counted_same_watch (c : ineq) : same_watch c (counted c).
Proof. unfold counted. by destruct (queued c). Qed.

Lemma inc_propagations_eq (cv : bool_var) (c : ineq) (t : theory_pb) :
  m_ineqs t !! cv = Some c →
  inc_propagations cv t = Some (tt, after_inc_propagations cv c t).
Proof.
  intros Hc. unfold inc_propagations, get_ineq.
  unfold bind at 1. unfold bind at 1. unfold get_state at 1, lift_opt at 1.
  rewrite Hc. unfold after_inc_propagations, counted, queued. simpl.
  destruct (bool_decide (m_compiled c = l_false)
            && (m_compilation_threshold c <? u32 (m_num_propagations c + 1)));
    reflexivity.
Qed.

Lemma after_inc_propagations_frame (cv : bool_var) (c : ineq) (t : theory_pb) :
  let t' := after_inc_propagations cv c t in
  m_ineqs t' = <[cv := counted c]> (m_ineqs t)
  ∧ th_ctx t' = th_ctx t ∧ m_literals t' = m_literals t ∧ m_watch t' = m_watch t
  ∧ m_stats t' = m_stats t ∧ m_conflict_frequency t' = m_conflict_frequency t.
Proof. unfold after_inc_propagations. by destruct (queued c). Qed.

Lemma add_assign_eq (cv : bool_var) (c : ineq) lits l (t : theory_pb) :
  m_ineqs t !! cv = Some c →
  add_assign cv lits l t = Some (tt, after_add_assign cv c lits l t).
Proof.
  intros Hc. unfold add_assign. unfold bind at 1.
  rewrite (inc_propagations_eq cv c t Hc). reflexivity.
Qed.

Lemma after_add_assign_frame (cv : bool_var) (c : ineq) lits l (t : theory_pb) :
  let t' := after_add_assign cv c lits l t in
  m_ineqs t' = <[cv := counted c]> (m_ineqs t)
  ∧ th_ctx t' = assign l cv lits (th_ctx t)
  ∧ m_literals t' = m_literals t ∧ m_watch t' = m_watch t.
Proof.
  unfold after_add_assign.
  destruct (after_inc_propagations_frame cv c t) as (H1 & H2 & H3 & H4 & _).
  simpl. rewrite H2. done.
Qed.

Lemma assign_log l cv lits ctx :
  m_log (assign l cv lits ctx) = m_log ctx ++ [ev_assign l cv lits].
Proof. unfold assign. by destruct (get_assignment _ l). Qed.

Lemma assign_other l cv lits ctx l' :
  var l' ≠ var l →
  get_assignment (assign l cv lits ctx) l' = get_assignment ctx l'.
Proof.
  intros Hne. unfold assign.
  destruct (get_assignment (log_event _ ctx) l); try done.
  unfold get_assignment. simpl. by rewrite lookup_insert_ne.
Qed.

Lemma filter_ext_Forall {A} (P Q : A → Prop) `{∀ x, Decision (P x)}
    `{∀ x, Decision (Q x)} (l : list A) :
  Forall (fun x => P x ↔ Q x) l → filter P l = filter Q l.
Proof.
  induction 1 as [|x l Hx Hl IH]; [done|].
  rewrite !filter_cons, IH. repeat case_decide; tauto.
Qed.

(** The propagation loops of [assign_ineq] and [assign_watch]: every literal
    that is undefined when the loop starts and is selected by [sel] is
    assigned, in the order of the arguments, with the buffer [m_literals] as
    explanation; nothing else is emitted. *)
Lemma propagate_loop_spec (cv : bool_var) (sel : Z → bool)
    (args : list (literal * Z)) (lits : list literal) :
  distinct_vars args →
  ∀ n lo t c,
    m_ineqs t !! cv = Some c → m_args c = args → m_literals t = lits →
    (lo + n = length args)%nat →
    ∃ t' c',
      for_range lo n (fun i =>
        let* c := get_ineq cv in
        let* t := get_state in
        if bool_decide (get_assignment (th_ctx t) (lit_at c i) = l_undef)
           && sel (coeff c i)
        then add_assign cv (m_literals t) (lit_at c i)
        else ret tt) t = Some (tt, t')
      ∧ m_ineqs t' !! cv = Some c' ∧ same_watch c c'
      ∧ m_literals t' = lits ∧ m_watch t' = m_watch t
      ∧ m_log (th_ctx t')
        = m_log (th_ctx t) ++ propagations (th_ctx t) cv lits sel (drop lo args).
Proof.
  intros Hnd. induction n as [|n IH]; intros lo t c Hc Hargs Hlits Hlen.
  - exists t, c. rewrite drop_ge by lia. unfold propagations. simpl.
    rewrite app_nil_r. by split_and!.
  - destruct (args !! lo) as [a|] eqn:Ha.
    2:{ apply lookup_ge_None in Ha. lia. }
    assert (m_args c !! lo = Some a) as Ha' by by rewrite Hargs.
    rewrite (drop_S _ _ _ Ha).
    assert (Forall (fun b => var b.1 ≠ var a.1) (drop (S lo) args)) as Hother.
    { unfold distinct_vars in Hnd.
      rewrite <- (take_drop lo args), (drop_S _ _ _ Ha), fmap_app in Hnd.
      apply NoDup_app in Hnd as (_ & _ & Hnd). rewrite fmap_cons in Hnd.
      apply NoDup_cons in Hnd as [Hnotin _].
      rewrite Forall_forall. intros b Hb Heq. apply Hnotin.
      rewrite <- Heq. apply list_elem_of_fmap. by exists b. }
    simpl for_range. unfold bind at 1. unfold bind at 1. unfold get_ineq at 1.
    unfold bind at 1. unfold get_state at 1, lift_opt at 1. rewrite Hc.
    unfold bind at 1. unfold get_state at 1.
    rewrite (lit_at_lookup c lo a Ha'), (coeff_lookup c lo a Ha').
    unfold propagations. rewrite filter_cons.
    destruct (decide (get_assignment (th_ctx t) a.1 = l_undef ∧ sel a.2 = true))
      as [[Hu Hs]|Hno].
    + rewrite bool_decide_eq_true_2 by done. rewrite Hs.
      change (true && true) with true. cbv iota.
      rewrite (add_assign_eq cv c _ _ t Hc).
      destruct (after_add_assign_frame cv c (m_literals t) a.1 t) as (F1 & F2 & F3 & F4).
      destruct (IH (S lo) (after_add_assign cv c (m_literals t) a.1 t) (counted c))
        as (t' & c' & Hrun & Hc' & Hsw & Hl' & Hw' & Hlog).
      * rewrite F1. apply lookup_insert_eq.
      * rewrite <- Hargs. apply counted_same_watch.
      * by rewrite F3.
      * lia.
      * exists t', c'. split; [exact Hrun|]. split; [done|]. split.
        { destruct (counted_same_watch c) as (?&?&?&?&?&?).
          destruct Hsw as (?&?&?&?&?&?). unfold same_watch. split_and!; congruence. }
        split; [done|]. split; [congruence|].
        rewrite Hlog, F2, assign_log, Hlits. simpl. rewrite <- app_assoc. simpl.
        do 2 f_equal. unfold propagations. f_equal.
        apply filter_ext_Forall. eapply Forall_impl; [exact Hother|].
        intros b Hb. simpl. by rewrite (assign_other _ _ _ _ _ Hb).
    + assert (bool_decide (get_assignment (th_ctx t) a.1 = l_undef) && sel a.2 = false)
        as ->.
      { case_bool_decide; [|done]. destruct (sel a.2); [|done]. by destruct Hno. }
      cbv iota. unfold ret at 1.
      destruct (IH (S lo) t c Hc Hargs Hlits ltac:(lia))
        as (t' & c' & Hrun & Hc' & Hsw & Hl' & Hw' & Hlog).
      exists t', c'. by split_and!.
Qed.

(** ** The conflict clause of [add_clause] *)




(** ** Activation of an inequality *)

Lemma for_range_ext {St} (f g : nat → M St unit) :
  (∀ i s, f i s = g i s) → ∀ n lo s, for_range lo n f s = for_range lo n g s.
Proof.
  intros H. induction n as [|n IH]; intros lo s; [done|].
  simpl. unfold bind. rewrite H. destruct (g lo s) as [[[] s']|]; [apply IH|done].
Qed.

Lemma fill_buffer {A} (cv : bool_var) (c : ineq) (negate : bool) (l : literal)
    (k : M theory_pb A) (t : theory_pb) :
  m_ineqs t !! cv = Some c →
  (get_unhelpful_literals cv negate ;;; push_literal l ;;; k) t
  = k (set_literals (unhelpful_literals (th_ctx t) (m_args c) negate ++ [l]) t).
Proof.
  intros Hc. unfold bind at 1. unfold get_unhelpful_literals at 1.
  unfold bind at 1. unfold get_ineq at 1. unfold bind at 1.
  unfold get_state at 1, lift_opt at 1. rewrite Hc. reflexivity.
Qed.

(** [mininc] is the least coefficient of an undefined literal (0 when there
    is none), for positive coefficients. *)
Lemma mininc_spec ctx (args : list (literal * Z)) :
  pos_coeffs args →
  (∀ a, a ∈ args → get_assignment ctx a.1 = l_undef → mininc ctx args <= a.2)
  ∧ ((∃ a, a ∈ args ∧ get_assignment ctx a.1 = l_undef) →
     ∃ a, a ∈ args ∧ get_assignment ctx a.1 = l_undef ∧ a.2 = mininc ctx args)
  ∧ ((∀ a, a ∈ args → get_assignment ctx a.1 ≠ l_undef) → mininc ctx args = 0).
Proof.
  unfold mininc. induction args as [|a args IH] using rev_ind; intros Hpos.
  - split; [|split].
    + intros a Ha. by apply not_elem_of_nil in Ha.
    + intros (a & Ha & _). by apply not_elem_of_nil in Ha.
    + done.
  - unfold pos_coeffs in Hpos. apply Forall_app in Hpos as [Hpos Ha].
    rewrite Forall_singleton in Ha.
    destruct (IH Hpos) as (IH1 & IH2 & IH3). clear IH.
    rewrite foldl_snoc.
    set (m := foldl _ 0 args) in *.
    assert ((∃ b, b ∈ args ∧ get_assignment ctx b.1 = l_undef)
            ∨ (∀ b, b ∈ args → get_assignment ctx b.1 ≠ l_undef)) as Hdec.
    { destruct (decide (Exists (fun b : literal * Z =>
                                  get_assignment ctx b.1 = l_undef) args)) as [He|Hne].
      - left. by apply Exists_exists in He.
      - right. intros b Hb Hu. apply Hne. apply Exists_exists. by exists b. }
    assert (∀ b, b ∈ args → 0 < b.2) as Hall by (by apply Forall_forall).
    assert ((0 < m ∧ ∃ b, b ∈ args ∧ get_assignment ctx b.1 = l_undef ∧ b.2 = m)
            ∨ (m = 0 ∧ ∀ b, b ∈ args → get_assignment ctx b.1 ≠ l_undef)) as Hcase.
    { destruct Hdec as [He|Hne].
      - left. destruct (IH2 He) as (b & Hb & Hbu & Hbm).
        split; [specialize (Hall b Hb); lia|]. by exists b.
      - right. split; [by apply IH3|done]. }
    assert (∀ b, b ∈ args ++ [a] ↔ b ∈ args ∨ b = a) as Hin.
    { intros b. by rewrite elem_of_app, list_elem_of_singleton. }
    setoid_rewrite Hin.
    destruct (decide (get_assignment ctx a.1 = l_undef)) as [Hu|Hu].
    + rewrite bool_decide_eq_true_2 by done. simpl andb.
      destruct Hcase as [(Hm & b0 & Hb0 & Hb0u & Hb0m)|(Hm & Hno)].
      * destruct (Z.eqb_spec m 0); [lia|]. simpl orb. destruct (Z.ltb_spec a.2 m).
        -- split; [|split].
          ++ intros b [Hb| ->] Hbu; [specialize (IH1 b Hb Hbu); lia|lia].
          ++ intros _. exists a. eauto.
          ++ intros Hn. exfalso. apply (Hn a); eauto.
        -- split; [|split].
          ++ intros b [Hb| ->] Hbu; [by apply IH1|lia].
          ++ intros _. exists b0. eauto.
          ++ intros Hn. exfalso. apply (Hn a); eauto.
      * destruct (Z.eqb_spec m 0); [|lia]. simpl orb. cbv iota.
        split; [|split].
        -- intros b [Hb| ->] Hbu; [by destruct (Hno b Hb)|lia].
        -- intros _. exists a. eauto.
        -- intros Hn. exfalso. apply (Hn a); eauto.
    + rewrite bool_decide_eq_false_2 by done. simpl andb. cbv iota.
      split; [|split].
      * intros b [Hb| ->] Hbu; [by apply IH1|done].
      * intros (b & [Hb| ->] & Hbu); [|done].
        destruct (IH2 (ex_intro _ b (conj Hb Hbu))) as (b' & ? & ? & ?).
        exists b'. eauto.
      * intros Hn. apply IH3. intros b Hb. apply Hn. by left.
Qed.

(** [assign_ineq] on an inequality that needs no conflict clause: the
    watches are initialised and, when [maxsum - mininc < k], every undefined
    literal is propagated. *)
Lemma assign_ineq_core_watch (cv : bool_var) (c : ineq) (t : theory_pb) :
  m_ineqs t !! cv = Some c →
  distinct_vars (m_args c) →
  let ctx := th_ctx t in
  m_k c <= maxsum ctx (m_args c) →
  let cw := init_watch ctx cv (length (m_args c)) 0 (clear_watch c, m_watch t) in
  let expl := unhelpful_literals ctx (m_args cw.1) true ++ [m_lit c] in
  ∃ t' c',
    assign_ineq_core cv t = Some (tt, t')
    ∧ m_ineqs t' !! cv = Some c' ∧ same_watch cw.1 c'
    ∧ m_watch t' = cw.2
    ∧ m_log (th_ctx t')
      = m_log ctx
        ++ (if maxsum ctx (m_args c) - mininc ctx (m_args c) <? m_k c
            then propagations ctx cv expl (fun _ => true) (m_args cw.1) else []).
Proof.
  intros Hc Hnd ctx Hk cw expl.
  destruct (init_watch_spec ctx cv c (m_watch t) Hk) as (Hinv & Hsum & Hperm & Hlit & Hk').
  fold cw in Hinv, Hsum, Hperm, Hlit, Hk'.
  unfold assign_ineq_core.
  unfold bind at 1. unfold get_ineq at 1. unfold bind at 1.
  unfold get_state at 1, lift_opt at 1. rewrite Hc.
  unfold bind at 1. unfold get_state at 1. fold ctx.
  destruct (Z.ltb_spec (maxsum ctx (m_args c)) (m_k c)) as [?|_]; [lia|].
  unfold bind at 1. unfold bind at 1. unfold put_ineq at 1, modify at 1.
  unfold bind at 1. unfold modify at 1. unfold modify at 1.
  change (ineq_set_max_watch 0 (ineq_set_watch_sz 0%nat (ineq_set_watch_sum 0 c)))
    with (clear_watch c). fold cw.
  set (t1 := set_assign_ineqs_trail _ _).
  assert (m_ineqs t1 !! cv = Some cw.1) as Hc1 by (simpl; apply lookup_insert_eq).
  unfold bind at 1. unfold get_ineq at 1. unfold bind at 1.
  unfold get_state at 1, lift_opt at 1. rewrite Hc1.
  rewrite Hk'. destruct (Z.leb_spec (m_k c) (maxsum ctx (m_args c))) as [_|?]; [|lia].
  simpl andb.
  destruct (Z.ltb_spec (maxsum ctx (m_args c) - mininc ctx (m_args c)) (m_k c)).
  - change (true && true) with true. cbv iota.
    rewrite (fill_buffer cv cw.1 true (m_lit cw.1) _ t1 Hc1).
    unfold propagate_all.
    rewrite (for_range_ext _ (fun i =>
      let* c := get_ineq cv in
      let* t := get_state in
      if bool_decide (get_assignment (th_ctx t) (lit_at c i) = l_undef)
         && (fun _ : Z => true) (coeff c i)
      then add_assign cv (m_literals t) (lit_at c i)
      else ret tt)).
    2:{ intros i s. unfold bind. destruct (get_ineq cv s) as [[c0 s0]|]; [|done].
        destruct (get_state s0) as [[t0 s1]|]; [|done].
        by rewrite andb_true_r. }
    destruct (propagate_loop_spec cv (fun _ => true) (m_args cw.1)
                (unhelpful_literals (th_ctx t1) (m_args cw.1) true ++ [m_lit cw.1])
                ltac:(unfold distinct_vars in *; by rewrite Hperm)
                (length (m_args cw.1)) 0
                (set_literals
                   (unhelpful_literals (th_ctx t1) (m_args cw.1) true ++ [m_lit cw.1]) t1)
                cw.1 Hc1 eq_refl eq_refl ltac:(lia))
      as (t' & c' & Hrun & Hc' & Hsw & Hl' & Hw' & Hlog).
    exists t', c'. split; [exact Hrun|]. split; [done|]. split; [done|].
    split; [by rewrite Hw'|]. rewrite Hlog, drop_0, Hlit. done.
  - change (true && false) with false. cbv iota.
    exists t1, cw.1. split; [reflexivity|]. split; [done|]. split; [done|].
    split; [done|]. simpl. by rewrite app_nil_r.
Qed.


Lemma assign_ineq_unfold (cv : bool_var) (is_true : bool) (t0 : theory_pb) (c0 c : ineq) :
  m_ineqs t0 !! cv = Some c0 →
  oriented c0 is_true = Some c →
  ∃ t, t = oriented_state cv c0 c is_true t0
       ∧ assign_ineq cv is_true t0 = assign_ineq_core cv t
       ∧ m_ineqs t !! cv = Some c ∧ th_ctx t = th_ctx t0 ∧ m_watch t = m_watch t0.
Proof.
  intros Hc0 Hor. unfold assign_ineq, oriented, oriented_state in *.
  unfold bind at 1. unfold get_ineq at 1. unfold bind at 1.
  unfold get_state at 1, lift_opt at 1. rewrite Hc0.
  destruct (bool_decide (sign (m_lit c0) = is_true)).
  - rewrite Hor. eexists. split; [reflexivity|]. split; [reflexivity|]. simpl.
    rewrite lookup_insert_eq. done.
  - simplify_eq. exists t0. done.
Qed.

(** ** Falsification of a watched literal *)

Lemma find_lit_from_spec (v : bool_var) (args : list (literal * Z)) :
  ∀ n i w, find_lit_from v args i n = Some w →
    (i <= w < i + n)%nat ∧ ∃ a, args !! w = Some a ∧ var a.1 = v.
Proof.
  induction n as [|n IH]; intros i w H; simpl in H; [done|].
  destruct (args !! i) as [[l q]|] eqn:Ha; [|done].
  destruct (decide (var l = v)) as [Hv|Hv].
  - simplify_eq. split; [lia|]. by exists (l, q).
  - destruct (IH _ _ H) as (Hr & Hw). split; [lia|done].
Qed.

Lemma promoted_spec ctx cv (c : ineq) (w : nat) wm :
  watch_inv c → (w < m_watch_sz c)%nat →
  let cw := promoted ctx cv c w wm in
  watch_inv cw.1 ∧ m_args cw.1 ≡ₚ m_args c ∧ m_lit cw.1 = m_lit c
  ∧ m_k cw.1 = m_k c ∧ (m_watch_sz c <= m_watch_sz cw.1)%nat
  ∧ coeff cw.1 w = coeff c w.
Proof.
  intros Hinv Hw cw.
  destruct (add_watches_spec ctx cv
              (fun c' => m_watch_sum c' - coeff c w <? m_k c + m_max_watch c')
              (length (m_args c) - m_watch_sz c) (m_watch_sz c) (c, wm))
    as (H1 & H2 & H3 & H4 & _ & _ & _ & H8 & H9 & _).
  - done.
  - simpl. lia.
  - simpl. lia.
  - intros j a Hj. simpl in Hj. lia.
  - split; [exact H1|]. split; [exact H2|]. split; [exact H3|]. split; [exact H4|].
    split; [exact H8|].
    destruct (m_args c !! w) as [a|] eqn:Ha.
    2:{ apply lookup_ge_None in Ha. destruct Hinv as (Hsz & _). lia. }
    rewrite (coeff_lookup c w a Ha). apply coeff_lookup.
    by rewrite <- Ha; apply H9.
Qed.

Lemma assign_watch_unfold (v : bool_var) (is_true : bool) (key : Z) (wi : nat)
    (t : theory_pb) (cv : bool_var) (c : ineq) (w : nat) :
  default [] (m_watch t !! key) !! wi = Some cv →
  m_ineqs t !! cv = Some c →
  find_lit c v 0 (m_watch_sz c) = Some w →
  let cw := promoted (th_ctx t) cv c w (m_watch t) in
  assign_watch v is_true key wi t
  = (if m_watch_sum cw.1 - coeff c w <? m_k c then
       get_unhelpful_literals cv false ;;;
       push_literal (lit_neg (m_lit cw.1)) ;;;
       add_clause cv ;;;
       ret false
     else
       let* cw' := lift_opt (del_watch key wi w cw) in
       put_ineq cv cw'.1 ;;;
       modify (set_watch cw'.2) ;;;
       (if m_watch_sum cw'.1 <? m_k c + m_max_watch cw'.1 then
          get_unhelpful_literals cv true ;;;
          push_literal (m_lit cw'.1) ;;;
          propagate_deficit cv (m_watch_sum cw'.1 - m_k c) (length (m_args cw'.1))
        else ret tt) ;;;
       ret true) (store_watch cv cw t).
Proof.
  intros Hcv Hc Hw cw. unfold assign_watch.
  unfold bind at 1. unfold get_state at 1.
  unfold bind at 1. unfold lift_opt at 1. rewrite Hcv.
  unfold bind at 1. unfold get_ineq at 1. unfold bind at 1.
  unfold get_state at 1, lift_opt at 1. rewrite Hc.
  unfold bind at 1. unfold lift_opt at 1. rewrite Hw.
  reflexivity.
Qed.


Lemma assign_watch_propagate (v : bool_var) (is_true : bool) (key : Z) (wi : nat)
    (t : theory_pb) (cv : bool_var) (c : ineq) (w : nat) :
  default [] (m_watch t !! key) !! wi = Some cv →
  m_ineqs t !! cv = Some c →
  find_lit c v 0 (m_watch_sz c) = Some w →
  watch_inv c → pos_coeffs (m_args c) → distinct_vars (m_args c) → 0 < m_k c →
  let ctx := th_ctx t in
  let cw := promoted ctx cv c w (m_watch t) in
  m_k c <= m_watch_sum cw.1 - coeff c w →
  ∃ t' cw' c',
    assign_watch v is_true key wi t = Some (true, t')
    ∧ del_watch key wi w cw = Some cw'
    ∧ watch_inv cw'.1 ∧ m_k cw'.1 = m_k c ∧ m_k cw'.1 <= m_watch_sum cw'.1
    ∧ m_args cw'.1 ≡ₚ m_args c
    ∧ m_watch_sz cw'.1 = (m_watch_sz cw.1 - 1)%nat
    ∧ m_watch_sum cw'.1 = m_watch_sum cw.1 - coeff c w
    ∧ m_ineqs t' !! cv = Some c' ∧ same_watch cw'.1 c' ∧ m_watch t' = cw'.2
    ∧ m_log (th_ctx t')
      = m_log ctx
        ++ (if m_watch_sum cw'.1 <? m_k c + m_max_watch cw'.1
            then propagations ctx cv
                   (unhelpful_literals ctx (m_args cw'.1) true ++ [m_lit c])
                   (fun a => m_watch_sum cw'.1 - m_k c <? a) (m_args cw'.1)
            else []).
Proof.
  intros Hcv Hc Hw Hinv Hpos Hnd Hk ctx cw Hge.
  destruct (find_lit_from_spec _ _ _ _ _ Hw) as (Hwr & _).
  assert (w < m_watch_sz c)%nat as Hwsz by lia.
  destruct (promoted_spec ctx cv c w (m_watch t) Hinv Hwsz)
    as (P1 & P2 & P3 & P4 & P5 & P6).
  fold cw in P1, P2, P3, P4, P5, P6.
  destruct (del_watch_ineq_inv cw.1 w) as (c1 & Hdel & D1 & D2 & D3 & D4 & D5 & D6 & D7).
  { done. }
  { unfold nonneg_coeffs. rewrite P2. unfold pos_coeffs in Hpos.
    eapply Forall_impl; [exact Hpos|]. intros a Ha. simpl in Ha. lia. }
  { lia. }
  { lia. }
  { rewrite P4, P6. done. }
  rewrite (assign_watch_unfold v is_true key wi t cv c w Hcv Hc Hw).
  fold ctx. fold cw.
  destruct (Z.ltb_spec (m_watch_sum cw.1 - coeff c w) (m_k c)) as [?|_]; [lia|].
  unfold bind at 1. unfold lift_opt at 1. unfold del_watch at 1. rewrite Hdel.
  set (cw' := (c1, _)).
  unfold bind at 1. unfold put_ineq at 1, modify at 1.
  unfold bind at 1. unfold modify at 1.
  set (t2 := set_watch _ _).
  assert (m_ineqs t2 !! cv = Some c1) as Hc2 by (simpl; apply lookup_insert_eq).
  assert (distinct_vars (m_args c1)) as Hnd1.
  { unfold distinct_vars in *. by rewrite D4, P2. }
  assert (del_watch key wi w cw = Some cw') as Hdel'.
  { unfold del_watch. by rewrite Hdel. }
  change (cw'.1) with c1.
  destruct (Z.ltb_spec (m_watch_sum c1) (m_k c + m_max_watch c1)) as [Hprop|Hprop].
  - unfold bind at 1. rewrite (fill_buffer cv c1 true (m_lit c1) _ t2 Hc2).
    destruct (propagate_loop_spec cv (fun a => m_watch_sum c1 - m_k c <? a) (m_args c1)
                (unhelpful_literals (th_ctx t2) (m_args c1) true ++ [m_lit c1])
                Hnd1 (length (m_args c1)) 0
                (set_literals
                   (unhelpful_literals (th_ctx t2) (m_args c1) true ++ [m_lit c1]) t2)
                c1 Hc2 eq_refl eq_refl ltac:(lia))
      as (t' & c' & Hrun & Hc' & Hsw & Hl' & Hw' & Hlog).
    assert (propagate_deficit cv (m_watch_sum c1 - m_k c) (length (m_args c1))
              (set_literals
                 (unhelpful_literals (th_ctx t2) (m_args c1) true ++ [m_lit c1]) t2)
            = Some (tt, t')) as Hrun' by exact Hrun.
    rewrite Hrun'.
    exists t', cw', c'. change (cw'.1) with c1.
    destruct (Z.ltb_spec (m_watch_sum c1) (m_k c + m_max_watch c1)) as [_|?]; [|lia].
    split; [reflexivity|]. split; [exact Hdel'|].
    split; [done|]. split; [by rewrite D2, P4|]. split; [done|].
    split; [by rewrite D4|].
    split; [done|]. split; [by rewrite D6, P6|].
    split; [done|]. split; [done|]. split; [by rewrite Hw'|].
    rewrite Hlog, drop_0, D3, P3. done.
  - exists t2, cw', c1. change (cw'.1) with c1.
    destruct (Z.ltb_spec (m_watch_sum c1) (m_k c + m_max_watch c1)) as [?|_]; [lia|].
    split; [reflexivity|]. split; [exact Hdel'|].
    split; [done|]. split; [by rewrite D2, P4|]. split; [done|].
    split; [by rewrite D4|].
    split; [done|]. split; [by rewrite D6, P6|].
    split; [done|]. split; [done|]. split; [done|].
    simpl. by rewrite app_nil_r.
Qed.

(** ** The watch invariant *)

Lemma same_watch_inv (c c' : ineq) :
  same_watch c c' → watch_inv c → watch_inv c'.
Proof.
  intros (_ & Ha & _ & Hm & Hz & Hs) (H1 & H2 & H3).
  unfold watch_inv. rewrite Ha, Hm, Hz, Hs. done.
Qed.

(** C9. The watch invariant: [watch_sum] is the sum and [max_watch] the
    maximum of the coefficients of the watched prefix after [add_watch],
    after [del_watch] (called, as in [assign_watch], when the remaining
    watched sum reaches a positive [k]), after the watch initialisation of
    [assign_ineq] and after the promotion of [assign_watch]; and whenever
    [assign_ineq] or [assign_watch] reports no conflict, the inequality they
    leave in the store has [watch_sum >= k]. *)
Theorem watch_invariant (cv : bool_var) (c : ineq) (wm : gmap Z (list bool_var)) :
  (∀ i, watch_inv c → (m_watch_sz c <= i < length (m_args c))%nat →
        watch_inv (add_watch cv i (c, wm)).1)
  ∧ (∀ key index_ i,
       watch_inv c → pos_coeffs (m_args c) → (i < m_watch_sz c)%nat →
       0 < m_k c → m_k c <= m_watch_sum c - coeff c i →
       ∃ cw', del_watch key index_ i (c, wm) = Some cw'
              ∧ watch_inv cw'.1 ∧ m_k cw'.1 = m_k c ∧ m_k c <= m_watch_sum cw'.1)
  ∧ (∀ is_true t0 c0,
       m_ineqs t0 !! cv = Some c0 → oriented c0 is_true = Some c →
       distinct_vars (m_args c) →
       m_k c <= maxsum (th_ctx t0) (m_args c) →
       ∃ t' c', assign_ineq cv is_true t0 = Some (tt, t')
                ∧ m_ineqs t' !! cv = Some c'
                ∧ watch_inv c' ∧ m_k c' = m_k c ∧ m_k c <= m_watch_sum c')
  ∧ (∀ v is_true key wi t w,
       default [] (m_watch t !! key) !! wi = Some cv →
       m_ineqs t !! cv = Some c →
       find_lit c v 0 (m_watch_sz c) = Some w →
       watch_inv c → pos_coeffs (m_args c) → distinct_vars (m_args c) → 0 < m_k c →
       let cw := promoted (th_ctx t) cv c w (m_watch t) in
       watch_inv cw.1
       ∧ (m_k c <= m_watch_sum cw.1 - coeff c w →
          ∃ t' c', assign_watch v is_true key wi t = Some (true, t')
                   ∧ m_ineqs t' !! cv = Some c'
                   ∧ watch_inv c' ∧ m_k c' = m_k c ∧ m_k c <= m_watch_sum c')).
Proof.
  split; [|split; [|split]].
  - intros i Hinv Hi. simpl. by apply add_watch_ineq_inv.
  - intros key index_ i Hinv Hpos Hi Hk Hguard.
    destruct (del_watch_ineq_inv c i) as (c1 & Hdel & D1 & D2 & _ & _ & _ & _ & D7);
      try done.
    { unfold nonneg_coeffs. unfold pos_coeffs in Hpos.
      eapply Forall_impl; [exact Hpos|]. intros a Ha. simpl in Ha. lia. }
    unfold del_watch. simpl. rewrite Hdel. eexists. split; [reflexivity|].
    simpl. split; [done|]. split; [done|]. by rewrite <- D2.
  - intros is_true t0 c0 Hc0 Hor Hnd Hk.
    destruct (assign_ineq_unfold cv is_true t0 c0 c Hc0 Hor)
      as (t & _ & Heq & Hc & Hctx & Hw).
    rewrite <- Hctx in Hk.
    destruct (assign_ineq_core_watch cv c t Hc Hnd Hk) as (t' & c' & Hrun & Hc' & Hsw & _).
    destruct (init_watch_spec (th_ctx t) cv c (m_watch t) Hk) as (I1 & I2 & _ & _ & I5).
    exists t', c'. rewrite Heq. split; [done|]. split; [done|].
    split; [by apply (same_watch_inv _ _ Hsw)|].
    destruct Hsw as (_ & _ & Sk & _ & _ & Ss). rewrite Sk, Ss.
    split; [done|]. by rewrite <- I5.
  - intros v is_true key wi t w Hcv Hc Hw Hinv Hpos Hnd Hk cw.
    destruct (find_lit_from_spec _ _ _ _ _ Hw) as (Hwr & _).
    assert (w < m_watch_sz c)%nat as Hwsz by lia.
    destruct (promoted_spec (th_ctx t) cv c w (m_watch t) Hinv Hwsz) as (P1 & _).
    split; [exact P1|]. intros Hge.
    destruct (assign_watch_propagate v is_true key wi t cv c w Hcv Hc Hw Hinv Hpos Hnd Hk Hge)
      as (t' & cw' & c' & H1 & H2 & H3 & Hk' & H4 & _ & _ & _ & H8 & H9 & _).
    exists t', c'. split; [done|]. split; [done|].
    split; [by apply (same_watch_inv _ _ H9)|].
    destruct H9 as (_ & _ & Sk & _ & _ & Ss). rewrite Sk, Ss.
    split; [done|]. by rewrite <- Hk'.
Qed.

(** ** The level gate of the conflict analysis *)

(** [conflict_level] is the greatest assignment level of a false literal,
    and 0 when no literal is false. *)
Lemma conflict_level_spec ctx (args : list (literal * Z)) :
  (∀ a, a ∈ args → get_assignment ctx a.1 = l_false →
        (get_assign_level ctx (var a.1) <= conflict_level ctx args)%nat)
  ∧ ((∃ a, a ∈ args ∧ get_assignment ctx a.1 = l_false) →
     ∃ a, a ∈ args ∧ get_assignment ctx a.1 = l_false
          ∧ get_assign_level ctx (var a.1) = conflict_level ctx args)
  ∧ ((∀ a, a ∈ args → get_assignment ctx a.1 ≠ l_false) →
     conflict_level ctx args = 0%nat).
Proof.
  unfold conflict_level. induction args as [|a args IH] using rev_ind.
  - split; [|split].
    + intros a Ha. by apply not_elem_of_nil in Ha.
    + intros (a & Ha & _). by apply not_elem_of_nil in Ha.
    + done.
  - destruct IH as (IH1 & IH2 & IH3).
    rewrite foldl_snoc.
    set (m := foldl _ 0%nat args) in *.
    assert (∀ b, b ∈ args ++ [a] ↔ b ∈ args ∨ b = a) as Hin.
    { intros b. by rewrite elem_of_app, list_elem_of_singleton. }
    setoid_rewrite Hin.
    assert ((∃ b, b ∈ args ∧ get_assignment ctx b.1 = l_false)
            ∨ (∀ b, b ∈ args → get_assignment ctx b.1 ≠ l_false)) as Hdec.
    { destruct (decide (Exists (fun b : literal * Z =>
                                  get_assignment ctx b.1 = l_false) args)) as [He|Hne].
      - left. by apply Exists_exists in He.
      - right. intros b Hb Hu. apply Hne. apply Exists_exists. by exists b. }
    destruct (decide (get_assignment ctx a.1 = l_false)) as [Hf|Hf].
    + rewrite bool_decide_eq_true_2 by done.
      split; [|split].
      * intros b [Hb| ->] Hbf; [specialize (IH1 b Hb Hbf); lia|lia].
      * intros _.
        destruct (Nat.le_gt_cases m (get_assign_level ctx (var a.1))) as [Hle|Hgt].
        -- exists a. split; [by right|]. split; [done|]. lia.
        -- destruct Hdec as [He|Hne].
           ++ destruct (IH2 He) as (b & Hb & Hbf & Hbm).
              exists b. split; [by left|]. split; [done|]. lia.
           ++ rewrite (IH3 Hne) in Hgt. lia.
      * intros Hn. exfalso. apply (Hn a); [by right|done].
    + rewrite bool_decide_eq_false_2 by done.
      split; [|split].
      * intros b [Hb| ->] Hbf; [by apply IH1|done].
      * intros (b & [Hb| ->] & Hbf); [|done].
        destruct (IH2 (ex_intro _ b (conj Hb Hbf))) as (b' & ? & ? & ?).
        exists b'. split; [by left|done].
      * intros Hn. apply IH3. intros b Hb. apply Hn. by left.
Qed.

(** C5. In [resolve_conflict] on the inequality [C0] stored at [cv], the
    conflict level is the greatest assignment level of a false literal of
    [C0] (0 when none is false).  Whenever that level is below the level of
    [lit(C0)] or equal to the base level, the analysis returns [false] with
    nothing but [m_conflict_lvl] changed; and a run that learns (returns
    [true]) has a conflict level that is neither.  The gate is not the only
    way out: the analysis also returns [false] later, when the lemma
    normalises to true or the walk down the trail reaches index 0 on an
    unmarked variable. *)
Theorem resolve_conflict_gate (cv : bool_var) (c : ineq) (t : theory_pb) :
  m_ineqs t !! cv = Some c →
  let ctx := th_ctx t in
  let lvl := conflict_level ctx (m_args c) in
  ((∀ a, a ∈ m_args c → get_assignment ctx a.1 = l_false →
         (get_assign_level ctx (var a.1) <= lvl)%nat)
   ∧ ((∃ a, a ∈ m_args c ∧ get_assignment ctx a.1 = l_false) →
      ∃ a, a ∈ m_args c ∧ get_assignment ctx a.1 = l_false
           ∧ get_assign_level ctx (var a.1) = lvl)
   ∧ ((∀ a, a ∈ m_args c → get_assignment ctx a.1 ≠ l_false) → lvl = 0%nat))
  ∧ ((lvl < get_assign_level ctx (var (m_lit c)) ∨ lvl = get_base_level ctx)%nat →
     resolve_conflict cv t = Some (false, set_conflict_lvl lvl t))
  ∧ (∀ t', resolve_conflict cv t = Some (true, t') →
           (get_assign_level ctx (var (m_lit c)) <= lvl)%nat
           ∧ lvl ≠ get_base_level ctx).
Proof.
  intros Hc ctx lvl.
  assert ((lvl < get_assign_level ctx (var (m_lit c)) ∨ lvl = get_base_level ctx)%nat →
          resolve_conflict cv t = Some (false, set_conflict_lvl lvl t)) as Hgate.
  { intros Hg. unfold resolve_conflict.
    unfold bind at 1. unfold get_ineq at 1. unfold bind at 1.
    unfold get_state at 1, lift_opt at 1. rewrite Hc.
    unfold bind at 1. unfold get_state at 1.
    unfold bind at 1. unfold modify at 1.
    fold ctx. fold lvl.
    assert ((lvl <? get_assign_level ctx (var (m_lit c)))%nat
            || (lvl =? get_base_level ctx)%nat = true) as ->; [|reflexivity].
    apply orb_true_iff. destruct Hg as [Hg|Hg].
    - left. by apply Nat.ltb_lt.
    - right. by apply Nat.eqb_eq. }
  split; [apply conflict_level_spec|]. split; [exact Hgate|].
  intros t' Hrun.
  destruct (Nat.le_gt_cases (get_assign_level ctx (var (m_lit c))) lvl) as [Hle|Hgt].
  - split; [done|]. intros Heq. rewrite Hgate in Hrun by (by right). done.
  - rewrite Hgate in Hrun by (left; lia). done.
Qed.

(** ** Removal by swapping with the last cell *)

Lemma removelast_snoc_lookup {A} (s : list A) (x : A) :
  s !! (length s - 1)%nat = Some x → s = removelast s ++ [x].
Proof.
  destruct s as [|y s _] using rev_ind; [done|].
  rewrite length_app. simpl. intros H.
  replace (length s + 1 - 1)%nat with (length s) in H by lia.
  rewrite lookup_app_r in H by lia. rewrite Nat.sub_diag in H. simpl in H.
  simplify_eq. by rewrite removelast_last.
Qed.

(** [std::swap(v[i], v.back()); v.pop_back()] removes the cell [i] and
    leaves the cells before it in place. *)
Lemma swap_pop_spec {A} (l : list A) (i : nat) (x : A) :
  l !! i = Some x →
  let l' := removelast (swap l i (length l - 1)) in
  swap l i (length l - 1) = l' ++ [x]
  ∧ l ≡ₚ l' ++ [x]
  ∧ S (length l') = length l
  ∧ (∀ j, (j < i)%nat → l' !! j = l !! j).
Proof.
  intros Hi l'.
  assert (i < length l)%nat as Hlt by by eapply lookup_lt_Some.
  destruct (l !! (length l - 1)%nat) as [b|] eqn:Hb.
  2:{ apply lookup_ge_None in Hb. lia. }
  assert (swap l i (length l - 1) = l' ++ [x]) as Heq.
  { apply removelast_snoc_lookup. rewrite swap_length.
    by apply (swap_lookup_r l i _ x b). }
  assert (S (length l') = length l) as Hlen.
  { rewrite <- (swap_length l i (length l - 1)), Heq, length_app. simpl. lia. }
  split; [done|]. split; [by rewrite <- Heq, swap_Permutation|].
  split; [done|]. intros j Hj.
  rewrite <- (swap_lookup_ne l i (length l - 1) j) by lia.
  rewrite Heq. rewrite lookup_app_l by lia. done.
Qed.

(** ** Hoisting of maximal values *)

Lemma hoist_spec (k0 : numeral) :
  ∀ n i args out,
    (length args - i <= n)%nat →
    Forall (fun a => a.2 < k0) (take i args) →
    let h := hoist n i args k0 out in
    Forall (fun a => a.2 < k0) h.1
    ∧ ∃ removed, args ≡ₚ h.1 ++ removed
                 ∧ Forall (fun a => k0 <= a.2) removed
                 ∧ h.2 = out ++ map (fun a => lit_neg a.1) removed.
Proof.
  induction n as [|n IH]; intros i args out Hn Hpre.
  - simpl. rewrite take_ge in Hpre by lia. split; [done|].
    exists []. rewrite !app_nil_r. done.
  - simpl. destruct (args !! i) as [[l a]|] eqn:Ha.
    2:{ apply lookup_ge_None in Ha. rewrite take_ge in Hpre by lia.
        split; [done|]. exists []. rewrite !app_nil_r. done. }
    destruct (Z.leb_spec k0 a) as [Hle|Hgt].
    + destruct (swap_pop_spec args i (l, a) Ha) as (Hsw & Hperm & Hlen & Hlk).
      set (args' := removelast (swap args i (length args - 1))) in *.
      destruct (IH i args' (out ++ [lit_neg l])) as (H1 & removed & H2 & H3 & H4).
      * lia.
      * assert (take i args' = take i args) as ->; [|done].
        apply list_eq. intros j. destruct (decide (j < i)%nat).
        -- rewrite !lookup_take_lt by done. by apply Hlk.
        -- rewrite !lookup_take_ge by lia. done.
      * split; [exact H1|]. exists ((l, a) :: removed).
        split; [|split].
        -- etrans; [exact Hperm|].
           etrans; [apply Permutation_app_tail; exact H2|].
           rewrite <- app_assoc. apply Permutation_app_head.
           symmetry. apply Permutation_cons_append.
        -- by constructor.
        -- rewrite H4. simpl. by rewrite <- app_assoc.
    + apply IH; [apply lookup_lt_Some in Ha; lia|].
      rewrite (take_S_r _ _ _ Ha). apply Forall_app. split; [done|].
      by apply Forall_singleton.
Qed.

(** X1. [hoist_maximal_values] leaves in the lemma only coefficients below
    its threshold: the arguments it removes are exactly those it met with a
    coefficient of at least [k], the others stay (in some order), and for
    each removed one the complement of its literal is pushed on
    [m_ineq_literals], in the order of removal. *)
Theorem hoist_maximal_values_spec (args : list (literal * Z)) (k0 : numeral)
    (out : list literal) :
  let h := hoist (length args) 0 args k0 out in
  Forall (fun a => a.2 < k0) h.1
  ∧ ∃ removed, args ≡ₚ h.1 ++ removed
               ∧ Forall (fun a => k0 <= a.2) removed
               ∧ h.2 = out ++ map (fun a => lit_neg a.1) removed.
Proof.
  apply hoist_spec; [lia|]. by rewrite take_0.
Qed.

(** ** The compilation queue *)

Lemma queued_threshold (c : ineq) :
  m_compilation_threshold c = UINT_MAX → queued c = false.
Proof.
  intros H. unfold queued. rewrite H.
  assert (u32 (m_num_propagations c + 1) <= UINT_MAX) as Hle.
  { unfold u32, UINT_MAX.
    pose proof (Z.mod_pos_bound (m_num_propagations c + 1) (2 ^ 32) ltac:(lia)). lia. }
  destruct (Z.ltb_spec UINT_MAX (u32 (m_num_propagations c + 1))); [lia|].
  by rewrite andb_false_r.
Qed.

Lemma queued_compiled (c : ineq) : m_compiled c ≠ l_false → queued c = false.
Proof. intros H. unfold queued. by rewrite bool_decide_eq_false_2. Qed.

Lemma counted_fields (c : ineq) :
  m_compilation_threshold (counted c) = m_compilation_threshold c
  ∧ (queued c = true → m_compiled (counted c) = l_undef)
  ∧ (queued c = false → m_compiled (counted c) = m_compiled c).
Proof. unfold counted. by destruct (queued c). Qed.

Lemma inc_propagations_n_spec (cv : bool_var) :
  ∀ n lo t c,
    m_ineqs t !! cv = Some c →
    ∃ t' c',
      for_range lo n (fun _ => inc_propagations cv) t = Some (tt, t')
      ∧ m_ineqs t' !! cv = Some c'
      ∧ m_compilation_threshold c' = m_compilation_threshold c
      ∧ (m_to_compile t' = m_to_compile t ∧ (m_compiled c ≠ l_false → m_compiled c' = m_compiled c)
         ∨ m_to_compile t' = m_to_compile t ++ [cv]
           ∧ m_compiled c = l_false ∧ m_compiled c' = l_undef
           ∧ m_compilation_threshold c < UINT_MAX).
Proof.
  induction n as [|n IH]; intros lo t c Hc.
  - exists t, c. split; [done|]. split; [done|]. split; [done|]. by left.
  - simpl. unfold bind at 1. rewrite (inc_propagations_eq cv c t Hc).
    destruct (after_inc_propagations_frame cv c t) as (F1 & _).
    destruct (counted_fields c) as (C1 & C2 & C3).
    destruct (IH (S lo) (after_inc_propagations cv c t) (counted c))
      as (t' & c' & Hrun & Hc' & Hth & Hq).
    { rewrite F1. apply lookup_insert_eq. }
    exists t', c'. split; [exact Hrun|]. split; [done|]. split; [congruence|].
    destruct (queued c) eqn:Hqc.
    + right.
      assert (m_compiled c = l_false) as Hcf.
      { destruct (decide (m_compiled c = l_false)) as [|Hne]; [done|].
        by rewrite (queued_compiled c Hne) in Hqc. }
      assert (m_compilation_threshold c < UINT_MAX) as Hlt.
      { destruct (decide (m_compilation_threshold c = UINT_MAX)) as [He|Hne].
        - by rewrite (queued_threshold c He) in Hqc.
        - unfold queued in Hqc. apply andb_true_iff in Hqc as [_ Hqc].
          apply Z.ltb_lt in Hqc. unfold u32, UINT_MAX in *.
          pose proof (Z.mod_pos_bound (m_num_propagations c + 1) (2 ^ 32) ltac:(lia)).
          lia. }
      assert (m_to_compile (after_inc_propagations cv c t) = m_to_compile t ++ [cv]) as Hq1.
      { unfold after_inc_propagations. by rewrite Hqc. }
      destruct Hq as [[Hq Hk]|(Hq & Hk & _)].
      * split; [by rewrite Hq, Hq1|]. split; [done|]. split; [|done].
        rewrite Hk; [by apply C2|]. rewrite (C2 eq_refl). done.
      * rewrite (C2 eq_refl) in Hk. done.
    + assert (m_to_compile (after_inc_propagations cv c t) = m_to_compile t) as Hq1.
      { unfold after_inc_propagations. by rewrite Hqc. }
      rewrite (C3 eq_refl) in Hq. rewrite C1 in Hq.
      destruct Hq as [[Hq Hk]|(Hq & Hk & Hk' & Hlt)].
      * left. split; [by rewrite Hq, Hq1|]. done.
      * right. split; [by rewrite Hq, Hq1|]. done.
Qed.

(** X2. However often [inc_propagations] runs on an inequality, the
    inequality enters the compile queue at most once, and only from the
    state [m_compiled = l_false] with a threshold below [UINT_MAX]: once
    queued it is [l_undef], and an inequality whose threshold is [UINT_MAX]
    (compilation disabled, or a coefficient of 8 or more) is never queued. *)
Theorem inc_propagations_queue (cv : bool_var) (n : nat) (t : theory_pb) (c : ineq) :
  m_ineqs t !! cv = Some c →
  ∃ t' c',
    inc_propagations_n cv n t = Some (tt, t')
    ∧ m_ineqs t' !! cv = Some c'
    ∧ (m_to_compile t' = m_to_compile t
       ∨ m_to_compile t' = m_to_compile t ++ [cv]
         ∧ m_compiled c = l_false ∧ m_compiled c' = l_undef)
    ∧ (m_compilation_threshold c = UINT_MAX ∨ m_compiled c ≠ l_false →
       m_to_compile t' = m_to_compile t).
Proof.
  intros Hc.
  destruct (inc_propagations_n_spec cv n 0 t c Hc) as (t' & c' & Hrun & Hc' & _ & Hq).
  exists t', c'. split; [exact Hrun|]. split; [done|]. split.
  - destruct Hq as [[Hq _]|(Hq & Hk & Hk' & _)]; [by left|by right].
  - intros Hcase. destruct Hq as [[Hq _]|(Hq & Hk & Hk' & Hlt)]; [done|].
    destruct Hcase as [He|Hne]; [lia|done].
Qed.

(** ** Marks *)

Lemma unset_mark_loop (vs : list bool_var) :
  ∀ t, ∃ t',
    for_each vs unset_mark t = Some (tt, t')
    ∧ m_marked t' = m_marked t
    ∧ m_lemma t' = m_lemma t ∧ th_ctx t' = th_ctx t ∧ m_ineqs t' = m_ineqs t
    ∧ (∀ v, m_conseq_index t' !! v
            = if decide (v ∈ vs) then None else m_conseq_index t !! v).
Proof.
  induction vs as [|x vs IH]; intros t.
  - exists t. simpl. split; [done|]. repeat (split; [done|]). done.
  - simpl. unfold bind at 1. unfold unset_mark at 1, modify at 1.
    destruct (IH (set_conseq_index (delete x (m_conseq_index t)) t))
      as (t' & Hrun & Hm & Hl & Hc & Hi & Hidx).
    exists t'. split; [exact Hrun|]. repeat (split; [done|]).
    intros v. rewrite Hidx. simpl.
    destruct (decide (v ∈ vs)) as [Hin|Hnin].
    + rewrite decide_True; [done|]. by right.
    + destruct (decide (v = x)) as [->|Hne].
      * rewrite decide_True by by left. apply lookup_delete_eq.
      * rewrite decide_False.
        -- by rewrite lookup_delete_ne.
        -- intros Hin. apply elem_of_cons in Hin as [?|?]; done.
Qed.

(** X3. Marks are kept in two places, the index table [m_conseq_index] and
    the list [m_marked].  The table is a vector indexed by the variable, with
    the sentinel [null_index] ([UINT_MAX]) for an unmarked one, so the
    variables are taken non-negative and the index below the sentinel.
    [set_mark] makes its variable marked, at the given index, pushes it on
    the list and keeps every marked variable on the list; [unset_mark]
    unmarks its variable only; and when every marked variable is on the
    list, [unset_marks] leaves no variable marked and empties the list. *)
Theorem marks_round_trip (t : theory_pb) (v : bool_var) (idx : nat) :
  0 <= v < 2 ^ 31 - 1 → Z.of_nat idx < UINT_MAX →
  (∃ t', set_mark v idx t = Some (tt, t')
         ∧ is_marked t' v = true ∧ m_conseq_index t' !! v = Some idx
         ∧ m_marked t' = m_marked t ++ [v]
         ∧ (∀ u, 0 <= u → u ≠ v → is_marked t' u = is_marked t u)
         ∧ (marked_inv t → marked_inv t'))
  ∧ (∃ t', unset_mark v t = Some (tt, t')
           ∧ is_marked t' v = false
           ∧ m_marked t' = m_marked t
           ∧ (∀ u, 0 <= u → u ≠ v → is_marked t' u = is_marked t u))
  ∧ (marked_inv t → Forall (fun u => 0 <= u) (m_marked t) →
     ∃ t', unset_marks t = Some (tt, t')
           ∧ m_marked t' = [] ∧ (∀ u, 0 <= u → is_marked t' u = false)).
Proof.
  intros Hv Hidx. split; [|split].
  - eexists. split; [reflexivity|]. unfold is_marked. simpl.
    rewrite lookup_insert_eq. split; [done|]. split; [done|]. split; [done|]. split.
    + intros u _ Hu. by rewrite lookup_insert_ne.
    + intros Hinv u Hu. simpl in *. apply elem_of_app.
      destruct (decide (u = v)) as [->|Hne].
      * right. by apply list_elem_of_singleton.
      * left. apply Hinv. by rewrite lookup_insert_ne in Hu.
  - eexists. split; [reflexivity|]. unfold is_marked. simpl.
    rewrite lookup_delete_eq. split; [|split; [done|]].
    + apply bool_decide_eq_false_2. by intros [? ?].
    + intros u _ Hu. by rewrite lookup_delete_ne.
  - intros Hinv _. unfold unset_marks.
    destruct (unset_mark_loop (m_marked t) t) as (t' & Hrun & Hm & _ & _ & _ & Hi).
    eexists. split.
    + unfold bind at 1. unfold get_state at 1. unfold bind at 1. rewrite Hrun.
      reflexivity.
    + simpl. split; [done|]. intros u _. unfold is_marked. simpl.
      apply bool_decide_eq_false_2. intros Hs. rewrite Hi in Hs.
      destruct (decide (u ∈ m_marked t)) as [Hin|Hnin].
      * by destruct Hs.
      * apply Hnin. by apply Hinv.
Qed.

(** ** Valuations and negation *)

Lemma lit_true_neg σ (l : literal) : lit_true σ (lit_neg l) = negb (lit_true σ l).
Proof. unfold lit_true, lit_neg. simpl. by destruct (σ (var l)), (sign l). Qed.

Lemma lit_neg_involutive (l : literal) : lit_neg (lit_neg l) = l.
Proof. destruct l as [v s]. unfold lit_neg. simpl. by rewrite negb_involutive. Qed.

Lemma complemented_involutive (args : list (literal * Z)) :
  complemented (complemented args) = args.
Proof.
  unfold complemented. rewrite map_map. rewrite <- (map_id args) at 2.
  apply map_ext. intros [l a]. simpl. by rewrite lit_neg_involutive.
Qed.

Lemma sum_coeffs_complemented (args : list (literal * Z)) :
  sum_coeffs (complemented args) = sum_coeffs args.
Proof. induction args as [|a args IH]; simpl; [done|]. by rewrite IH. Qed.

Lemma pb_sum_complemented σ (args : list (literal * Z)) :
  pb_sum σ (complemented args) = sum_coeffs args - pb_sum σ args.
Proof.
  unfold pb_sum. induction args as [|a args IH]; simpl; [done|].
  rewrite !filter_cons. simpl. rewrite lit_true_neg.
  destruct (lit_true σ a.1) eqn:Ht; simpl; rewrite IH; lia.
Qed.

Lemma ineq_negate_unfold (c c' : ineq) :
  ineq_negate c = Some c' →
  pb_normalize (complemented (m_args c)) (sum_coeffs (m_args c) - m_k c + 1)
  = (l_undef, (m_args c', m_k c'))
  ∧ c' = mk_ineq (lit_neg (m_lit c)) (m_args c') (m_k c') (m_max_watch c)
           (m_watch_sz c) (m_watch_sum c) (m_num_propagations c)
           (m_compilation_threshold c) (m_compiled c).
Proof.
  unfold ineq_negate, ineq_normalize. simpl. fold (complemented (m_args c)).
  destruct (pb_normalize (complemented (m_args c)) (sum_coeffs (m_args c) - m_k c + 1))
    as [[] [args' k']] eqn:Hn; simpl; try done.
  intros H. injection H as <-. done.
Qed.

(** X4. [negate] turns an inequality into its complement.  In every
    valuation in which the normaliser kept the meaning of the inequality it
    was given (the complemented literals with the threshold
    [sum - k + 1]), the negated literal has the opposite value and the negated
    inequality holds exactly when the original one does not. *)
Theorem ineq_negate_complement σ (c c' : ineq) :
  ineq_negate c = Some c' →
  (pb_holds σ (m_args c') (m_k c')
   ↔ pb_holds σ (complemented (m_args c)) (sum_coeffs (m_args c) - m_k c + 1)) →
  lit_true σ (m_lit c') = negb (lit_true σ (m_lit c))
  ∧ (pb_holds σ (m_args c') (m_k c') ↔ ¬ pb_holds σ (m_args c) (m_k c)).
Proof.
  intros Hneg Hnorm. destruct (ineq_negate_unfold c c' Hneg) as [_ Hc'].
  split.
  - rewrite Hc'. simpl. apply lit_true_neg.
  - rewrite Hnorm. unfold pb_holds. rewrite pb_sum_complemented. lia.
Qed.

(** X5. Negating twice gives the inequality back: when the normaliser leaves
    the negated inequality and the original one as they are (both are in
    normal form), [negate] on the negation returns the original, with its
    literal, arguments, threshold and watch metadata. *)
Theorem ineq_negate_involutive (c c' : ineq) :
  ineq_negate c = Some c' →
  m_args c' = complemented (m_args c) →
  m_k c' = sum_coeffs (m_args c) - m_k c + 1 →
  pb_normalize (m_args c) (m_k c) = (l_undef, (m_args c, m_k c)) →
  ineq_negate c' = Some c.
Proof.
  intros Hneg Hargs Hk Hnorm. destruct (ineq_negate_unfold c c' Hneg) as [_ Hc'].
  unfold ineq_negate, ineq_normalize. simpl. fold (complemented (m_args c')).
  rewrite Hargs, complemented_involutive, sum_coeffs_complemented, Hk.
  replace (sum_coeffs (m_args c) - (sum_coeffs (m_args c) - m_k c + 1) + 1)
    with (m_k c) by lia.
  rewrite Hnorm. rewrite Hc'. simpl. rewrite lit_neg_involutive.
  by destruct c.
Qed.

(** ** Soundness of the propagator *)

Lemma sum_filter_le {P Q : literal * Z → Prop} `{∀ x, Decision (P x)}
    `{∀ x, Decision (Q x)} (args : list (literal * Z)) :
  nonneg_coeffs args → (∀ a, a ∈ args → P a → Q a) →
  sum_coeffs (filter P args) <= sum_coeffs (filter Q args).
Proof.
  induction 1 as [|a args Ha Hargs IH]; intros Himp; [done|].
  rewrite !filter_cons.
  assert (sum_coeffs (filter P args) <= sum_coeffs (filter Q args)) as Hle.
  { apply IH. intros b Hb. apply Himp. by right. }
  destruct (decide (P a)) as [HP|HP].
  - rewrite decide_True by (apply Himp; [by left|done]). simpl. lia.
  - destruct (decide (Q a)); simpl; lia.
Qed.

Lemma sum_filter_le_minus {P Q : literal * Z → Prop} `{∀ x, Decision (P x)}
    `{∀ x, Decision (Q x)} (args : list (literal * Z)) (a0 : literal * Z) :
  nonneg_coeffs args → (∀ a, a ∈ args → P a → Q a) →
  a0 ∈ args → Q a0 → ¬ P a0 →
  sum_coeffs (filter P args) <= sum_coeffs (filter Q args) - a0.2.
Proof.
  intros Hnn Himp Hin HQ HP.
  apply list_elem_of_split in Hin as (l1 & l2 & ->).
  unfold nonneg_coeffs in Hnn. apply Forall_app in Hnn as [Hn1 Hn2].
  apply Forall_cons in Hn2 as [_ Hn2].
  rewrite !filter_app, !filter_cons, !sum_coeffs_app.
  rewrite decide_False by done. rewrite decide_True by done. simpl.
  assert (sum_coeffs (filter P l1) <= sum_coeffs (filter Q l1)).
  { apply sum_filter_le; [done|]. intros b Hb. apply Himp.
    apply elem_of_app. by left. }
  assert (sum_coeffs (filter P l2) <= sum_coeffs (filter Q l2)).
  { apply sum_filter_le; [done|]. intros b Hb. apply Himp.
    apply elem_of_app. right. by right. }
  lia.
Qed.

Lemma pos_nonneg_coeffs (args : list (literal * Z)) :
  pos_coeffs args → nonneg_coeffs args.
Proof.
  unfold pos_coeffs, nonneg_coeffs. intros H.
  eapply Forall_impl; [exact H|]. intros a Ha. simpl in Ha. lia.
Qed.

Lemma pb_sum_Permutation σ (l1 l2 : list (literal * Z)) :
  l1 ≡ₚ l2 → pb_sum σ l1 = pb_sum σ l2.
Proof. intros H. unfold pb_sum. apply sum_coeffs_Permutation. by rewrite H. Qed.

(** A valuation that makes the false literals of the assignment false sums
    to at most [maxsum]; and to at most [maxsum] less the coefficient of an
    argument that is not false in the assignment but false in the
    valuation. *)
Lemma pb_sum_maxsum σ ctx (args : list (literal * Z)) :
  nonneg_coeffs args →
  (∀ a, a ∈ args → get_assignment ctx a.1 = l_false → lit_true σ a.1 = false) →
  pb_sum σ args <= maxsum ctx args
  ∧ (∀ a0, a0 ∈ args → get_assignment ctx a0.1 ≠ l_false → lit_true σ a0.1 = false →
           pb_sum σ args <= maxsum ctx args - a0.2).
Proof.
  intros Hnn Hf. rewrite maxsum_filter. unfold pb_sum.
  assert (∀ a, a ∈ args → lit_true σ a.1 = true → get_assignment ctx a.1 ≠ l_false)
    as Himp.
  { intros a Ha Ht Hfa. rewrite (Hf a Ha Hfa) in Ht. done. }
  split.
  - by apply sum_filter_le.
  - intros a0 Ha0 Hnf Hs. apply sum_filter_le_minus; try done.
    by rewrite Hs.
Qed.

(** The literals of [get_unhelpful_literals]. *)
Lemma unhelpful_literals_elem ctx (args : list (literal * Z)) (negate : bool) (a : literal * Z) :
  a ∈ args → get_assignment ctx a.1 = l_false →
  (if negate then lit_neg a.1 else a.1) ∈ unhelpful_literals ctx args negate.
Proof.
  intros Ha Hf. unfold unhelpful_literals.
  apply list_elem_of_fmap. exists a. split; [done|].
  by apply list_elem_of_filter.
Qed.

(** When the explanation of a propagation is true in a valuation, the false
    literals of the assignment are false in it. *)
Lemma explanation_true σ ctx (args : list (literal * Z)) (l : literal) :
  Forall (fun x => lit_true σ x = true) (unhelpful_literals ctx args true ++ [l]) →
  lit_true σ l = true
  ∧ (∀ a, a ∈ args → get_assignment ctx a.1 = l_false → lit_true σ a.1 = false).
Proof.
  intros H. apply Forall_app in H as [H1 H2]. rewrite Forall_singleton in H2.
  split; [done|]. intros a Ha Hf.
  rewrite Forall_forall in H1.
  specialize (H1 _ (unhelpful_literals_elem ctx args true a Ha Hf)).
  rewrite lit_true_neg in H1. by destruct (lit_true σ a.1).
Qed.

(** The conflict clause is a consequence of the reified inequality. *)
Lemma conflict_clause_holds σ ctx (c : ineq) :
  nonneg_coeffs (m_args c) → reified σ c →
  maxsum ctx (m_args c) < m_k c →
  clause_holds σ (unhelpful_literals ctx (m_args c) false ++ [lit_neg (m_lit c)]).
Proof.
  intros Hnn Hre Hlt. unfold clause_holds. apply Exists_app.
  destruct (lit_true σ (m_lit c)) eqn:Hl.
  2:{ right. apply Exists_cons_hd. by rewrite lit_true_neg, Hl. }
  left.
  destruct (decide (Exists (fun a : literal * Z =>
              get_assignment ctx a.1 = l_false ∧ lit_true σ a.1 = true) (m_args c)))
    as [He|Hne].
  - apply Exists_exists in He as (a & Ha & Hf & Ht).
    apply Exists_exists. exists a.1. split; [|done].
    by apply (unhelpful_literals_elem ctx (m_args c) false a).
  - exfalso. specialize (Hre Hl). unfold pb_holds in Hre.
    destruct (pb_sum_maxsum σ ctx (m_args c) Hnn) as [Hle _]; [|lia].
    intros a Ha Hf. destruct (lit_true σ a.1) eqn:Ht; [|done].
    exfalso. apply Hne. apply Exists_exists. by exists a.
Qed.

(** A propagation is a consequence of the reified inequality when
    [maxsum] less the coefficient of the propagated literal is below [k]. *)
Lemma propagations_hold σ ctx (cv : bool_var) (c : ineq) (args : list (literal * Z))
    (sel : Z → bool) :
  args ≡ₚ m_args c → nonneg_coeffs (m_args c) → reified σ c →
  (∀ a, a ∈ args → get_assignment ctx a.1 = l_undef → sel a.2 = true →
        maxsum ctx args - a.2 < m_k c) →
  Forall (event_holds σ)
    (propagations ctx cv (unhelpful_literals ctx args true ++ [m_lit c]) sel args).
Proof.
  intros Hperm Hnn Hre Hsel. unfold propagations.
  rewrite Forall_fmap. rewrite Forall_forall. intros a Ha.
  apply list_elem_of_filter in Ha as [[Hu Hs] Ha]. simpl. intros Hexpl.
  destruct (explanation_true σ ctx args (m_lit c) Hexpl) as [Hl Hf].
  destruct (lit_true σ a.1) eqn:Ht; [done|]. exfalso.
  specialize (Hre Hl). unfold pb_holds in Hre.
  rewrite <- (pb_sum_Permutation σ _ _ Hperm) in Hre.
  assert (nonneg_coeffs args) as Hnn'.
  { unfold nonneg_coeffs. by rewrite Hperm. }
  destruct (pb_sum_maxsum σ ctx args Hnn' Hf) as [_ Hle].
  specialize (Hle a Ha ltac:(by rewrite Hu) Ht).
  specialize (Hsel a Ha Hu Hs). lia.
Qed.

(** X6. What [assign_ineq] emits follows from the inequality it
    activates.  For every valuation in which [lit(C)] implies [C]: the
    conflict clause raised when [maxsum < k] holds in it; and when
    [maxsum >= k], every propagation the call makes holds in it (the
    propagated literal is true whenever the literals of its explanation
    are). *)
Theorem assign_ineq_sound σ (cv : bool_var) (is_true : bool) (t0 : theory_pb)
    (c0 c : ineq) :
  m_ineqs t0 !! cv = Some c0 →
  oriented c0 is_true = Some c →
  distinct_vars (m_args c) → pos_coeffs (m_args c) →
  reified σ c →
  let ctx := th_ctx t0 in
  (maxsum ctx (m_args c) < m_k c →
   clause_holds σ (unhelpful_literals ctx (m_args c) false ++ [lit_neg (m_lit c)]))
  ∧ (m_k c <= maxsum ctx (m_args c) →
     ∃ t' new,
       assign_ineq cv is_true t0 = Some (tt, t')
       ∧ m_log (th_ctx t') = m_log ctx ++ new
       ∧ Forall (event_holds σ) new).
Proof.
  intros Hc0 Hor Hnd Hpos Hre ctx.
  pose proof (pos_nonneg_coeffs _ Hpos) as Hnn.
  split; [by apply conflict_clause_holds|].
  intros Hk.
  destruct (assign_ineq_unfold cv is_true t0 c0 c Hc0 Hor)
    as (t & _ & Heq & Hc & Hctx & Hw).
  unfold ctx in Hk. rewrite <- Hctx in Hk.
  destruct (assign_ineq_core_watch cv c t Hc Hnd Hk) as (t' & c' & Hrun & _ & _ & _ & Hlog).
  destruct (init_watch_spec (th_ctx t) cv c (m_watch t) Hk) as (_ & _ & Hperm & _).
  rewrite Hctx in Hlog, Hperm, Hk. fold ctx in Hlog, Hperm, Hk.
  eexists t', _. rewrite Heq. split; [exact Hrun|]. split; [exact Hlog|].
  destruct (Z.ltb_spec (maxsum ctx (m_args c) - mininc ctx (m_args c)) (m_k c))
    as [Hlt|_]; [|done].
  apply propagations_hold; try done.
  intros a Ha Hu _.
  rewrite (maxsum_Permutation ctx _ _ Hperm).
  destruct (mininc_spec ctx (m_args c) Hpos) as (Hmin & _).
  assert (a ∈ m_args c) as Ha' by by rewrite <- Hperm.
  specialize (Hmin a Ha' Hu). lia.
Qed.

Lemma reified_same σ (c c' : ineq) :
  m_lit c' = m_lit c → m_args c' ≡ₚ m_args c → m_k c' = m_k c →
  reified σ c → reified σ c'.
Proof.
  intros Hl Ha Hk Hre. unfold reified, pb_holds in *.
  rewrite Hl, Hk, (pb_sum_Permutation σ _ _ Ha). done.
Qed.

(** When the promotion loop of [assign_watch] has run to the end of the
    inequality, every literal outside the watched prefix is false. *)
Lemma promoted_exhausted ctx cv (c : ineq) (w : nat) wm :
  watch_inv c → (w < m_watch_sz c)%nat →
  let cw := promoted ctx cv c w wm in
  m_watch_sum cw.1 - coeff c w < m_k c + m_max_watch cw.1 →
  false_between ctx cw.1 (m_watch_sz cw.1) (length (m_args cw.1)).
Proof.
  intros Hinv Hw cw Hmore.
  destruct (add_watches_spec ctx cv
              (fun c' => m_watch_sum c' - coeff c w <? m_k c + m_max_watch c')
              (length (m_args c) - m_watch_sz c) (m_watch_sz c) (c, wm))
    as (_ & _ & _ & _ & _ & _ & _ & _ & _ & _ & H11).
  - done.
  - simpl. lia.
  - simpl. lia.
  - intros j a Hj. simpl in Hj. lia.
  - destruct H11 as [H|H]; [|exact H]. apply Z.ltb_ge in H.
    unfold cw, promoted, promote in Hmore. lia.
Qed.

(** With every unwatched literal false and the watched literal at [w]
    false, [maxsum] is at most the watched sum less the coefficient at [w]. *)
Lemma maxsum_watch_sum ctx (c : ineq) (w : nat) :
  watch_inv c → nonneg_coeffs (m_args c) → (w < m_watch_sz c)%nat →
  get_assignment ctx (lit_at c w) = l_false →
  false_between ctx c (m_watch_sz c) (length (m_args c)) →
  maxsum ctx (m_args c) <= m_watch_sum c - coeff c w.
Proof.
  intros (Hsz & Hsum & _) Hnn Hw Hf Hfb.
  destruct (m_args c !! w) as [a|] eqn:Ha.
  2:{ apply lookup_ge_None in Ha. lia. }
  rewrite (lit_at_lookup c w a Ha) in Hf. rewrite (coeff_lookup c w a Ha).
  rewrite Hsum, maxsum_filter.
  rewrite <- (take_drop (m_watch_sz c) (m_args c)) at 1.
  rewrite filter_app, sum_coeffs_app.
  assert (filter (fun a => get_assignment ctx a.1 ≠ l_false)
            (drop (m_watch_sz c) (m_args c)) = []) as ->.
  { apply filter_none. rewrite Forall_lookup. intros j b Hb.
    rewrite lookup_drop in Hb. intros Hnf. apply Hnf.
    apply (Hfb (m_watch_sz c + j)%nat b); [|done].
    apply lookup_lt_Some in Hb. lia. }
  simpl.
  assert (sum_coeffs (filter (fun a => get_assignment ctx a.1 ≠ l_false)
                        (take (m_watch_sz c) (m_args c)))
          <= sum_coeffs (filter (fun _ : literal * Z => True)
                           (take (m_watch_sz c) (m_args c))) - a.2) as Hle.
  { apply sum_filter_le_minus; try done.
    - unfold nonneg_coeffs in *. by apply Forall_take.
    - apply list_elem_of_lookup. exists w. by rewrite lookup_take_lt.
    - by intros Hnf. }
  rewrite (filter_all (fun _ => True)) in Hle; [lia|].
  by apply Forall_true.
Qed.

Lemma del_watch_ineq_args (c c' : ineq) (i : nat) :
  del_watch_ineq c i = Some c' →
  m_args c' = (if (i + 1 <? m_watch_sz c)%nat
               then swap (m_args c) i (m_watch_sz c - 1) else m_args c)
  ∧ m_watch_sz c' = (m_watch_sz c - 1)%nat.
Proof.
  unfold del_watch_ineq. destruct (i <? m_watch_sz c)%nat; [|done].
  simpl. case_match; intros Heq; simplify_eq; done.
Qed.

(** [del_watch] never raises the maximal watched coefficient. *)
Lemma del_watch_ineq_max (c c' : ineq) (i : nat) :
  watch_inv c → watch_inv c' → (i < m_watch_sz c)%nat →
  del_watch_ineq c i = Some c' → m_max_watch c' <= m_max_watch c.
Proof.
  intros (Hsz & _ & Hmax) (_ & _ & Hmax') Hi Hdel.
  destruct (del_watch_ineq_args c c' i Hdel) as [Hargs Hsz'].
  destruct (m_args c !! i) as [a|] eqn:Ha.
  2:{ apply lookup_ge_None in Ha. lia. }
  pose proof (del_watch_prefix (m_args c) (m_watch_sz c) i a Hi Hsz Ha) as Hp.
  rewrite <- Hargs, <- Hsz' in Hp.
  rewrite Hmax, Hmax', <- (max_coeffs_Permutation _ _ Hp). simpl. lia.
Qed.

(** X7. What [assign_watch] emits follows from the inequality.  When the
    literal at the watched index [w] is false, for every valuation in
    which [lit(C)] implies [C]: the conflict clause raised when
    [watch_sum - coeff < k] holds in it, and otherwise every propagation the
    call makes holds in it.  The watched sum may count literals that are
    false by now; the promotion loop makes up for it. *)
Theorem assign_watch_sound σ (v : bool_var) (is_true : bool) (key : Z) (wi : nat)
    (t : theory_pb) (cv : bool_var) (c : ineq) (w : nat) :
  default [] (m_watch t !! key) !! wi = Some cv →
  m_ineqs t !! cv = Some c →
  find_lit c v 0 (m_watch_sz c) = Some w →
  watch_inv c → pos_coeffs (m_args c) → distinct_vars (m_args c) → 0 < m_k c →
  get_assignment (th_ctx t) (lit_at c w) = l_false →
  reified σ c →
  let ctx := th_ctx t in
  let cw := promoted ctx cv c w (m_watch t) in
  (m_watch_sum cw.1 - coeff c w < m_k c →
   clause_holds σ (unhelpful_literals ctx (m_args cw.1) false ++ [lit_neg (m_lit c)]))
  ∧ (m_k c <= m_watch_sum cw.1 - coeff c w →
     ∃ t' new,
       assign_watch v is_true key wi t = Some (true, t')
       ∧ m_log (th_ctx t') = m_log ctx ++ new
       ∧ Forall (event_holds σ) new).
Proof.
  intros Hcv Hc Hw Hinv Hpos Hnd Hk Hfalse Hre ctx cw.
  destruct (find_lit_from_spec _ _ _ _ _ Hw) as (Hwr & _).
  assert (w < m_watch_sz c)%nat as Hwsz by lia.
  destruct (promoted_spec ctx cv c w (m_watch t) Hinv Hwsz)
    as (P1 & P2 & P3 & P4 & P5 & P6).
  fold cw in P1, P2, P3, P4, P5, P6.
  pose proof (pos_nonneg_coeffs _ Hpos) as Hnn.
  assert (nonneg_coeffs (m_args cw.1)) as Hnnw.
  { unfold nonneg_coeffs. by rewrite P2. }
  assert (get_assignment ctx (lit_at cw.1 w) = l_false) as Hfalsew.
  { destruct (m_args c !! w) as [a|] eqn:Ha.
    2:{ apply lookup_ge_None in Ha. destruct Hinv as (? & _). lia. }
    assert (m_args cw.1 !! w = Some a) as Ha'.
    { rewrite <- Ha. unfold cw, promoted, promote.
      destruct (add_watches_spec ctx cv
                  (fun c' => m_watch_sum c' - coeff c w <? m_k c + m_max_watch c')
                  (length (m_args c) - m_watch_sz c) (m_watch_sz c) (c, m_watch t))
        as (_ & _ & _ & _ & _ & _ & _ & _ & H9 & _).
      - done.
      - simpl. lia.
      - simpl. lia.
      - intros j b Hj. simpl in Hj. lia.
      - by apply H9. }
    rewrite (lit_at_lookup _ _ _ Ha'). rewrite (lit_at_lookup _ _ _ Ha) in Hfalse.
    done. }
  assert (0 <= m_max_watch cw.1) as Hmaxnn.
  { destruct P1 as (_ & _ & ->). apply max_coeffs_nonneg. }
  assert (m_watch_sum cw.1 - coeff c w < m_k c + m_max_watch cw.1 →
          maxsum ctx (m_args cw.1) <= m_watch_sum cw.1 - coeff c w) as Hbound.
  { intros Hmore. rewrite <- P6.
    apply maxsum_watch_sum; try done; [lia|].
    by apply promoted_exhausted. }
  split.
  - intros Hlt. rewrite <- P3.
    apply conflict_clause_holds; [done| |].
    + by apply (reified_same σ c).
    + rewrite P4. specialize (Hbound ltac:(lia)). lia.
  - intros Hge.
    destruct (assign_watch_propagate v is_true key wi t cv c w Hcv Hc Hw Hinv Hpos Hnd Hk Hge)
      as (t' & cw' & c' & H1 & H2 & H3 & H4 & H5 & H6 & H7 & H8 & _ & _ & _ & Hlog).
    fold ctx in Hlog.
    change (promoted (th_ctx t) cv c w (m_watch t)) with cw in H2, H7, H8.
    eexists t', _. split; [exact H1|]. split; [exact Hlog|].
    destruct (Z.ltb_spec (m_watch_sum cw'.1) (m_k c + m_max_watch cw'.1))
      as [Hprop|_]; [|done].
    assert (m_max_watch cw'.1 <= m_max_watch cw.1) as Hmax.
    { apply (del_watch_ineq_max cw.1 cw'.1 w).
      - exact P1.
      - exact H3.
      - lia.
      - unfold del_watch in H2.
        destruct (del_watch_ineq cw.1 w); [|done].
        by simplify_eq. }
    assert (maxsum ctx (m_args cw'.1) <= m_watch_sum cw'.1) as Hms.
    { assert (m_args cw'.1 ≡ₚ m_args cw.1) as Hp by by rewrite H6, P2.
      rewrite (maxsum_Permutation ctx _ _ Hp), H8. apply Hbound. lia. }
    apply propagations_hold; try done.
    intros a Ha Hu Hs. apply Z.ltb_lt in Hs. lia.
Qed.

(** ** The sorting network: comparators and splitting *)

Lemma half_spec (n : nat) :
  ∃ q r, n = (2 * q + r)%nat ∧ (r < 2)%nat ∧ (n / 2 = q)%nat
         ∧ Nat.even n = (r =? 0)%nat.
Proof.
  exists (n / 2)%nat, (n mod 2)%nat.
  pose proof (Nat.div_mod_eq n 2) as H1.
  pose proof (Nat.mod_upper_bound n 2 ltac:(lia)) as H2.
  split; [exact H1|]. split; [exact H2|]. split; [done|].
  rewrite H1 at 1. rewrite Nat.add_comm, Nat.even_add_mul_2.
  destruct (n mod 2)%nat as [|[|r]]; [done|done|lia].
Qed.

(** Halving, by cases on the parity. *)
Ltac halve n :=
  let q := fresh "q" in let r := fresh "r" in
  let Hn := fresh "Hn" in let Hr := fresh "Hr" in
  let Hq := fresh "Hq" in let He := fresh "He" in
  destruct (half_spec n) as (q & r & Hn & Hr & Hq & He);
  destruct r as [|[|r]];
    [change (Nat.even n = true) in He|change (Nat.even n = false) in He|lia].

Lemma ceil2_floor2 (n : nat) :
  (psort_nw.ceil2 n + psort_nw.floor2 n = n)%nat
  ∧ (psort_nw.floor2 n <= psort_nw.ceil2 n <= psort_nw.floor2 n + 1)%nat
  ∧ (psort_nw.ceil2 (S n) = S (psort_nw.floor2 n))%nat
  ∧ (psort_nw.floor2 (S n) = psort_nw.ceil2 n)%nat.
Proof.
  unfold psort_nw.ceil2, psort_nw.floor2, psort_nw.odd, psort_nw.even.
  halve n; halve (S n); rewrite ?Hq, ?Hq0, ?He, ?He0; cbn [negb]; lia.
Qed.

Lemma split_list_spec (ls : list literal) :
  length (psort_nw.split_list ls).1 = psort_nw.ceil2 (length ls)
  ∧ length (psort_nw.split_list ls).2 = psort_nw.floor2 (length ls)
  ∧ (∀ i, (psort_nw.split_list ls).1 !! i = ls !! (2 * i)%nat)
  ∧ (∀ i, (psort_nw.split_list ls).2 !! i = ls !! (2 * i + 1)%nat).
Proof.
  induction ls as [|x ls (IH1 & IH2 & IH3 & IH4)].
  - simpl. split; [done|]. split; [done|]. split; intros i; done.
  - cbn [psort_nw.split_list].
    destruct (psort_nw.split_list ls) as [e o] eqn:Hs. cbn [fst snd] in *.
    destruct (ceil2_floor2 (length ls)) as (_ & _ & C3 & C4).
    rewrite !length_cons.
    split; [lia|]. split; [lia|]. split.
    + intros [|i]; [done|].
      replace (2 * S i)%nat with (S (2 * i + 1)) by lia.
      change ((x :: o) !! S i) with (o !! i).
      change ((x :: ls) !! S (2 * i + 1)) with (ls !! (2 * i + 1)%nat).
      apply IH4.
    + intros i. replace (2 * i + 1)%nat with (S (2 * i)) by lia.
      change ((x :: ls) !! S (2 * i)) with (ls !! (2 * i)%nat).
      apply IH3.
Qed.

(** X8. [split] hands out the cells of [ls[0..n)] in turn: the cells at
    even positions, [ceil(n/2)] of them, and the cells at odd positions,
    [floor(n/2)] of them, each in the order of [ls]; it reads [n] cells, so it
    needs [n <= |ls|]. *)
Theorem split_spec (n : nat) (ls : list literal) :
  ((length ls < n)%nat → psort_nw.split n ls = None)
  ∧ ((n <= length ls)%nat →
     ∃ even_ odd_,
       psort_nw.split n ls = Some (even_, odd_)
       ∧ length even_ = psort_nw.ceil2 n ∧ length odd_ = psort_nw.floor2 n
       ∧ (∀ i, (2 * i < n)%nat → even_ !! i = ls !! (2 * i)%nat)
       ∧ (∀ i, (2 * i + 1 < n)%nat → odd_ !! i = ls !! (2 * i + 1)%nat)).
Proof.
  unfold psort_nw.split, array. split.
  - intros H. destruct (Nat.leb_spec n (length ls)); [lia|done].
  - intros H. destruct (Nat.leb_spec n (length ls)); [|lia].
    destruct (split_list_spec (take n ls)) as (H1 & H2 & H3 & H4).
    rewrite length_take in H1, H2.
    replace (n `min` length ls)%nat with n in H1, H2 by lia.
    destruct (psort_nw.split_list (take n ls)) as [e o]. simpl in *.
    exists e, o. split; [done|]. split; [done|]. split; [done|]. split.
    + intros i Hi. rewrite H3. by apply lookup_take_lt.
    + intros i Hi. rewrite H4. by apply lookup_take_lt.
Qed.

(** ** Runs of the network *)

Lemma aux_only_refl s : aux_only s s.
Proof. exists 0%nat. apply emits_refl. Qed.

Lemma aux_only_trans s1 s2 s3 : aux_only s1 s2 → aux_only s2 s3 → aux_only s1 s3.
Proof. intros [n Hn] [m Hm]. exists (n + m)%nat. by eapply emits_trans. Qed.

Lemma aux_only_mode s s' : aux_only s s' → psort_nw.m_t s' = psort_nw.m_t s.
Proof. by intros [n [H _]]. Qed.

Lemma nw_ok_ret {A} mt (a : A) (P : A → Prop) : P a → nw_ok mt (ret a) P.
Proof. intros H s Hs. exists a, s. split; [done|]. split; [done|apply aux_only_refl]. Qed.

Lemma nw_ok_bind {A B} mt (m : M psort_nw.t A) (f : A → M psort_nw.t B)
    (P : A → Prop) (Q : B → Prop) :
  nw_ok mt m P → (∀ a, P a → nw_ok mt (f a) Q) → nw_ok mt (bind m f) Q.
Proof.
  intros Hm Hf s Hs. destruct (Hm s Hs) as (a & s1 & Hrun & Ha & Hs1).
  assert (psort_nw.m_t s1 = mt) as Hmt by (by rewrite (aux_only_mode _ _ Hs1)).
  destruct (Hf a Ha s1 Hmt) as (b & s2 & Hrun2 & Hb & Hs2).
  exists b, s2. split; [|split; [done|by eapply aux_only_trans]].
  unfold bind. by rewrite Hrun.
Qed.

Lemma nw_ok_weaken {A} mt (m : M psort_nw.t A) (P Q : A → Prop) :
  nw_ok mt m P → (∀ a, P a → Q a) → nw_ok mt m Q.
Proof.
  intros Hm HPQ s Hs. destruct (Hm s Hs) as (a & s1 & Hrun & Ha & Hs1).
  exists a, s1. split; [done|]. split; [by apply HPQ|done].
Qed.

Lemma nw_ok_lift_opt {A} mt (o : option A) (P : A → Prop) (a : A) :
  o = Some a → P a → nw_ok mt (lift_opt o) P.
Proof.
  intros -> H s Hs. exists a, s. split; [done|]. split; [done|apply aux_only_refl].
Qed.

Lemma nw_ok_mode mt (m : psort_nw.cmp_t) :
  nw_ok mt (psort_nw.mt_is_not m) (fun b => b = bool_decide (mt ≠ m)).
Proof.
  intros s Hs. exists (bool_decide (mt ≠ m)), s. rewrite <- Hs.
  split; [done|]. split; [done|apply aux_only_refl].
Qed.

Lemma nw_ok_emits {A} mt (m : M psort_nw.t A) (P : A → Prop) :
  (∀ s, ∃ a s' n, m s = Some (a, s') ∧ P a ∧ emits s s' n) → nw_ok mt m P.
Proof.
  intros H s Hs. destruct (H s) as (a & s' & n & Hrun & Ha & He).
  exists a, s'. split; [done|]. split; [done|by exists n].
Qed.

Lemma nw_ok_add_clause mt ls : nw_ok mt (psort_nw.add_clause ls) (fun _ => True).
Proof.
  apply nw_ok_emits. intros s.
  destruct (add_clause_emits ls s) as (s' & H & He). by exists tt, s', 1%nat.
Qed.

Lemma nw_ok_max mt (a b : literal) : nw_ok mt (psort_nw.max a b) (fun _ => True).
Proof.
  apply nw_ok_emits. intros s. unfold psort_nw.max.
  destruct (decide (a = b)); [exists a, s, 0%nat; by split; [|split; [|apply emits_refl]]|].
  unfold bind at 1. unfold modify at 1. unfold bind at 1. unfold get_state at 1.
  destruct (m_or_vars _ !! _).
  - eexists _, _, 0%nat. split; [reflexivity|]. split; [done|]. split; [done|].
    exists []. simpl. by rewrite app_nil_r.
  - destruct (mk_bool_var _) as [v c] eqn:Hv.
    eexists _, _, 0%nat. split; [reflexivity|]. split; [done|]. split; [done|].
    exists []. unfold mk_bool_var in Hv. injection Hv as <- <-. simpl.
    by rewrite app_nil_r.
Qed.

Lemma nw_ok_min mt (a b : literal) : nw_ok mt (psort_nw.min a b) (fun _ => True).
Proof.
  apply nw_ok_emits. intros s. unfold psort_nw.min.
  destruct (decide (a = b)); [exists a, s, 0%nat; by split; [|split; [|apply emits_refl]]|].
  unfold bind at 1. unfold modify at 1. unfold bind at 1. unfold get_state at 1.
  destruct (m_and_vars _ !! _).
  - eexists _, _, 0%nat. split; [reflexivity|]. split; [done|]. split; [done|].
    exists []. simpl. by rewrite app_nil_r.
  - destruct (mk_bool_var _) as [v c] eqn:Hv.
    eexists _, _, 0%nat. split; [reflexivity|]. split; [done|]. split; [done|].
    exists []. unfold mk_bool_var in Hv. injection Hv as <- <-. simpl.
    by rewrite app_nil_r.
Qed.

Lemma seq_emits (m1 m2 : M psort_nw.t unit) (n1 n2 : nat) s :
  (∃ s1, m1 s = Some (tt, s1) ∧ emits s s1 n1) →
  (∀ s1, ∃ s2, m2 s1 = Some (tt, s2) ∧ emits s1 s2 n2) →
  ∃ s2, (m1 ;;; m2) s = Some (tt, s2) ∧ emits s s2 (n1 + n2).
Proof.
  intros (s1 & H1 & E1) H2. destruct (H2 s1) as (s2 & H2' & E2).
  exists s2. split; [unfold bind; by rewrite H1|].
  apply (emits_trans _ _ _ _ _ E1 E2).
Qed.

Lemma cmp_emits (x1 x2 y1 y2 : literal) s :
  ∃ s', psort_nw.cmp x1 x2 y1 y2 s = Some (tt, s')
        ∧ emits s s' (cmp_clauses (psort_nw.m_t s)).
Proof.
  unfold psort_nw.cmp. unfold bind at 1. unfold get_state at 1.
  assert (∀ s0, ∃ s', psort_nw.cmp_le x1 x2 y1 y2 s0 = Some (tt, s') ∧ emits s0 s' 3)
    as Hle.
  { intros s0. unfold psort_nw.cmp_le.
    apply (seq_emits _ _ 1 2); [apply add_clause_emits|]. intros s1.
    apply (seq_emits _ _ 1 1); [apply add_clause_emits|]. intros s2.
    apply add_clause_emits. }
  assert (∀ s0, ∃ s', psort_nw.cmp_ge x1 x2 y1 y2 s0 = Some (tt, s') ∧ emits s0 s' 3)
    as Hge.
  { intros s0. unfold psort_nw.cmp_ge.
    apply (seq_emits _ _ 1 2); [apply add_clause_emits|]. intros s1.
    apply (seq_emits _ _ 1 1); [apply add_clause_emits|]. intros s2.
    apply add_clause_emits. }
  destruct (psort_nw.m_t s) eqn:Hm; simpl.
  - apply Hle.
  - apply Hge.
  - unfold psort_nw.cmp_eq. destruct (Hge s) as (s1 & H1 & E1).
    destruct (Hle s1) as (s2 & H2 & E2). exists s2. split.
    + unfold bind. by rewrite H1.
    + apply (emits_trans _ _ _ 3 3 E1 E2).
  - exists s. split; [done|apply emits_refl].
  - exists s. split; [done|apply emits_refl].
Qed.

(** X9. A comparator [cmp(x1, x2, y1, y2)] emits three clauses in the modes
    [LE] and [GE] and six in [EQ], the numbers the cost model [vc_cmp]
    charges; in the modes [GE_FULL] and [LE_FULL], which the [switch] does
    not list, it emits nothing, although [vc_cmp] still charges three. *)
Theorem cmp_clause_count (x1 x2 y1 y2 : literal) (s : psort_nw.t) :
  ∃ s', psort_nw.cmp x1 x2 y1 y2 s = Some (tt, s')
        ∧ emits s s' (cmp_clauses (psort_nw.m_t s))
        ∧ (psort_nw.m_t s = psort_nw.LE ∨ psort_nw.m_t s = psort_nw.GE
           ∨ psort_nw.m_t s = psort_nw.EQ ↔
           Z.of_nat (cmp_clauses (psort_nw.m_t s))
           = psort_nw.vc_c (psort_nw.vc_cmp (psort_nw.m_t s))).
Proof.
  destruct (cmp_emits x1 x2 y1 y2 s) as (s' & Hrun & He).
  exists s'. split; [done|]. split; [done|].
  destruct (psort_nw.m_t s); simpl; split; try done; intros; try lia;
    try tauto.
  destruct H as [|[|]]; done. destruct H as [|[|]]; done.
Qed.

(** ** The cost model returns *)

Lemma vc_add_opt_Some (x y : option psort_nw.vc) :
  is_Some x → is_Some y → is_Some (psort_nw.vc_add_opt x y).
Proof. intros [a ->] [b ->]. by eexists. Qed.

Lemma halves_smaller (a b : nat) :
  (1 <= a)%nat → (1 <= b)%nat → (3 <= a + b)%nat →
  (psort_nw.ceil2 a + psort_nw.ceil2 b < a + b)%nat
  ∧ (psort_nw.floor2 a + psort_nw.floor2 b < a + b)%nat.
Proof.
  intros Ha Hb Hab.
  destruct (ceil2_floor2 a) as (A1 & A2 & _).
  destruct (ceil2_floor2 b) as (B1 & B2 & _). lia.
Qed.

(** The cost functions of [merge] and [smerge] return when the fuel is at
    least four times the size [a + b], plus a constant. *)
Lemma vc_merge_total (mt : psort_nw.cmp_t) :
  ∀ s a b, (a + b <= s)%nat →
    (∀ f c, (4 * (a + b) + 4 <= f)%nat → is_Some (psort_nw.vc_smerge mt f a b c))
    ∧ (∀ f, (4 * (a + b) + 3 <= f)%nat → is_Some (psort_nw.vc_merge mt f a b))
    ∧ (∀ f c, (1 <= a)%nat → (1 <= b)%nat → (3 <= a + b)%nat →
         (4 * (a + b) + 2 <= f)%nat → is_Some (psort_nw.use_dsmerge mt f a b c)).
Proof.
  induction s as [s IH] using lt_wf_ind. intros a b Hs.
  assert (∀ f c', (1 <= a)%nat → (1 <= b)%nat → (3 <= a + b)%nat →
            (4 * (a + b) <= f)%nat →
            is_Some (psort_nw.vc_smerge mt f (psort_nw.ceil2 a) (psort_nw.ceil2 b) c')
            ∧ is_Some (psort_nw.vc_smerge mt f (psort_nw.floor2 a) (psort_nw.floor2 b) c')
            ∧ is_Some (psort_nw.vc_merge mt f (psort_nw.ceil2 a) (psort_nw.ceil2 b))
            ∧ is_Some (psort_nw.vc_merge mt f (psort_nw.floor2 a) (psort_nw.floor2 b)))
    as Hhalf.
  { intros f c' Ha Hb Hab Hf. destruct (halves_smaller a b Ha Hb Hab) as [Hc Hfl].
    destruct (IH (psort_nw.ceil2 a + psort_nw.ceil2 b)%nat ltac:(lia)
                _ _ (Nat.le_refl _)) as (C1 & C2 & _).
    destruct (IH (psort_nw.floor2 a + psort_nw.floor2 b)%nat ltac:(lia)
                _ _ (Nat.le_refl _)) as (F1 & F2 & _).
    split; [apply C1; lia|]. split; [apply F1; lia|].
    split; [apply C2; lia|apply F2; lia]. }
  assert (∀ f c', (1 <= a)%nat → (1 <= b)%nat → (3 <= a + b)%nat →
            (4 * (a + b) + 1 <= f)%nat →
            is_Some (psort_nw.vc_smerge_rec mt f a b c')
            ∧ is_Some (psort_nw.vc_merge_rec mt f a b)) as Hrec.
  { intros [|f] c' Ha Hb Hab Hf; [lia|].
    destruct (Hhalf f (psort_nw.smerge_c1 c') Ha Hb Hab ltac:(lia)) as (H1 & _ & H3 & H4).
    destruct (Hhalf f (psort_nw.smerge_c2 c') Ha Hb Hab ltac:(lia)) as (_ & H2 & _).
    split; [cbn [psort_nw.vc_smerge_rec]|cbn [psort_nw.vc_merge_rec]];
      repeat apply vc_add_opt_Some; try done; by eexists. }
  assert (∀ f c', (1 <= a)%nat → (1 <= b)%nat → (3 <= a + b)%nat →
            (4 * (a + b) + 2 <= f)%nat →
            is_Some (psort_nw.use_dsmerge mt f a b c')) as Huse.
  { intros [|f] c' Ha Hb Hab Hf; [lia|]. cbn [psort_nw.use_dsmerge].
    unfold psort_nw.m_force_dsmerge. cbv iota.
    destruct (negb psort_nw.m_disable_dsmerge && (a <? 2 ^ 15)%nat && (b <? 2 ^ 15)%nat);
      [|by eexists].
    destruct (Hrec f c' Ha Hb Hab ltac:(lia)) as [[r ->] _]. by eexists. }
  assert (∀ f, (4 * (a + b) + 3 <= f)%nat → is_Some (psort_nw.vc_merge mt f a b))
    as Hmerge.
  { intros [|f] Hf; [lia|]. cbn [psort_nw.vc_merge].
    destruct ((a =? 1)%nat && (b =? 1)%nat) eqn:H11; [by eexists|].
    destruct ((a =? 0)%nat || (b =? 0)%nat) eqn:H0; [by eexists|].
    apply orb_false_iff in H0 as [Ha0 Hb0].
    apply Nat.eqb_neq in Ha0, Hb0.
    assert (3 <= a + b)%nat as Hab.
    { apply andb_false_iff in H11 as [H|H]; apply Nat.eqb_neq in H; lia. }
    destruct (Huse f (a + b)%nat ltac:(lia) ltac:(lia) Hab ltac:(lia)) as [d ->].
    destruct d; [by eexists|].
    apply (Hrec f 0%nat); lia. }
  split; [|split; [exact Hmerge|exact Huse]].
  intros [|f] c Hf; [lia|]. cbn [psort_nw.vc_smerge].
  destruct ((a =? 1)%nat && (b =? 1)%nat && (c =? 1)%nat) eqn:H111; [by eexists|].
  destruct ((a =? 0)%nat || (b =? 0)%nat) eqn:H0; [by eexists|].
  apply orb_false_iff in H0 as [Ha0 Hb0]. apply Nat.eqb_neq in Ha0, Hb0.
  destruct (Nat.ltb_spec c a) as [Hca|Hca].
  { apply (IH (c + b)%nat ltac:(lia) c b (Nat.le_refl _)). lia. }
  destruct (Nat.ltb_spec c b) as [Hcb|Hcb].
  { apply (IH (a + c)%nat ltac:(lia) a c (Nat.le_refl _)). lia. }
  destruct (Nat.leb_spec (a + b) c) as [Hle|Hgt].
  { apply Hmerge. lia. }
  assert (3 <= a + b)%nat as Hab.
  { destruct (decide (a = 1 ∧ b = 1)%nat) as [[-> ->]|Hne]; [|lia].
    assert (c = 1)%nat as -> by lia. done. }
  destruct (Huse f c ltac:(lia) ltac:(lia) Hab ltac:(lia)) as [d ->].
  destruct d; [by eexists|].
  apply (Hrec f c); lia.
Qed.

Lemma vc_dsorting_Some (mt : psort_nw.cmp_t) (m n : nat) :
  (0 < n < 10)%nat → is_Some (psort_nw.vc_dsorting mt m n).
Proof.
  intros Hn. unfold psort_nw.vc_dsorting.
  destruct (Nat.ltb_spec 0 n); [|lia]. destruct (Nat.ltb_spec n 10); [|lia].
  by eexists.
Qed.

(** The cost function of [sorting] returns on fuel [4 n + 6]; the choice
    [use_dsorting] is only taken below ten inputs. *)
Lemma vc_sorting_total (mt : psort_nw.cmp_t) :
  ∀ n,
    (∀ f, (4 * n + 6 <= f)%nat → is_Some (psort_nw.vc_sorting mt f n))
    ∧ (∀ f, (3 <= n)%nat → (4 * n + 5 <= f)%nat →
         ∃ d, psort_nw.use_dsorting mt f n = Some d
              ∧ (d = true → is_Some (psort_nw.vc_dsorting mt n n))
              ∧ (d = false → is_Some (psort_nw.vc_sorting_rec mt f n))).
Proof.
  induction n as [n IH] using lt_wf_ind.
  assert (∀ f, (3 <= n)%nat → (4 * n + 4 <= f)%nat →
            is_Some (psort_nw.vc_sorting_rec mt f n)) as Hrec.
  { intros [|f] Hn Hf; [lia|]. cbn [psort_nw.vc_sorting_rec]. cbv zeta.
    halve n; rewrite Hq.
    - replace (n - q)%nat with q by lia.
      destruct (IH q ltac:(lia)) as [H1 _].
      destruct (vc_merge_total mt (q + q)%nat q q (Nat.le_refl _)) as (_ & H2 & _).
      repeat apply vc_add_opt_Some; first [apply H1|apply H2]; lia.
    - replace (n - q)%nat with (S q) by lia.
      destruct (IH q ltac:(lia)) as [H1 _].
      destruct (IH (S q) ltac:(lia)) as [H1' _].
      destruct (vc_merge_total mt (q + S q)%nat q (S q) (Nat.le_refl _)) as (_ & H2 & _).
      repeat apply vc_add_opt_Some; first [apply H1|apply H1'|apply H2]; lia. }
  assert (∀ f, (3 <= n)%nat → (4 * n + 5 <= f)%nat →
            ∃ d, psort_nw.use_dsorting mt f n = Some d
                 ∧ (d = true → is_Some (psort_nw.vc_dsorting mt n n))
                 ∧ (d = false → is_Some (psort_nw.vc_sorting_rec mt f n))) as Huse.
  { intros [|f] Hn Hf; [lia|]. cbn [psort_nw.use_dsorting].
    unfold psort_nw.m_force_dsorting, psort_nw.m_disable_dsorting.
    cbn [negb andb]. cbv iota.
    destruct (Nat.ltb_spec n 10) as [Hlt|Hge].
    - destruct (vc_dsorting_Some mt n n ltac:(lia)) as [d Hd]. rewrite Hd.
      destruct (Hrec f Hn ltac:(lia)) as [r ->].
      eexists. split; [done|]. split; intros _; [by eexists|apply Hrec; lia].
    - exists false. split; [done|]. split; [done|]. intros _. apply Hrec; lia. }
  split; [|exact Huse].
  intros [|f] Hf; [lia|]. cbn [psort_nw.vc_sorting].
  destruct n as [|[|[|n]]]; [by eexists|by eexists| |].
  - destruct (vc_merge_total mt 2%nat 1%nat 1%nat (Nat.le_refl _)) as (_ & H2 & _).
    apply H2. lia.
  - destruct (Huse f ltac:(lia) ltac:(lia)) as (d & -> & Ht & Hf').
    destruct d; [by apply Ht|].
    apply Hrec; lia.
Qed.

(** The cost function of [card] returns on fuel [6 n + 8] when [k] is at
    least one; with [k = 0] and [n = 1] it calls itself on the same
    arguments. *)
Lemma vc_card_total (mt : psort_nw.cmp_t) (k : nat) :
  (1 <= k)%nat →
  ∀ n,
    (∀ f, (6 * n + 8 <= f)%nat → is_Some (psort_nw.vc_card mt f k n))
    ∧ (∀ f, (k < n)%nat → (6 * n + 7 <= f)%nat →
         ∃ d, psort_nw.use_dcard mt f k n = Some d
              ∧ (d = true → is_Some (psort_nw.vc_dsorting mt k n))
              ∧ (d = false → is_Some (psort_nw.vc_card_rec mt f k n))).
Proof.
  intros Hk. induction n as [n IH] using lt_wf_ind.
  assert (∀ f, (k < n)%nat → (6 * n + 6 <= f)%nat →
            is_Some (psort_nw.vc_card_rec mt f k n)) as Hrec.
  { intros [|f] Hn Hf; [lia|]. cbn [psort_nw.vc_card_rec]. cbv zeta.
    halve n; rewrite Hq.
    - replace (n - q)%nat with q by lia.
      destruct (IH q ltac:(lia)) as [H1 _].
      destruct (vc_merge_total mt (k + q)%nat k q (Nat.le_refl _)) as (H2 & _).
      repeat apply vc_add_opt_Some; first [apply H1|apply H2]; lia.
    - replace (n - q)%nat with (S q) by lia.
      destruct (IH q ltac:(lia)) as [H1 _].
      destruct (IH (S q) ltac:(lia)) as [H1' _].
      destruct (vc_merge_total mt (k + q)%nat k q (Nat.le_refl _)) as (H2 & _).
      repeat apply vc_add_opt_Some; first [apply H1|apply H1'|apply H2]; lia. }
  assert (∀ f, (k < n)%nat → (6 * n + 7 <= f)%nat →
            ∃ d, psort_nw.use_dcard mt f k n = Some d
                 ∧ (d = true → is_Some (psort_nw.vc_dsorting mt k n))
                 ∧ (d = false → is_Some (psort_nw.vc_card_rec mt f k n))) as Huse.
  { intros [|f] Hn Hf; [lia|]. cbn [psort_nw.use_dcard].
    unfold psort_nw.m_force_dcard, psort_nw.m_disable_dcard.
    cbn [negb andb]. cbv iota.
    destruct (Nat.ltb_spec n 10) as [Hlt|Hge].
    - destruct (vc_dsorting_Some mt k n ltac:(lia)) as [d Hd]. rewrite Hd.
      destruct (Hrec f Hn ltac:(lia)) as [r ->].
      eexists. split; [done|]. split; intros _; [by eexists|apply Hrec; lia].
    - exists false. split; [done|]. split; [done|]. intros _. apply Hrec; lia. }
  split; [|exact Huse].
  intros [|f] Hf; [lia|]. cbn [psort_nw.vc_card].
  destruct (Nat.leb_spec n k) as [Hle|Hgt].
  - apply vc_sorting_total. lia.
  - destruct (Huse f Hgt ltac:(lia)) as (d & -> & Ht & Hf').
    destruct d; [by apply Ht|].
    apply Hrec; lia.
Qed.

(** ** The constructions return *)

Lemma nw_ok_cmp mt (x1 x2 y1 y2 : literal) :
  nw_ok mt (psort_nw.cmp x1 x2 y1 y2) (fun _ => True).
Proof.
  apply nw_ok_emits. intros s.
  destruct (cmp_emits x1 x2 y1 y2 s) as (s' & H & He).
  by exists tt, s', (cmp_clauses (psort_nw.m_t s)).
Qed.

Lemma nw_ok_lookup mt (l : list literal) (i : nat) :
  (i < length l)%nat → nw_ok mt (lift_opt (l !! i)) (fun _ => True).
Proof.
  intros Hi. destruct (lookup_lt_is_Some_2 l i Hi) as [x Hx].
  by apply (nw_ok_lift_opt mt _ _ x).
Qed.

Lemma nw_ok_array mt (l : list literal) (n : nat) :
  (n <= length l)%nat →
  nw_ok mt (lift_opt (array n l)) (fun out => length out = n).
Proof.
  intros Hn. unfold array. destruct (Nat.leb_spec n (length l)); [|lia].
  apply (nw_ok_lift_opt mt _ _ (take n l)); [done|].
  rewrite length_take. lia.
Qed.

Lemma nw_ok_for_range mt (body : nat → M psort_nw.t unit) :
  ∀ n lo, (∀ i, (lo <= i < lo + n)%nat → nw_ok mt (body i) (fun _ => True)) →
    nw_ok mt (for_range lo n body) (fun _ => True).
Proof.
  induction n as [|n IH]; intros lo H.
  - by apply nw_ok_ret.
  - cbn [for_range]. eapply nw_ok_bind; [apply H; lia|]. intros _ _.
    apply IH. intros i Hi. apply H. lia.
Qed.

Lemma nw_ok_fresh_n mt (m : nat) :
  nw_ok mt (psort_nw.fresh_n m) (fun out => length out = m).
Proof.
  apply nw_ok_emits. intros s.
  destruct (fresh_n_emits m s) as (out & s' & H & Hlen & He). by exists out, s', 0%nat.
Qed.

Lemma nw_ok_dsorting mt (m n : nat) (xs : list literal) :
  (m <= n)%nat → (n <= length xs)%nat →
  nw_ok mt (psort_nw.dsorting m n xs) (fun out => length out = m).
Proof.
  intros Hm Hn. apply nw_ok_emits. intros s.
  destruct (dsorting_emits m n xs s Hm Hn) as (out & s' & H & Hlen & He).
  by exists out, s', (dsorting_clauses (psort_nw.m_t s) m n).
Qed.

Lemma interleave_loop_ok mt (as_ bs : list literal) :
  ∀ n i out, (i + n < length as_)%nat → (i + n <= length bs)%nat →
    nw_ok mt (psort_nw.interleave_loop n i as_ bs out)
      (fun o => length o = (length out + 2 * n)%nat).
Proof.
  induction n as [|n IH]; intros i out Ha Hb.
  - apply nw_ok_ret. lia.
  - cbn [psort_nw.interleave_loop].
    eapply nw_ok_bind; [apply nw_ok_lookup; lia|]. intros a _.
    eapply nw_ok_bind; [apply nw_ok_lookup; lia|]. intros b _.
    eapply nw_ok_bind; [apply nw_ok_max|]. intros y1 _.
    eapply nw_ok_bind; [apply nw_ok_min|]. intros y2 _.
    eapply nw_ok_bind; [apply nw_ok_cmp|]. intros _ _.
    eapply nw_ok_weaken; [apply IH; lia|]. intros o Ho.
    rewrite Ho, length_app. simpl. lia.
Qed.

Lemma interleave_ok mt (as_ bs : list literal) :
  (1 <= length as_)%nat → (length bs <= length as_ <= length bs + 2)%nat →
  nw_ok mt (psort_nw.interleave as_ bs)
    (fun out => length out = (length as_ + length bs)%nat).
Proof.
  intros Ha Hab. unfold psort_nw.interleave.
  eapply nw_ok_bind; [apply nw_ok_lookup; lia|]. intros a0 _. cbv zeta.
  eapply nw_ok_bind; [apply interleave_loop_ok; lia|]. intros out Hout.
  cbn [length] in Hout.
  destruct (Nat.eqb_spec (length as_) (length bs)) as [He|Hne].
  - eapply nw_ok_bind; [apply nw_ok_lookup; lia|]. intros x _.
    apply nw_ok_ret. rewrite length_app, Hout. simpl. lia.
  - destruct (Nat.eqb_spec (length as_) (length bs + 2)) as [He2|Hne2].
    + eapply nw_ok_bind; [apply nw_ok_lookup; lia|]. intros x _.
      apply nw_ok_ret. rewrite length_app, Hout. simpl. lia.
    + apply nw_ok_ret. lia.
Qed.

Lemma dsmerge_ok mt (c a : nat) (as_ : list literal) (b : nat) (bs : list literal) :
  (a <= length as_)%nat → (b <= length bs)%nat → (a <= c)%nat → (b <= c)%nat →
  nw_ok mt (psort_nw.dsmerge c a as_ b bs) (fun out => length out = c).
Proof.
  intros Ha Hb Hac Hbc. unfold psort_nw.dsmerge.
  eapply nw_ok_bind; [apply nw_ok_fresh_n|]. intros out Hout. cbv beta in Hout.
  eapply nw_ok_bind; [apply nw_ok_mode|]. intros not_ge _.
  eapply nw_ok_bind.
  { instantiate (1 := fun _ => True). destruct not_ge; [|by apply nw_ok_ret].
    eapply nw_ok_bind.
    { apply nw_ok_for_range. intros i Hi.
      eapply nw_ok_bind; [apply nw_ok_lookup; lia|]. intros x _.
      eapply nw_ok_bind; [apply nw_ok_lookup; lia|]. intros y _.
      apply nw_ok_add_clause. }
    intros _ _. eapply nw_ok_bind.
    { apply nw_ok_for_range. intros i Hi.
      eapply nw_ok_bind; [apply nw_ok_lookup; lia|]. intros x _.
      eapply nw_ok_bind; [apply nw_ok_lookup; lia|]. intros y _.
      apply nw_ok_add_clause. }
    intros _ _. apply nw_ok_for_range. intros i Hi.
    apply nw_ok_for_range. intros j Hj.
    eapply nw_ok_bind; [apply nw_ok_lookup; lia|]. intros x _.
    eapply nw_ok_bind; [apply nw_ok_lookup; lia|]. intros y _.
    eapply nw_ok_bind; [apply nw_ok_lookup; lia|]. intros z _.
    apply nw_ok_add_clause. }
  intros _ _.
  eapply nw_ok_bind; [apply nw_ok_mode|]. intros not_le _.
  eapply nw_ok_bind; [|intros _ _; by apply nw_ok_ret].
  instantiate (1 := fun _ => True). destruct not_le; [|by apply nw_ok_ret].
  apply nw_ok_for_range. intros k Hk.
  eapply nw_ok_bind; [apply nw_ok_lookup; lia|]. intros y _. cbv zeta.
  eapply nw_ok_bind.
  { instantiate (1 := fun _ => True). destruct (Nat.leb_spec k a).
    - eapply nw_ok_bind; [apply nw_ok_lookup; lia|]. intros x _. by apply nw_ok_ret.
    - by apply nw_ok_ret. }
  intros ls _. eapply nw_ok_bind.
  { instantiate (1 := fun _ => True). destruct (Nat.leb_spec k b).
    - eapply nw_ok_bind; [apply nw_ok_lookup; lia|]. intros x _. by apply nw_ok_ret.
    - by apply nw_ok_ret. }
  intros ls' _. apply nw_ok_for_range. intros i Hi.
  destruct (Nat.leb_spec (k + 1 - i) b); [|by apply nw_ok_ret].
  eapply nw_ok_bind; [apply nw_ok_lookup; lia|]. intros x _.
  eapply nw_ok_bind; [apply nw_ok_lookup; lia|]. intros y' _.
  apply nw_ok_add_clause.
Qed.

Lemma nw_ok_use_dsmerge mt (f a b c : nat) :
  is_Some (psort_nw.use_dsmerge mt f a b c) →
  nw_ok mt (psort_nw.use_dsmerge_now f a b c) (fun _ => True).
Proof.
  intros [d Hd] s Hs. exists d, s.
  unfold psort_nw.use_dsmerge_now, bind, get_state. rewrite Hs, Hd.
  split; [done|]. split; [done|apply aux_only_refl].
Qed.

Lemma nw_ok_get_choice mt (g : psort_nw.cmp_t → option bool) {A}
    (k : bool → M psort_nw.t A) (P : A → Prop) :
  (∃ d, g mt = Some d ∧ nw_ok mt (k d) P) →
  nw_ok mt (let* s := get_state in let* d := lift_opt (g (psort_nw.m_t s)) in k d) P.
Proof.
  intros (d & Hd & Hk) s Hs. unfold bind at 1. unfold get_state at 1.
  unfold bind at 1. rewrite Hs, Hd. unfold lift_opt at 1. by apply Hk.
Qed.

Lemma nw_ok_split mt (n : nat) (ls : list literal) :
  (n <= length ls)%nat →
  nw_ok mt (lift_opt (psort_nw.split n ls))
    (fun p => length p.1 = psort_nw.ceil2 n ∧ length p.2 = psort_nw.floor2 n).
Proof.
  intros Hn. unfold psort_nw.split, array.
  destruct (Nat.leb_spec n (length ls)); [|lia].
  destruct (split_list_spec (take n ls)) as (H1 & H2 & _).
  rewrite length_take in H1, H2.
  replace (n `min` length ls)%nat with n in H1, H2 by lia.
  by apply (nw_ok_lift_opt mt _ _ (psort_nw.split_list (take n ls))).
Qed.

Lemma halves_interleave (a b : nat) :
  (1 <= a)%nat → (1 <= b)%nat →
  (1 <= psort_nw.ceil2 a + psort_nw.ceil2 b)%nat
  ∧ (psort_nw.floor2 a + psort_nw.floor2 b <= psort_nw.ceil2 a + psort_nw.ceil2 b
     <= psort_nw.floor2 a + psort_nw.floor2 b + 2)%nat
  ∧ (psort_nw.ceil2 a + psort_nw.ceil2 b
     + (psort_nw.floor2 a + psort_nw.floor2 b) = a + b)%nat.
Proof.
  intros Ha Hb.
  destruct (ceil2_floor2 a) as (A1 & A2 & _).
  destruct (ceil2_floor2 b) as (B1 & B2 & _). lia.
Qed.

(** [merge] returns [a + b] outputs on fuel [4 (a + b) + 4]; one unit less
    is enough when the arguments are not swapped first. *)
Lemma merge_ok mt :
  ∀ s a as_ b bs, (a + b <= s)%nat → (a <= length as_)%nat → (b <= length bs)%nat →
    (∀ f, (4 * (a + b) + 3 <= f)%nat → psort_nw.even a && psort_nw.odd b = false →
       nw_ok mt (psort_nw.merge f a as_ b bs) (fun out => length out = (a + b)%nat))
    ∧ (∀ f, (4 * (a + b) + 4 <= f)%nat →
       nw_ok mt (psort_nw.merge f a as_ b bs) (fun out => length out = (a + b)%nat)).
Proof.
  induction s as [s IH] using lt_wf_ind.
  assert (∀ a as_ b bs (swap : bool) f,
            (a + b <= s)%nat → (a <= length as_)%nat → (b <= length bs)%nat →
            (4 * (a + b) + 3 <= S f)%nat →
            psort_nw.even a && psort_nw.odd b = swap →
            (swap = true →
             nw_ok mt (psort_nw.merge f b bs a as_)
               (fun out => length out = (a + b)%nat)) →
            nw_ok mt (psort_nw.merge (S f) a as_ b bs)
              (fun out => length out = (a + b)%nat)) as Hstep.
  { intros a as_ b bs swap f Hs Ha Hb Hf Hsw Hswap. cbn [psort_nw.merge].
    destruct ((a =? 1)%nat && (b =? 1)%nat) eqn:H11.
    { apply andb_true_iff in H11 as [->%Nat.eqb_eq ->%Nat.eqb_eq].
      eapply nw_ok_bind; [apply nw_ok_lookup; lia|]. intros a0 _.
      eapply nw_ok_bind; [apply nw_ok_lookup; lia|]. intros b0 _.
      eapply nw_ok_bind; [apply nw_ok_max|]. intros y1 _.
      eapply nw_ok_bind; [apply nw_ok_min|]. intros y2 _.
      eapply nw_ok_bind; [apply nw_ok_cmp|]. intros _ _. by apply nw_ok_ret. }
    destruct (Nat.eqb_spec a 0) as [->|Ha0]; [by apply nw_ok_array|].
    destruct (Nat.eqb_spec b 0) as [->|Hb0].
    { eapply nw_ok_weaken; [by apply nw_ok_array|]. intros out Hout.
      cbv beta in Hout. lia. }
    assert (3 <= a + b)%nat as Hab.
    { apply andb_false_iff in H11 as [H|H]; apply Nat.eqb_neq in H; lia. }
    eapply nw_ok_bind.
    { apply nw_ok_use_dsmerge.
      destruct (vc_merge_total mt (a + b)%nat a b (Nat.le_refl _)) as (_ & _ & H).
      apply H; lia. }
    intros d _. destruct d; [apply dsmerge_ok; lia|].
    rewrite Hsw. destruct swap; [by apply Hswap|].
    destruct (halves_smaller a b ltac:(lia) ltac:(lia) Hab) as [Hc Hfl].
    destruct (halves_interleave a b ltac:(lia) ltac:(lia)) as (I1 & I2 & I3).
    eapply nw_ok_bind; [by apply nw_ok_split|]. intros [ea oa] [E1 E2].
    eapply nw_ok_bind; [by apply nw_ok_split|]. intros [eb ob] [E3 E4].
    cbn [fst snd] in E1, E2, E3, E4.
    eapply nw_ok_bind.
    { apply (IH (psort_nw.ceil2 a + psort_nw.ceil2 b)%nat ltac:(lia)); lia. }
    intros out1 Hout1. cbv beta in Hout1. eapply nw_ok_bind.
    { apply (IH (psort_nw.floor2 a + psort_nw.floor2 b)%nat ltac:(lia)); lia. }
    intros out2 Hout2. cbv beta in Hout2.
    eapply nw_ok_weaken; [apply interleave_ok; lia|].
    intros out Hout. cbv beta in Hout. lia. }
  intros a as_ b bs Hs Ha Hb.
  assert (∀ a as_ b bs f,
            (a + b <= s)%nat → (a <= length as_)%nat → (b <= length bs)%nat →
            (4 * (a + b) + 3 <= f)%nat →
            psort_nw.even a && psort_nw.odd b = false →
            nw_ok mt (psort_nw.merge f a as_ b bs)
              (fun out => length out = (a + b)%nat)) as HQ.
  { intros a' as' b' bs' [|f] Hs' Ha' Hb' Hf Hsw; [lia|].
    by apply (Hstep a' as' b' bs' false). }
  split; [intros f Hf Hsw; by apply HQ|].
  intros [|f] Hf; [lia|].
  apply (Hstep a as_ b bs (psort_nw.even a && psort_nw.odd b)); try done; [lia|].
  intros Hsw. apply andb_true_iff in Hsw as [He Ho].
  eapply nw_ok_weaken.
  - apply (HQ b bs a as_); try lia.
    unfold psort_nw.odd in *. rewrite He. apply andb_false_r.
  - intros out Hout. cbv beta in Hout. lia.
Qed.

Lemma smerge_c_spec (c : nat) :
  ∃ h, (psort_nw.smerge_c1 c = h + 1 ∧ psort_nw.smerge_c2 c = h)%nat
       ∧ (psort_nw.even c = true ∧ c = (2 * h)%nat
          ∨ psort_nw.even c = false ∧ c = (2 * h + 1)%nat).
Proof.
  unfold psort_nw.smerge_c1, psort_nw.smerge_c2, psort_nw.even.
  halve c; rewrite He.
  - exists q. rewrite Hq. split; [lia|]. left. split; [done|lia].
  - exists q. split; [|right; split; [done|lia]].
    halve (c + 1)%nat; halve (c - 1)%nat; lia.
Qed.

Lemma back_pop_length (v : list literal) :
  (1 <= length v)%nat →
  ∃ z v', psort_nw.back_pop v = Some (z, v') ∧ length v' = (length v - 1)%nat.
Proof.
  destruct v as [|x v _] using rev_ind; [simpl; lia|]. intros _.
  exists x, v. unfold psort_nw.back_pop.
  rewrite last_snoc, removelast_last, length_app. simpl. split; [done|lia].
Qed.

Lemma nw_ok_back_pop mt (v : list literal) :
  (1 <= length v)%nat →
  nw_ok mt (lift_opt (psort_nw.back_pop v))
    (fun p => length p.2 = (length v - 1)%nat).
Proof.
  intros Hv. destruct (back_pop_length v Hv) as (z & v' & H & Hlen).
  by apply (nw_ok_lift_opt mt _ _ (z, v')).
Qed.

(** The clauses that tie one output to [max] of two inputs. *)
Lemma nw_ok_max_clauses mt (z1 z2 y : literal) {A} (k : M psort_nw.t A) (P : A → Prop) :
  nw_ok mt k P →
  nw_ok mt
    (let* not_ge := psort_nw.mt_is_not psort_nw.GE in
     (if not_ge
      then psort_nw.add_clause2 (lit_neg z1) y ;;; psort_nw.add_clause2 (lit_neg z2) y
      else ret tt) ;;;
     let* not_le := psort_nw.mt_is_not psort_nw.LE in
     (if not_le then psort_nw.add_clause3 (lit_neg y) z1 z2 else ret tt) ;;;
     k) P.
Proof.
  intros Hk.
  eapply nw_ok_bind; [apply nw_ok_mode|]. intros not_ge _.
  eapply nw_ok_bind.
  { instantiate (1 := fun _ => True). destruct not_ge; [|by apply nw_ok_ret].
    eapply nw_ok_bind; [apply nw_ok_add_clause|]. intros _ _. apply nw_ok_add_clause. }
  intros _ _.
  eapply nw_ok_bind; [apply nw_ok_mode|]. intros not_le _.
  eapply nw_ok_bind; [|intros _ _; exact Hk].
  instantiate (1 := fun _ => True). destruct not_le; [|by apply nw_ok_ret].
  apply nw_ok_add_clause.
Qed.

(** [smerge] returns [min(a + b, c)] outputs on fuel [4 (a + b) + 5]. *)
Lemma smerge_ok mt :
  ∀ s c a as_ b bs f,
    (a + b <= s)%nat → (a <= length as_)%nat → (b <= length bs)%nat →
    (4 * (a + b) + 5 <= f)%nat →
    nw_ok mt (psort_nw.smerge f c a as_ b bs)
      (fun out => length out = Nat.min (a + b) c).
Proof.
  induction s as [s IH] using lt_wf_ind.
  intros c a as_ b bs [|f] Hs Ha Hb Hf; [lia|]. cbn [psort_nw.smerge].
  destruct ((a =? 1)%nat && (b =? 1)%nat && (c =? 1)%nat) eqn:H111.
  { apply andb_true_iff in H111 as [H11 ->%Nat.eqb_eq].
    apply andb_true_iff in H11 as [->%Nat.eqb_eq ->%Nat.eqb_eq].
    eapply nw_ok_bind; [apply nw_ok_lookup; lia|]. intros a0 _.
    eapply nw_ok_bind; [apply nw_ok_lookup; lia|]. intros b0 _.
    eapply nw_ok_bind; [apply nw_ok_max|]. intros y _.
    apply nw_ok_max_clauses. by apply nw_ok_ret. }
  destruct (Nat.eqb_spec a 0) as [->|Ha0].
  { eapply nw_ok_weaken; [apply nw_ok_array; lia|]. intros out Hout.
    cbv beta in Hout. lia. }
  destruct (Nat.eqb_spec b 0) as [->|Hb0].
  { eapply nw_ok_weaken; [apply nw_ok_array; lia|]. intros out Hout.
    cbv beta in Hout. lia. }
  destruct (Nat.ltb_spec c a) as [Hca|Hca].
  { eapply nw_ok_weaken; [apply (IH (c + b)%nat ltac:(lia)); lia|].
    intros out Hout. cbv beta in Hout. lia. }
  destruct (Nat.ltb_spec c b) as [Hcb|Hcb].
  { eapply nw_ok_weaken; [apply (IH (a + c)%nat ltac:(lia)); lia|].
    intros out Hout. cbv beta in Hout. lia. }
  destruct (Nat.leb_spec (a + b) c) as [Hle|Hgt].
  { eapply nw_ok_weaken.
    - apply (merge_ok mt (a + b)%nat a as_ b bs (Nat.le_refl _) Ha Hb). lia.
    - intros out Hout. cbv beta in Hout. lia. }
  assert (3 <= a + b)%nat as Hab.
  { destruct (decide (a = 1 ∧ b = 1)%nat) as [[-> ->]|Hne]; [|lia].
    assert (c = 1)%nat as -> by lia. done. }
  eapply nw_ok_bind.
  { apply nw_ok_use_dsmerge.
    destruct (vc_merge_total mt (a + b)%nat a b (Nat.le_refl _)) as (_ & _ & H).
    apply H; lia. }
  intros d _. destruct d.
  { eapply nw_ok_weaken; [apply dsmerge_ok; lia|]. intros out Hout.
    cbv beta in Hout. lia. }
  destruct (halves_smaller a b ltac:(lia) ltac:(lia) Hab) as [Hc Hfl].
  destruct (ceil2_floor2 a) as (A1 & A2 & _).
  destruct (ceil2_floor2 b) as (B1 & B2 & _).
  destruct (smerge_c_spec c) as (h & [C1 C2] & Hpar).
  eapply nw_ok_bind; [by apply nw_ok_split|]. intros [ea oa] [E1 E2].
  eapply nw_ok_bind; [by apply nw_ok_split|]. intros [eb ob] [E3 E4].
  cbn [fst snd] in E1, E2, E3, E4. cbv zeta.
  eapply nw_ok_bind.
  { apply (IH (psort_nw.ceil2 a + psort_nw.ceil2 b)%nat ltac:(lia)); lia. }
  intros out1 Hout1. cbv beta in Hout1. eapply nw_ok_bind.
  { apply (IH (psort_nw.floor2 a + psort_nw.floor2 b)%nat ltac:(lia)); lia. }
  intros out2 Hout2. cbv beta in Hout2.
  destruct Hpar as [[-> Hc2]|[-> Hc2]].
  - eapply nw_ok_bind; [apply nw_ok_back_pop; lia|]. intros [z1 out1'] P1.
    eapply nw_ok_bind; [apply nw_ok_back_pop; lia|]. intros [z2 out2'] P2.
    cbn [fst snd] in P1, P2.
    eapply nw_ok_bind; [apply nw_ok_max|]. intros y _.
    apply nw_ok_max_clauses.
    eapply nw_ok_bind; [apply interleave_ok; lia|]. intros out Hout.
    cbv beta in Hout. apply nw_ok_ret. rewrite length_app, Hout. simpl. lia.
  - eapply nw_ok_weaken; [apply interleave_ok; lia|]. intros out Hout.
    cbv beta in Hout. lia.
Qed.

(** [sorting] returns [n] outputs on fuel [4 n + 6]. *)
Lemma sorting_ok mt :
  ∀ n xs f, (n <= length xs)%nat → (4 * n + 6 <= f)%nat →
    nw_ok mt (psort_nw.sorting f n xs) (fun out => length out = n).
Proof.
  induction n as [n IH] using lt_wf_ind.
  intros xs [|f] Hn Hf; [lia|]. cbn [psort_nw.sorting].
  destruct n as [|[|[|n]]].
  - by apply nw_ok_ret.
  - eapply nw_ok_bind; [apply nw_ok_lookup; lia|]. intros x _. by apply nw_ok_ret.
  - apply (merge_ok mt 2%nat 1%nat xs 1%nat (drop 1 xs) (Nat.le_refl _)).
    + lia.
    + rewrite length_drop. lia.
    + lia.
  - set (m := S (S (S n))) in *.
    apply (nw_ok_get_choice mt (fun mt' => psort_nw.use_dsorting mt' f m)).
    destruct (vc_sorting_total mt m) as [_ Huse].
    destruct (Huse f ltac:(lia) ltac:(lia)) as (d & Hd & Ht & Hfl).
    exists d. split; [exact Hd|]. destruct d.
    { apply nw_ok_dsorting; lia. }
    cbv zeta.
    assert (m / 2 < m ∧ m - m / 2 < m ∧ 1 <= m / 2)%nat as (L1 & L2 & L3).
    { halve m; lia. }
    eapply nw_ok_bind; [apply (IH (m / 2)%nat L1); lia|].
    intros out1 Hout1. cbv beta in Hout1.
    eapply nw_ok_bind.
    { apply (IH (m - m / 2)%nat L2); [rewrite length_drop|]; lia. }
    intros out2 Hout2. cbv beta in Hout2.
    eapply nw_ok_weaken.
    + apply (merge_ok mt (length out1 + length out2)%nat _ out1 _ out2
               (Nat.le_refl _) (Nat.le_refl _) (Nat.le_refl _)). lia.
    + intros out Hout. cbv beta in Hout. lia.
Qed.

(** [card] returns [min(k, n)] outputs on fuel [6 n + 8], for [k] at least
    one. *)
Lemma card_ok mt (k : nat) :
  (1 <= k)%nat →
  ∀ n xs f, (n <= length xs)%nat → (6 * n + 8 <= f)%nat →
    nw_ok mt (psort_nw.card f k n xs) (fun out => length out = Nat.min k n).
Proof.
  intros Hk. induction n as [n IH] using lt_wf_ind.
  intros xs [|f] Hn Hf; [lia|]. cbn [psort_nw.card].
  destruct (Nat.leb_spec n k) as [Hle|Hgt].
  { eapply nw_ok_weaken; [apply sorting_ok; lia|]. intros out Hout.
    cbv beta in Hout. lia. }
  apply (nw_ok_get_choice mt (fun m => psort_nw.use_dcard m f k n)).
  destruct (vc_card_total mt k Hk n) as [_ Huse].
  destruct (Huse f Hgt ltac:(lia)) as (d & Hd & _).
  exists d. split; [exact Hd|]. destruct d.
  { eapply nw_ok_weaken; [apply nw_ok_dsorting; lia|]. intros out Hout.
    cbv beta in Hout. lia. }
  cbv zeta.
  assert (n / 2 < n ∧ n - n / 2 < n ∧ 1 <= n / 2)%nat as (L1 & L2 & L3).
  { halve n; lia. }
  eapply nw_ok_bind; [apply (IH (n / 2)%nat L1); lia|].
  intros out1 Hout1. cbv beta in Hout1.
  eapply nw_ok_bind.
  { apply (IH (n - n / 2)%nat L2); [rewrite length_drop|]; lia. }
  intros out2 Hout2. cbv beta in Hout2.
  eapply nw_ok_weaken.
  - apply (smerge_ok mt (length out1 + length out2)%nat k _ out1 _ out2 f
             (Nat.le_refl _) (Nat.le_refl _) (Nat.le_refl _)). lia.
  - intros out Hout. cbv beta in Hout. lia.
Qed.

Lemma u32_le x : 0 <= x → u32 x <= x.
Proof. intros H. unfold u32. apply Z.mod_le; lia. Qed.

(** The entry points set the mode, run [card] and go on with its outputs. *)
Lemma card_then (m : psort_nw.cmp_t) (fuel k n : nat) (xs : list literal)
    (K : list literal → M psort_nw.t literal) (s : psort_nw.t) :
  (1 <= k)%nat → (n <= length xs)%nat → (6 * n + 8 <= fuel)%nat →
  (∀ out, length out = Nat.min k n → nw_ok m (K out) (fun _ => True)) →
  ∃ l s',
    (modify (psort_nw.set_m_t m) ;;;
     let* out := psort_nw.card fuel k n xs in K out) s = Some (l, s')
    ∧ psort_nw.m_t s' = m
    ∧ aux_clauses_only (psort_nw.ctx s) (psort_nw.ctx s').
Proof.
  intros Hk Hn Hf HK.
  assert (nw_ok m (let* out := psort_nw.card fuel k n xs in K out) (fun _ => True))
    as H.
  { eapply nw_ok_bind; [by apply card_ok|]. intros out Hout. by apply HK. }
  destruct (H (psort_nw.set_m_t m s) eq_refl)
    as (l & s' & Hrun & _ & c & Hm & new & Hlog & _ & Haux).
  exists l, s'. split; [|split; [done|by exists new]].
  unfold bind at 1. unfold modify at 1. exact Hrun.
Qed.

Lemma dualize_cases (k n : nat) (xs : list literal) :
  (n <= length xs)%nat →
  psort_nw.dualize k n xs = Some None ∧ (u32 (2 * Z.of_nat k) <= Z.of_nat n)
  ∨ (∃ in_, psort_nw.dualize k n xs = Some (Some ((n - k)%nat, in_))
            ∧ length in_ = n ∧ (n < 2 * k)%nat
            ∧ psort_nw.dualize (n - k) n in_ = Some None).
Proof.
  intros Hn. unfold psort_nw.dualize at 1 2.
  destruct (Z.leb_spec (u32 (2 * Z.of_nat k)) (Z.of_nat n)) as [Hle|Hlt]; [by left|].
  right. unfold array. destruct (Nat.leb_spec n (length xs)); [|lia].
  pose proof (u32_le (2 * Z.of_nat k) ltac:(lia)) as Hu.
  eexists. split; [done|]. split; [rewrite length_map, length_take; lia|].
  split; [lia|]. unfold psort_nw.dualize.
  pose proof (u32_le (2 * Z.of_nat (n - k)) ltac:(lia)) as Hu'.
  destruct (Z.leb_spec (u32 (2 * Z.of_nat (n - k))) (Z.of_nat n)); [done|lia].
Qed.

(** ** What the constructions of the network return *)

(** X10. [interleave(as, bs)] fails only on an empty [as]; otherwise it
    returns a vector in every mode, and that vector has [|as| + |bs|] cells,
    as the final assertion of the function demands, exactly when
    [|bs| <= |as| <= |bs| + 2], the two assertions at its head. *)
Theorem interleave_length (as_ bs : list literal) (s : psort_nw.t) :
  (as_ = [] → psort_nw.interleave as_ bs s = None)
  ∧ (as_ ≠ [] →
     ∃ out s',
       psort_nw.interleave as_ bs s = Some (out, s')
       ∧ aux_only s s'
       ∧ (length out = (length as_ + length bs)%nat
          ↔ (length bs <= length as_ <= length bs + 2)%nat)).
Proof.
  split; [by intros ->|]. intros Hne.
  assert (1 <= length as_)%nat as Ha by (destruct as_; [done|simpl; lia]).
  assert (nw_ok (psort_nw.m_t s) (psort_nw.interleave as_ bs)
            (fun out => length out = (length as_ + length bs)%nat
                        ↔ (length bs <= length as_ <= length bs + 2)%nat)) as H.
  { unfold psort_nw.interleave.
    eapply nw_ok_bind; [apply nw_ok_lookup; lia|]. intros a0 _. cbv zeta.
    eapply nw_ok_bind; [apply interleave_loop_ok; lia|]. intros out Hout.
    cbn [length] in Hout.
    destruct (Nat.eqb_spec (length as_) (length bs)) as [He|Hne'].
    - eapply nw_ok_bind; [apply nw_ok_lookup; lia|]. intros x _.
      apply nw_ok_ret. rewrite length_app, Hout. simpl. lia.
    - destruct (Nat.eqb_spec (length as_) (length bs + 2)) as [He2|Hne2].
      + eapply nw_ok_bind; [apply nw_ok_lookup; lia|]. intros x _.
        apply nw_ok_ret. rewrite length_app, Hout. simpl. lia.
      + apply nw_ok_ret. lia. }
  destruct (H s eq_refl) as (out & s' & Hrun & Hlen & Hm). by exists out, s'.
Qed.

(** X11. [dsmerge(c, a, as, b, bs)] returns [c] outputs, emits auxiliary
    clauses only and reads no cell out of range whenever [a <= c] and
    [b <= c] (and [as], [bs] hold at least [a] and [b] cells): its third
    assertion, [a + b > c], is not needed for that ([merge] calls it with
    [c = a + b]). *)
Theorem dsmerge_returns (c a : nat) (as_ : list literal) (b : nat) (bs : list literal)
    (s : psort_nw.t) :
  (a <= length as_)%nat → (b <= length bs)%nat → (a <= c)%nat → (b <= c)%nat →
  ∃ out s',
    psort_nw.dsmerge c a as_ b bs s = Some (out, s')
    ∧ length out = c ∧ aux_only s s'.
Proof.
  intros Ha Hb Hac Hbc.
  destruct (dsmerge_ok (psort_nw.m_t s) c a as_ b bs Ha Hb Hac Hbc s eq_refl)
    as (out & s' & Hrun & Hlen & Hm).
  by exists out, s'.
Qed.

(** X12. [merge(a, as, b, bs)] returns [a + b] outputs, in every mode, and
    emits auxiliary clauses only: the recursion on the halves, the swap of
    the arguments and the recursion of the cost model behind [use_dsmerge]
    all end, within fuel [4 (a + b) + 4], and no read is out of range when
    [as] and [bs] hold at least [a] and [b] cells. *)
Theorem merge_returns (fuel a : nat) (as_ : list literal) (b : nat) (bs : list literal)
    (s : psort_nw.t) :
  (a <= length as_)%nat → (b <= length bs)%nat → (4 * (a + b) + 4 <= fuel)%nat →
  ∃ out s',
    psort_nw.merge fuel a as_ b bs s = Some (out, s')
    ∧ length out = (a + b)%nat ∧ aux_only s s'.
Proof.
  intros Ha Hb Hf.
  destruct (merge_ok (psort_nw.m_t s) (a + b)%nat a as_ b bs (Nat.le_refl _) Ha Hb)
    as [_ H].
  destruct (H fuel Hf s eq_refl) as (out & s' & Hrun & Hlen & Hm).
  by exists out, s'.
Qed.

(** X13. [smerge(c, a, as, b, bs)] returns [min(a + b, c)] outputs, the
    assertion at its end, in every mode and within fuel [4 (a + b) + 5], and
    emits auxiliary clauses only; in particular the two [back()] calls for an
    even [c] never meet an empty vector. *)
Theorem smerge_returns (fuel c a : nat) (as_ : list literal) (b : nat)
    (bs : list literal) (s : psort_nw.t) :
  (a <= length as_)%nat → (b <= length bs)%nat → (4 * (a + b) + 5 <= fuel)%nat →
  ∃ out s',
    psort_nw.smerge fuel c a as_ b bs s = Some (out, s')
    ∧ length out = Nat.min (a + b) c ∧ aux_only s s'.
Proof.
  intros Ha Hb Hf.
  destruct (smerge_ok (psort_nw.m_t s) (a + b)%nat c a as_ b bs fuel
              (Nat.le_refl _) Ha Hb Hf s eq_refl) as (out & s' & Hrun & Hlen & Hm).
  by exists out, s'.
Qed.

(** X14. [sorting(n, xs)] returns [n] outputs, in every mode and within
    fuel [4 n + 6], and emits auxiliary clauses only. *)
Theorem sorting_returns (fuel n : nat) (xs : list literal) (s : psort_nw.t) :
  (n <= length xs)%nat → (4 * n + 6 <= fuel)%nat →
  ∃ out s',
    psort_nw.sorting fuel n xs s = Some (out, s')
    ∧ length out = n ∧ aux_only s s'.
Proof.
  intros Hn Hf.
  destruct (sorting_ok (psort_nw.m_t s) n xs fuel Hn Hf s eq_refl)
    as (out & s' & Hrun & Hlen & Hm).
  by exists out, s'.
Qed.

(** X15. For [k >= 1], [card(k, n, xs)] returns [min(k, n)] outputs, in
    every mode and within fuel [6 n + 8], and emits auxiliary clauses only. *)
Theorem card_returns (fuel k n : nat) (xs : list literal) (s : psort_nw.t) :
  (1 <= k)%nat → (n <= length xs)%nat → (6 * n + 8 <= fuel)%nat →
  ∃ out s',
    psort_nw.card fuel k n xs s = Some (out, s')
    ∧ length out = Nat.min k n ∧ aux_only s s'.
Proof.
  intros Hk Hn Hf.
  destruct (card_ok (psort_nw.m_t s) k Hk n xs fuel Hn Hf s eq_refl)
    as (out & s' & Hrun & Hlen & Hm).
  by exists out, s'.
Qed.

Lemma vc_add_opt_None_r (x : option psort_nw.vc) : psort_nw.vc_add_opt x None = None.
Proof. by destruct x. Qed.

(** X16. With [k = 0] and at least one input, the cost model of [card]
    never returns: [vc_card(0, n)] asks [use_dcard], which evaluates
    [vc_card_rec(0, n)], which calls [vc_card(0, n - n/2)] again, down to
    [vc_card(0, 1)], which calls itself.  So no fuel is enough for
    [vc_card] or for [card]; the entry points never pass [k = 0]. *)
Theorem card_zero_diverges (mt : psort_nw.cmp_t) (fuel n : nat) (xs : list literal)
    (s : psort_nw.t) :
  (1 <= n)%nat →
  psort_nw.vc_card mt fuel 0 n = None ∧ psort_nw.card fuel 0 n xs s = None.
Proof.
  intros Hn.
  assert (∀ mt f n, (1 <= n)%nat →
            psort_nw.vc_card mt f 0 n = None
            ∧ psort_nw.vc_card_rec mt f 0 n = None
            ∧ psort_nw.use_dcard mt f 0 n ≠ Some true) as H.
  { clear. intros mt f. induction f as [f IH] using lt_wf_ind. intros n Hn.
    assert (psort_nw.vc_card_rec mt f 0 n = None) as Hrec.
    { destruct f as [|f]; [done|]. cbn [psort_nw.vc_card_rec]. cbv zeta.
      assert (1 <= n - n / 2)%nat as Hh by (halve n; lia).
      destruct (IH f ltac:(lia) (n - n / 2)%nat Hh) as (-> & _).
      by rewrite vc_add_opt_None_r. }
    assert (∀ f', (f' <= f)%nat → psort_nw.use_dcard mt f' 0 n = None
                               ∨ psort_nw.use_dcard mt f' 0 n = Some false) as Huse.
    { intros [|f'] Hf'; [by left|]. cbn [psort_nw.use_dcard].
      unfold psort_nw.m_force_dcard, psort_nw.m_disable_dcard.
      cbn [negb andb]. cbv iota.
      destruct (n <? 10)%nat; [|by right]. left.
      destruct (psort_nw.vc_dsorting mt 0 n); [|done].
      destruct f' as [|f']; [done|]. cbn [psort_nw.vc_card_rec]. cbv zeta.
      assert (1 <= n - n / 2)%nat as Hh by (halve n; lia).
      destruct (IH f' ltac:(lia) (n - n / 2)%nat Hh) as (-> & _).
      by rewrite vc_add_opt_None_r. }
    split; [|split; [exact Hrec|]].
    - destruct f as [|f]; [done|]. cbn [psort_nw.vc_card].
      destruct (Nat.leb_spec n 0); [lia|].
      destruct (Huse f ltac:(lia)) as [->| ->]; [done|].
      apply (IH f ltac:(lia) n Hn).
    - destruct (Huse f ltac:(lia)) as [->| ->]; done. }
  split; [apply H; lia|].
  destruct fuel as [|f]; [done|]. cbn [psort_nw.card].
  destruct (Nat.leb_spec n 0); [lia|].
  unfold bind at 1. unfold get_state at 1. unfold bind at 1.
  destruct (psort_nw.use_dcard (psort_nw.m_t s) f 0 n) as [[|]|] eqn:Hd; [| |done].
  - by destruct (H (psort_nw.m_t s) f n Hn) as (_ & _ & Hne).
  - unfold lift_opt at 1. cbv zeta.
    assert (∀ f n xs s, (1 <= n)%nat → psort_nw.card f 0 n xs s = None) as Hc.
    { clear -H. induction f as [|f IH]; intros n xs s Hn; [done|].
      cbn [psort_nw.card]. destruct (Nat.leb_spec n 0); [lia|].
      unfold bind at 1. unfold get_state at 1. unfold bind at 1.
      destruct (psort_nw.use_dcard (psort_nw.m_t s) f 0 n) as [[|]|] eqn:Hd; [| |done].
      - by destruct (H (psort_nw.m_t s) f n Hn) as (_ & _ & Hne).
      - unfold lift_opt at 1. cbv zeta. unfold bind at 1.
        destruct (psort_nw.card f 0 (n / 2) xs s) as [[out1 s1]|]; [|done].
        unfold bind at 1. rewrite IH; [done|]. halve n; lia. }
    unfold bind at 1.
    destruct (psort_nw.card f 0 (n / 2) xs s) as [[out1 s1]|]; [|done].
    unfold bind at 1. rewrite Hc; [done|]. halve n; lia.
Qed.

(** [ge] returns. *)
Lemma ge_total (fuel : nat) (full : bool) (k n : nat) (xs : list literal)
    (s : psort_nw.t) :
  (n <= length xs)%nat → (6 * n + 8 <= fuel)%nat →
  ∃ l s',
    psort_nw.ge fuel full k n xs s = Some (l, s')
    ∧ aux_clauses_only (psort_nw.ctx s) (psort_nw.ctx s').
Proof.
  intros Hn Hf. unfold psort_nw.ge. cbn [psort_nw.ge_rec].
  assert (aux_clauses_only (psort_nw.ctx s) (psort_nw.ctx s)) as Hrefl.
  { exists []. by rewrite app_nil_r. }
  destruct (Nat.ltb_spec n k) as [Hlt|Hge]; [by exists false_literal, s|].
  destruct (Nat.eqb_spec k 0) as [->|Hk0]; [by exists true_literal, s|].
  destruct (dualize_cases k n xs Hn) as [[Hd _]|(in_ & Hd & Hlen & H2k & Hd')];
    rewrite Hd.
  - destruct (card_then (if full then psort_nw.GE_FULL else psort_nw.GE) fuel k n xs
                (fun out => lift_opt (out !! (k - 1)%nat)) s)
      as (l & s' & Hrun & _ & Haux); try lia.
    { intros out Hout. apply nw_ok_lookup. lia. }
    by exists l, s'.
  - cbn [psort_nw.le_rec]. rewrite Hlen.
    destruct (Nat.leb_spec n (n - k)); [lia|]. rewrite Hd'.
    destruct (card_then (if full then psort_nw.LE_FULL else psort_nw.LE) fuel
                (n - k + 1) n in_
                (fun out => let* y := lift_opt (out !! (n - k)%nat) in ret (lit_neg y)) s)
      as (l & s' & Hrun & _ & Haux); try lia.
    { intros out Hout. eapply nw_ok_bind; [apply nw_ok_lookup; lia|].
      intros y _. by apply nw_ok_ret. }
    by exists l, s'.
Qed.

(** X17. [ge(full, k, n, xs)] always returns a literal (within fuel
    [6 n + 8]) and hands the host auxiliary clauses only: it returns the
    constant false when [k > n] and the constant true when [k = 0], both
    without touching the state, and otherwise an output of [card] read in
    range, directly or after one dualisation. *)
Theorem ge_returns (fuel : nat) (full : bool) (k n : nat) (xs : list literal)
    (s : psort_nw.t) :
  (n <= length xs)%nat → (6 * n + 8 <= fuel)%nat →
  ∃ l s',
    psort_nw.ge fuel full k n xs s = Some (l, s')
    ∧ aux_clauses_only (psort_nw.ctx s) (psort_nw.ctx s')
    ∧ ((n < k)%nat → l = false_literal ∧ s' = s)
    ∧ (k = 0%nat → l = true_literal ∧ s' = s).
Proof.
  intros Hn Hf.
  destruct (ge_total fuel full k n xs s Hn Hf) as (l & s' & Hrun & Haux).
  exists l, s'. split; [exact Hrun|]. split; [exact Haux|].
  unfold psort_nw.ge in Hrun. cbn [psort_nw.ge_rec] in Hrun. split.
  - intros Hk. destruct (Nat.ltb_spec n k); [|lia].
    injection Hrun as <- <-. done.
  - intros ->. destruct (Nat.ltb_spec n 0); [lia|].
    simpl in Hrun. injection Hrun as <- <-. done.
Qed.

(** X18. [le(full, k, n, xs)] always returns a literal (within fuel
    [6 n + 8]) and hands the host auxiliary clauses only: it returns the
    constant true when [k >= n], without touching the state, and otherwise
    the complement of an output of [card], read in range, directly or after
    one dualisation. *)
Theorem le_returns (fuel : nat) (full : bool) (k n : nat) (xs : list literal)
    (s : psort_nw.t) :
  (n <= length xs)%nat → (6 * n + 8 <= fuel)%nat →
  ∃ l s',
    psort_nw.le fuel full k n xs s = Some (l, s')
    ∧ aux_clauses_only (psort_nw.ctx s) (psort_nw.ctx s')
    ∧ ((n <= k)%nat → l = true_literal ∧ s' = s).
Proof.
  intros Hn Hf. unfold psort_nw.le. cbn [psort_nw.le_rec].
  destruct (Nat.leb_spec n k) as [Hle|Hgt].
  { exists true_literal, s. split; [done|]. split; [|done].
    exists []. by rewrite app_nil_r. }
  destruct (dualize_cases k n xs Hn) as [[Hd _]|(in_ & Hd & Hlen & H2k & Hd')];
    rewrite Hd.
  - destruct (card_then (if full then psort_nw.LE_FULL else psort_nw.LE) fuel
                (k + 1) n xs
                (fun out => let* y := lift_opt (out !! k) in ret (lit_neg y)) s)
      as (l & s' & Hrun & _ & Haux); try lia.
    { intros out Hout. eapply nw_ok_bind; [apply nw_ok_lookup; lia|].
      intros y _. by apply nw_ok_ret. }
    exists l, s'. split; [exact Hrun|]. split; [done|]. lia.
  - cbn [psort_nw.ge_rec].
    destruct (Nat.ltb_spec n (n - k)); [lia|].
    destruct (Nat.eqb_spec (n - k) 0); [lia|]. rewrite Hd'.
    destruct (card_then (if full then psort_nw.GE_FULL else psort_nw.GE) fuel
                (n - k) n in_
                (fun out => lift_opt (out !! (n - k - 1)%nat)) s)
      as (l & s' & Hrun & _ & Haux); try lia.
    { intros out Hout. apply nw_ok_lookup. lia. }
    exists l, s'. split; [exact Hrun|]. split; [done|]. lia.
Qed.

(** ** The index of the lemma in the conflict analysis *)

Lemma removelast_lookup {A} (l : list A) (i : nat) :
  removelast l !! i = if (i <? length l - 1)%nat then l !! i else None.
Proof.
  rewrite removelast_firstn_len.
  destruct (Nat.ltb_spec i (length l - 1)) as [Hlt|Hge].
  - apply lookup_take_lt. lia.
  - apply lookup_take_ge. lia.
Qed.

Lemma indexed_functional index_ args i j a b :
  indexed index_ args → args !! i = Some a → args !! j = Some b →
  var a.1 = var b.1 → i = j.
Proof.
  intros Hinv Ha Hb Hv.
  assert (index_ !! var a.1 = Some i) as Hi by (apply Hinv; by exists a).
  assert (index_ !! var a.1 = Some j) as Hj by (apply Hinv; by exists b).
  congruence.
Qed.

Lemma indexed_update index_ args i a (c : numeral) :
  indexed index_ args → args !! i = Some a →
  indexed index_ (<[i := (a.1, c)]> args).
Proof.
  intros Hinv Ha v j. rewrite (Hinv v j).
  destruct (decide (j = i)) as [->|Hne].
  - rewrite list_lookup_insert_eq by by eapply lookup_lt_Some. rewrite Ha.
    split; intros (x & Hx & Hv); simplify_eq; by eexists.
  - by rewrite list_lookup_insert_ne.
Qed.

Lemma indexed_snoc index_ args (l : literal) (c : numeral) :
  indexed index_ args → index_ !! var l = None →
  indexed (<[var l := length args]> index_) (args ++ [(l, c)]).
Proof.
  intros Hinv Hnone v j.
  destruct (decide (v = var l)) as [->|Hne].
  - rewrite lookup_insert_eq. split.
    + intros [= <-]. exists (l, c). split; [|done].
      rewrite lookup_app_r by lia. by rewrite Nat.sub_diag.
    + intros (x & Hx & Hv). f_equal.
      destruct (decide (j < length args)%nat) as [Hlt|Hge].
      * rewrite lookup_app_l in Hx by done.
        assert (index_ !! var l = Some j) as Hj by (apply Hinv; by exists x).
        congruence.
      * apply lookup_lt_Some in Hx. rewrite length_app in Hx. simpl in Hx. lia.
  - rewrite lookup_insert_ne by done. rewrite (Hinv v j). split.
    + intros (x & Hx & Hv). exists x. split; [|done].
      rewrite lookup_app_l; [done|]. by eapply lookup_lt_Some.
    + intros (x & Hx & Hv).
      destruct (decide (j < length args)%nat) as [Hlt|Hge].
      * rewrite lookup_app_l in Hx by done. by exists x.
      * rewrite lookup_app_r in Hx by lia.
        destruct (j - length args)%nat; simpl in Hx; [|done].
        simplify_eq; done.
Qed.

Lemma indexed_pop index_ args a :
  indexed index_ args → args !! (length args - 1)%nat = Some a →
  indexed (delete (var a.1) index_) (removelast args).
Proof.
  intros Hinv Ha v j. rewrite removelast_lookup.
  destruct (decide (v = var a.1)) as [->|Hne].
  - rewrite lookup_delete_eq. split; [done|]. intros (x & Hx & Hv).
    destruct (Nat.ltb_spec j (length args - 1)); [|done].
    pose proof (indexed_functional _ _ _ _ _ _ Hinv Hx Ha Hv). lia.
  - rewrite lookup_delete_ne by done. rewrite (Hinv v j).
    destruct (Nat.ltb_spec j (length args - 1)) as [Hlt|Hge]; [done|].
    split; [|by intros (x & Hx & _)].
    intros (x & Hx & Hv). exfalso.
    pose proof (lookup_lt_Some _ _ _ Hx) as Hj.
    replace j with (length args - 1)%nat in Hx by lia. simplify_eq; done.
Qed.

Lemma indexed_move index_ args idx a b :
  indexed index_ args → args !! idx = Some a →
  args !! (length args - 1)%nat = Some b → idx ≠ (length args - 1)%nat →
  indexed (delete (var a.1) (<[var b.1 := idx]> index_))
    (removelast (<[idx := b]> args)).
Proof.
  intros Hinv Ha Hb Hne v j. rewrite removelast_lookup, length_insert.
  pose proof (lookup_lt_Some _ _ _ Ha) as Hidx.
  assert (var a.1 ≠ var b.1) as Hab.
  { intros Hv. by pose proof (indexed_functional _ _ _ _ _ _ Hinv Ha Hb Hv). }
  destruct (decide (v = var a.1)) as [->|Hva].
  { rewrite lookup_delete_eq. split; [done|]. intros (x & Hx & Hv).
    destruct (Nat.ltb_spec j (length args - 1)) as [Hlt|]; [|done].
    destruct (decide (j = idx)) as [->|Hj].
    - rewrite list_lookup_insert_eq in Hx by done. simplify_eq; done.
    - rewrite list_lookup_insert_ne in Hx by done.
      pose proof (indexed_functional _ _ _ _ _ _ Hinv Hx Ha Hv). done. }
  rewrite lookup_delete_ne by done.
  destruct (decide (v = var b.1)) as [->|Hvb].
  { rewrite lookup_insert_eq. split.
    - intros [= <-]. destruct (Nat.ltb_spec idx (length args - 1)); [|lia].
      exists b. by rewrite list_lookup_insert_eq.
    - intros (x & Hx & Hv). f_equal.
      destruct (Nat.ltb_spec j (length args - 1)) as [Hlt|]; [|done].
      destruct (decide (j = idx)) as [->|Hj]; [done|].
      rewrite list_lookup_insert_ne in Hx by done.
      pose proof (indexed_functional _ _ _ _ _ _ Hinv Hx Hb Hv). lia. }
  rewrite lookup_insert_ne by done. rewrite (Hinv v j).
  destruct (Nat.ltb_spec j (length args - 1)) as [Hlt|Hge].
  - destruct (decide (j = idx)) as [->|Hj].
    + rewrite list_lookup_insert_eq by done. rewrite Ha.
      split; intros (x & Hx & Hv); simplify_eq; done.
    + by rewrite list_lookup_insert_ne.
  - split; [|by intros (x & Hx & _)].
    intros (x & Hx & Hv). exfalso.
    pose proof (lookup_lt_Some _ _ _ Hx) as Hj.
    replace j with (length args - 1)%nat in Hx by lia. simplify_eq; done.
Qed.

(** [remove_from_lemma(idx)] for an index in range. *)
Lemma remove_from_lemma_spec (idx : nat) (t : theory_pb) :
  lemma_inv t → marked_inv t → (idx < length (m_args (m_lemma t)))%nat →
  ∃ t', remove_from_lemma idx t = Some (tt, t')
        ∧ lemma_inv t' ∧ marked_inv t'
        ∧ length (m_args (m_lemma t')) = (length (m_args (m_lemma t)) - 1)%nat
        ∧ m_k (m_lemma t') = m_k (m_lemma t)
        ∧ m_ineq_literals t' = m_ineq_literals t
        ∧ th_ctx t' = th_ctx t ∧ m_ineqs t' = m_ineqs t
        ∧ m_learn_complements t' = m_learn_complements t
        ∧ m_conflict_lvl t' = m_conflict_lvl t.
Proof.
  intros Hinv Hm Hidx. unfold remove_from_lemma, lemma_inv in *.
  destruct (lookup_lt_is_Some_2 _ _ Hidx) as [a Ha].
  destruct (lookup_lt_is_Some_2 (m_args (m_lemma t))
              (length (m_args (m_lemma t)) - 1)%nat ltac:(lia)) as [b Hb].
  unfold bind at 1. unfold get_state at 1. cbv zeta.
  unfold bind at 1. rewrite Ha. unfold lift_opt at 1.
  destruct (decide (idx = (length (m_args (m_lemma t)) - 1)%nat)) as [He|Hne].
  - rewrite bool_decide_eq_false_2 by (by intros ?).
    eexists. split; [reflexivity|]. simpl. rewrite <- He in Hb.
    assert (a = b) as -> by congruence. rewrite He in Hb.
    split; [by apply indexed_pop|]. split.
    + intros v Hv. simpl in *. apply Hm.
      destruct (decide (v = var b.1)) as [->|Hvb].
      * rewrite lookup_delete_eq in Hv. by destruct Hv.
      * by rewrite lookup_delete_ne in Hv.
    + rewrite removelast_firstn_len, length_take. repeat split; try done. lia.
  - rewrite bool_decide_eq_true_2 by done.
    unfold bind at 1. unfold bind at 1. rewrite Hb. unfold lift_opt at 1.
    eexists. split; [reflexivity|]. simpl.
    split; [by apply indexed_move|]. split.
    + intros v Hv. simpl in *. apply Hm.
      destruct (decide (v = var a.1)) as [->|Hva].
      * rewrite lookup_delete_eq in Hv. by destruct Hv.
      * rewrite lookup_delete_ne in Hv by done.
        destruct (decide (v = var b.1)) as [->|Hvb].
        -- exists (length (m_args (m_lemma t)) - 1)%nat. apply Hinv. by exists b.
        -- by rewrite lookup_insert_ne in Hv.
    + rewrite removelast_firstn_len, length_take, length_insert.
      repeat split; try done. lia.
Qed.

Lemma add_to_lemma_coeff_spec (idx : nat) (d : numeral) (t : theory_pb) a :
  m_args (m_lemma t) !! idx = Some a →
  add_to_lemma_coeff idx d t
  = Some (a.2 + d,
          set_lemma (ineq_set_args (<[idx := (a.1, a.2 + d)]> (m_args (m_lemma t)))
                       (m_lemma t)) t).
Proof.
  intros Ha. unfold add_to_lemma_coeff.
  unfold bind at 1. unfold get_state at 1. unfold bind at 1. rewrite Ha. done.
Qed.

Lemma same_frame_refl t : same_frame t t.
Proof. by repeat split. Qed.

Lemma same_frame_trans t1 t2 t3 :
  same_frame t1 t2 → same_frame t2 t3 → same_frame t1 t3.
Proof.
  intros (A1 & A2 & A3 & A4 & A5) (B1 & B2 & B3 & B4 & B5).
  repeat split; congruence.
Qed.

Lemma process_antecedent_spec (l : literal) (coeff0 : numeral) (t : theory_pb) :
  lemma_inv t → marked_inv t →
  ∃ t', process_antecedent l coeff0 t = Some (tt, t')
        ∧ lemma_inv t' ∧ marked_inv t' ∧ same_frame t t'.
Proof.
  intros Hinv Hm. unfold process_antecedent.
  unfold bind at 1. unfold get_state at 1. cbv zeta.
  destruct (decide (get_assignment (th_ctx t) l ≠ l_false)) as [Hnf|Hf].
  - rewrite bool_decide_eq_true_2 by done.
    unfold bind at 1. unfold with_lemma at 1, modify at 1.
    set (t1 := set_lemma (ineq_set_k (m_k (m_lemma t) - coeff0) (m_lemma t)) t).
    assert (lemma_inv t1) as Hinv1 by done.
    assert (marked_inv t1) as Hm1 by done.
    destruct (m_learn_complements t && is_marked t (var l)) eqn:Hlc.
    2:{ exists t1. split; [done|]. split; [done|]. split; [done|].
        by repeat split. }
    apply andb_true_iff in Hlc as [_ Hmk]. unfold is_marked in Hmk.
    apply bool_decide_eq_true in Hmk as [idx Hidx].
    destruct (proj1 (Hinv _ _) Hidx) as (a & Ha & Hv).
    unfold bind at 1. rewrite Hidx. unfold lift_opt at 1.
    unfold bind at 1. rewrite (add_to_lemma_coeff_spec idx (- coeff0) t1 a Ha).
    set (t2 := set_lemma _ t1).
    assert (lemma_inv t2) as Hinv2 by (by apply indexed_update).
    assert (marked_inv t2) as Hm2 by done.
    destruct (negb (0 <? a.2 + - coeff0)).
    + destruct (remove_from_lemma_spec idx t2 Hinv2 Hm2)
        as (t' & Hrun & H1 & H2 & _ & _ & F1 & F2 & F3 & F4 & F5).
      { simpl. rewrite length_insert. by eapply lookup_lt_Some. }
      exists t'. split; [exact Hrun|]. split; [done|]. split; [done|].
      by repeat split.
    + exists t2. split; [done|]. split; [done|]. split; [done|]. by repeat split.
  - rewrite bool_decide_eq_false_2 by done.
    destruct (get_base_level (th_ctx t) <? get_assign_level (th_ctx t) (var l))%nat;
      [|exists t; split; [done|]; split; [done|]; split; [done|apply same_frame_refl]].
    destruct (is_marked t (var l)) eqn:Hmk.
    + unfold is_marked in Hmk. apply bool_decide_eq_true in Hmk as [idx Hidx].
      destruct (proj1 (Hinv _ _) Hidx) as (a & Ha & Hv).
      unfold bind at 1. rewrite Hidx. unfold lift_opt at 1.
      unfold bind at 1. rewrite (add_to_lemma_coeff_spec idx coeff0 t a Ha).
      eexists. split; [reflexivity|].
      split; [by apply indexed_update|]. split; [done|]. by repeat split.
    + unfold is_marked in Hmk. apply bool_decide_eq_false in Hmk.
      assert (m_conseq_index t !! var l = None) as Hnone.
      { destruct (m_conseq_index t !! var l) eqn:E; [|done].
        exfalso. apply Hmk. by eexists. }
      assert (∀ t0, lemma_inv t0 → marked_inv t0 →
                m_conseq_index t0 !! var l = None →
                ∃ t', (set_mark (var l) (length (m_args (m_lemma t))) ;;;
                       with_lemma (fun c => ineq_set_args (m_args c ++ [(l, coeff0)]) c))
                        t0 = Some (tt, t')
                      ∧ (m_args (m_lemma t0) = m_args (m_lemma t) → lemma_inv t')
                      ∧ marked_inv t' ∧ same_frame t0 t') as Hpush.
      { intros t0 H0 Hm0 Hn0. eexists. split; [reflexivity|]. split; [|split].
        - intros Hargs. unfold lemma_inv. simpl. rewrite <- Hargs.
          by apply indexed_snoc.
        - intros u Hu. simpl in *. apply elem_of_app.
          destruct (decide (u = var l)) as [->|Hne].
          + right. by apply list_elem_of_singleton.
          + left. apply Hm0. by rewrite lookup_insert_ne in Hu.
        - by repeat split. }
      destruct (get_assign_level (th_ctx t) (var l) =? m_conflict_lvl t)%nat.
      * unfold bind at 1. unfold modify at 1.
        destruct (Hpush (set_num_marks (u32 (m_num_marks t + 1)) t))
          as (t' & Hrun & H1 & H2 & H3); try done.
        exists t'. split; [exact Hrun|]. split; [by apply H1|]. split; [done|].
        destruct H3 as (F1 & F2 & F3 & F4 & F5). by repeat split.
      * unfold bind at 1. unfold ret at 1.
        destruct (Hpush t) as (t' & Hrun & H1 & H2 & H3); try done.
        exists t'. split; [exact Hrun|]. split; [by apply H1|]. done.
Qed.

Lemma process_antecedents_spec (f : literal * numeral → numeral) (args : arg_t) :
  ∀ t, lemma_inv t → marked_inv t →
    ∃ t', for_each args (fun a => process_antecedent a.1 (f a)) t = Some (tt, t')
          ∧ lemma_inv t' ∧ marked_inv t' ∧ same_frame t t'.
Proof.
  induction args as [|a args IH]; intros t Hinv Hm.
  - exists t. split; [done|]. split; [done|]. split; [done|apply same_frame_refl].
  - destruct (process_antecedent_spec a.1 (f a) t Hinv Hm) as (t1 & H1 & I1 & M1 & F1).
    destruct (IH t1 I1 M1) as (t2 & H2 & I2 & M2 & F2).
    exists t2. split; [|split; [done|split; [done|by eapply same_frame_trans]]].
    cbn [for_each]. unfold bind at 1. by rewrite H1.
Qed.

(** X19. [process_antecedent] keeps the index of the lemma exact: when
    [m_conseq_index] maps exactly the variables of the arguments of
    [m_lemma] to their positions (and every marked variable is on
    [m_marked]), the call returns, with no read out of range in either
    table, and the same holds afterwards, whether the call adds the literal,
    changes its coefficient or removes it with [remove_from_lemma]. *)
Theorem process_antecedent_index (l : literal) (coeff0 : numeral) (t : theory_pb) :
  lemma_inv t → marked_inv t →
  ∃ t', process_antecedent l coeff0 t = Some (tt, t')
        ∧ lemma_inv t' ∧ marked_inv t'
        ∧ th_ctx t' = th_ctx t ∧ m_ineqs t' = m_ineqs t
        ∧ m_ineq_literals t' = m_ineq_literals t.
Proof.
  intros Hinv Hm.
  destruct (process_antecedent_spec l coeff0 t Hinv Hm)
    as (t' & Hrun & H1 & H2 & F1 & F2 & _ & _ & F5).
  by exists t'.
Qed.

(** X20. [remove_from_lemma(idx)] reads the cell [idx] of the lemma: it
    fails on an index out of range; in range, under the same invariant, it
    shortens the lemma by one cell, leaves [k] alone, keeps the index exact
    and leaves the variable of the removed cell unmarked. *)
Theorem remove_from_lemma_index (idx : nat) (t : theory_pb) :
  ((length (m_args (m_lemma t)) <= idx)%nat → remove_from_lemma idx t = None)
  ∧ (lemma_inv t → marked_inv t → (idx < length (m_args (m_lemma t)))%nat →
     ∃ t', remove_from_lemma idx t = Some (tt, t')
           ∧ lemma_inv t' ∧ marked_inv t'
           ∧ length (m_args (m_lemma t')) = (length (m_args (m_lemma t)) - 1)%nat
           ∧ m_k (m_lemma t') = m_k (m_lemma t)
           ∧ (∀ a, m_args (m_lemma t) !! idx = Some a →
                   is_marked t' (var a.1) = false)).
Proof.
  split.
  - intros Hge. unfold remove_from_lemma.
    unfold bind at 1. unfold get_state at 1. cbv zeta. unfold bind at 1.
    by rewrite (lookup_ge_None_2 _ _ Hge).
  - intros Hinv Hm Hidx.
    destruct (remove_from_lemma_spec idx t Hinv Hm Hidx)
      as (t' & Hrun & H1 & H2 & H3 & H4 & _).
    exists t'. split; [exact Hrun|]. do 4 (split; [done|]).
    intros a Ha. unfold is_marked. apply bool_decide_eq_false_2. intros [i Hi].
    destruct (proj1 (H1 _ _) Hi) as (x & Hx & Hv).
    revert Hrun. unfold remove_from_lemma.
    unfold bind at 1. unfold get_state at 1. cbv zeta. unfold bind at 1.
    rewrite Ha. unfold lift_opt at 1. intros Hrun.
    assert (m_conseq_index t' !! var a.1 = None) as Hnone.
    { destruct (bool_decide _) in Hrun.
      - unfold bind at 1 in Hrun. unfold bind at 1 in Hrun.
        destruct (m_args (m_lemma t) !! _) in Hrun; [|done].
        injection Hrun as <-. simpl. apply lookup_delete_eq.
      - injection Hrun as <-. simpl. apply lookup_delete_eq. }
    congruence.
Qed.

(** X21. [process_ineq] on a stored inequality keeps the index of the lemma
    exact.  It fails when [coeff1] is zero or [conseq] has no non-zero
    coefficient in the inequality (a division by zero); otherwise it
    returns, and the invariant holds afterwards. *)
Theorem process_ineq_index (cv : bool_var) (conseq : literal) (coeff1 : numeral)
    (t : theory_pb) (c : ineq) :
  m_ineqs t !! cv = Some c → lemma_inv t → marked_inv t →
  let coeff2 :=
    match List.find (fun a => bool_decide (a.1 = conseq)) (m_args c) with
    | Some a => a.2
    | None => if decide (conseq = null_literal) then 1 else 0
    end in
  (coeff1 = 0 ∨ coeff2 = 0 → process_ineq cv conseq coeff1 t = None)
  ∧ (coeff1 ≠ 0 → coeff2 ≠ 0 →
     ∃ t', process_ineq cv conseq coeff1 t = Some (tt, t')
           ∧ lemma_inv t' ∧ marked_inv t'
           ∧ th_ctx t' = th_ctx t ∧ m_ineqs t' = m_ineqs t).
Proof.
  intros Hc Hinv Hm coeff2.
  split.
  - intros Hz. unfold process_ineq.
    unfold bind at 1. unfold get_ineq at 1. unfold bind at 1. unfold get_state at 1.
    rewrite Hc. unfold lift_opt at 1. cbv zeta. fold coeff2.
    destruct Hz as [-> | ->]; [done|]. by rewrite orb_true_r.
  - intros H1 H2. unfold process_ineq.
    unfold bind at 1. unfold get_ineq at 1. unfold bind at 1. unfold get_state at 1.
    rewrite Hc. unfold lift_opt at 1. cbv zeta. fold coeff2.
    destruct (Z.eqb_spec coeff1 0) as [|_]; [done|].
    destruct (Z.eqb_spec coeff2 0) as [|_]; [done|]. cbn [orb].
    set (g1 := Z.lcm coeff1 coeff2 / coeff1). set (g2 := Z.lcm coeff1 coeff2 / coeff2).
    assert (∃ t1, (if 1 <? g1 then
                     with_lemma (fun c0 =>
                       ineq_set_k (m_k c0 * g1)
                         (ineq_set_args (map (fun a => (a.1, a.2 * g1)) (m_args c0)) c0))
                   else ret tt) t = Some (tt, t1)
                  ∧ lemma_inv t1 ∧ marked_inv t1 ∧ same_frame t t1)
      as (t1 & R1 & I1 & M1 & F1).
    { destruct (1 <? g1).
      2:{ exists t. split; [done|]. split; [done|]. split; [done|].
          apply same_frame_refl. }
      eexists. split; [reflexivity|]. split; [|by repeat split].
      intros v i. unfold lemma_inv in *. simpl. rewrite (Hinv v i).
      rewrite list_lookup_fmap.
      destruct (m_args (m_lemma t) !! i) as [x|]; simpl.
      - split; intros (a & Ha & Hv); simplify_eq; by eexists.
      - split; intros (a & Ha & Hv); done. }
    unfold bind at 1. rewrite R1.
    unfold bind at 1. unfold with_lemma at 1, modify at 1.
    set (t2 := set_lemma _ t1).
    assert (lemma_inv t2) as I2 by done.
    assert (marked_inv t2) as M2 by done.
    destruct (process_antecedents_spec (fun a => g2 * a.2) (m_args c) t2 I2 M2)
      as (t3 & R3 & I3 & M3 & F3).
    unfold bind at 1. rewrite R3.
    unfold bind at 1. unfold get_state at 1.
    destruct F1 as (A1 & A2 & _). destruct F3 as (B1 & B2 & _).
    simpl in B1, B2.
    destruct (_ <? _)%nat.
    + eexists. split; [reflexivity|]. simpl.
      split; [done|]. split; [done|]. split; congruence.
    + exists t3. split; [done|]. split; [done|]. split; [done|]. split; congruence.
Qed.

(** One dualisation in [eq] is never followed by a second one. *)
Lemma eq_rec_depth d fuel k n xs s :
  (n <= length xs)%nat →
  psort_nw.eq_rec (S (S d)) fuel k n xs s = psort_nw.eq fuel k n xs s.
Proof.
  intros Hn. unfold psort_nw.eq. cbn [psort_nw.eq_rec].
  destruct (n <? k)%nat; [done|].
  destruct (dualize_cases k n xs Hn) as [[Hd _]|(in_ & Hd & Hlen & H2k & Hd')];
    rewrite Hd; [done|].
  destruct (n <? n - k)%nat; [by destruct d|]. rewrite Hd'. by destruct d.
Qed.

(** X22. [eq(k, n, xs)] returns a literal only for [1 <= k < n] (and the
    constant false for [k > n]).  For [k = 0] the final read [out[k-1]] has
    the index [UINT_MAX], and for [k = n >= 1] the dualisation turns [k] into
    0 first: [card] returns its outputs and the read is past them. *)
Theorem eq_spec (fuel k n : nat) (xs : list literal) (s : psort_nw.t) :
  (n <= length xs)%nat → Z.of_nat n < 2 ^ 31 → (6 * n + 8 <= fuel)%nat →
  ((n < k)%nat → psort_nw.eq fuel k n xs s = Some (false_literal, s))
  ∧ ((1 <= k < n)%nat →
     ∃ l s', psort_nw.eq fuel k n xs s = Some (l, s')
             ∧ psort_nw.m_t s' = psort_nw.EQ
             ∧ aux_clauses_only (psort_nw.ctx s) (psort_nw.ctx s'))
  ∧ (k = 0%nat ∨ k = n →
     psort_nw.eq fuel k n xs s = None
     ∧ ∃ xs' out s1,
         psort_nw.card fuel 1 n xs' (psort_nw.set_m_t psort_nw.EQ s) = Some (out, s1)
         ∧ out !! Z.to_nat (u32 (0 - 1)) = None).
Proof.
  intros Hn Hfit Hf.
  assert (∀ xs', (n <= length xs')%nat →
            (modify (psort_nw.set_m_t psort_nw.EQ) ;;;
             let* out := psort_nw.card fuel (0 + 1) n xs' in
             lift_opt (out !! Z.to_nat (u32 (Z.of_nat 0 - 1)))) s = None
            ∧ ∃ out s1,
                psort_nw.card fuel 1 n xs' (psort_nw.set_m_t psort_nw.EQ s)
                = Some (out, s1)
                ∧ out !! Z.to_nat (u32 (0 - 1)) = None) as Hzero.
  { intros xs' Hxs.
    destruct (card_ok psort_nw.EQ 1%nat ltac:(lia) n xs' fuel Hxs Hf
                (psort_nw.set_m_t psort_nw.EQ s) eq_refl)
      as (out & s1 & Hrun & Hlen & _).
    cbv beta in Hlen.
    assert (out !! Z.to_nat (u32 (0 - 1)) = None) as Hnone.
    { apply lookup_ge_None_2. change (u32 (0 - 1)) with (2 ^ 32 - 1). lia. }
    split; [|by exists out, s1].
    unfold bind at 1. unfold modify at 1. unfold bind at 1.
    change (0 + 1)%nat with 1%nat. rewrite Hrun.
    change (Z.of_nat 0) with 0. unfold lift_opt. by rewrite Hnone. }
  unfold psort_nw.eq. cbn [psort_nw.eq_rec]. split; [|split].
  - intros Hk. by destruct (Nat.ltb_spec n k); [|lia].
  - intros Hk. destruct (Nat.ltb_spec n k); [lia|].
    destruct (dualize_cases k n xs Hn) as [[Hd _]|(in_ & Hd & Hlen & H2k & Hd')];
      rewrite Hd.
    + destruct (card_then psort_nw.EQ fuel (k + 1) n xs
                  (fun out => lift_opt (out !! Z.to_nat (u32 (Z.of_nat k - 1)))) s)
        as (l & s' & Hrun & Hm); try lia.
      { intros out Hout. apply nw_ok_lookup. rewrite u32_small by lia. lia. }
      by exists l, s'.
    + destruct (Nat.ltb_spec n (n - k)); [lia|]. rewrite Hd'.
      destruct (card_then psort_nw.EQ fuel (n - k + 1) n in_
                  (fun out => lift_opt (out !! Z.to_nat (u32 (Z.of_nat (n - k) - 1)))) s)
        as (l & s' & Hrun & Hm); try lia.
      { intros out Hout. apply nw_ok_lookup. rewrite u32_small by lia. lia. }
      by exists l, s'.
  - intros Hk. destruct (Nat.ltb_spec n k); [lia|].
    destruct (dualize_cases k n xs Hn) as [[Hd Hu]|(in_ & Hd & Hlen & H2k & Hd')];
      rewrite Hd.
    + assert (k = 0)%nat as ->.
      { destruct Hk as [->| ->]; [done|]. rewrite u32_small in Hu by lia. lia. }
      destruct (Hzero xs Hn) as [H1 H2]. split; [exact H1|]. by exists xs.
    + assert (k = n) as -> by lia.
      rewrite Nat.sub_diag in *. destruct (Nat.ltb_spec n 0); [lia|]. rewrite Hd'.
      destruct (Hzero in_ ltac:(lia)) as [H1 H2]. split; [exact H1|]. by exists in_.
Qed.

(** ** Compilation into a sorting network *)

Lemma compile_inputs_true ctx thl :
  get_assignment ctx thl = l_true →
  get_assign_level ctx (var thl) = get_base_level ctx →
  ∀ args k in_,
    compile_inputs ctx thl args k in_
    = if (k <? unrolled_size args)%nat then None
      else Some ((k - unrolled_size args)%nat, in_).
Proof.
  intros Hv Hl. induction args as [|a args IH]; intros k in_.
  - simpl. by rewrite Nat.sub_0_r.
  - cbn [compile_inputs unrolled_size foldr]. cbv zeta.
    fold (unrolled_size args). rewrite Hv, Hl, Nat.eqb_refl.
    rewrite bool_decide_eq_true_2 by done. rewrite bool_decide_eq_true_2 by done.
    cbn [andb].
    destruct (Nat.ltb_spec k (Z.to_nat a.2)) as [Hlt|Hge].
    + destruct (Nat.ltb_spec k (Z.to_nat a.2 + unrolled_size args)); [done|lia].
    + rewrite IH.
      destruct (Nat.ltb_spec (k - Z.to_nat a.2) (unrolled_size args));
        destruct (Nat.ltb_spec k (Z.to_nat a.2 + unrolled_size args)); try lia;
        [done|]. do 2 f_equal. lia.
Qed.

Lemma compile_inputs_false ctx thl :
  get_assignment ctx thl = l_false →
  get_assign_level ctx (var thl) = get_base_level ctx →
  ∀ args k in_, compile_inputs ctx thl args k in_ = Some (k, in_).
Proof.
  intros Hv Hl. induction args as [|a args IH]; intros k in_; [done|].
  cbn [compile_inputs]. cbv zeta. rewrite Hv, Hl, Nat.eqb_refl.
  rewrite bool_decide_eq_true_2 by done. rewrite bool_decide_eq_false_2 by done.
  cbn [andb]. apply IH.
Qed.

Lemma compile_inputs_open ctx thl :
  ¬ assigned_at_base ctx thl →
  ∀ args k in_,
    ∃ more, compile_inputs ctx thl args k in_ = Some (k, in_ ++ more)
            ∧ length more = unrolled_size args
            ∧ (∀ l, l ∈ more → ∃ a, a ∈ args ∧ a.1 = l).
Proof.
  intros Hopen.
  assert (bool_decide (get_assignment ctx thl ≠ l_undef)
          && (get_assign_level ctx (var thl) =? get_base_level ctx)%nat = false) as Hc.
  { apply andb_false_iff.
    destruct (decide (get_assignment ctx thl ≠ l_undef)) as [Hv|Hv].
    - right. apply Nat.eqb_neq. intros Hl. by apply Hopen.
    - left. by apply bool_decide_eq_false_2. }
  induction args as [|a args IH]; intros k in_.
  - exists []. rewrite app_nil_r. split; [done|]. split; [done|].
    intros l Hl. by apply elem_of_nil in Hl.
  - cbn [compile_inputs]. cbv zeta. rewrite Hc.
    destruct (IH k (in_ ++ replicate (Z.to_nat a.2) a.1)) as (more & Hrun & Hlen & Hin).
    exists (replicate (Z.to_nat a.2) a.1 ++ more). split; [|split].
    + rewrite Hrun. by rewrite app_assoc.
    + rewrite length_app, length_replicate, Hlen. done.
    + intros l Hl. apply elem_of_app in Hl as [Hl|Hl].
      * apply elem_of_replicate in Hl as [-> _]. exists a. split; [|done].
        apply elem_of_cons. by left.
      * destruct (Hin l Hl) as (b & Hb & Hbl). exists b. split; [|done].
        apply elem_of_cons. by right.
Qed.

(** One run of [compile_ineq], by cases on the inputs and on the result of
    [ge]. *)
Lemma compile_ineq_run (fuel : nat) (mt0 : psort_nw.cmp_t) (cv : bool_var)
    (t : theory_pb) (c : ineq) :
  m_ineqs t !! cv = Some c →
  let ctx := th_ctx t in
  let thl := m_lit c in
  let at_base :=
    bool_decide (get_assignment ctx thl = l_true)
    && (get_assign_level ctx (var thl) =? get_base_level ctx)%nat in
  match compile_inputs ctx thl (m_args c) (Z.to_nat (m_k c)) [] with
  | None =>
      compile_ineq fuel mt0 cv t
      = Some (tt, set_stats (th_stats.inc_compiles (m_stats t)) t)
  | Some (k, in_) =>
      ∀ l nw',
        psort_nw.ge fuel (negb at_base) k (length in_) in_
          (psort_nw.mk ctx mt0 (psort_nw.mk_stats 0 0)) = Some (l, nw') →
        ∃ t', compile_ineq fuel mt0 cv t = Some (tt, t')
              ∧ th_ctx t'
                = (if at_base then mk_clause [lit_neg thl; l] CLS_AUX (psort_nw.ctx nw')
                   else mk_clause [lit_neg l; thl] CLS_AUX
                          (mk_clause [lit_neg thl; l] CLS_AUX (psort_nw.ctx nw')))
              ∧ m_ineqs t' = <[cv := ineq_set_compiled l_true c]> (m_ineqs t)
              ∧ m_to_compile t' = m_to_compile t
              ∧ m_watch t' = m_watch t
  end.
Proof.
  intros Hc ctx thl at_base.
  assert (∀ K : ineq → theory_pb → M theory_pb unit,
            (with_stats th_stats.inc_compiles ;;;
             let* c0 := get_ineq cv in let* t0 := get_state in K c0 t0) t
            = K c (set_stats (th_stats.inc_compiles (m_stats t)) t)
                (set_stats (th_stats.inc_compiles (m_stats t)) t)) as Hhead.
  { intros K. unfold bind at 1. unfold with_stats at 1, modify at 1.
    unfold bind at 1. unfold get_ineq at 1. unfold bind at 1. unfold get_state at 1.
    cbn [m_ineqs set_stats]. rewrite Hc. unfold lift_opt at 1.
    unfold bind at 1. unfold get_state at 1. done. }
  destruct (compile_inputs ctx thl (m_args c) (Z.to_nat (m_k c)) [])
    as [[k in_]|] eqn:Hin.
  2:{ unfold compile_ineq. rewrite Hhead. cbv zeta. cbn [th_ctx set_stats].
      fold ctx. fold thl. by rewrite Hin. }
  intros l nw' Hge. unfold compile_ineq. rewrite Hhead. cbv zeta.
  cbn [th_ctx set_stats]. fold ctx. fold thl. rewrite Hin. fold at_base.
  unfold bind at 1. rewrite Hge. unfold lift_opt at 1. cbn [fst snd].
  destruct at_base; eexists; (split; [reflexivity|]); simpl; done.
Qed.

Lemma ge_no_inputs (fuel : nat) (full : bool) (k : nat) (s : psort_nw.t) :
  psort_nw.ge fuel full k 0 [] s = Some (const_literal (k =? 0)%nat, s).
Proof. unfold psort_nw.ge. cbn [psort_nw.ge_rec]. by destruct k. Qed.

(** X23. [compile_ineq] tests the assignment of [lit(C)], not of the
    argument at hand, so when [lit(C)] is assigned at the base level no
    argument becomes an input of the network.  If [lit(C)] is true there, the
    loop takes every coefficient off [k]: when [k] is below their sum the
    function returns early and only counts the call, and otherwise it emits
    the single clause [~lit(C) \/ b] with [b] the constant true or false.  If
    [lit(C)] is false there, it emits the two clauses that tie [lit(C)] to
    the constant for [k = 0].  No network variable or clause is made, whatever
    the fuel. *)
Theorem compile_ineq_at_base (fuel : nat) (mt0 : psort_nw.cmp_t) (cv : bool_var)
    (t : theory_pb) (c : ineq) :
  m_ineqs t !! cv = Some c →
  get_assign_level (th_ctx t) (var (m_lit c)) = get_base_level (th_ctx t) →
  let ctx := th_ctx t in
  let thl := m_lit c in
  let k := Z.to_nat (m_k c) in
  let total := unrolled_size (m_args c) in
  (get_assignment ctx thl = l_true → (k < total)%nat →
   compile_ineq fuel mt0 cv t
   = Some (tt, set_stats (th_stats.inc_compiles (m_stats t)) t))
  ∧ (get_assignment ctx thl = l_true → (total <= k)%nat →
     ∃ t', compile_ineq fuel mt0 cv t = Some (tt, t')
           ∧ th_ctx t'
             = mk_clause [lit_neg thl; const_literal (k =? total)%nat] CLS_AUX ctx
           ∧ m_ineqs t' = <[cv := ineq_set_compiled l_true c]> (m_ineqs t))
  ∧ (get_assignment ctx thl = l_false →
     ∃ t', compile_ineq fuel mt0 cv t = Some (tt, t')
           ∧ th_ctx t'
             = mk_clause [lit_neg (const_literal (k =? 0)%nat); thl] CLS_AUX
                 (mk_clause [lit_neg thl; const_literal (k =? 0)%nat] CLS_AUX ctx)
           ∧ m_ineqs t' = <[cv := ineq_set_compiled l_true c]> (m_ineqs t)).
Proof.
  intros Hc Hl ctx thl k total.
  pose proof (compile_ineq_run fuel mt0 cv t c Hc) as Hrun. cbv zeta in Hrun.
  fold ctx thl k in Hrun. fold ctx in Hl. fold thl in Hl.
  rewrite Hl, Nat.eqb_refl, andb_true_r in Hrun.
  split; [|split].
  - intros Hv Hk. rewrite (compile_inputs_true ctx thl Hv Hl) in Hrun.
    fold total in Hrun. by destruct (Nat.ltb_spec k total); [|lia].
  - intros Hv Hk. rewrite (compile_inputs_true ctx thl Hv Hl) in Hrun.
    fold total in Hrun. destruct (Nat.ltb_spec k total); [lia|].
    rewrite bool_decide_eq_true_2 in Hrun by done.
    destruct (Hrun _ _ (ge_no_inputs _ _ _ _)) as (t' & H1 & H2 & H3 & _).
    exists t'. split; [exact H1|]. split; [|exact H3].
    rewrite H2. cbn [psort_nw.ctx]. do 3 f_equal.
    destruct (Nat.eqb_spec (k - total) 0), (Nat.eqb_spec k total); try lia; done.
  - intros Hv. rewrite (compile_inputs_false ctx thl Hv Hl) in Hrun.
    rewrite bool_decide_eq_false_2 in Hrun by (by rewrite Hv).
    destruct (Hrun _ _ (ge_no_inputs _ _ _ _)) as (t' & H1 & H2 & H3 & _).
    exists t'. split; [exact H1|]. split; [|exact H3]. exact H2.
Qed.

(** X24. When [lit(C)] is not assigned at the base level, [compile_ineq]
    returns (within fuel [6 n + 8], for [n] the sum of the coefficients, the
    number of inputs of the network): the host receives auxiliary clauses of
    the network and then the two clauses [~lit(C) \/ r] and [~r \/ lit(C)]
    for the result [r] of [ge]; the inequality is marked compiled, and the
    rest of the table, the queue and the watch lists stay as they are. *)
Theorem compile_ineq_open (fuel : nat) (mt0 : psort_nw.cmp_t) (cv : bool_var)
    (t : theory_pb) (c : ineq) :
  m_ineqs t !! cv = Some c →
  ¬ assigned_at_base (th_ctx t) (m_lit c) →
  (6 * unrolled_size (m_args c) + 8 <= fuel)%nat →
  ∃ t' r new,
    compile_ineq fuel mt0 cv t = Some (tt, t')
    ∧ m_log (th_ctx t')
      = m_log (th_ctx t) ++ new
        ++ [ev_mk_clause [lit_neg (m_lit c); r] CLS_AUX;
            ev_mk_clause [lit_neg r; m_lit c] CLS_AUX]
    ∧ Forall is_aux_clause new
    ∧ m_ineqs t' = <[cv := ineq_set_compiled l_true c]> (m_ineqs t)
    ∧ m_to_compile t' = m_to_compile t ∧ m_watch t' = m_watch t.
Proof.
  intros Hc Hopen Hf.
  pose proof (compile_ineq_run fuel mt0 cv t c Hc) as Hrun. cbv zeta in Hrun.
  destruct (compile_inputs_open (th_ctx t) (m_lit c) Hopen (m_args c)
              (Z.to_nat (m_k c)) []) as (more & Hin & Hlen & _).
  rewrite app_nil_l in Hin. rewrite Hin in Hrun.
  assert (bool_decide (get_assignment (th_ctx t) (m_lit c) = l_true)
          && (get_assign_level (th_ctx t) (var (m_lit c))
              =? get_base_level (th_ctx t))%nat = false) as Hb.
  { apply not_true_is_false. intros Hb. apply andb_true_iff in Hb as [Hv Hl].
    apply bool_decide_eq_true in Hv. apply Nat.eqb_eq in Hl.
    apply Hopen. split; [by rewrite Hv|done]. }
  rewrite Hb in Hrun.
  destruct (ge_total fuel (negb false) (Z.to_nat (m_k c)) (length more) more
              (psort_nw.mk (th_ctx t) mt0 (psort_nw.mk_stats 0 0)))
    as (r & nw' & Hge & new & Hlog & Haux); [done|lia|].
  destruct (Hrun r nw' Hge) as (t' & H1 & H2 & H3 & H4 & H5).
  exists t', r, new. split; [exact H1|]. split; [|done].
  rewrite H2. unfold mk_clause, log_event. cbn [m_log]. rewrite Hlog.
  cbn [psort_nw.ctx]. by rewrite <- !app_assoc.
Qed.

(** [compile_ineq] returns in every case. *)
Lemma compile_ineq_total (fuel : nat) (mt0 : psort_nw.cmp_t) (cv : bool_var)
    (t : theory_pb) (c : ineq) :
  m_ineqs t !! cv = Some c →
  (6 * unrolled_size (m_args c) + 8 <= fuel)%nat →
  ∃ t', compile_ineq fuel mt0 cv t = Some (tt, t')
        ∧ (m_ineqs t' = m_ineqs t
           ∨ m_ineqs t' = <[cv := ineq_set_compiled l_true c]> (m_ineqs t))
        ∧ m_to_compile t' = m_to_compile t.
Proof.
  intros Hc Hf.
  pose proof (compile_ineq_run fuel mt0 cv t c Hc) as Hrun. cbv zeta in Hrun.
  destruct (compile_inputs (th_ctx t) (m_lit c) (m_args c) (Z.to_nat (m_k c)) [])
    as [[k in_]|] eqn:Hin.
  2:{ eexists. split; [exact Hrun|]. split; [by left|done]. }
  assert (length in_ <= unrolled_size (m_args c))%nat as Hlen.
  { destruct (decide (get_assignment (th_ctx t) (m_lit c) ≠ l_undef)) as [Hv|Hv].
    - destruct (decide (get_assign_level (th_ctx t) (var (m_lit c))
                        = get_base_level (th_ctx t))) as [Hl|Hl].
      + destruct (get_assignment (th_ctx t) (m_lit c)) eqn:Hval; [| done |].
        * rewrite (compile_inputs_false _ _ Hval Hl) in Hin.
          injection Hin as <- <-. simpl. lia.
        * rewrite (compile_inputs_true _ _ Hval Hl) in Hin.
          destruct (_ <? _)%nat; [done|]. injection Hin as <- <-. simpl. lia.
      + destruct (compile_inputs_open (th_ctx t) (m_lit c)
                    ltac:(by intros [_ ?]) (m_args c) (Z.to_nat (m_k c)) [])
          as (more & Hin' & Hlen & _).
        rewrite Hin in Hin'. injection Hin' as -> ->. simpl. lia.
    - destruct (compile_inputs_open (th_ctx t) (m_lit c)
                  ltac:(by intros [? _]) (m_args c) (Z.to_nat (m_k c)) [])
        as (more & Hin' & Hlen & _).
      rewrite Hin in Hin'. injection Hin' as -> ->. simpl. lia. }
  destruct (ge_total fuel
              (negb (bool_decide (get_assignment (th_ctx t) (m_lit c) = l_true)
                     && (get_assign_level (th_ctx t) (var (m_lit c))
                         =? get_base_level (th_ctx t))%nat))
              k (length in_) in_
              (psort_nw.mk (th_ctx t) mt0 (psort_nw.mk_stats 0 0)))
    as (r & nw' & Hge & _); [done|lia|].
  destruct (Hrun r nw' Hge) as (t' & H1 & _ & H3 & H4 & _).
  exists t'. split; [exact H1|]. split; [by right|done].
Qed.

Lemma compile_queue (fuel : nat) (mt0 : psort_nw.cmp_t) (queue : list bool_var) :
  ∀ t, compilable fuel queue t →
    ∃ t', for_each queue (compile_ineq fuel mt0) t = Some (tt, t')
          ∧ only_compiled t t' ∧ m_to_compile t' = m_to_compile t.
Proof.
  induction queue as [|cv queue IH]; intros t Hq.
  - exists t. split; [done|]. split; [|done].
    intros v. destruct (m_ineqs t !! v); [by left|done].
  - destruct (Hq cv ltac:(by left)) as (c & Hc & Hf).
    destruct (compile_ineq_total fuel mt0 cv t c Hc Hf) as (t1 & R1 & I1 & Q1).
    assert (only_compiled t t1) as O1.
    { intros v. destruct I1 as [-> | ->].
      - destruct (m_ineqs t !! v); [by left|done].
      - destruct (decide (v = cv)) as [->|Hne].
        + rewrite Hc, lookup_insert_eq. by right.
        + rewrite lookup_insert_ne by done.
          destruct (m_ineqs t !! v); [by left|done]. }
    destruct (IH t1) as (t2 & R2 & O2 & Q2).
    { intros v Hv. destruct (Hq v ltac:(by right)) as (c' & Hc' & Hf').
      specialize (O1 v). rewrite Hc' in O1.
      destruct O1 as [O1|O1]; eexists; (split; [exact O1|done]). }
    exists t2. split; [|split; [|congruence]].
    + cbn [for_each]. unfold bind at 1. by rewrite R1.
    + intros v. specialize (O1 v). specialize (O2 v).
      destruct (m_ineqs t !! v) as [c'|]; [|by rewrite O1 in O2].
      destruct O1 as [O1|O1]; rewrite O1 in O2; [done|].
      right. by destruct O2.
Qed.

(** X25. [restart_eh] compiles the queue and empties it: when every queued
    inequality is in the table (and the fuel is enough for each network), it
    returns with an empty queue, and every inequality of the table is as it
    was or has become compiled; none is added or removed. *)
Theorem restart_eh_spec (fuel : nat) (mt0 : psort_nw.cmp_t) (t : theory_pb) :
  compilable fuel (m_to_compile t) t →
  ∃ t', restart_eh fuel mt0 t = Some (tt, t')
        ∧ m_to_compile t' = [] ∧ only_compiled t t'.
Proof.
  intros Hq. destruct (compile_queue fuel mt0 (m_to_compile t) t Hq)
    as (t1 & R1 & O1 & Q1).
  eexists. split.
  - unfold restart_eh. unfold bind at 1. unfold get_state at 1.
    unfold bind at 1. rewrite R1. reflexivity.
  - split; [done|]. exact O1.
Qed.

(** ** Scopes *)

Lemma new_lim_spec (lim : list nat) (n : nat) :
  Z.of_nat (length lim) < 2 ^ 32 → Z.of_nat n < 2 ^ 32 →
  ((n <= length lim)%nat → new_lim lim n = (length lim - n)%nat)
  ∧ ((length lim < n)%nat → (length lim <= new_lim lim n)%nat).
Proof.
  intros Hl Hn. unfold new_lim, u32. split; intros H.
  - rewrite Z.mod_small by lia. lia.
  - assert ((Z.of_nat (length lim) - Z.of_nat n) mod 2 ^ 32
            = Z.of_nat (length lim) - Z.of_nat n + 2 ^ 32) as ->.
    { symmetry. apply (Z.mod_unique_pos _ _ (-1)); lia. }
    lia.
Qed.

Lemma new_lim_push (lim : list nat) (x : nat) :
  Z.of_nat (length lim) < 2 ^ 32 - 1 → new_lim (lim ++ [x]) 1 = length lim.
Proof.
  intros H. destruct (new_lim_spec (lim ++ [x]) 1) as [H1 _].
  - rewrite length_app. simpl. lia.
  - lia.
  - rewrite H1; rewrite length_app; simpl; lia.
Qed.

Lemma theory_pb_eta (t : theory_pb) :
  set_ineqs_trail (m_ineqs_trail t) (set_ineqs (m_ineqs t) t) = t.
Proof. by destruct t. Qed.

Lemma pop_ineqs_spec (vs : list bool_var) :
  ∀ (pre : list bool_var) (m : gmap bool_var ineq) (t : theory_pb),
    NoDup vs → (∀ v, v ∈ vs → is_Some (m !! v)) →
    pop_ineqs (length vs) (set_ineqs_trail (pre ++ vs) (set_ineqs m t))
    = Some (tt, set_ineqs_trail pre (set_ineqs (foldr delete m vs) t)).
Proof.
  induction vs as [|v vs IH] using rev_ind; intros pre m t Hnd Hin.
  - simpl. by rewrite app_nil_r.
  - rewrite length_app. simpl. rewrite Nat.add_1_r. cbn [pop_ineqs].
    unfold bind at 1. unfold get_state at 1.
    cbn [m_ineqs_trail set_ineqs_trail set_ineqs].
    rewrite app_assoc, last_snoc. unfold bind at 1. unfold lift_opt at 1.
    unfold bind at 1. unfold get_ineq at 1. unfold bind at 1.
    unfold get_state at 1. cbn [m_ineqs set_ineqs_trail set_ineqs].
    destruct (Hin v) as [c Hc]; [apply elem_of_app; right; by left|].
    rewrite Hc. unfold lift_opt at 1.
    unfold bind at 1. unfold modify at 1.
    unfold bind at 1. unfold modify at 1.
    cbn [m_ineqs m_ineqs_trail set_ineqs_trail set_ineqs].
    rewrite removelast_last.
    apply NoDup_app in Hnd as (Hnd & Hnv & _).
    replace (set_ineqs_trail (pre ++ vs) _)
      with (set_ineqs_trail (pre ++ vs) (set_ineqs (delete v m) t)) by (by destruct t).
    rewrite IH; [|done|].
    + rewrite foldr_app. done.
    + intros u Hu. rewrite lookup_delete_ne.
      * apply Hin. apply elem_of_app. by left.
      * intros ->. apply (Hnv u Hu). by left.
Qed.

Lemma foldr_delete_lookup (m : gmap bool_var ineq) (vs : list bool_var) v :
  foldr delete m vs !! v = if decide (v ∈ vs) then None else m !! v.
Proof.
  induction vs as [|u vs IH]; simpl.
  - destruct (decide (v ∈ [])) as [H|_]; [by apply elem_of_nil in H|done].
  - destruct (decide (v = u)) as [->|Hne].
    + rewrite lookup_delete_eq. rewrite decide_True; [done|by left].
    + rewrite lookup_delete_ne by done. rewrite IH.
      destruct (decide (v ∈ vs)) as [Hin|Hnin].
      * rewrite decide_True; [done|by right].
      * rewrite decide_False; [done|]. intros Hin.
        apply elem_of_cons in Hin as [?|?]; done.
Qed.

Lemma foldl_insert_lookup (m : gmap bool_var ineq) (vcs : list (bool_var * ineq)) v :
  v ∉ vcs.*1 → foldl (fun m vc => <[vc.1 := vc.2]> m) m vcs !! v = m !! v.
Proof.
  revert m. induction vcs as [|[u c] vcs IH]; intros m Hnin; [done|].
  simpl in *. rewrite IH.
  - rewrite lookup_insert_ne; [done|]. intros ->. apply Hnin. by left.
  - intros Hin. apply Hnin. by right.
Qed.

Lemma foldl_insert_dom (m : gmap bool_var ineq) (vcs : list (bool_var * ineq)) v :
  v ∈ vcs.*1 → is_Some (foldl (fun m vc => <[vc.1 := vc.2]> m) m vcs !! v).
Proof.
  revert m. induction vcs as [|[u c] vcs IH]; intros m Hin.
  - by apply elem_of_nil in Hin.
  - simpl in *. destruct (decide (v ∈ vcs.*1)) as [Hv|Hv]; [by apply IH|].
    rewrite foldl_insert_lookup by done.
    apply elem_of_cons in Hin as [->|?]; [|done].
    rewrite lookup_insert_eq. by eexists.
Qed.

(** X26. [pop_scope_eh(1)] right after [push_scope_eh] gives back the state
    and the scope limits as they were.  [pop_scope_eh(n)] reads the limit at
    the [unsigned] index [size - n]: it fails for [n = 0] and for [n] above
    the number of scopes. *)
Theorem push_pop_scope (t : theory_pb) (sc : scopes) (n : nat) :
  Z.of_nat (length (m_ineqs_lim sc)) < 2 ^ 32 - 1 →
  Z.of_nat (length (m_assign_ineqs_lim sc)) < 2 ^ 32 - 1 →
  (push_scope_eh ;;; pop_scope_eh 1) (t, sc) = Some (tt, (t, sc))
  ∧ (Z.of_nat n < 2 ^ 32 →
     n = 0%nat ∨ (length (m_assign_ineqs_lim sc) < n)%nat →
     pop_scope_eh n (t, sc) = None).
Proof.
  intros H1 H2. split.
  - unfold bind, push_scope_eh, modify, pop_scope_eh. cbn [fst snd].
    cbn [m_ineqs_lim m_assign_ineqs_lim].
    rewrite !new_lim_push by done.
    rewrite !lookup_app_r by lia. rewrite !Nat.sub_diag. cbn [lookup list_lookup].
    rewrite Nat.sub_diag. cbn [pop_assign_ineqs]. unfold ret at 1.
    rewrite Nat.sub_diag. cbn [pop_ineqs]. unfold ret at 1.
    rewrite !take_app_length. by destruct sc.
  - intros Hn Hcase. unfold pop_scope_eh. cbn [fst snd].
    rewrite (lookup_ge_None_2 (m_assign_ineqs_lim sc)); [done|].
    destruct (new_lim_spec (m_assign_ineqs_lim sc) n ltac:(lia) Hn) as [Hle Hgt].
    destruct Hcase as [->|Hlt]; [|by apply Hgt].
    rewrite Hle by lia. lia.
Qed.

(** X27. [pop_scope_eh(1)] removes from the table the inequalities stored
    since the matching [push_scope_eh]: when distinct new keys [vs] were
    stored on top of the state [t], each in the table and on
    [m_ineqs_trail], and no inequality was activated in between, the pop
    gives back [t] and the scope limits exactly. *)
Theorem pop_scope_undoes_stores (t : theory_pb) (sc : scopes) (vs : list bool_var)
    (cs : list ineq) :
  Z.of_nat (length (m_ineqs_lim sc)) < 2 ^ 32 - 1 →
  Z.of_nat (length (m_assign_ineqs_lim sc)) < 2 ^ 32 - 1 →
  NoDup vs → length cs = length vs → (∀ v, v ∈ vs → m_ineqs t !! v = None) →
  ∃ sc1, push_scope_eh (t, sc) = Some (tt, (t, sc1))
         ∧ pop_scope_eh 1 (stored vs cs t, sc1) = Some (tt, (t, sc)).
Proof.
  intros H1 H2 Hnd Hlen Hfresh. eexists. split; [reflexivity|].
  unfold pop_scope_eh. cbn [fst snd]. cbn [m_ineqs_lim m_assign_ineqs_lim].
  rewrite !new_lim_push by done.
  rewrite !lookup_app_r by lia. rewrite !Nat.sub_diag. cbn [lookup list_lookup].
  unfold stored at 1. cbn [m_assign_ineqs_trail set_ineqs_trail set_ineqs].
  rewrite Nat.sub_diag. cbn [pop_assign_ineqs]. unfold ret at 1.
  unfold stored at 1. cbn [m_ineqs_trail set_ineqs_trail].
  rewrite length_app.
  replace (length (m_ineqs_trail t) + length vs - length (m_ineqs_trail t))%nat
    with (length vs) by lia.
  unfold stored. rewrite pop_ineqs_spec; [|done|].
  2:{ intros v Hv. apply foldl_insert_dom. rewrite fst_zip by lia. done. }
  rewrite !take_app_length.
  replace (foldr delete _ vs) with (m_ineqs t).
  - rewrite theory_pb_eta. by destruct sc.
  - apply map_eq. intros v. rewrite foldr_delete_lookup.
    destruct (decide (v ∈ vs)) as [Hin|Hnin]; [by apply Hfresh|].
    rewrite foldl_insert_lookup; [done|]. by rewrite fst_zip by lia.
Qed.

Lemma remove_watch_notin (cv : bool_var) (l : list bool_var) :
  cv ∉ l → remove_watch cv l = l.
Proof.
  intros Hnin. unfold remove_watch.
  destruct (list_find (fun x => x = cv) l) as [[j x]|] eqn:Hf; [|done].
  apply list_find_Some in Hf as (Hj & -> & _).
  exfalso. apply Hnin. by eapply list_elem_of_lookup_2.
Qed.

Lemma remove_watch_in (cv : bool_var) (l : list bool_var) :
  cv ∈ l → l ≡ₚ cv :: remove_watch cv l.
Proof.
  intros Hin. unfold remove_watch.
  destruct (list_find (fun x => x = cv) l) as [[j x]|] eqn:Hf.
  - apply list_find_Some in Hf as (Hj & -> & _).
    destruct (swap_pop_spec l j cv Hj) as (_ & Hp & _).
    rewrite Hp at 1. by rewrite Permutation_app_comm.
  - apply list_find_None in Hf. rewrite Forall_forall in Hf.
    by specialize (Hf cv Hin).
Qed.

Lemma unwatch_ok (cv : bool_var) (c : ineq) :
  ∀ n i w,
    (i + n <= length (m_args c))%nat → NoDup (watch_keys c i n) →
    (∀ key, key ∈ watch_keys c i n → is_Some (w !! key)) →
    ∃ w', unwatch cv c n i w = Some w'
          ∧ ∀ key, w' !! key = if decide (key ∈ watch_keys c i n)
                               then remove_watch cv <$> (w !! key) else w !! key.
Proof.
  unfold watch_keys. induction n as [|n IH]; intros i w Hlen Hnd Hin.
  - exists w. split; [done|]. intros key. rewrite take_0. simpl.
    destruct (decide (key ∈ [])) as [H|_]; [by apply elem_of_nil in H|done].
  - destruct (lookup_lt_is_Some_2 (m_args c) i ltac:(lia)) as [a Ha].
    rewrite (drop_S _ _ _ Ha) in *. cbn [take map] in *.
    apply NoDup_cons in Hnd as [Hnot Hnd].
    cbn [unwatch]. cbv zeta. rewrite (lit_at_lookup c i a Ha).
    destruct (Hin (index a.1) ltac:(by left)) as [l Hl]. rewrite Hl.
    destruct (IH (S i) (<[index a.1 := remove_watch cv l]> w)) as (w' & Hrun & Hw').
    + lia.
    + done.
    + intros key Hkey. rewrite lookup_insert_ne.
      * apply Hin. by right.
      * intros <-. done.
    + exists w'. split; [exact Hrun|]. intros key. rewrite Hw'.
      destruct (decide (key = index a.1)) as [->|Hne].
      * rewrite decide_False by done. rewrite lookup_insert_eq, Hl.
        rewrite decide_True by by left. done.
      * rewrite lookup_insert_ne by done.
        destruct (decide (key ∈ _)) as [Hk|Hk].
        -- rewrite decide_True by by right. done.
        -- rewrite decide_False; [done|]. intros Hk'.
           apply elem_of_cons in Hk' as [?|?]; done.
Qed.

Lemma unwatch_missing (cv : bool_var) (c : ineq) :
  ∀ n i w key,
    (i + n <= length (m_args c))%nat → key ∈ watch_keys c i n → w !! key = None →
    unwatch cv c n i w = None.
Proof.
  unfold watch_keys. induction n as [|n IH]; intros i w key Hlen Hkey Hnone.
  - rewrite take_0 in Hkey. by apply elem_of_nil in Hkey.
  - destruct (lookup_lt_is_Some_2 (m_args c) i ltac:(lia)) as [a Ha].
    rewrite (drop_S _ _ _ Ha) in Hkey. cbn [take map] in Hkey.
    cbn [unwatch]. cbv zeta. rewrite (lit_at_lookup c i a Ha).
    destruct (w !! index a.1) as [l|] eqn:Hl; [|done].
    apply elem_of_cons in Hkey as [->|Hkey]; [congruence|].
    apply (IH (S i) _ key); [lia|done|].
    rewrite lookup_insert_ne; [done|]. intros <-. congruence.
Qed.

(** X28. The first loop of [pop_scope_eh] takes an activated inequality out
    of the watch lists of its watched literals.  When these literals have
    distinct list keys and each key has a list, every such list loses one
    cell holding the inequality if it has one (the other cells are kept, in
    some order) and is left alone if it has none, and no other list changes;
    a watched literal without a list is a failing [VERIFY]. *)
Theorem unwatch_spec (cv : bool_var) (c : ineq) (w : gmap Z (list bool_var)) :
  (m_watch_sz c <= length (m_args c))%nat →
  ((∃ key, key ∈ watched_keys c ∧ w !! key = None) →
   unwatch cv c (m_watch_sz c) 0 w = None)
  ∧ (NoDup (watched_keys c) →
     (∀ key, key ∈ watched_keys c → is_Some (w !! key)) →
     ∃ w', unwatch cv c (m_watch_sz c) 0 w = Some w'
           ∧ (∀ key, key ∉ watched_keys c → w' !! key = w !! key)
           ∧ (∀ key, key ∈ watched_keys c →
                ∃ l l', w !! key = Some l ∧ w' !! key = Some l'
                        ∧ (cv ∈ l → l ≡ₚ cv :: l') ∧ (cv ∉ l → l' = l))).
Proof.
  intros Hsz. split.
  - intros (key & Hkey & Hnone). by apply (unwatch_missing cv c _ 0 w key).
  - intros Hnd Hin.
    destruct (unwatch_ok cv c (m_watch_sz c) 0 w ltac:(lia) Hnd Hin) as (w' & Hrun & Hw').
    exists w'. split; [exact Hrun|]. split.
    + intros key Hkey. rewrite Hw'. by rewrite decide_False.
    + intros key Hkey. destruct (Hin key Hkey) as [l Hl].
      exists l, (remove_watch cv l). split; [done|]. split.
      * rewrite Hw'. rewrite decide_True by done. by rewrite Hl.
      * split; [apply remove_watch_in|apply remove_watch_notin].
Qed.

(** ** The conflict analysis on a well-formed trail *)



















(** *** The learnt lemma is not a clause *)






(** *** The conflict analysis returns *)









(** ** The conflict clause and the propagations of [assign_ineq] and
    [assign_watch] *)




End theory_pb.

(** * The theorems on the example data *)

(** ** The rewriter of the specification and the example host *)




Lemma sum_coeffs_pos (args : arg_t) :
  pos_coeffs args → args ≠ [] → 0 < sum_coeffs args.
Proof.
  unfold pos_coeffs, sum_coeffs.
  induction 1 as [|a args Ha Hargs IH]; [done|]. intros _. cbn [foldr].
  destruct args as [|b args]; [simpl; lia|].
  assert (0 < foldr (fun (a0 : literal * numeral) acc => a0.2 + acc) 0 (b :: args))
    by (by apply IH).
  lia.
Qed.





Lemma mk_value_spec_witness :
  (mk_value (ex_atom 2) [mv_true; mv_false; mv_true] = Some val_true
   ∧ satisfies (ex_atom 2) (true_sum (ex_atom 2) 0 [mv_true; mv_false; mv_true]))
  ∨ (mk_value (ex_atom 2) [mv_true; mv_false; mv_true] = Some val_false
     ∧ ¬ satisfies (ex_atom 2) (true_sum (ex_atom 2) 0 [mv_true; mv_false; mv_true])).
Proof.
  apply (mk_value_spec (ex_atom 2) [mv_true; mv_false; mv_true]).
  - reflexivity.
  - repeat (constructor; [unfold is_bool_value; auto|]). constructor.
  - discriminate.
Defined.

Lemma dsorting_clause_count_witness :
  ∃ out s',
    psort_nw.dsorting 3 3 (ex_xs 3) (ex_nw psort_nw.GE_FULL) = Some (out, s')
    ∧ length out = 3%nat
    ∧ emits (ex_nw psort_nw.GE_FULL) s' (dsorting_clauses psort_nw.GE_FULL 3 3)
    ∧ (dsorting_clauses psort_nw.GE_FULL 3 3 <= 2 * (2 ^ 3 - 1))%nat.
Proof.
  apply (dsorting_clause_count 3 3 (ex_xs 3) (ex_nw psort_nw.GE_FULL)).
  - lia.
  - simpl. lia.
Defined.

Lemma ge_dualize_witness :
  psort_nw.ge 50 false 4 5 (ex_xs 5) (ex_nw psort_nw.GE)
  = psort_nw.le 50 false 1 5 (map lit_neg (ex_xs 5)) (ex_nw psort_nw.GE)
  ∧ (2 * (5 - 4) <= 5)%nat.
Proof.
  destruct (ge_dualize 50 false 4 5 (ex_xs 5) (ex_nw psort_nw.GE)) as (H1 & H2 & _).
  - lia.
  - lia.
  - lia.
  - reflexivity.
  - split; [exact H1|exact H2].
Defined.

Lemma internalize_atom_trivial_witness :
  ∃ t', internalize_atom spec_unique spec_normalize spec_prune ex_compile_arg
          (ex_atom 4) (ex_th ex_ctx0 ∅ 0) = Some (true, t')
        ∧ m_log (th_ctx t') = [ev_mk_th_axiom [lit_neg (literal_of 100)]]
        ∧ same_store (ex_th ex_ctx0 ∅ 0) t'.
Proof.
  apply (internalize_atom_trivial spec_unique spec_normalize spec_prune ex_compile_arg
           (ex_atom 4) (ex_th ex_ctx0 ∅ 0)).
  - reflexivity.
  - vm_compute. discriminate.
Defined.

Lemma internalize_atom_clause_witness :
  ∃ t', internalize_atom spec_unique spec_normalize spec_prune ex_compile_arg
          (ex_atom 1) (ex_th ex_ctx0 ∅ 0) = Some (true, t')
        ∧ m_log (th_ctx t')
          = [ev_mk_th_axiom [literal_of 100; lit_neg ex_x];
             ev_mk_th_axiom [literal_of 100; lit_neg ex_y];
             ev_mk_th_axiom [literal_of 100; lit_neg ex_z];
             ev_mk_th_axiom [lit_neg (literal_of 100); ex_x; ex_y; ex_z]]
        ∧ same_store (ex_th ex_ctx0 ∅ 0) t'.
Proof.
  apply (internalize_atom_clause spec_unique spec_normalize spec_prune ex_compile_arg
           (ex_atom 1) (ex_th ex_ctx0 ∅ 0)).
  - reflexivity.
  - reflexivity.
  - reflexivity.
Defined.

Lemma internalize_atom_threshold_witness :
  ∃ t' c,
    internalize_atom spec_unique spec_normalize spec_prune ex_compile_arg
      (ex_atom 2) (ex_th ex_ctx0 ∅ 0) = Some (true, t')
    ∧ m_ineqs t' !! 100 = Some c
    ∧ m_args c = [(ex_x, 1); (ex_y, 1); (ex_z, 1)]
    ∧ (true = true → max_coeffs (m_args c) < 8 →
       m_compilation_threshold c = u32 (3 * (Z.log2_up (3 + 1) + 1)))
    ∧ (true = false ∨ 8 <= max_coeffs (m_args c) →
       m_compilation_threshold c = UINT_MAX).
Proof.
  apply (internalize_atom_threshold spec_unique spec_normalize spec_prune ex_compile_arg
           (ex_atom 2) (ex_th ex_ctx0 ∅ 0)).
  - reflexivity.
  - reflexivity.
  - vm_compute. discriminate.
  - vm_compute. reflexivity.
Defined.

(** The stored threshold for [x + y + z >= 2] is 9, not
    [3 * ceil(log2(3+1)) = 6]. *)
Lemma internalize_atom_threshold_counterexample :
  ∃ t' c,
    internalize_atom spec_unique spec_normalize spec_prune ex_compile_arg
      (ex_atom 2) (ex_th ex_ctx0 ∅ 0) = Some (true, t')
    ∧ m_enable_compilation (ex_th ex_ctx0 ∅ 0) = true
    ∧ m_ineqs t' !! 100 = Some c
    ∧ length (m_args c) = 3%nat
    ∧ max_coeffs (m_args c) < 8
    ∧ m_compilation_threshold c = 9
    ∧ 3 * Z.log2_up (3 + 1) = 6.
Proof.
  eexists _, _. split; [vm_compute; reflexivity|].
  split; [reflexivity|]. split; [vm_compute; reflexivity|].
  split; [reflexivity|]. split; [vm_compute; reflexivity|].
  split; reflexivity.
Defined.

(** With both sides emitted, [dsorting(3, 3, xs)] emits 14 clauses, more than
    [2 * 2^(3-1) = 8]. *)
Lemma dsorting_clause_count_counterexample :
  ∃ out s',
    psort_nw.dsorting 3 3 (ex_xs 3) (ex_nw psort_nw.GE_FULL) = Some (out, s')
    ∧ m_log (psort_nw.ctx (ex_nw psort_nw.GE_FULL)) = []
    ∧ Forall is_aux_clause (m_log (psort_nw.ctx s'))
    ∧ length (m_log (psort_nw.ctx s')) = 14%nat
    ∧ (2 * 2 ^ (3 - 1) < 14)%nat.
Proof.
  eexists _, _. split; [vm_compute; reflexivity|].
  split; [reflexivity|]. split.
  - vm_compute. repeat (constructor; [eexists; reflexivity|]). constructor.
  - split; [reflexivity|]. simpl. lia.
Defined.






Lemma watch_invariant_witness :
  watch_inv (add_watch 10 0 (ex_c7', ∅)).1
  ∧ (∃ cw', del_watch (index ex_x) 0 0 (ex_c7, ∅) = Some cw'
            ∧ watch_inv cw'.1 ∧ m_k cw'.1 = 2 ∧ 2 <= m_watch_sum cw'.1)
  ∧ (∃ t' c',
       assign_ineq spec_unique spec_normalize spec_prune ex_compile_arg ex_literal2expr
         10 true ex_t7' = Some (tt, t')
       ∧ m_ineqs t' !! 10 = Some c'
       ∧ watch_inv c' ∧ m_k c' = 2 ∧ 2 <= m_watch_sum c')
  ∧ (∃ t' c',
       assign_watch spec_unique spec_normalize spec_prune ex_compile_arg ex_literal2expr
         1 false (index ex_x) 0 ex_t7 = Some (true, t')
       ∧ m_ineqs t' !! 10 = Some c'
       ∧ watch_inv c' ∧ m_k c' = 2 ∧ 2 <= m_watch_sum c').
Proof.
  pose proof (watch_invariant spec_unique spec_normalize spec_prune ex_compile_arg
                ex_literal2expr 10 ex_c7' ∅) as (A1 & _ & A3 & _).
  pose proof (watch_invariant spec_unique spec_normalize spec_prune ex_compile_arg
                ex_literal2expr 10 ex_c7 ∅) as (_ & B2 & _ & B4).
  split; [|split; [|split]].
  - apply A1.
    + unfold watch_inv. vm_compute. split; [lia|]. split; reflexivity.
    + simpl. lia.
  - apply (B2 (index ex_x) 0%nat 0%nat).
    + unfold watch_inv. vm_compute. split; [lia|]. split; reflexivity.
    + unfold pos_coeffs. apply (bool_decide_unpack _). vm_compute. exact I.
    + simpl. lia.
    + reflexivity.
    + vm_compute. discriminate.
  - apply (A3 true ex_t7' ex_c7').
    + reflexivity.
    + reflexivity.
    + unfold distinct_vars. apply (bool_decide_unpack _). vm_compute. exact I.
    + vm_compute. discriminate.
  - apply (B4 1 false (index ex_x) 0%nat ex_t7 0%nat).
    + reflexivity.
    + reflexivity.
    + reflexivity.
    + unfold watch_inv. vm_compute. split; [lia|]. split; reflexivity.
    + unfold pos_coeffs. apply (bool_decide_unpack _). vm_compute. exact I.
    + unfold distinct_vars. apply (bool_decide_unpack _). vm_compute. exact I.
    + reflexivity.
    + vm_compute. discriminate.
Defined.

Lemma resolve_conflict_gate_witness :
  conflict_level (ex_ctx5 1) (m_args ex_c5) = get_base_level (ex_ctx5 1)
  ∧ resolve_conflict spec_unique spec_normalize spec_prune ex_compile_arg
      ex_literal2expr 10 (ex_t5 1)
    = Some (false, set_conflict_lvl 1 (ex_t5 1)).
Proof.
  split; [reflexivity|].
  pose proof (resolve_conflict_gate spec_unique spec_normalize spec_prune ex_compile_arg
                ex_literal2expr 10 ex_c5 (ex_t5 1)) as H.
  destruct H as (_ & H & _).
  - reflexivity.
  - apply H. right. reflexivity.
Defined.

(** The conflict level 1 is not below the level of [p] and is not the base
    level 0, and yet the analysis returns [false] and learns nothing: the
    walk down the trail stops on [p], which is not marked, at index 0. *)
Lemma resolve_conflict_gate_counterexample :
  m_ineqs (ex_t5 0) !! 10 = Some ex_c5
  ∧ conflict_level (ex_ctx5 0) (m_args ex_c5) = 1%nat
  ∧ get_assign_level (ex_ctx5 0) (var (m_lit ex_c5)) = 1%nat
  ∧ get_base_level (ex_ctx5 0) = 0%nat
  ∧ ∃ t',
      resolve_conflict spec_unique spec_normalize spec_prune ex_compile_arg
        ex_literal2expr 10 (ex_t5 0) = Some (false, t')
      ∧ m_log (th_ctx t') = []
      ∧ m_ineqs t' = m_ineqs (ex_t5 0).
Proof.
  split; [reflexivity|]. split; [reflexivity|]. split; [reflexivity|].
  split; [reflexivity|].
  eexists. split; [vm_compute; reflexivity|]. split; reflexivity.
Qed.

(** ** The further properties on the example data *)

Lemma inc_propagations_queue_witness :
  ∃ t' c',
    inc_propagations_n 10 12 (ex_t5 1) = Some (tt, t')
    ∧ m_ineqs t' !! 10 = Some c'
    ∧ (m_to_compile t' = m_to_compile (ex_t5 1)
       ∨ m_to_compile t' = m_to_compile (ex_t5 1) ++ [10]
         ∧ m_compiled ex_c5 = l_false ∧ m_compiled c' = l_undef).
Proof.
  destruct (inc_propagations_queue 10 12 (ex_t5 1) ex_c5) as (t' & c' & H1 & H2 & H3 & _).
  - reflexivity.
  - exists t', c'. split; [exact H1|]. split; [exact H2|exact H3].
Defined.

Lemma marks_round_trip_witness :
  (∃ t', set_mark 3 2 ex_marks = Some (tt, t')
         ∧ is_marked t' 3 = true ∧ m_conseq_index t' !! 3 = Some 2%nat
         ∧ m_marked t' = [1; 2; 3]
         ∧ (∀ u, 0 <= u → u ≠ 3 → is_marked t' u = is_marked ex_marks u)
         ∧ marked_inv t')
  ∧ (∃ t', unset_mark 1 ex_marks = Some (tt, t')
           ∧ is_marked t' 1 = false ∧ is_marked t' 2 = true)
  ∧ (∃ t', unset_marks ex_marks = Some (tt, t')
           ∧ m_marked t' = [] ∧ (∀ u, 0 <= u → is_marked t' u = false))
  ∧ is_marked ex_marks 1 = true ∧ is_marked ex_marks 2 = true.
Proof.
  assert (marked_inv ex_marks) as Hinv.
  { intros v [i Hi]. simpl in Hi.
    apply lookup_insert_Some in Hi as [[<- _]|[_ Hi]]; [set_solver|].
    apply lookup_insert_Some in Hi as [[<- _]|[_ Hi]]; [set_solver|].
    by rewrite lookup_empty in Hi. }
  destruct (marks_round_trip ex_marks 3 2) as (H1 & _ & H3);
    [lia|vm_compute; reflexivity|].
  destruct (marks_round_trip ex_marks 1 0) as (_ & H2 & _);
    [lia|vm_compute; reflexivity|].
  split; [|split; [|split]].
  - destruct H1 as (t' & R & A & B & C & D & E).
    exists t'. split; [exact R|]. split; [exact A|]. split; [exact B|].
    split; [exact C|]. split; [exact D|]. exact (E Hinv).
  - destruct H2 as (t' & R & A & _ & D).
    exists t'. split; [exact R|]. split; [exact A|].
    rewrite (D 2); [reflexivity|lia|lia].
  - apply H3; [exact Hinv|]. simpl. repeat constructor; lia.
  - split; reflexivity.
Defined.

Lemma ineq_negate_complement_witness :
  lit_true ex_sigma (m_lit ex_c5_neg) = negb (lit_true ex_sigma (m_lit ex_c5))
  ∧ (pb_holds ex_sigma (m_args ex_c5_neg) (m_k ex_c5_neg)
     ↔ ¬ pb_holds ex_sigma (m_args ex_c5) (m_k ex_c5)).
Proof.
  apply (ineq_negate_complement spec_normalize ex_sigma ex_c5 ex_c5_neg).
  - vm_compute. reflexivity.
  - reflexivity.
Defined.

Lemma ineq_negate_involutive_witness :
  ineq_negate spec_normalize ex_c5_neg = Some ex_c5.
Proof.
  apply (ineq_negate_involutive spec_normalize ex_c5 ex_c5_neg).
  - vm_compute. reflexivity.
  - reflexivity.
  - reflexivity.
  - vm_compute. reflexivity.
Defined.

Lemma assign_ineq_sound_witness :
  ∃ t' new,
    assign_ineq spec_unique spec_normalize spec_prune ex_compile_arg ex_literal2expr
      10 true ex_t7' = Some (tt, t')
    ∧ m_log (th_ctx t') = m_log (th_ctx ex_t7') ++ new
    ∧ Forall (event_holds ex_sigma) new.
Proof.
  pose proof (assign_ineq_sound spec_unique spec_normalize spec_prune ex_compile_arg
                ex_literal2expr ex_sigma 10 true ex_t7' ex_c7' ex_c7') as H.
  destruct H as (_ & H).
  - reflexivity.
  - reflexivity.
  - unfold distinct_vars. apply (bool_decide_unpack _). vm_compute. exact I.
  - unfold pos_coeffs. apply (bool_decide_unpack _). vm_compute. exact I.
  - unfold reified, pb_holds. intros _. vm_compute. discriminate.
  - apply H. vm_compute. discriminate.
Defined.

Lemma assign_watch_sound_witness :
  ∃ t' new,
    assign_watch spec_unique spec_normalize spec_prune ex_compile_arg ex_literal2expr
      1 false (index ex_x) 0 ex_t7 = Some (true, t')
    ∧ m_log (th_ctx t') = m_log (th_ctx ex_t7) ++ new
    ∧ Forall (event_holds ex_sigma) new.
Proof.
  pose proof (assign_watch_sound spec_unique spec_normalize spec_prune ex_compile_arg
                ex_literal2expr ex_sigma 1 false (index ex_x) 0 ex_t7 10 ex_c7 0%nat) as H.
  destruct H as (_ & H).
  - reflexivity.
  - reflexivity.
  - reflexivity.
  - unfold watch_inv. vm_compute. split; [lia|]. split; reflexivity.
  - unfold pos_coeffs. apply (bool_decide_unpack _). vm_compute. exact I.
  - unfold distinct_vars. apply (bool_decide_unpack _). vm_compute. exact I.
  - reflexivity.
  - reflexivity.
  - unfold reified, pb_holds. intros _. vm_compute. discriminate.
  - apply H. vm_compute. discriminate.
Defined.

Lemma split_spec_witness :
  ∃ even_ odd_,
    psort_nw.split 3 (ex_xs 5) = Some (even_, odd_)
    ∧ length even_ = psort_nw.ceil2 3 ∧ length odd_ = psort_nw.floor2 3
    ∧ (∀ i, (2 * i < 3)%nat → even_ !! i = ex_xs 5 !! (2 * i)%nat)
    ∧ (∀ i, (2 * i + 1 < 3)%nat → odd_ !! i = ex_xs 5 !! (2 * i + 1)%nat).
Proof.
  destruct (split_spec 3 (ex_xs 5)) as [_ H]. apply H. simpl. lia.
Defined.

Lemma interleave_length_witness :
  ∃ out s',
    psort_nw.interleave (ex_xs 2) (ex_xs 1) (ex_nw psort_nw.GE) = Some (out, s')
    ∧ aux_only (ex_nw psort_nw.GE) s'
    ∧ (length out = (length (ex_xs 2) + length (ex_xs 1))%nat
       ↔ (length (ex_xs 1) <= length (ex_xs 2) <= length (ex_xs 1) + 2)%nat).
Proof.
  destruct (interleave_length (ex_xs 2) (ex_xs 1) (ex_nw psort_nw.GE)) as [_ H].
  apply H. discriminate.
Defined.

Lemma dsmerge_returns_witness :
  ∃ out s',
    psort_nw.dsmerge 3 2 (ex_xs 2) 2 (ex_xs 2) (ex_nw psort_nw.EQ) = Some (out, s')
    ∧ length out = 3%nat ∧ aux_only (ex_nw psort_nw.EQ) s'.
Proof.
  apply (dsmerge_returns 3 2 (ex_xs 2) 2 (ex_xs 2) (ex_nw psort_nw.EQ)).
  - simpl. lia.
  - simpl. lia.
  - lia.
  - lia.
Defined.

Lemma merge_returns_witness :
  ∃ out s',
    psort_nw.merge 40 2 (ex_xs 2) 3 (ex_xs 3) (ex_nw psort_nw.GE) = Some (out, s')
    ∧ length out = (2 + 3)%nat ∧ aux_only (ex_nw psort_nw.GE) s'.
Proof.
  apply (merge_returns 40 2 (ex_xs 2) 3 (ex_xs 3) (ex_nw psort_nw.GE)).
  - simpl. lia.
  - simpl. lia.
  - lia.
Defined.

Lemma smerge_returns_witness :
  ∃ out s',
    psort_nw.smerge 40 3 2 (ex_xs 2) 3 (ex_xs 3) (ex_nw psort_nw.LE) = Some (out, s')
    ∧ length out = Nat.min (2 + 3) 3 ∧ aux_only (ex_nw psort_nw.LE) s'.
Proof.
  apply (smerge_returns 40 3 2 (ex_xs 2) 3 (ex_xs 3) (ex_nw psort_nw.LE)).
  - simpl. lia.
  - simpl. lia.
  - lia.
Defined.

Lemma sorting_returns_witness :
  ∃ out s',
    psort_nw.sorting 50 5 (ex_xs 5) (ex_nw psort_nw.GE) = Some (out, s')
    ∧ length out = 5%nat ∧ aux_only (ex_nw psort_nw.GE) s'.
Proof.
  apply (sorting_returns 50 5 (ex_xs 5) (ex_nw psort_nw.GE)).
  - simpl. lia.
  - lia.
Defined.

Lemma card_returns_witness :
  ∃ out s',
    psort_nw.card 50 2 5 (ex_xs 5) (ex_nw psort_nw.GE) = Some (out, s')
    ∧ length out = Nat.min 2 5 ∧ aux_only (ex_nw psort_nw.GE) s'.
Proof.
  apply (card_returns 50 2 5 (ex_xs 5) (ex_nw psort_nw.GE)).
  - lia.
  - simpl. lia.
  - lia.
Defined.

Lemma card_zero_diverges_witness :
  psort_nw.vc_card psort_nw.GE 1000 0 1 = None
  ∧ psort_nw.card 1000 0 1 (ex_xs 1) (ex_nw psort_nw.GE) = None.
Proof.
  apply (card_zero_diverges psort_nw.GE 1000 1 (ex_xs 1) (ex_nw psort_nw.GE)). lia.
Defined.

Lemma ge_returns_witness :
  ∃ l s',
    psort_nw.ge 50 false 2 5 (ex_xs 5) (ex_nw psort_nw.LE) = Some (l, s')
    ∧ aux_clauses_only (psort_nw.ctx (ex_nw psort_nw.LE)) (psort_nw.ctx s')
    ∧ ((5 < 2)%nat → l = false_literal ∧ s' = ex_nw psort_nw.LE)
    ∧ (2%nat = 0%nat → l = true_literal ∧ s' = ex_nw psort_nw.LE).
Proof.
  apply (ge_returns 50 false 2 5 (ex_xs 5) (ex_nw psort_nw.LE)).
  - simpl. lia.
  - lia.
Defined.

Lemma le_returns_witness :
  ∃ l s',
    psort_nw.le 50 true 3 5 (ex_xs 5) (ex_nw psort_nw.LE) = Some (l, s')
    ∧ aux_clauses_only (psort_nw.ctx (ex_nw psort_nw.LE)) (psort_nw.ctx s')
    ∧ ((5 <= 3)%nat → l = true_literal ∧ s' = ex_nw psort_nw.LE).
Proof.
  apply (le_returns 50 true 3 5 (ex_xs 5) (ex_nw psort_nw.LE)).
  - simpl. lia.
  - lia.
Defined.

Lemma process_antecedent_index_witness :
  ∃ t', process_antecedent ex_x 1 (ex_th ex_ctx6 ∅ 0) = Some (tt, t')
        ∧ lemma_inv t' ∧ marked_inv t'
        ∧ th_ctx t' = th_ctx (ex_th ex_ctx6 ∅ 0)
        ∧ m_ineqs t' = m_ineqs (ex_th ex_ctx6 ∅ 0)
        ∧ m_ineq_literals t' = m_ineq_literals (ex_th ex_ctx6 ∅ 0).
Proof.
  apply (process_antecedent_index ex_x 1 (ex_th ex_ctx6 ∅ 0)).
  - intros v i. simpl. rewrite lookup_empty, lookup_nil. split; [done|].
    by intros (a & Ha & _).
  - intros v Hv. simpl in Hv. rewrite lookup_empty in Hv. by destruct Hv.
Defined.

Lemma remove_from_lemma_index_witness :
  remove_from_lemma 3 ex_lemma3 = None
  ∧ ∃ t', remove_from_lemma 0 ex_lemma3 = Some (tt, t')
          ∧ lemma_inv t' ∧ marked_inv t'
          ∧ length (m_args (m_lemma t')) = 2%nat
          ∧ m_k (m_lemma t') = 2
          ∧ is_marked t' 1 = false
          ∧ m_args (m_lemma t') = [(ex_z, 2); (ex_y, 1)]
          ∧ m_conseq_index t' !! 3 = Some 0%nat.
Proof.
  assert (lemma_inv ex_lemma3) as Hinv.
  { unfold lemma_inv. simpl.
    apply (indexed_snoc _ [(ex_x, 1); (ex_y, 1)] ex_z 2); [|reflexivity].
    apply (indexed_snoc _ [(ex_x, 1)] ex_y 1); [|reflexivity].
    apply (indexed_snoc _ [] ex_x 1); [|reflexivity].
    intros v i. rewrite lookup_empty, lookup_nil. split; [done|].
    by intros (a & Ha & _). }
  assert (marked_inv ex_lemma3) as Hm.
  { intros v [i Hi]. simpl in Hi.
    apply lookup_insert_Some in Hi as [[<- _]|[_ Hi]]; [set_solver|].
    apply lookup_insert_Some in Hi as [[<- _]|[_ Hi]]; [set_solver|].
    apply lookup_insert_Some in Hi as [[<- _]|[_ Hi]]; [set_solver|].
    by rewrite lookup_empty in Hi. }
  destruct (remove_from_lemma_index 3 ex_lemma3) as [Hout _].
  destruct (remove_from_lemma_index 0 ex_lemma3) as [_ Hin].
  split; [apply Hout; simpl; lia|].
  destruct (Hin Hinv Hm) as (t' & R & A & B & C & D & E); [simpl; lia|].
  exists t'. split; [exact R|]. split; [exact A|]. split; [exact B|].
  split; [exact C|]. split; [exact D|]. split; [exact (E (ex_x, 1) eq_refl)|].
  assert (remove_from_lemma 0 ex_lemma3
          = Some (tt, set_num_marks 2
                        (set_conseq_index
                           (delete 1 (<[3 := 0%nat]> (m_conseq_index ex_lemma3)))
                           (set_lemma (ineq_set_args [(ex_z, 2); (ex_y, 1)]
                                         (m_lemma ex_lemma3)) ex_lemma3))))
    as R' by reflexivity.
  rewrite R' in R. injection R as <-. split; reflexivity.
Defined.

Lemma process_ineq_index_witness :
  ∃ t', process_ineq 10 null_literal 1 (ex_t6' 0) = Some (tt, t')
        ∧ lemma_inv t' ∧ marked_inv t'
        ∧ th_ctx t' = th_ctx (ex_t6' 0) ∧ m_ineqs t' = m_ineqs (ex_t6' 0).
Proof.
  pose proof (process_ineq_index 10 null_literal 1 (ex_t6' 0) ex_c5) as H.
  destruct H as [_ H].
  - reflexivity.
  - intros v i. simpl. rewrite lookup_empty, lookup_nil. split; [done|].
    by intros (a & Ha & _).
  - intros v Hv. simpl in Hv. rewrite lookup_empty in Hv. by destruct Hv.
  - apply H; vm_compute; discriminate.
Defined.

Lemma eq_spec_witness :
  psort_nw.eq 50 0 5 (ex_xs 5) (ex_nw psort_nw.GE) = None
  ∧ psort_nw.eq 50 5 5 (ex_xs 5) (ex_nw psort_nw.GE) = None
  ∧ ∃ l s', psort_nw.eq 50 2 5 (ex_xs 5) (ex_nw psort_nw.GE) = Some (l, s')
            ∧ psort_nw.m_t s' = psort_nw.EQ.
Proof.
  destruct (eq_spec 50 0 5 (ex_xs 5) (ex_nw psort_nw.GE)) as (_ & _ & H0);
    [simpl; lia|vm_compute; reflexivity|lia|].
  destruct (eq_spec 50 5 5 (ex_xs 5) (ex_nw psort_nw.GE)) as (_ & _ & H5);
    [simpl; lia|vm_compute; reflexivity|lia|].
  destruct (eq_spec 50 2 5 (ex_xs 5) (ex_nw psort_nw.GE)) as (_ & H2 & _);
    [simpl; lia|vm_compute; reflexivity|lia|].
  split; [apply H0; by left|]. split; [apply H5; by right|].
  destruct H2 as (l & s' & Hrun & Hm & _); [lia|]. by exists l, s'.
Defined.

Lemma compile_ineq_at_base_witness :
  compile_ineq 50 psort_nw.GE 10 ex_t7'
  = Some (tt, set_stats (th_stats.inc_compiles (m_stats ex_t7')) ex_t7').
Proof.
  pose proof (compile_ineq_at_base 50 psort_nw.GE 10 ex_t7' ex_c7') as H.
  cbv zeta in H. destruct H as (H & _).
  - reflexivity.
  - reflexivity.
  - apply H; [reflexivity|simpl; lia].
Defined.

Lemma compile_ineq_open_witness :
  ∃ t' r new,
    compile_ineq 50 psort_nw.GE 10 (ex_t5 0) = Some (tt, t')
    ∧ m_log (th_ctx t')
      = m_log (th_ctx (ex_t5 0)) ++ new
        ++ [ev_mk_clause [lit_neg (m_lit ex_c5); r] CLS_AUX;
            ev_mk_clause [lit_neg r; m_lit ex_c5] CLS_AUX]
    ∧ Forall is_aux_clause new
    ∧ m_ineqs t' = <[10 := ineq_set_compiled l_true ex_c5]> (m_ineqs (ex_t5 0))
    ∧ m_to_compile t' = m_to_compile (ex_t5 0) ∧ m_watch t' = m_watch (ex_t5 0).
Proof.
  apply (compile_ineq_open 50 psort_nw.GE 10 (ex_t5 0) ex_c5).
  - reflexivity.
  - intros [_ H]. vm_compute in H. discriminate.
  - simpl. lia.
Defined.

Lemma restart_eh_spec_witness :
  ∃ t', restart_eh 50 psort_nw.GE ex_queue = Some (tt, t')
        ∧ m_to_compile t' = [] ∧ only_compiled ex_queue t'.
Proof.
  apply (restart_eh_spec 50 psort_nw.GE ex_queue).
  intros cv Hcv. apply list_elem_of_singleton in Hcv as ->.
  exists ex_c5. split; [reflexivity|simpl; lia].
Defined.

Lemma push_pop_scope_witness :
  (push_scope_eh ;;; pop_scope_eh 1) (ex_t7, ex_sc) = Some (tt, (ex_t7, ex_sc))
  ∧ pop_scope_eh 0 (ex_t7, ex_sc) = None.
Proof.
  destruct (push_pop_scope ex_t7 ex_sc 0) as [H1 H2].
  - vm_compute. reflexivity.
  - vm_compute. reflexivity.
  - split; [exact H1|]. apply H2; [vm_compute; reflexivity|by left].
Defined.

Lemma pop_scope_undoes_stores_witness :
  ∃ sc1,
    push_scope_eh (ex_th ex_ctx0 ∅ 0, ex_sc) = Some (tt, (ex_th ex_ctx0 ∅ 0, sc1))
    ∧ pop_scope_eh 1 (stored [10; 11] [ex_c5; ex_c7'] (ex_th ex_ctx0 ∅ 0), sc1)
      = Some (tt, (ex_th ex_ctx0 ∅ 0, ex_sc)).
Proof.
  apply (pop_scope_undoes_stores (ex_th ex_ctx0 ∅ 0) ex_sc [10; 11] [ex_c5; ex_c7']).
  - vm_compute. reflexivity.
  - vm_compute. reflexivity.
  - apply (bool_decide_unpack _). vm_compute. exact I.
  - reflexivity.
  - intros v _. apply lookup_empty.
Defined.

Lemma unwatch_spec_witness :
  ∃ w', unwatch 10 ex_c7 (m_watch_sz ex_c7) 0 (m_watch ex_t7) = Some w'
        ∧ (∀ key, key ∉ watched_keys ex_c7 → w' !! key = m_watch ex_t7 !! key)
        ∧ (∀ key, key ∈ watched_keys ex_c7 →
             ∃ l l', m_watch ex_t7 !! key = Some l ∧ w' !! key = Some l'
                     ∧ (10 ∈ l → l ≡ₚ 10 :: l') ∧ (10 ∉ l → l' = l)).
Proof.
  destruct (unwatch_spec 10 ex_c7 (m_watch ex_t7)) as [_ H].
  - simpl. lia.
  - apply H.
    + apply (bool_decide_unpack _). vm_compute. exact I.
    + intros key Hkey. unfold watched_keys, watch_keys in Hkey. simpl in Hkey.
      repeat (apply elem_of_cons in Hkey as [->|Hkey]; [by eexists|]).
      by apply elem_of_nil in Hkey.
Defined.
